(** * Sudoku engine: placement validity, backtracking solvers, solution
      counters, generators and puzzle carvers.

    The repository ships the same engine three times:
    - [Core]   : sudoku-core.js   (object-literal module [SudokuCore]),
    - [Solver] : sudoku-solver.js (class [SudokuSolver]),
    - [Gen]    : the standalone ES-module generator script.

    A grid is a JavaScript array of nine arrays of nine numbers; it is
    modelled as a list of rows.  Every function that mutates the grid in
    place is modelled by explicit state passing: it takes the grid and
    returns the grid as the caller sees it afterwards.  Recursive searches
    take a fuel argument and return [None] when the fuel runs out. *)

From Stdlib Require Import ZArith Lia List Bool Arith Sorting.Sorted.
From stdpp Require Import base list strings gmap pretty.

Local Open Scope nat_scope.

(** ** Grids *)

Abbreviation Grid := (list (list Z)).

(** [grid[r][c]].  On a 9x9 grid with [r, c < 9] the read is always
    [Some v].  [None] stands for JavaScript's [undefined], which is never
    [===] to a number; a missing row would raise a TypeError in JavaScript,
    which no function below can trigger on a 9x9 grid. *)
Definition cell (g : Grid) (r c : nat) : option Z :=
  match g !! r with
  | Some row => row !! c
  | None => None
  end.

(** [grid[r][c] === num] *)
Definition cellIs (g : Grid) (r c : nat) (num : Z) : bool :=
  match cell g r c with
  | Some v => Z.eqb v num
  | None => false
  end.

(** [grid[r][c] = v].  Every write performed by the code below targets a
    cell that was just read, so it is in range; out of range the model
    leaves the grid alone. *)
Definition setCell (g : Grid) (r c : nat) (v : Z) : Grid :=
  match g !! r with
  | Some row => <[r := <[c := v]> row]> g
  | None => g
  end.

(** A 9x9 array of arrays. *)
Definition shape9 (g : Grid) : Prop :=
  length g = 9 ∧ Forall (λ row, length row = 9) g.

(** Entries are integers in 0..9, 0 meaning empty. *)
Definition entries (g : Grid) : Prop :=
  Forall (Forall (λ v, 0 ≤ v ≤ 9)%Z) g.

(** Two cell addresses share a row, a column or a 3x3 box. *)
Definition sameUnit (r c r' c' : nat) : Prop :=
  r = r' ∨ c = c' ∨ (r / 3 = r' / 3 ∧ c / 3 = c' / 3).

(** No digit repeats within any row, column or box. *)
Definition valid (g : Grid) : Prop :=
  ∀ r c r' c' v,
    cell g r c = Some v → cell g r' c' = Some v → v ≠ 0%Z →
    sameUnit r c r' c' → r = r' ∧ c = c'.

(** No empty cell. *)
Definition full (g : Grid) : Prop :=
  ∀ r c, r < 9 → c < 9 → ∃ v, cell g r c = Some v ∧ (1 ≤ v ≤ 9)%Z.

(** [s] is a complete valid filling of [g]. *)
Definition completion (g s : Grid) : Prop :=
  shape9 s ∧ full s ∧ valid s ∧
  ∀ r c v, cell g r c = Some v → v ≠ 0%Z → cell s r c = Some v.

(** The 81 cell addresses in row-major order: what the nested
    [for row] / [for col] loops visit. *)
Definition allCells : list (nat * nat) :=
  r ← seq 0 9; c ← seq 0 9; [(r, c)].

(** The digits tried by every [for (let num = 1; num <= 9; num++)]. *)
Definition digits : list Z := [1; 2; 3; 4; 5; 6; 7; 8; 9]%Z.

(** Number of empty cells, as counted by a double loop over the grid. *)
Definition empties (g : Grid) : nat :=
  length (List.filter (λ p : nat * nat, cellIs g p.1 p.2 0) allCells).

(** The digit appears in the row, in the column or in the 3x3 box of
    [(row, col)]. *)
Definition digitInUnits (g : Grid) (row col : nat) (digit : Z) : Prop :=
  (∃ x, x < 9 ∧ cell g row x = Some digit) ∨
  (∃ x, x < 9 ∧ cell g x col = Some digit) ∨
  (∃ r c, r < 9 ∧ c < 9 ∧ r / 3 = row / 3 ∧ c / 3 = col / 3 ∧
          cell g r c = Some digit).

(** No peer of [(row, col)], and not the cell itself, holds [digit]. *)
Definition safe (g : Grid) (row col : nat) (digit : Z) : Prop :=
  ∀ r c, r < 9 → c < 9 → sameUnit row col r c → cell g r c ≠ Some digit.

(** [n] is the number of distinct complete valid fillings of [g]: the
    length of any duplicate-free list of all of them. *)
Definition numCompletions (g : Grid) (n : nat) : Prop :=
  ∃ sols : list Grid,
    NoDup sols ∧ (∀ s, s ∈ sols ↔ completion g s) ∧ length sols = n.

(** [n] is the number of completions of [g] whose digit at [(r, c)] is
    one of [nums]. *)
Definition numWith (g : Grid) (r c : nat) (nums : list Z) (n : nat) : Prop :=
  ∃ sols : list Grid,
    NoDup sols ∧
    (∀ s, s ∈ sols ↔ completion g s ∧ ∃ d, d ∈ nums ∧ cell s r c = Some d) ∧
    length sols = n.

(** [g] has at least one completion. *)
Definition solvable (g : Grid) : Prop := ∃ s, completion g s.

(** The scan state either holds an empty cell or is still the initial
    one. *)
Definition scanInv (g : Grid) (st : option (nat * nat) * nat) : Prop :=
  match st.1 with
  | Some (r, c) => cell g r c = Some 0%Z
  | None => st.2 = 10
  end.

(** The same for the scans that carry the candidate list along. *)
Definition bestInv (g : Grid) (possibilitiesOf : Grid → nat → nat → list Z)
    (minPossibilities : nat) (best : option (nat * nat * list Z)) : Prop :=
  match best with
  | Some (r, c, poss) => cell g r c = Some 0%Z ∧ poss = possibilitiesOf g r c
  | None => minPossibilities = 10
  end.

(** What a solver call on [g] may answer: [true] with a completion of
    [g] in place, or [false] with [g] untouched and no completion at all. *)
Definition solved (g : Grid) (b : bool) (g' : Grid) : Prop :=
  if b then completion g g' else g' = g ∧ ¬ solvable g.

(** [p] has exactly one completion, and it is [f]. *)
Definition uniquePuzzle (p f : Grid) : Prop :=
  completion p f ∧ ∀ s, completion p s → s = f.

(** The state of a carver working on the full grid [f]: the puzzle [p] is
    [f] with some cells emptied and still has [f] as its only completion. *)
Definition carved (f p : Grid) : Prop :=
  shape9 p ∧
  (∀ r c v, cell p r c = Some v → v = 0%Z ∨ cell f r c = Some v) ∧
  (∀ s, completion p s → s = f).

(** In the carver of sudoku-core.js, a cell that the loop would not skip. *)
Definition live (p : Grid) (removedCells : gset (nat * nat)) (q : nat * nat) : bool :=
  negb (bool_decide (q ∈ removedCells) || cellIs p q.1 q.2 0).

(** How far the current pass over the shuffled cells is from its next
    attempt: the cells left in the pass when one of them is live, a full
    pass more otherwise. *)
Definition phase (p : Grid) (removedCells : gset (nat * nat))
    (cells : list (nat * nat)) (cellIndex : nat) : nat :=
  if existsb (live p removedCells) (drop cellIndex cells)
  then 81 - cellIndex else 81 - cellIndex + 82.

(** The loop invariant of that carver: the removed set is exactly the
    set of emptied cells. *)
Definition carving (f p : Grid) (removed : gset (nat * nat))
    (cells : list (nat * nat)) (cellIndex : nat) : Prop :=
  carved f p ∧ cells ≡ₚ allCells ∧ cellIndex ≤ 81 ∧
  size removed = empties p ∧
  (∀ q, q ∈ removed → cellIs p q.1 q.2 0 = true).

(** [(r, c)] is the cell an MRV scan must select: an empty cell with the
    fewest candidates, the first such cell in scan order. *)
Definition firstMin (g : Grid) (count : nat → nat → nat) (r c : nat) : Prop :=
  cell g r c = Some 0%Z ∧
  ∃ before after,
    allCells = before ++ (r, c) :: after ∧
    (∀ r' c', (r', c') ∈ before → cell g r' c' = Some 0%Z →
              count r c < count r' c') ∧
    (∀ r' c', (r', c') ∈ after → cell g r' c' = Some 0%Z →
              count r c ≤ count r' c').

(** [g] comes before [s]: at the first cell, in row-major order, where the
    two grids differ, [g] holds the smaller digit. *)
Definition precedes (g s : Grid) : Prop :=
  ∃ before r c after v w,
    allCells = before ++ (r, c) :: after ∧
    (∀ r' c', (r', c') ∈ before → cell g r' c' = cell s r' c') ∧
    cell g r c = Some v ∧ cell s r c = Some w ∧ (v < w)%Z.

(** The cells of row [k], of column [k] and of box [k] (boxes numbered
    row-major). *)
Definition rowCells (k : nat) : list (nat * nat) := map (λ c, (k, c)) (seq 0 9).

Definition colCells (k : nat) : list (nat * nat) := map (λ r, (r, k)) (seq 0 9).

Definition boxCells (k : nat) : list (nat * nat) :=
  map (λ i, (k / 3 * 3 + i / 3, k mod 3 * 3 + i mod 3)) (seq 0 9).

(** The content of a list of cells. *)
Definition readCells (g : Grid) (cells : list (nat * nat)) : list (option Z) :=
  map (λ q : nat * nat, cell g q.1 q.2) cells.

(** A grid is completely filled and valid: each row, each column and each
    box is a permutation of the digits 1..9. *)
Definition completeValid (g : Grid) : Prop :=
  shape9 g ∧
  ∀ k, k < 9 →
    readCells g (rowCells k) ≡ₚ map Some digits ∧
    readCells g (colCells k) ≡ₚ map Some digits ∧
    readCells g (boxCells k) ≡ₚ map Some digits.

(** State of a running MRV scan of the generator script after the cells
    [pre]: nothing found yet, or the first minimum of [pre]. *)
Definition scanned (g : Grid) (count : nat → nat → nat)
    (possibilitiesOf : Grid → nat → nat → list Z) (pre : list (nat * nat))
    (minPossibilities : nat) (best : option (nat * nat * list Z)) : Prop :=
  match best with
  | None =>
      minPossibilities = 10 ∧ ∀ r c, (r, c) ∈ pre → cell g r c ≠ Some 0%Z
  | Some (r, c, poss) =>
      minPossibilities = count r c ∧ poss = possibilitiesOf g r c ∧
      cell g r c = Some 0%Z ∧
      ∃ before after,
        pre = before ++ (r, c) :: after ∧
        (∀ r' c', (r', c') ∈ before → cell g r' c' = Some 0%Z →
                  count r c < count r' c') ∧
        (∀ r' c', (r', c') ∈ after → cell g r' c' = Some 0%Z →
                  count r c ≤ count r' c')
  end.

(** An entry of a pregenerated set: the solution is a complete valid grid
    and the only completion of the puzzle. *)
Definition goodPair (e : Grid * Grid) : Prop :=
  completeValid e.2 ∧ uniquePuzzle e.1 e.2.

(** Boolean checkers, used to evaluate the predicates on concrete grids. *)
Definition shape9b (g : Grid) : bool :=
  (length g =? 9) && forallb (λ row, length row =? 9) g.

Definition entriesb (g : Grid) : bool :=
  forallb (forallb (λ v, (0 <=? v)%Z && (v <=? 9)%Z)) g.

Definition sameUnitb (r c r' c' : nat) : bool :=
  (r =? r') || (c =? c') || ((r / 3 =? r' / 3) && (c / 3 =? c' / 3)).

Definition validb (g : Grid) : bool :=
  forallb (λ p : nat * nat,
    forallb (λ q : nat * nat,
      match cell g p.1 p.2, cell g q.1 q.2 with
      | Some v, Some w =>
          negb (Z.eqb v w) || Z.eqb v 0 ||
          negb (sameUnitb p.1 p.2 q.1 q.2) ||
          ((p.1 =? q.1) && (p.2 =? q.2))
      | _, _ => true
      end) allCells) allCells.

Definition fullb (g : Grid) : bool :=
  forallb (λ p : nat * nat,
    match cell g p.1 p.2 with
    | Some v => (1 <=? v)%Z && (v <=? 9)%Z
    | None => false
    end) allCells.

(** [s] is a complete valid filling of [g]. *)
Definition completionb (g s : Grid) : bool :=
  shape9b s && fullb s && validb s &&
  forallb (λ q : nat * nat,
    match cell g q.1 q.2 with
    | Some v => Z.eqb v 0 || cellIs s q.1 q.2 v
    | None => true
    end) allCells.

(** A list of nine distinct cell addresses in range that pairwise share a
    unit. *)
Definition unitOk (cells : list (nat * nat)) : bool :=
  (length cells =? 9) && bool_decide (NoDup cells) &&
  forallb (λ q : nat * nat,
    (q.1 <? 9) && (q.2 <? 9) &&
    forallb (λ q' : nat * nat, sameUnitb q.1 q.2 q'.1 q'.2) cells) cells.

(** ** Concrete grids used to evaluate the models *)

(** The solved grid of the specification's scenarios. *)
Definition canonical : Grid :=
  [[1; 2; 3; 4; 5; 6; 7; 8; 9];
   [4; 5; 6; 7; 8; 9; 1; 2; 3];
   [7; 8; 9; 1; 2; 3; 4; 5; 6];
   [2; 3; 4; 5; 6; 7; 8; 9; 1];
   [5; 6; 7; 8; 9; 1; 2; 3; 4];
   [8; 9; 1; 2; 3; 4; 5; 6; 7];
   [3; 4; 5; 6; 7; 8; 9; 1; 2];
   [6; 7; 8; 9; 1; 2; 3; 4; 5];
   [9; 1; 2; 3; 4; 5; 6; 7; 8]]%Z.

(** A valid grid without completion: cell (0,0) needs a 1, and column 0
    already holds one. *)
Definition deadEnd : Grid :=
  [[0; 2; 3; 4; 5; 6; 7; 8; 9];
   [4; 5; 6; 7; 8; 9; 1; 2; 3];
   [7; 8; 9; 1; 2; 3; 4; 5; 6];
   [1; 3; 4; 5; 6; 7; 8; 9; 0];
   [5; 6; 7; 8; 9; 1; 2; 3; 4];
   [8; 9; 0; 2; 3; 4; 5; 6; 7];
   [3; 4; 5; 6; 7; 8; 9; 1; 2];
   [6; 7; 8; 9; 1; 2; 3; 4; 5];
   [9; 1; 2; 3; 4; 5; 6; 7; 8]]%Z.

(** The canonical grid with cell (0,0) and the last two rows emptied:
    (0,0) has one candidate, every cell of rows 7 and 8 has two or
    three. *)
Definition twoRowsOpen : Grid :=
  [[0; 2; 3; 4; 5; 6; 7; 8; 9];
   [4; 5; 6; 7; 8; 9; 1; 2; 3];
   [7; 8; 9; 1; 2; 3; 4; 5; 6];
   [2; 3; 4; 5; 6; 7; 8; 9; 1];
   [5; 6; 7; 8; 9; 1; 2; 3; 4];
   [8; 9; 1; 2; 3; 4; 5; 6; 7];
   [3; 4; 5; 6; 7; 8; 9; 1; 2];
   [0; 0; 0; 0; 0; 0; 0; 0; 0];
   [0; 0; 0; 0; 0; 0; 0; 0; 0]]%Z.

(** A grid without empty cell that breaks the rules everywhere. *)
Definition allFives : Grid := replicate 9 (replicate 9 5%Z).

(** The eight complete valid fillings of [twoRowsOpen]: the first seven
    rows are those of the canonical grid, the last two are filled in one
    of eight ways. *)
Definition twoRowsOpenCompletions : list Grid :=
  map (λ rows : list Z * list Z, take 7 canonical ++ [rows.1; rows.2])
    [([6; 1; 2; 9; 4; 5; 3; 7; 8], [9; 7; 8; 3; 1; 2; 6; 4; 5]);
     ([6; 1; 8; 9; 4; 2; 3; 7; 5], [9; 7; 2; 3; 1; 5; 6; 4; 8]);
     ([6; 7; 2; 9; 1; 5; 3; 4; 8], [9; 1; 8; 3; 4; 2; 6; 7; 5]);
     ([6; 7; 8; 9; 1; 2; 3; 4; 5], [9; 1; 2; 3; 4; 5; 6; 7; 8]);
     ([9; 1; 2; 3; 4; 5; 6; 7; 8], [6; 7; 8; 9; 1; 2; 3; 4; 5]);
     ([9; 1; 8; 3; 4; 2; 6; 7; 5], [6; 7; 2; 9; 1; 5; 3; 4; 8]);
     ([9; 7; 2; 3; 1; 5; 6; 4; 8], [6; 1; 8; 9; 4; 2; 3; 7; 5]);
     ([9; 7; 8; 3; 1; 2; 6; 4; 5], [6; 1; 2; 9; 4; 5; 3; 7; 8])]%Z.

(** A valid grid without completion on which every solver has to go
    back: the first three cells of row 0 are open to 1 and 2 only (row 0
    holds 4..9, the box holds 3), so each solver places digits in two of
    them before the third one is left without candidate. *)
Definition hardFail : Grid :=
  [[0; 0; 0; 4; 5; 6; 7; 8; 9];
   [3; 0; 0; 0; 0; 0; 0; 0; 0];
   [0; 0; 0; 0; 0; 0; 0; 0; 0];
   [0; 0; 0; 0; 0; 0; 0; 0; 0];
   [0; 0; 0; 0; 0; 0; 0; 0; 0];
   [0; 0; 0; 0; 0; 0; 0; 0; 0];
   [0; 0; 0; 0; 0; 0; 0; 0; 0];
   [0; 0; 0; 0; 0; 0; 0; 0; 0];
   [0; 0; 0; 0; 0; 0; 0; 0; 0]]%Z.

(** ** Shared control-flow and library models *)

(** [for (let x = 0; x < n; x++) if (f x) return false;] falls through
    exactly when no index below [n] satisfies [f]. *)
Definition anyBelow (n : nat) (f : nat → bool) : bool := existsb f (seq 0 n).

(** The random source.  A state of the source is the sequence of raw
    values that the coming calls of [Math.random] will produce;
    [Math.floor(Math.random() * n)] consumes one of them and yields an
    index below [n].  Every sequence of outcomes is produced by some
    state, so a statement for all states covers every outcome. *)
Abbreviation Rng := (nat → nat).

Definition advance (s : Rng) : Rng := λ k, s (S k).

Definition randBelow (n : nat) (s : Rng) : nat * Rng := (s 0 mod n, advance s).

(** A random source that always draws 0. *)
Definition zeroRng : Rng := λ _, 0.

(** [[a[i], a[j]] = [a[j], a[i]]] *)
Definition swap {A} (a : list A) (i j : nat) : list A :=
  match a !! i, a !! j with
  | Some x, Some y => <[j := x]> (<[i := y]> a)
  | _, _ => a
  end.

(** Fisher-Yates, as written out in every module:
    [for (let i = a.length - 1; i > 0; i--) {
       const j = Math.floor(Math.random() * (i + 1)); swap a[i], a[j] }] *)
Fixpoint shuffleFrom {A} (i : nat) (a : list A) (s : Rng) : list A * Rng :=
  match i with
  | 0 => (a, s)
  | S i' =>
      let (j, s') := randBelow (i + 1) s in
      shuffleFrom i' (swap a i j) s'
  end.

Definition shuffle {A} (a : list A) (s : Rng) : list A * Rng :=
  shuffleFrom (length a - 1) a s.

(** [Array.prototype.sort] with comparator [(a, b) => key a - key b].
    The sort is stable (ECMAScript 2019), so its result is the one of any
    stable sort; insertion sort is used here. *)
Fixpoint insertSorted {A} (key : A → nat) (x : A) (l : list A) : list A :=
  match l with
  | [] => [x]
  | y :: l' =>
      if key x <=? key y then x :: y :: l' else y :: insertSorted key x l'
  end.

Definition stableSort {A} (key : A → nat) (l : list A) : list A :=
  foldr (insertSorted key) [] l.

(** The result of a solver that has no random source, paired with a
    source that was left alone. *)
Definition withSource (s : Rng) (res : option (bool * Grid))
    : option (bool * Grid * Rng) :=
  match res with
  | Some (b, g) => Some (b, g, s)
  | None => None
  end.

(** [JSON.parse(JSON.stringify(grid))] and [cloneGrid]: a fresh array with
    the same content.  Grids are values here, so the copy is the value and
    the original stays with the caller. *)
Definition copyGrid (g : Grid) : Grid := g.

(** Property lookup [obj[key]] on an object literal: an own property, a
    property inherited from [Object.prototype] (a function or object that
    has none of the configuration fields), or [undefined]. *)
Inductive Lookup (A : Type) : Type :=
  | Own (a : A)
  | Inherited
  | Undefined.
Arguments Own {A} a.
Arguments Inherited {A}.
Arguments Undefined {A}.

Definition objectPrototypeNames : list string :=
  ["constructor"; "__proto__"; "hasOwnProperty"; "isPrototypeOf";
   "propertyIsEnumerable"; "toLocaleString"; "toString"; "valueOf";
   "__defineGetter__"; "__defineSetter__"; "__lookupGetter__";
   "__lookupSetter__"]%string.

Fixpoint ownProp {A} (obj : list (string * A)) (key : string) : option A :=
  match obj with
  | [] => None
  | (k, a) :: rest => if String.eqb k key then Some a else ownProp rest key
  end.

Definition getProp {A} (obj : list (string * A)) (key : string) : Lookup A :=
  match ownProp obj key with
  | Some a => Own a
  | None =>
      if bool_decide (key ∈ objectPrototypeNames) then Inherited else Undefined
  end.

(** Assignment [obj[key] = value] on an object: an existing key keeps its
    place, a new key is added at the end. *)
Fixpoint setProp {A} (obj : list (string * A)) (key : string) (a : A)
    : list (string * A) :=
  match obj with
  | [] => [(key, a)]
  | (k, b) :: rest =>
      if String.eqb k key then (k, a) :: rest else (k, b) :: setProp rest key a
  end.

(** [config.field]: a number for a configuration record, [undefined]
    ([None]) for an inherited property.  Comparisons and arithmetic with
    [undefined] give [false] and [NaN]. *)
Definition field {A B} (f : A → B) (config : Lookup A) : option B :=
  match config with
  | Own a => Some (f a)
  | _ => None
  end.

(** [n < x] where [x] may be [undefined] or [NaN]. *)
Definition ltOpt (n : nat) (x : option nat) : bool :=
  match x with
  | Some m => n <? m
  | None => false
  end.

(** [x <= 0] where [x] may be [undefined] or [NaN]. *)
Definition leZero (x : option nat) : bool :=
  match x with
  | Some m => m =? 0
  | None => false
  end.

(** The difficulty tags of the three configuration tables. *)
Definition difficultyTags : list string :=
  ["easy"; "medium"; "hard"; "expert"; "master"]%string.

Inductive JsError : Type :=
  | TypeError            (* destructuring [undefined] *)
  | UnknownDifficulty    (* [new Error] raised for an unknown difficulty *)
  | GenerationFailed.    (* [new Error] raised after 50 failed attempts *)

Inductive Outcome (A : Type) : Type :=
  | Returned (a : A)
  | Threw (e : JsError).
Arguments Returned {A} a.
Arguments Threw {A} e.

(** The grid [Array(9).fill().map(() => Array(9).fill(0))]. *)
Definition emptyGrid : Grid := replicate 9 (replicate 9 0%Z).

(** Number of filled cells, [grid.flat().filter(cell => cell !== 0).length]. *)
Definition clues (g : Grid) : nat :=
  length (filter (λ v, v ≠ 0%Z) (concat g)).

(** ** sudoku-core.js *)

Module Core.

Record Clues := { minClues : nat; maxClues : nat }.

Definition difficultyConfig : list (string * Clues) :=
  [("easy", {| minClues := 36; maxClues := 45 |});
   ("medium", {| minClues := 31; maxClues := 35 |});
   ("hard", {| minClues := 26; maxClues := 30 |});
   ("expert", {| minClues := 22; maxClues := 25 |});
   ("master", {| minClues := 17; maxClues := 21 |})]%string.

(** [isValidPlacement]: row scan, column scan, then the nested 3x3 box
    scan, each returning [false] at the first hit. *)
Definition isValidPlacement (grid : Grid) (row col : nat) (num : Z) : bool :=
  if anyBelow 9 (λ x, cellIs grid row x num) then false
  else if anyBelow 9 (λ x, cellIs grid x col num) then false
  else
    let startRow := row / 3 * 3 in
    let startCol := col / 3 * 3 in
    if anyBelow 3 (λ i, anyBelow 3 (λ j,
         cellIs grid (startRow + i) (startCol + j) num))
    then false else true.

(** The [for num] loop shared by [solveGrid] and [solveGridWithMRV]:
    place each valid digit, recurse, undo on failure.  [rec] is the
    recursive call; the grid it hands back is the one the undo writes
    to. *)
Fixpoint tryDigits (rec : Grid → option (bool * Grid)) (row col : nat)
    (nums : list Z) (grid : Grid) : option (bool * Grid) :=
  match nums with
  | [] => Some (false, grid)
  | num :: rest =>
      if isValidPlacement grid row col num then
        match rec (setCell grid row col num) with
        | None => None
        | Some (true, grid') => Some (true, grid')
        | Some (false, grid') =>
            tryDigits rec row col rest (setCell grid' row col 0)
        end
      else tryDigits rec row col rest grid
  end.

(** The first cell, in row-major order, with [grid[row][col] === 0]. *)
Definition firstEmpty (grid : Grid) : option (nat * nat) :=
  List.find (λ p : nat * nat, cellIs grid p.1 p.2 0) allCells.

(** [solveGrid]: plain row-major backtracking. *)
Fixpoint solveGrid (fuel : nat) (grid : Grid) : option (bool * Grid) :=
  match fuel with
  | 0 => None
  | S fuel' =>
      match firstEmpty grid with
      | None => Some (true, grid)
      | Some (row, col) => tryDigits (solveGrid fuel') row col digits grid
      end
  end.

(** [possibleNums] of a cell: how many digits pass [isValidPlacement]. *)
Definition countPossible (grid : Grid) (row col : nat) : nat :=
  length (List.filter (isValidPlacement grid row col) digits).

(** The [emptyCells] array of [solveGridWithMRV], in scan order. *)
Definition emptyCells (grid : Grid) : list (nat * nat * nat) :=
  omap (λ p : nat * nat,
          if cellIs grid p.1 p.2 0
          then Some (p.1, p.2, countPossible grid p.1 p.2)
          else None) allCells.

(** [emptyCells.sort(...)] followed by [emptyCells[0]]. *)
Definition mrvCell (grid : Grid) : option (nat * nat) :=
  match stableSort (λ e : nat * nat * nat, e.2) (emptyCells grid) with
  | [] => None
  | e :: _ => Some (e.1.1, e.1.2)
  end.

(** [solveGridWithMRV] *)
Fixpoint solveGridWithMRV (fuel : nat) (grid : Grid) : option (bool * Grid) :=
  match fuel with
  | 0 => None
  | S fuel' =>
      match mrvCell grid with
      | None => Some (true, grid)
      | Some (row, col) =>
          tryDigits (solveGridWithMRV fuel') row col digits grid
      end
  end.

(** Fill the cells of diagonal box [box] in row-major order with
    [nums[index++]]. *)
Definition fillBox (box : nat) (nums : list Z) (grid : Grid) : Grid :=
  foldl (λ g index,
           match nums !! index with
           | Some v => setCell g (box * 3 + index / 3) (box * 3 + index mod 3) v
           | None => g
           end) grid (seq 0 9).

(** [generateFullSudoku]: three shuffled diagonal boxes, then
    [solveGrid(grid)], whose verdict is discarded. *)
Definition generateFullSudoku (fuel : nat) (s : Rng) : option (Grid * Rng) :=
  let '(nums0, s0) := shuffle digits s in
  let grid0 := fillBox 0 nums0 emptyGrid in
  let '(nums1, s1) := shuffle digits s0 in
  let grid1 := fillBox 1 nums1 grid0 in
  let '(nums2, s2) := shuffle digits s1 in
  let grid2 := fillBox 2 nums2 grid1 in
  match solveGrid fuel grid2 with
  | None => None
  | Some (_, grid) => Some (grid, s2)
  end.

(** The inner [for j] loop of the cell selection in [countSolutionsFast].
    The state is [(row, col)] ([None] for -1) and [minPossibilities].
    A cell with exactly one candidate is taken and ends the inner loop
    without touching [minPossibilities]. *)
Fixpoint scanRow (grid : Grid) (i : nat) (js : list nat)
    (st : option (nat * nat) * nat) : option (nat * nat) * nat :=
  match js with
  | [] => st
  | j :: rest =>
      if cellIs grid i j 0 then
        let possibilities := countPossible grid i j in
        if possibilities =? 1 then (Some (i, j), st.2)
        else if possibilities <? st.2
             then scanRow grid i rest (Some (i, j), possibilities)
             else scanRow grid i rest st
      else scanRow grid i rest st
  end.

(** The outer [for i] loop, with its
    [if (row !== -1 && minPossibilities === 1) break]. *)
Fixpoint scanRows (grid : Grid) (rows : list nat)
    (st : option (nat * nat) * nat) : option (nat * nat) * nat :=
  match rows with
  | [] => st
  | i :: rest =>
      let st' := scanRow grid i (seq 0 9) st in
      if bool_decide (is_Some st'.1) && (st'.2 =? 1) then st'
      else scanRows grid rest st'
  end.

Definition selectCell (grid : Grid) : option (nat * nat) :=
  (scanRows grid (seq 0 9) (None, 10)).1.

(** The [for num] loop of [countSolutionsFast]; [count] is
    [solutionCounter.count]. *)
Fixpoint countDigits (rec : Grid → nat → option (Grid * nat)) (row col : nat)
    (nums : list Z) (grid : Grid) (count : nat) : option (Grid * nat) :=
  match nums with
  | [] => Some (grid, count)
  | num :: rest =>
      if isValidPlacement grid row col num then
        match rec (setCell grid row col num) count with
        | None => None
        | Some (grid', count') =>
            let grid'' := setCell grid' row col 0 in
            if 2 <=? count' then Some (grid'', count')
            else countDigits rec row col rest grid'' count'
        end
      else countDigits rec row col rest grid count
  end.

(** [countSolutionsFast(grid, solutionCounter)] *)
Fixpoint countSolutionsFast (fuel : nat) (grid : Grid) (count : nat)
    : option (Grid * nat) :=
  match fuel with
  | 0 => None
  | S fuel' =>
      if 2 <=? count then Some (grid, count)
      else
        match selectCell grid with
        | None => Some (grid, count + 1)
        | Some (row, col) =>
            countDigits (countSolutionsFast fuel') row col digits grid count
        end
  end.

(** [hasUniqueSolution]: counts on a copy; the result pairs the caller's
    grid with the verdict. *)
Definition hasUniqueSolution (fuel : nat) (grid : Grid) : option (Grid * bool) :=
  let gridCopy := copyGrid grid in
  match countSolutionsFast fuel gridCopy 0 with
  | None => None
  | Some (_, count) => Some (grid, count =? 1)
  end.

(** The [while] loop of [removeNumbers].  [removedCells] is the [Set] of
    cell ids, [cells] the shuffled [allCells] array. *)
Fixpoint carveLoop (loopFuel searchFuel : nat) (puzzle : Grid)
    (cellsToRemove : option nat) (removedCells : gset (nat * nat))
    (cells : list (nat * nat)) (attempts cellIndex : nat) (s : Rng)
    : option (Grid * Rng) :=
  match loopFuel with
  | 0 => None
  | S loopFuel' =>
      if ltOpt (size removedCells) cellsToRemove && (attempts <? 1000) then
        let '(cells, cellIndex, s) :=
          if length cells <=? cellIndex
          then let (cells', s') := shuffle cells s in (cells', 0, s')
          else (cells, cellIndex, s) in
        match cells !! cellIndex with
        | None => None
        | Some (row, col) =>
            let cellIndex := cellIndex + 1 in
            if bool_decide ((row, col) ∈ removedCells) || cellIs puzzle row col 0
            then carveLoop loopFuel' searchFuel puzzle cellsToRemove
                   removedCells cells attempts cellIndex s
            else
              match cell puzzle row col with
              | None => None
              | Some tempValue =>
                  match hasUniqueSolution searchFuel (setCell puzzle row col 0) with
                  | None => None
                  | Some (puzzle', true) =>
                      carveLoop loopFuel' searchFuel puzzle' cellsToRemove
                        ({[ (row, col) ]} ∪ removedCells) cells 0 cellIndex s
                  | Some (puzzle', false) =>
                      carveLoop loopFuel' searchFuel
                        (setCell puzzle' row col tempValue) cellsToRemove
                        removedCells cells (attempts + 1) cellIndex s
                  end
              end
        end
      else Some (puzzle, s)
  end.

(** [removeNumbers(fullGrid, difficulty)].  Destructuring an [undefined]
    configuration throws; an inherited property destructures to two
    [undefined] fields, so [cellsToRemove] is [NaN]. *)
Definition removeNumbers (loopFuel searchFuel : nat) (fullGrid : Grid)
    (difficulty : string) (s : Rng) : option (Outcome (Grid * Rng)) :=
  let puzzle := copyGrid fullGrid in
  match getProp difficultyConfig difficulty with
  | Undefined => Some (Threw TypeError)
  | config =>
      let cellsToRemove :=
        match field minClues config, field maxClues config with
        | Some lo, Some hi => Some (81 - ((randBelow (hi - lo + 1) s).1 + lo))
        | _, _ => None
        end in
      let s := advance s in
      let (cells, s) := shuffle allCells s in
      match carveLoop loopFuel searchFuel puzzle cellsToRemove ∅ cells 0 0 s with
      | None => None
      | Some r => Some (Returned r)
      end
  end.

(** [generateSudokuPuzzle(difficulty)]: a full grid, then the carver on
    it.  The carver works on a copy, so [solution] is the full grid as
    generated; an exception of the carver is not caught. *)
Definition generateSudokuPuzzle (loopFuel searchFuel : nat) (difficulty : string)
    (s : Rng) : option (Outcome (Grid * Grid * Rng)) :=
  match generateFullSudoku searchFuel s with
  | None => None
  | Some (solution, s) =>
      match removeNumbers loopFuel searchFuel solution difficulty s with
      | None => None
      | Some (Threw e) => Some (Threw e)
      | Some (Returned (puzzle, s)) => Some (Returned (puzzle, solution, s))
      end
  end.

(** The [Logger] object.  Its state is [enabled] and [currentLevel]; the
    table [levels] is constant.  [currentLevel] is [None] when it holds a
    value that is not a number, which [setLevel] can store; every [<=]
    against it is then false. *)
Record Logger := { enabled : bool; currentLevel : option nat }.

Definition levels : list (string * nat) :=
  [("debug", 0); ("info", 1); ("warn", 2); ("error", 3)]%string.

(** The object literal: enabled, at level 1. *)
Definition initialLogger : Logger := {| enabled := true; currentLevel := Some 1 |}.

(** [setLevel(level)]:
    [this.currentLevel = this.levels[level] !== undefined
       ? this.levels[level] : this.currentLevel].
    A name inherited from [Object.prototype] is not [undefined]: the
    function or object found there becomes the current level. *)
Definition setLevel (level : string) (this : Logger) : Logger :=
  match getProp levels level with
  | Own n => {| enabled := enabled this; currentLevel := Some n |}
  | Inherited => {| enabled := enabled this; currentLevel := None |}
  | Undefined => this
  end.

(** The console: the calls made so far, oldest first, each with the
    method called and its arguments. *)
Inductive ConsoleMethod : Type :=
  | ConsoleDebug
  | ConsoleInfo
  | ConsoleWarn
  | ConsoleError.

Inductive ConsoleArg : Type :=
  | Text (text : string)
  | Caught (e : JsError).

Abbreviation Console := (list (ConsoleMethod * list ConsoleArg)).

(** [this.enabled && this.currentLevel <= this.levels.<name>] *)
Definition passes (this : Logger) (level : nat) : bool :=
  enabled this &&
  match currentLevel this with
  | Some current => current <=? level
  | None => false
  end.

(** [debug(message)] *)
Definition debug (message : string) (this : Logger) (out : Console) : Console :=
  if passes this 0
  then out ++ [(ConsoleDebug, [Text "[SudokuCore DEBUG]"; Text message])]
  else out.

(** [info(message)] *)
Definition info (message : string) (this : Logger) (out : Console) : Console :=
  if passes this 1
  then out ++ [(ConsoleInfo, [Text "[SudokuCore INFO]"; Text message])]
  else out.

(** [warn(message)] *)
Definition warn (message : string) (this : Logger) (out : Console) : Console :=
  if passes this 2
  then out ++ [(ConsoleWarn, [Text "[SudokuCore WARNING]"; Text message])]
  else out.

(** [error(message, error)]; the second argument is the caught error, or
    [None] when it is omitted. *)
Definition error (message : string) (error : option JsError) (this : Logger)
    (out : Console) : Console :=
  if passes this 3
  then
    let out := out ++ [(ConsoleError, [Text "[SudokuCore ERROR]"; Text message])] in
    match error with
    | Some e => out ++ [(ConsoleError, [Caught e])]
    | None => out
    end
  else out.

(** The module-level object [generatedPuzzles], as the module creates it. *)
Definition generatedPuzzles : list (string * list (Grid * Grid)) :=
  [("easy", []); ("medium", []); ("hard", []); ("expert", []); ("master", [])]%string.

(** One round of the inner loop of [preGeneratePuzzles]:
    [try { generate, push, Logger.debug } catch (error) { Logger.error }].
    The call of [generateSudokuPuzzle] is written out, so that the random
    source reached when [removeNumbers] throws is at hand: the TypeError
    comes before [removeNumbers] draws anything.  The state is
    [generatedPuzzles], the console and the random source. *)
Definition generateRound (loopFuel searchFuel i : nat) (difficulty : string)
    (logger : Logger) (generated : list (string * list (Grid * Grid)))
    (out : Console) (s : Rng)
    : option (list (string * list (Grid * Grid)) * Console * Rng) :=
  let failed := ("生成第" +:+ pretty (i + 1) +:+ "个" +:+ difficulty
                 +:+ "难度谜题时出错")%string in
  match generateFullSudoku searchFuel s with
  | None => None
  | Some (solution, s) =>
      match removeNumbers loopFuel searchFuel solution difficulty s with
      | None => None
      | Some (Threw e) => Some (generated, error failed (Some e) logger out, s)
      | Some (Returned (puzzle, s)) =>
          match ownProp generated difficulty with
          | None => Some (generated, error failed (Some TypeError) logger out, s)
          | Some entries =>
              Some (setProp generated difficulty (entries ++ [(puzzle, solution)]),
                    debug ("成功生成第" +:+ pretty (i + 1) +:+ "个" +:+ difficulty
                           +:+ "难度谜题") logger out,
                    s)
          end
      end
  end.

(** [for (let i = 0; i < count; i++)]; [remaining] is [count - i]. *)
Fixpoint generateRounds (loopFuel searchFuel remaining i : nat)
    (difficulty : string) (logger : Logger)
    (generated : list (string * list (Grid * Grid))) (out : Console) (s : Rng)
    : option (list (string * list (Grid * Grid)) * Console * Rng) :=
  match remaining with
  | 0 => Some (generated, out, s)
  | S remaining' =>
      match generateRound loopFuel searchFuel i difficulty logger generated out s with
      | None => None
      | Some (generated, out, s) =>
          generateRounds loopFuel searchFuel remaining' (i + 1) difficulty logger
            generated out s
      end
  end.

(** [for (const difficulty of Object.keys(difficultyConfig))] *)
Fixpoint generateTags (loopFuel searchFuel count : nat) (keys : list string)
    (logger : Logger) (generated : list (string * list (Grid * Grid)))
    (out : Console) (s : Rng)
    : option (list (string * list (Grid * Grid)) * Console * Rng) :=
  match keys with
  | [] => Some (generated, out, s)
  | difficulty :: rest =>
      let generated := setProp generated difficulty [] in
      let out := info ("生成 " +:+ difficulty +:+ " 难度的谜题...") logger out in
      match generateRounds loopFuel searchFuel count 0 difficulty logger
              generated out s with
      | None => None
      | Some (generated, out, s) =>
          generateTags loopFuel searchFuel count rest logger generated out s
      end
  end.

(** [preGeneratePuzzles(count)] *)
Definition preGeneratePuzzles (loopFuel searchFuel count : nat) (logger : Logger)
    (generated : list (string * list (Grid * Grid))) (out : Console) (s : Rng)
    : option (list (string * list (Grid * Grid)) * Console * Rng) :=
  let out := info "开始预生成数独谜题..." logger out in
  match generateTags loopFuel searchFuel count (map fst difficultyConfig) logger
          generated out s with
  | None => None
  | Some (generated, out, s) =>
      Some (generated, info "数独谜题预生成完成！" logger out, s)
  end.

End Core.

(** ** sudoku-solver.js *)

Module Solver.

Record Level := { removeCount : nat; minCount : nat }.

Definition medium : Level := {| removeCount := 40; minCount := 35 |}.

Definition difficultyLevels : list (string * Level) :=
  [("easy", {| removeCount := 30; minCount := 45 |});
   ("medium", medium);
   ("hard", {| removeCount := 50; minCount := 25 |});
   ("expert", {| removeCount := 55; minCount := 20 |});
   ("master", {| removeCount := 60; minCount := 17 |})]%string.

(** [isValidPlacement]: the same three scans, the box scan indexing
    [grid[i + startRow][j + startCol]]. *)
Definition isValidPlacement (grid : Grid) (row col : nat) (num : Z) : bool :=
  if anyBelow 9 (λ x, cellIs grid row x num) then false
  else if anyBelow 9 (λ x, cellIs grid x col num) then false
  else
    let startRow := row / 3 * 3 in
    let startCol := col / 3 * 3 in
    if anyBelow 3 (λ i, anyBelow 3 (λ j,
         cellIs grid (i + startRow) (j + startCol) num))
    then false else true.

(** [isPuzzleComplete] *)
Definition isPuzzleComplete (grid : Grid) : bool :=
  negb (anyBelow 9 (λ row, anyBelow 9 (λ col, cellIs grid row col 0))).

(** The [possibilities] array of a cell. *)
Definition possibilitiesOf (grid : Grid) (row col : nat) : list Z :=
  List.filter (isValidPlacement grid row col) digits.

(** The [emptyCells] array, in scan order. *)
Definition emptyCells (grid : Grid) : list (nat * nat * list Z) :=
  omap (λ p : nat * nat,
          if cellIs grid p.1 p.2 0
          then Some (p.1, p.2, possibilitiesOf grid p.1 p.2)
          else None) allCells.

(** [emptyCells.sort(...)] followed by [emptyCells[0]]. *)
Definition mrvCell (grid : Grid) : option (nat * nat * list Z) :=
  head (stableSort (λ e : nat * nat * list Z, length e.2) (emptyCells grid)).

(** [for (const num of possibilities)] of [solveGrid]. *)
Fixpoint tryList (rec : Grid → Rng → option (bool * Grid * Rng))
    (row col : nat) (nums : list Z) (grid : Grid) (s : Rng)
    : option (bool * Grid * Rng) :=
  match nums with
  | [] => Some (false, grid, s)
  | num :: rest =>
      if isValidPlacement grid row col num then
        match rec (setCell grid row col num) s with
        | None => None
        | Some (true, grid', s') => Some (true, grid', s')
        | Some (false, grid', s') =>
            tryList rec row col rest (setCell grid' row col 0) s'
        end
      else tryList rec row col rest grid s
  end.

(** [solveGrid(grid, randomize)] *)
Fixpoint solveGrid (fuel : nat) (grid : Grid) (randomize : bool) (s : Rng)
    : option (bool * Grid * Rng) :=
  match fuel with
  | 0 => None
  | S fuel' =>
      match mrvCell grid with
      | None => Some (true, grid, s)
      | Some (row, col, possibilities) =>
          let (possibilities, s) :=
            if randomize && (1 <? length possibilities)
            then shuffle possibilities s
            else (possibilities, s) in
          tryList (λ g, solveGrid fuel' g randomize) row col possibilities grid s
      end
  end.

(** [generateFullSudoku]: the randomized solver on the empty grid; the
    verdict is discarded. *)
Definition generateFullSudoku (fuel : nat) (s : Rng) : option (Grid * Rng) :=
  match solveGrid fuel emptyGrid true s with
  | None => None
  | Some (_, grid, s') => Some (grid, s')
  end.

(** [for (const num of possibilities)] of [backtrack]; the state is the
    closure's [workingGrid] and [solutionCount]. *)
Fixpoint countList (rec : Grid → nat → option (Grid * nat))
    (maxSolutions row col : nat) (nums : list Z)
    (workingGrid : Grid) (solutionCount : nat) : option (Grid * nat) :=
  match nums with
  | [] => Some (workingGrid, solutionCount)
  | num :: rest =>
      if isValidPlacement workingGrid row col num then
        match rec (setCell workingGrid row col num) solutionCount with
        | None => None
        | Some (grid', count') =>
            let grid'' := setCell grid' row col 0 in
            if maxSolutions <=? count' then Some (grid'', count')
            else countList rec maxSolutions row col rest grid'' count'
        end
      else countList rec maxSolutions row col rest workingGrid solutionCount
  end.

(** The closure [backtrack] of [countSolutionsFast]. *)
Fixpoint backtrack (fuel maxSolutions : nat) (workingGrid : Grid)
    (solutionCount : nat) : option (Grid * nat) :=
  match fuel with
  | 0 => None
  | S fuel' =>
      if maxSolutions <=? solutionCount then Some (workingGrid, solutionCount)
      else
        match mrvCell workingGrid with
        | None => Some (workingGrid, solutionCount + 1)
        | Some (row, col, possibilities) =>
            if length possibilities =? 0
            then Some (workingGrid, solutionCount)
            else countList (backtrack fuel' maxSolutions) maxSolutions
                   row col possibilities workingGrid solutionCount
        end
  end.

(** [countSolutionsFast(grid, maxSolutions)]: runs [backtrack] on a deep
    copy; the result pairs the caller's grid with the count. *)
Definition countSolutionsFast (fuel : nat) (grid : Grid) (maxSolutions : nat)
    : option (Grid * nat) :=
  let workingGrid := copyGrid grid in
  match backtrack fuel maxSolutions workingGrid 0 with
  | None => None
  | Some (_, solutionCount) => Some (grid, solutionCount)
  end.

(** The [for (const pos of positions)] loop of [removeNumbers].
    [removedPositions] is a stack: its head is the last element pushed.
    [cellsToRemove] is [None] when it is [undefined] or [NaN]. *)
Fixpoint carve (fuel : nat) (positions : list (nat * nat)) (puzzleGrid : Grid)
    (cellsToRemove : option nat) (removedPositions : list (nat * nat * Z))
    : option (Grid * list (nat * nat * Z)) :=
  match positions with
  | [] => Some (puzzleGrid, removedPositions)
  | (row, col) :: rest =>
      if leZero cellsToRemove then Some (puzzleGrid, removedPositions)
      else
        match cell puzzleGrid row col with
        | None => None
        | Some backup =>
            let removedPositions := (row, col, backup) :: removedPositions in
            match countSolutionsFast fuel (setCell puzzleGrid row col 0) 2 with
            | None => None
            | Some (grid', solutionCount) =>
                if negb (solutionCount =? 1)
                then carve fuel rest (setCell grid' row col backup)
                       cellsToRemove (tail removedPositions)
                else carve fuel rest grid' (option_map pred cellsToRemove)
                       removedPositions
            end
        end
  end.

(** The restore loop: pop and write back up to [countToRestore] cells. *)
Fixpoint restore (countToRestore : nat) (removedPositions : list (nat * nat * Z))
    (puzzleGrid : Grid) : Grid :=
  match countToRestore, removedPositions with
  | S n, (row, col, value) :: rest => restore n rest (setCell puzzleGrid row col value)
  | _, _ => puzzleGrid
  end.

(** [removeNumbers(fullGrid, difficulty)]; an unknown difficulty falls
    back to [this.difficultyLevels.medium]. *)
Definition removeNumbers (fuel : nat) (fullGrid : Grid) (difficulty : string)
    (s : Rng) : option (Outcome (Grid * Rng)) :=
  let puzzleGrid := copyGrid fullGrid in
  let config :=
    match getProp difficultyLevels difficulty with
    | Undefined => Own medium
    | found => found
    end in
  let cellsToRemove := field removeCount config in
  let (positions, s) := shuffle allCells s in
  match carve fuel positions puzzleGrid cellsToRemove [] with
  | None => None
  | Some (puzzleGrid, removedPositions) =>
      let remainingNumbers := clues puzzleGrid in
      let puzzleGrid :=
        if ltOpt remainingNumbers (field minCount config)
           && (0 <? length removedPositions)
        then restore (default 0 (field minCount config) - remainingNumbers)
               removedPositions puzzleGrid
        else puzzleGrid in
      Some (Returned (puzzleGrid, s))
  end.

(** [generatePuzzle(difficulty)]: a full grid, then the carver on it.  The
    carver works on a copy, so [solution] is the full grid as generated. *)
Definition generatePuzzle (fuel : nat) (difficulty : string) (s : Rng)
    : option (Outcome (Grid * Grid * Rng)) :=
  match generateFullSudoku fuel s with
  | None => None
  | Some (solution, s) =>
      match removeNumbers fuel solution difficulty s with
      | None => None
      | Some (Threw e) => Some (Threw e)
      | Some (Returned (puzzle, s)) => Some (Returned (puzzle, solution, s))
      end
  end.

(** The [for (let i = 0; i < countPerDifficulty; i++)] loop of
    [pregeneratePuzzles]; [puzzles] is [allPuzzles[difficulty]], each
    result being pushed at its end. *)
Fixpoint generateMany (fuel count : nat) (difficulty : string)
    (puzzles : list (Grid * Grid)) (s : Rng)
    : option (Outcome (list (Grid * Grid) * Rng)) :=
  match count with
  | 0 => Some (Returned (puzzles, s))
  | S count' =>
      match generatePuzzle fuel difficulty s with
      | None => None
      | Some (Threw e) => Some (Threw e)
      | Some (Returned (puzzle, solution, s)) =>
          generateMany fuel count' difficulty (puzzles ++ [(puzzle, solution)]) s
      end
  end.

(** [Object.keys(this.difficultyLevels).forEach(...)]; [allPuzzles] is the
    object under construction, its keys in insertion order. *)
Fixpoint generateLevels (fuel countPerDifficulty : nat) (keys : list string)
    (allPuzzles : list (string * list (Grid * Grid))) (s : Rng)
    : option (Outcome (list (string * list (Grid * Grid)) * Rng)) :=
  match keys with
  | [] => Some (Returned (allPuzzles, s))
  | difficulty :: rest =>
      match generateMany fuel countPerDifficulty difficulty [] s with
      | None => None
      | Some (Threw e) => Some (Threw e)
      | Some (Returned (puzzles, s)) =>
          generateLevels fuel countPerDifficulty rest
            (allPuzzles ++ [(difficulty, puzzles)]) s
      end
  end.

(** [pregeneratePuzzles(countPerDifficulty)] *)
Definition pregeneratePuzzles (fuel countPerDifficulty : nat) (s : Rng)
    : option (Outcome (list (string * list (Grid * Grid)) * Rng)) :=
  generateLevels fuel countPerDifficulty (map fst difficultyLevels) [] s.

End Solver.

(** ** The standalone generator script *)

Module Gen.

Record Target := { targetRemoved : nat; maxAttempts : N; timeout : N }.

Definition difficultyConfig : list (string * Target) :=
  [("easy", {| targetRemoved := 30; maxAttempts := 1000%N; timeout := 10000%N |});
   ("medium", {| targetRemoved := 40; maxAttempts := 2000%N; timeout := 15000%N |});
   ("hard", {| targetRemoved := 50; maxAttempts := 3000%N; timeout := 20000%N |});
   ("expert", {| targetRemoved := 55; maxAttempts := 5000%N; timeout := 25000%N |});
   ("master", {| targetRemoved := 60; maxAttempts := 10000%N; timeout := 30000%N |})]%string.

(** [isValidPlacement]: a single loop over [i] in 0..8 testing the i-th
    cell of the row, of the column and of the box. *)
Definition isValidPlacement (grid : Grid) (row col : nat) (num : Z) : bool :=
  let boxStartRow := row / 3 * 3 in
  let boxStartCol := col / 3 * 3 in
  if anyBelow 9 (λ i,
       cellIs grid row i num ||
       cellIs grid i col num ||
       cellIs grid (boxStartRow + i / 3) (boxStartCol + i mod 3) num)
  then false else true.

Definition createEmptyGrid : Grid := emptyGrid.

Definition cloneGrid (grid : Grid) : Grid := copyGrid grid.

(** The [possibilities] array of a cell. *)
Definition possibilitiesOf (grid : Grid) (row col : nat) : list Z :=
  List.filter (isValidPlacement grid row col) digits.

(** The scan of [solveGrid].  The state is [minPossibilities] and the
    best cell with its candidates ([None] for [bestRow === -1]). *)
Fixpoint scanBest (grid : Grid) (cells : list (nat * nat))
    (minPossibilities : nat) (best : option (nat * nat * list Z))
    : option (nat * nat * list Z) :=
  match cells with
  | [] => best
  | (row, col) :: rest =>
      if cellIs grid row col 0 then
        let possibilities := possibilitiesOf grid row col in
        if length possibilities <? minPossibilities
        then scanBest grid rest (length possibilities)
               (Some (row, col, possibilities))
        else scanBest grid rest minPossibilities best
      else scanBest grid rest minPossibilities best
  end.

(** [for (let k = 0; k < bestPossibilities.length; k++)] of [solveGrid]. *)
Fixpoint tryAll (rec : Grid → Rng → option (bool * Grid * Rng))
    (bestRow bestCol : nat) (nums : list Z) (grid : Grid) (s : Rng)
    : option (bool * Grid * Rng) :=
  match nums with
  | [] => Some (false, grid, s)
  | num :: rest =>
      match rec (setCell grid bestRow bestCol num) s with
      | None => None
      | Some (true, grid', s') => Some (true, grid', s')
      | Some (false, grid', s') =>
          tryAll rec bestRow bestCol rest (setCell grid' bestRow bestCol 0) s'
      end
  end.

(** [solveGrid(grid)] *)
Fixpoint solveGrid (fuel : nat) (grid : Grid) (s : Rng)
    : option (bool * Grid * Rng) :=
  match fuel with
  | 0 => None
  | S fuel' =>
      match scanBest grid allCells 10 None with
      | None => Some (true, grid, s)
      | Some (bestRow, bestCol, bestPossibilities) =>
          let (bestPossibilities, s) := shuffle bestPossibilities s in
          tryAll (solveGrid fuel') bestRow bestCol bestPossibilities grid s
      end
  end.

(** The scan of [countSolutionsFast]: as [scanBest], but an empty cell
    without candidates ends the call ([None]). *)
Fixpoint scanPrune (grid : Grid) (cells : list (nat * nat))
    (minPossibilities : nat) (best : option (nat * nat * list Z))
    : option (option (nat * nat * list Z)) :=
  match cells with
  | [] => Some best
  | (row, col) :: rest =>
      if cellIs grid row col 0 then
        let possibilities := possibilitiesOf grid row col in
        if length possibilities =? 0 then None
        else if length possibilities <? minPossibilities
        then scanPrune grid rest (length possibilities)
               (Some (row, col, possibilities))
        else scanPrune grid rest minPossibilities best
      else scanPrune grid rest minPossibilities best
  end.

(** [for (let k ...)] of [countSolutionsFast]; the boolean is the
    function's return value (keep searching), [count] is
    [solutionCounter.count]. *)
Fixpoint countAll (rec : Grid → nat → Rng → option (bool * Grid * nat * Rng))
    (bestRow bestCol : nat) (nums : list Z) (grid : Grid) (count : nat)
    (s : Rng) : option (bool * Grid * nat * Rng) :=
  match nums with
  | [] => Some (true, grid, count, s)
  | num :: rest =>
      match rec (setCell grid bestRow bestCol num) count s with
      | None => None
      | Some (false, grid', count', s') =>
          Some (false, setCell grid' bestRow bestCol 0, count', s')
      | Some (true, grid', count', s') =>
          let grid'' := setCell grid' bestRow bestCol 0 in
          if 2 <=? count' then Some (false, grid'', count', s')
          else countAll rec bestRow bestCol rest grid'' count' s'
      end
  end.

(** [countSolutionsFast(grid, solutionCounter)] *)
Fixpoint countSolutionsFast (fuel : nat) (grid : Grid) (count : nat) (s : Rng)
    : option (bool * Grid * nat * Rng) :=
  match fuel with
  | 0 => None
  | S fuel' =>
      if 2 <=? count then Some (false, grid, count, s)
      else
        match scanPrune grid allCells 10 None with
        | None => Some (true, grid, count, s)
        | Some None => Some (count + 1 <? 2, grid, count + 1, s)
        | Some (Some (bestRow, bestCol, bestPossibilities)) =>
            let (bestPossibilities, s) := shuffle bestPossibilities s in
            countAll (countSolutionsFast fuel') bestRow bestCol
              bestPossibilities grid count s
        end
  end.

(** Fill diagonal box [i]: [grid[i*3 + row][i*3 + col] = numbers[row*3 + col]]. *)
Definition fillBox (i : nat) (numbers : list Z) (grid : Grid) : Grid :=
  foldl (λ (g : Grid) (p : nat * nat),
             match numbers !! (p.1 * 3 + p.2) with
             | Some v => setCell g (i * 3 + p.1) (i * 3 + p.2) v
             | None => g
             end) grid (row ← seq 0 3; col ← seq 0 3; [(row, col)]).

(** [generateFullSudoku] *)
Definition generateFullSudoku (fuel : nat) (s : Rng) : option (Grid * Rng) :=
  let '(numbers0, s0) := shuffle digits s in
  let grid0 := fillBox 0 numbers0 createEmptyGrid in
  let '(numbers1, s1) := shuffle digits s0 in
  let grid1 := fillBox 1 numbers1 grid0 in
  let '(numbers2, s2) := shuffle digits s1 in
  let grid2 := fillBox 2 numbers2 grid1 in
  match solveGrid fuel grid2 s2 with
  | None => None
  | Some (_, grid, s') => Some (grid, s')
  end.

(** The [while] loop of [removeNumbers].  [posLength] is
    [positions.length]: each round reads [positions[posLength - 1]] and
    truncates the array by one.  [count] is [None] when [undefined]. *)
Fixpoint removeLoop (fuel posLength : nat) (positions : list (nat * nat))
    (puzzle : Grid) (count : option nat) (removed attempts : nat) (s : Rng)
    : option (Grid * Rng) :=
  match posLength with
  | 0 => Some (puzzle, s)
  | S posIndex =>
      if ltOpt removed count
         && ltOpt attempts (option_map (λ n, n * 100) count) then
        let attempts := attempts + 1 in
        match positions !! posIndex with
        | None => None
        | Some (row, col) =>
            if negb (cellIs puzzle row col 0) then
              match cell puzzle row col with
              | None => None
              | Some temp =>
                  let puzzle := setCell puzzle row col 0 in
                  let gridCopy := cloneGrid puzzle in
                  match countSolutionsFast fuel gridCopy 0 s with
                  | None => None
                  | Some (_, _, solutionCount, s) =>
                      if solutionCount =? 1
                      then removeLoop fuel posIndex positions puzzle count
                             (removed + 1) attempts s
                      else removeLoop fuel posIndex positions
                             (setCell puzzle row col temp) count
                             removed attempts s
                  end
              end
            else removeLoop fuel posIndex positions puzzle count
                   removed attempts s
        end
      else Some (puzzle, s)
  end.

(** [removeNumbers(grid, count)] *)
Definition removeNumbers (fuel : nat) (grid : Grid) (count : option nat)
    (s : Rng) : option (Grid * Rng) :=
  let puzzle := cloneGrid grid in
  let (positions, s) := shuffle allCells s in
  removeLoop fuel (length positions) positions puzzle count 0 0 s.

(** The [while (attempts < maxAttempts)] loop of [generateSudokuPuzzle];
    [remaining] is [maxAttempts - attempts].  Neither [generateFullSudoku]
    nor [removeNumbers] throws, so the [catch] is never entered.  The test
    [emptyCount >= targetRemoved * 0.8] is written over integers; for the
    five configured targets the product is an exact integer. *)
Fixpoint generateLoop (fuel remaining : nat) (targetRemoved : option nat)
    (s : Rng) : option (Outcome (Grid * Grid * Rng)) :=
  match remaining with
  | 0 => Some (Threw GenerationFailed)
  | S remaining' =>
      match generateFullSudoku fuel s with
      | None => None
      | Some (solution, s) =>
          match removeNumbers fuel solution targetRemoved s with
          | None => None
          | Some (puzzle, s) =>
              let emptyCount := empties puzzle in
              if match targetRemoved with
                 | Some t => t * 4 <=? emptyCount * 5
                 | None => false
                 end
              then Some (Returned (puzzle, solution, s))
              else generateLoop fuel remaining' targetRemoved s
          end
      end
  end.

(** [generateSudokuPuzzle(difficulty)] *)
Definition generateSudokuPuzzle (fuel : nat) (difficulty : string) (s : Rng)
    : option (Outcome (Grid * Grid * Rng)) :=
  match getProp difficultyConfig difficulty with
  | Undefined => Some (Threw UnknownDifficulty)
  | config => generateLoop fuel 50 (field targetRemoved config) s
  end.

End Gen.

(** ** Console output *)

(** The call that took the console from [out] to [out'] wrote nothing
    with [console.error]. *)
Definition quiet (out out' : Core.Console) : Prop :=
  ∀ line, line ∈ out' → line ∈ out ∨ line.1 ≠ Core.ConsoleError.

(** ** Three diagonal boxes can always be completed

    [generateFullSudoku] of sudoku-core.js and of the generator script
    fills the three diagonal boxes with shuffled digits and hands the
    grid to [solveGrid], ignoring the verdict.  The result is a complete
    grid exactly when such a seed has a completion.  The definitions
    below describe a completion box by box.

    A box is described by two colourings of the nine digits: the row and
    the column (0, 1 or 2) of each digit inside the box.  Digits are
    named by their position in the first diagonal box, so a colouring is
    a list of nine values. *)

(** The two values of 0..2 other than [x], in both orders. *)
Definition next3 (x : nat) : nat := match x with 0 => 1 | 1 => 2 | _ => 0 end.

Definition prev3 (x : nat) : nat := match x with 0 => 2 | 1 => 0 | _ => 1 end.

(** All pairs of colourings that differ from [X] and from each other at
    every digit: the rows (columns) of the two other boxes of a band
    (stack) whose third box has rows (columns) [X]. *)
Fixpoint splits (X : list nat) : list (list nat * list nat) :=
  match X with
  | [] => [([], [])]
  | x :: X' =>
      flat_map (λ p : list nat * list nat,
                 [(next3 x :: p.1, prev3 x :: p.2);
                  (prev3 x :: p.1, next3 x :: p.2)])
               (splits X')
  end.

Fixpoint count3 (l : list nat) (a b c : nat) : nat * nat * nat :=
  match l with
  | [] => (a, b, c)
  | 0 :: l' => count3 l' (S a) b c
  | 1 :: l' => count3 l' a (S b) c
  | _ :: l' => count3 l' a b (S c)
  end.

(** Each value is taken by exactly three digits. *)
Definition balancedb (l : list nat) : bool :=
  match count3 l 0 0 0 with
  | (3, 3, 3) => true
  | _ => false
  end.

Definition complements (X : list nat) : list (list nat * list nat) :=
  List.filter (λ p : list nat * list nat, balancedb p.1 && balancedb p.2) (splits X).

(** The pairs [(r[k], c[k])] take every value of 0..2 x 0..2: the nine
    flags record the pairs seen so far, a pair seen twice ends the scan. *)
Fixpoint covers (r c : list nat) (f00 f01 f02 f10 f11 f12 f20 f21 f22 : bool) : bool :=
  match r, c with
  | x :: r', y :: c' =>
      match x, y with
      | 0, 0 => if f00 then false else covers r' c' true f01 f02 f10 f11 f12 f20 f21 f22
      | 0, 1 => if f01 then false else covers r' c' f00 true f02 f10 f11 f12 f20 f21 f22
      | 0, 2 => if f02 then false else covers r' c' f00 f01 true f10 f11 f12 f20 f21 f22
      | 1, 0 => if f10 then false else covers r' c' f00 f01 f02 true f11 f12 f20 f21 f22
      | 1, 1 => if f11 then false else covers r' c' f00 f01 f02 f10 true f12 f20 f21 f22
      | 1, 2 => if f12 then false else covers r' c' f00 f01 f02 f10 f11 true f20 f21 f22
      | 2, 0 => if f20 then false else covers r' c' f00 f01 f02 f10 f11 f12 true f21 f22
      | 2, 1 => if f21 then false else covers r' c' f00 f01 f02 f10 f11 f12 f20 true f22
      | 2, 2 => if f22 then false else covers r' c' f00 f01 f02 f10 f11 f12 f20 f21 true
      | _, _ => false
      end
  | _, _ => f00 && f01 && f02 && f10 && f11 && f12 && f20 && f21 && f22
  end.

Definition ontob (r c : list nat) : bool :=
  covers r c false false false false false false false false false.

(** All lists of length [n] over 0..2. *)
Fixpoint enum (n : nat) : list (list nat) :=
  match n with
  | 0 => [[]]
  | S n' => flat_map (λ l, [0 :: l; 1 :: l; 2 :: l]) (enum n')
  end.

(** Values appear for the first time in the order 0, 1, 2. *)
Fixpoint rgb (l : list nat) (m : nat) : bool :=
  match l with
  | [] => true
  | x :: l' => (x <=? m) && rgb l' (if x =? m then S m else m)
  end.

Definition canonb (l : list nat) : bool := balancedb l && rgb l 0.

(** One colouring for each way to split nine digits into three triples. *)
Definition canon : list (list nat) := List.filter canonb (enum 9).

Definition perm3 (a b c : nat) (x : nat) : nat :=
  match x with 0 => a | 1 => b | _ => c end.

Definition relabelings : list (nat → nat) :=
  [perm3 0 1 2; perm3 0 2 1; perm3 1 0 2; perm3 1 2 0; perm3 2 0 1; perm3 2 1 0].

(** Rename the values of [c] so that they first appear in order. *)
Definition canonise (c : list nat) : list nat :=
  match find (λ f, rgb (map f c) 0) relabelings with
  | Some f => map f c
  | None => c
  end.

(** A table indexed by the members of [canon]. *)
Inductive Trie := Leaf (n : nat) | Node (t0 t1 t2 : Trie).

Fixpoint buildC (n m a b c : nat) (f : list nat → nat) : Trie :=
  match n with
  | 0 => Leaf (f [])
  | S n' =>
      Node (if a <? 3
            then buildC n' (if 0 =? m then 1 else m) (S a) b c (λ l, f (0 :: l))
            else Leaf 0)
           (if (1 <=? m) && (b <? 3)
            then buildC n' (if 1 =? m then 2 else m) a (S b) c (λ l, f (1 :: l))
            else Leaf 0)
           (if (2 <=? m) && (c <? 3)
            then buildC n' (if 2 =? m then 3 else m) a b (S c) (λ l, f (2 :: l))
            else Leaf 0)
  end.

Fixpoint lookupT (t : Trie) (l : list nat) : nat :=
  match t with
  | Leaf n => n
  | Node t0 t1 t2 =>
      match l with
      | [] => 0
      | 0 :: l' => lookupT t0 l'
      | 1 :: l' => lookupT t1 l'
      | _ :: l' => lookupT t2 l'
      end
  end.

(** Rows and columns of the digits in the first diagonal box. *)
Definition iA : list nat := [0; 0; 0; 1; 1; 1; 2; 2; 2].

Definition jA : list nat := [0; 1; 2; 0; 1; 2; 0; 1; 2].

(** The row colourings of the two other boxes of the first band, and the
    column colourings of the two other boxes of the first stack. *)
Definition bandA : list (list nat * list nat) := complements iA.

Definition stackA : list (list nat * list nat) := complements jA.

(** For each way [p] to colour the rows of the two other boxes of the band
    of [Y]: the colouring of the first of them, and which column colourings
    of [W] fit the second. *)
Definition colMasks (W : list (list nat)) (Y : list nat)
    : list (list nat * list bool) :=
  map (λ p : list nat * list nat, (p.1, map (ontob p.2) W)) (complements Y).

Fixpoint orAll (Js : list (list bool)) (n : nat) : list bool :=
  match Js with
  | [] => replicate n false
  | J :: Js' => zip_with orb J (orAll Js' n)
  end.

Definition countb (l : list bool) : nat := length (List.filter (λ b : bool, b) l).

(** The members of [W] that can be reached from the column colouring [k']
    through the band of [Y]. *)
Definition covMask (W : list (list nat)) (cm : list (list nat * list bool))
    (k' : list nat) : list bool :=
  orAll (map snd (List.filter (λ e : list nat * list bool, ontob e.1 k') cm))
        (length W).

Definition grade (n : nat) : nat :=
  if 32 <=? n then 2 else if 25 <=? n then 1 else 0.

Definition gTrie (W : list (list nat)) (Y : list nat) : Trie :=
  let cm := colMasks W Y in
  buildC 9 0 0 0 0 (λ k', grade (countb (covMask W cm k'))).

(** For each row colouring [u] of [U], the column colourings reachable
    from it through the stack of [X]. *)
Definition rowKs (U : list (list nat)) (X : list nat) : list (list (list nat)) :=
  let o := complements X in
  map (λ u, map (λ p : list nat * list nat, canonise p.2)
              (List.filter (λ p : list nat * list nat, ontob u p.1) o)) U.

Fixpoint best (trie : Trie) (ks : list (list nat)) (acc : nat) : nat :=
  match ks with
  | [] => acc
  | k' :: ks' =>
      match lookupT trie k' with
      | 0 => best trie ks' acc
      | 1 => best trie ks' (match acc with 0 => 1 | _ => acc end)
      | _ => 2
      end
  end.

Fixpoint tally (trie : Trie) (rk : list (list (list nat))) (w s : nat) : nat * nat :=
  match rk with
  | [] => (w, s)
  | ks :: rk' =>
      match best trie ks 0 with
      | 0 => tally trie rk' w s
      | 1 => tally trie rk' (S w) s
      | _ => tally trie rk' (S w) (S s)
      end
  end.

Definition eqlb (a b : list nat) : bool :=
  forallb (λ p : nat * nat, p.1 =? p.2) (combine a b).

Definition excb (X Y : list nat) : bool := eqlb X jA && eqlb Y jA.

(** Enough rows of [U] reach at least 25 members of [W], and, one pair
    [(X, Y)] apart, enough reach at least 32. *)
Definition halfOK (ex : list nat * list (list (list nat))) (ey : list nat * Trie) : bool :=
  let '(w, s) := tally ey.2 ex.2 0 0 in
  (48 <=? w) && (excb ex.1 ey.1 || (9 <=? s)).

Definition checkHalf (U W : list (list nat)) : bool :=
  let ty := map (λ Y, (Y, gTrie W Y)) canon in
  forallb (λ ex, forallb (halfOK ex) ty) (map (λ X, (X, rowKs U X)) canon).

Definition U1 : list (list nat) := map snd bandA.

Definition W1 : list (list nat) := map fst stackA.

Definition U2 : list (list nat) := map fst bandA.

Definition W2 : list (list nat) := map snd stackA.

(** Two colourings differ at every digit. *)
Definition apart (a b : list nat) : Prop :=
  ∀ k x y, a !! k = Some x → b !! k = Some y → x ≠ y.

(** Every cell of the box is taken by some digit. *)
Definition onto (r c : list nat) : Prop :=
  ∀ x y, x < 3 → y < 3 → ∃ k, r !! k = Some x ∧ c !! k = Some y.

Definition colouring (a : list nat) : Prop :=
  length a = 9 ∧ Forall (λ x, x < 3) a.

Definition maskOf (W : list (list nat)) (Y k' : list nat) : list bool :=
  covMask W (colMasks W Y) (canonise k').

Definition rowGood (W : list (list nat)) (X Y : list nat) (t : nat)
    (u : list nat) : bool :=
  existsb (λ p : list nat * list nat,
             ontob u p.1 && (t <=? countb (maskOf W Y p.2)))
          (complements X).

Definition flag9 (f00 f01 f02 f10 f11 f12 f20 f21 f22 : bool) (x y : nat) : bool :=
  match x, y with
  | 0, 0 => f00 | 0, 1 => f01 | 0, 2 => f02
  | 1, 0 => f10 | 1, 1 => f11 | 1, 2 => f12
  | 2, 0 => f20 | 2, 1 => f21 | 2, 2 => f22
  | _, _ => false
  end.

(** [a] and [b] share the values other than those of [X] between them. *)
Definition compl (X a b : list nat) : Prop :=
  colouring a ∧ colouring b ∧ apart a X ∧ apart b X ∧ apart a b.

(** The positions of the digits in a box are pairwise different. *)
Definition inj2 (r c : list nat) : Prop :=
  ∀ k k' x y, r !! k = Some x → r !! k' = Some x →
              c !! k = Some y → c !! k' = Some y → k = k'.

(** The colourings of the nine boxes: rows within each band and columns
    within each stack are pairwise apart, and each off-diagonal box
    takes every position. *)
Definition layoutOK (R C : nat → nat → list nat) : Prop :=
  (∀ p q, p < 3 → q < 3 → colouring (R p q) ∧ colouring (C p q)) ∧
  (∀ p q q', p < 3 → q < 3 → q' < 3 → q ≠ q' → apart (R p q) (R p q')) ∧
  (∀ p p' q, p < 3 → p' < 3 → q < 3 → p ≠ p' → apart (C p q) (C p' q)) ∧
  (∀ p q, p < 3 → q < 3 → p ≠ q → onto (R p q) (C p q)).

Definition grid9 (b00 b01 b02 b10 b11 b12 b20 b21 b22 : list nat)
    (p q : nat) : list nat :=
  match p, q with
  | 0, 0 => b00 | 0, 1 => b01 | 0, 2 => b02
  | 1, 0 => b10 | 1, 1 => b11 | 1, 2 => b12
  | 2, 0 => b20 | 2, 1 => b21 | 2, 2 => b22
  | _, _ => []
  end.

(** Position of a digit in a box listed in row-major order. *)
Fixpoint indexZ (d : Z) (l : list Z) : nat :=
  match l with
  | [] => 0
  | x :: l' => if Z.eqb x d then 0 else S (indexZ d l')
  end.

(** For the digit at each cell of the first box, its position in [nums]. *)
Definition positions (nums0 nums : list Z) : list nat :=
  map (λ d, indexZ d nums) nums0.

Definition rowsOf (pos : list nat) : list nat := map (λ m, m / 3) pos.

Definition colsOf (pos : list nat) : list nat := map (λ m, m mod 3) pos.

Definition gridOf (e : nat → nat → Z) : Grid :=
  map (λ r, map (λ c, e r c) (seq 0 9)) (seq 0 9).

Definition boxNums (n0 n1 n2 : list Z) (p : nat) : list Z :=
  match p with 0 => n0 | 1 => n1 | _ => n2 end.

(** The grid with the three diagonal boxes filled in row-major order. *)
Definition seedEntry (n0 n1 n2 : list Z) (r c : nat) : Z :=
  if r / 3 =? c / 3
  then default 0%Z (boxNums n0 n1 n2 (r / 3) !! (3 * (r mod 3) + c mod 3))
  else 0%Z.

Definition seedGrid (n0 n1 n2 : list Z) : Grid := gridOf (seedEntry n0 n1 n2).

Definition pointAt (R C : list nat) (x y : nat) : option nat :=
  find (λ k, (nth k R 3 =? x) && (nth k C 3 =? y)) (seq 0 9).

Definition fillEntry (n0 n1 n2 : list Z) (R C : nat → nat → list nat)
    (r c : nat) : Z :=
  if r / 3 =? c / 3 then seedEntry n0 n1 n2 r c
  else match pointAt (R (r / 3) (c / 3)) (C (r / 3) (c / 3)) (r mod 3) (c mod 3) with
       | Some k => default 0%Z (n0 !! k)
       | None => 0%Z
       end.

Definition filledGrid (n0 n1 n2 : list Z) (R C : nat → nat → list nat) : Grid :=
  gridOf (fillEntry n0 n1 n2 R C).

(** * Proofs *)

(** ** Reading and writing cells *)

Lemma cell_Some_lt (g : Grid) r c v :
  shape9 g → cell g r c = Some v → r < 9 ∧ c < 9.
Proof.
  intros [Hlen Hrows] Hc. unfold cell in Hc.
  destruct (g !! r) as [row|] eqn:Hr; [|done].
  pose proof (lookup_lt_Some _ _ _ Hr) as Hlt.
  pose proof (lookup_lt_Some _ _ _ Hc) as Hlt'.
  rewrite Forall_forall in Hrows.
  rewrite (Hrows row) in Hlt' by (eapply list_elem_of_lookup_2; eauto). lia.
Qed.

Lemma cell_is_Some (g : Grid) r c :
  shape9 g → r < 9 → c < 9 → is_Some (cell g r c).
Proof.
  intros [Hlen Hrows] Hr Hc. unfold cell.
  destruct (lookup_lt_is_Some_2 g r) as [row Hrow]; [lia|].
  rewrite Hrow. apply lookup_lt_is_Some_2.
  rewrite Forall_forall in Hrows.
  rewrite (Hrows row); [lia|].
  eapply list_elem_of_lookup_2; eauto.
Qed.

Lemma cellIs_true (g : Grid) r c v : cellIs g r c v = true ↔ cell g r c = Some v.
Proof.
  unfold cellIs. destruct (cell g r c) as [w|]; [|split; discriminate].
  rewrite Z.eqb_eq. split; congruence.
Qed.

Lemma cellIs_false (g : Grid) r c v : cellIs g r c v = false ↔ cell g r c ≠ Some v.
Proof.
  rewrite <- cellIs_true. destruct (cellIs g r c v); split; congruence.
Qed.

Lemma cell_setCell_eq (g : Grid) r c v :
  is_Some (cell g r c) → cell (setCell g r c v) r c = Some v.
Proof.
  unfold cell, setCell. intros [w Hw].
  destruct (g !! r) as [row|] eqn:Hr; [|done].
  rewrite list_lookup_insert_eq by (eapply lookup_lt_Some; eauto).
  apply list_lookup_insert_eq. eapply lookup_lt_Some; eauto.
Qed.

Lemma cell_setCell_ne (g : Grid) r c v r' c' :
  r ≠ r' ∨ c ≠ c' → cell (setCell g r c v) r' c' = cell g r' c'.
Proof.
  unfold cell, setCell. intros Hne.
  destruct (g !! r) as [row|] eqn:Hr; [|done].
  destruct (decide (r = r')) as [<-|Hrr].
  - rewrite list_lookup_insert_eq by (eapply lookup_lt_Some; eauto).
    rewrite Hr. apply list_lookup_insert_ne. by destruct Hne.
  - by rewrite list_lookup_insert_ne.
Qed.

Lemma setCell_same (g : Grid) r c v : cell g r c = Some v → setCell g r c v = g.
Proof.
  unfold cell, setCell. intros Hc.
  destruct (g !! r) as [row|] eqn:Hr; [|done].
  rewrite (list_insert_id row) by done. by apply list_insert_id.
Qed.

Lemma setCell_setCell (g : Grid) r c v w :
  setCell (setCell g r c v) r c w = setCell g r c w.
Proof.
  unfold setCell. destruct (g !! r) as [row|] eqn:Hr.
  - rewrite list_lookup_insert_eq by (eapply lookup_lt_Some; eauto).
    by rewrite !list_insert_insert_eq.
  - by rewrite Hr.
Qed.

(** Undoing a placement on a cell that was empty gives the grid back. *)
Lemma setCell_undo (g : Grid) r c v :
  cell g r c = Some 0%Z → setCell (setCell g r c v) r c 0 = g.
Proof. intros H. rewrite setCell_setCell. by apply setCell_same. Qed.

Lemma shape9_setCell (g : Grid) r c v : shape9 g → shape9 (setCell g r c v).
Proof.
  intros [Hlen Hrows]. unfold setCell.
  destruct (g !! r) as [row|] eqn:Hr; [|done]. split.
  - by rewrite length_insert.
  - apply Forall_insert; [done|]. rewrite length_insert.
    rewrite Forall_forall in Hrows. apply Hrows.
    eapply list_elem_of_lookup_2; eauto.
Qed.

Lemma entries_setCell (g : Grid) r c v :
  entries g → (0 ≤ v ≤ 9)%Z → entries (setCell g r c v).
Proof.
  intros Hent Hv. unfold setCell, entries in *.
  destruct (g !! r) as [row|] eqn:Hr; [|done].
  apply Forall_insert; [done|]. apply Forall_insert; [|done].
  rewrite Forall_forall in Hent. apply Hent.
  eapply list_elem_of_lookup_2; eauto.
Qed.

Lemma entries_cell (g : Grid) r c v :
  entries g → cell g r c = Some v → (0 ≤ v ≤ 9)%Z.
Proof.
  unfold entries, cell. intros Hent Hc.
  destruct (g !! r) as [row|] eqn:Hr; [|done].
  rewrite Forall_forall in Hent.
  assert (Hrow : Forall (λ v, (0 ≤ v ≤ 9)%Z) row).
  { apply Hent. eapply list_elem_of_lookup_2; eauto. }
  rewrite Forall_forall in Hrow. apply Hrow.
  eapply list_elem_of_lookup_2; eauto.
Qed.

(** Two 9x9 grids with the same cells are equal. *)
Lemma grid_ext (g h : Grid) :
  shape9 g → shape9 h →
  (∀ r c, r < 9 → c < 9 → cell g r c = cell h r c) → g = h.
Proof.
  intros Hg Hh Hcells. apply list_eq. intros r.
  destruct (decide (r < 9)) as [Hr|Hr].
  - destruct (lookup_lt_is_Some_2 g r) as [row Hrow]; [destruct Hg; lia|].
    destruct (lookup_lt_is_Some_2 h r) as [row' Hrow']; [destruct Hh; lia|].
    rewrite Hrow, Hrow'. f_equal. apply list_eq. intros c.
    destruct (decide (c < 9)) as [Hc|Hc].
    + specialize (Hcells r c Hr Hc). unfold cell in Hcells.
      by rewrite Hrow, Hrow' in Hcells.
    + assert (length row = 9 ∧ length row' = 9) as [L1 L2].
      { destruct Hg as [_ Hg], Hh as [_ Hh].
        rewrite Forall_forall in Hg, Hh. split; [apply Hg|apply Hh];
          eapply list_elem_of_lookup_2; eauto. }
      rewrite !lookup_ge_None_2; [done|lia|lia].
  - destruct Hg as [Lg _], Hh as [Lh _].
    rewrite !lookup_ge_None_2; [done|lia|lia].
Qed.

(** ** Cell addresses and units *)

Lemma elem_of_allCells r c : (r, c) ∈ allCells ↔ r < 9 ∧ c < 9.
Proof.
  unfold allCells. rewrite list_elem_of_bind. split.
  - intros (r' & Hin & Hr'). apply list_elem_of_bind in Hin as (c' & Hin & Hc').
    apply list_elem_of_singleton in Hin. inversion Hin; subst.
    apply elem_of_seq in Hr', Hc'. lia.
  - intros [Hr Hc]. exists r. split; [|apply elem_of_seq; lia].
    apply list_elem_of_bind. exists c. split; [|apply elem_of_seq; lia].
    by apply list_elem_of_singleton.
Qed.

Lemma NoDup_allCells : NoDup allCells.
Proof. apply (bool_decide_unpack _). by vm_compute. Qed.

Lemma length_allCells : length allCells = 81.
Proof. reflexivity. Qed.

Lemma anyBelow_true n f : anyBelow n f = true ↔ ∃ x, x < n ∧ f x = true.
Proof.
  unfold anyBelow. rewrite existsb_exists. split.
  - intros (x & Hin & Hx). apply in_seq in Hin. exists x. split; [lia|done].
  - intros (x & Hlt & Hx). exists x. split; [apply in_seq; lia|done].
Qed.

Lemma anyBelow_false n f : anyBelow n f = false ↔ ∀ x, x < n → f x = false.
Proof.
  split.
  - intros H x Hx. destruct (f x) eqn:Hf; [|done].
    assert (anyBelow n f = true) by (apply anyBelow_true; eauto). congruence.
  - intros H. destruct (anyBelow n f) eqn:Ha; [|done].
    apply anyBelow_true in Ha as (x & Hx & Hf). rewrite H in Hf; done.
Qed.

Lemma anyBelow_ext n f f' :
  (∀ x, x < n → f x = f' x) → anyBelow n f = anyBelow n f'.
Proof.
  intros H. destruct (anyBelow n f') eqn:H'.
  - apply anyBelow_true in H' as (x & Hx & Hf). apply anyBelow_true.
    exists x. by rewrite H.
  - apply anyBelow_false. intros x Hx. rewrite H by done.
    rewrite anyBelow_false in H'. by apply H'.
Qed.

Lemma sameUnit_sym r c r' c' : sameUnit r c r' c' → sameUnit r' c' r c.
Proof. unfold sameUnit. intuition. Qed.

Lemma sameUnitb_true r c r' c' : sameUnitb r c r' c' = true ↔ sameUnit r c r' c'.
Proof.
  unfold sameUnitb, sameUnit.
  rewrite !orb_true_iff, andb_true_iff, !Nat.eqb_eq. tauto.
Qed.

(** ** Placement validity *)

Lemma digitInUnits_iff (g : Grid) row col digit :
  row < 9 → col < 9 →
  digitInUnits g row col digit ↔
  ∃ r c, r < 9 ∧ c < 9 ∧ sameUnit row col r c ∧ cell g r c = Some digit.
Proof.
  intros Hrow Hcol. unfold digitInUnits, sameUnit. split.
  - intros [(x & Hx & Hc)|[(x & Hx & Hc)|(r & c & Hr & Hc & Hb1 & Hb2 & Hcell)]].
    + exists row, x. naive_solver.
    + exists x, col. naive_solver.
    + exists r, c. naive_solver.
  - intros (r & c & Hr & Hc & [->|[->|[Hb1 Hb2]]] & Hcell).
    + left. eauto.
    + right. left. eauto.
    + right. right. exists r, c. auto.
Qed.

Lemma not_safe_iff (g : Grid) row col digit :
  row < 9 → col < 9 →
  digitInUnits g row col digit ↔ ¬ safe g row col digit.
Proof.
  intros Hrow Hcol. rewrite digitInUnits_iff by done. unfold safe. split.
  - intros (r & c & Hr & Hc & Hu & Hcell) Hsafe.
    exact (Hsafe r c Hr Hc Hu Hcell).
  - intros Hns.
    destruct (existsb (λ p : nat * nat,
                sameUnitb row col p.1 p.2 && cellIs g p.1 p.2 digit)
                allCells) eqn:Hex.
    + apply existsb_exists in Hex as ([r c] & Hin & Hp). simpl in Hp.
      apply andb_true_iff in Hp as [Hu Hcell].
      apply sameUnitb_true in Hu. apply cellIs_true in Hcell.
      apply list_elem_of_In, elem_of_allCells in Hin. exists r, c. tauto.
    + exfalso. apply Hns. intros r c Hr Hc Hu Hcell.
      assert (existsb (λ p : nat * nat,
                sameUnitb row col p.1 p.2 && cellIs g p.1 p.2 digit)
                allCells = true); [|congruence].
      apply existsb_exists. exists (r, c). split.
      * apply list_elem_of_In, elem_of_allCells. done.
      * simpl. apply andb_true_iff. split; [by apply sameUnitb_true|].
        by apply cellIs_true.
Qed.

Lemma box_index_iff row r :
  r / 3 = row / 3 ↔ ∃ i, i < 3 ∧ r = row / 3 * 3 + i.
Proof.
  split.
  - intros H. exists (r mod 3). split; [apply Nat.mod_upper_bound; lia|].
    rewrite <- H. pose proof (Nat.div_mod_eq r 3). lia.
  - intros (i & Hi & ->). rewrite Nat.div_add_l by lia.
    rewrite (Nat.div_small i 3) by lia. lia.
Qed.

Lemma Core_isValidPlacement_false (g : Grid) row col digit :
  row < 9 → col < 9 →
  Core.isValidPlacement g row col digit = false ↔ digitInUnits g row col digit.
Proof.
  intros Hrow Hcol. unfold Core.isValidPlacement, digitInUnits.
  destruct (anyBelow 9 (λ x, cellIs g row x digit)) eqn:H1.
  { apply anyBelow_true in H1 as (x & Hx & Hc). apply cellIs_true in Hc.
    split; [eauto|done]. }
  destruct (anyBelow 9 (λ x, cellIs g x col digit)) eqn:H2.
  { apply anyBelow_true in H2 as (x & Hx & Hc). apply cellIs_true in Hc.
    split; [eauto|done]. }
  cbv zeta.
  destruct (anyBelow 3 _) eqn:H3.
  { apply anyBelow_true in H3 as (i & Hi & H3).
    apply anyBelow_true in H3 as (j & Hj & Hc). apply cellIs_true in Hc.
    split; [|done]. intros _. right. right.
    exists (row / 3 * 3 + i), (col / 3 * 3 + j).
    pose proof (Nat.div_mod_eq row 3). pose proof (Nat.div_mod_eq col 3).
    pose proof (Nat.mod_upper_bound row 3). pose proof (Nat.mod_upper_bound col 3).
    repeat split; [lia|lia| | |done];
      apply box_index_iff; eauto. }
  split; [done|].
  rewrite anyBelow_false in H1, H2, H3.
  intros [(x & Hx & Hc)|[(x & Hx & Hc)|(r & c & Hr & Hc & Hb1 & Hb2 & Hcell)]].
  - apply cellIs_true in Hc. rewrite H1 in Hc; done.
  - apply cellIs_true in Hc. rewrite H2 in Hc; done.
  - apply box_index_iff in Hb1 as (i & Hi & ->).
    apply box_index_iff in Hb2 as (j & Hj & ->).
    specialize (H3 i Hi). rewrite anyBelow_false in H3.
    apply cellIs_true in Hcell. rewrite H3 in Hcell; done.
Qed.

Lemma Solver_isValidPlacement_eq (g : Grid) row col digit :
  Solver.isValidPlacement g row col digit = Core.isValidPlacement g row col digit.
Proof.
  unfold Solver.isValidPlacement, Core.isValidPlacement. cbv zeta.
  replace (anyBelow 3 (λ i, anyBelow 3 (λ j,
             cellIs g (i + row / 3 * 3) (j + col / 3 * 3) digit)))
    with (anyBelow 3 (λ i, anyBelow 3 (λ j,
             cellIs g (row / 3 * 3 + i) (col / 3 * 3 + j) digit))); [done|].
  apply anyBelow_ext. intros i _. apply anyBelow_ext. intros j _.
  by rewrite (Nat.add_comm i), (Nat.add_comm j).
Qed.

Lemma Gen_isValidPlacement_false (g : Grid) row col digit :
  row < 9 → col < 9 →
  Gen.isValidPlacement g row col digit = false ↔ digitInUnits g row col digit.
Proof.
  intros Hrow Hcol. unfold Gen.isValidPlacement, digitInUnits. cbv zeta.
  destruct (anyBelow 9 _) eqn:H1.
  - split; [intros _|done].
    apply anyBelow_true in H1 as (i & Hi & H1).
    rewrite !orb_true_iff, !cellIs_true in H1.
    destruct H1 as [[H1|H1]|H1]; [eauto|eauto|].
    right. right. exists (row / 3 * 3 + i / 3), (col / 3 * 3 + i mod 3).
    pose proof (Nat.div_mod_eq row 3). pose proof (Nat.div_mod_eq col 3).
    pose proof (Nat.mod_upper_bound row 3). pose proof (Nat.mod_upper_bound col 3).
    pose proof (Nat.mod_upper_bound i 3). pose proof (Nat.div_mod_eq i 3).
    repeat split; [lia|lia| | |done]; apply box_index_iff.
    + exists (i / 3). split; [lia|done].
    + exists (i mod 3). split; [lia|done].
  - split; [done|]. rewrite anyBelow_false in H1.
    intros [(x & Hx & Hc)|[(x & Hx & Hc)|(r & c & Hr & Hc & Hb1 & Hb2 & Hcell)]].
    + specialize (H1 x Hx). rewrite !orb_false_iff, !cellIs_false in H1. tauto.
    + specialize (H1 x Hx). rewrite !orb_false_iff, !cellIs_false in H1. tauto.
    + apply box_index_iff in Hb1 as (i & Hi & ->).
      apply box_index_iff in Hb2 as (j & Hj & ->).
      specialize (H1 (i * 3 + j)). rewrite !orb_false_iff, !cellIs_false in H1.
      replace ((i * 3 + j) / 3) with i in H1
        by (rewrite Nat.div_add_l, (Nat.div_small j 3); lia).
      replace ((i * 3 + j) mod 3) with j in H1
        by (rewrite Nat.add_comm, Nat.Div0.mod_add, Nat.mod_small; lia).
      assert (i * 3 + j < 9) by lia. tauto.
Qed.

Lemma Gen_isValidPlacement_eq (g : Grid) row col digit :
  row < 9 → col < 9 →
  Gen.isValidPlacement g row col digit = Core.isValidPlacement g row col digit.
Proof.
  intros Hrow Hcol.
  pose proof (Gen_isValidPlacement_false g row col digit Hrow Hcol) as HG.
  pose proof (Core_isValidPlacement_false g row col digit Hrow Hcol) as HC.
  destruct (Gen.isValidPlacement g row col digit),
           (Core.isValidPlacement g row col digit); try done.
  - assert (true = false); [|done]. apply HG, HC. done.
  - assert (true = false); [|done]. apply HC, HG. done.
Qed.

Lemma Core_isValidPlacement_true (g : Grid) row col digit :
  row < 9 → col < 9 →
  Core.isValidPlacement g row col digit = true ↔ safe g row col digit.
Proof.
  intros Hrow Hcol.
  pose proof (Core_isValidPlacement_false g row col digit Hrow Hcol) as HC.
  rewrite not_safe_iff in HC by done.
  destruct (Core.isValidPlacement g row col digit).
  - split; [intros _|done]. intros r c Hr Hc Hu Hcell.
    assert (Hns : ¬ safe g row col digit).
    { intros Hs. exact (Hs r c Hr Hc Hu Hcell). }
    apply HC in Hns. done.
  - split; [done|]. intros Hs. exfalso. by apply HC.
Qed.

(** ** The boolean checkers decide the predicates *)

Lemma shape9b_true (g : Grid) : shape9b g = true → shape9 g.
Proof.
  unfold shape9b, shape9. rewrite andb_true_iff, Nat.eqb_eq, forallb_forall.
  intros [Hlen Hrows]. split; [done|]. apply Forall_forall. intros row Hin.
  apply Nat.eqb_eq, Hrows. by apply list_elem_of_In.
Qed.

Lemma entriesb_true (g : Grid) : entriesb g = true → entries g.
Proof.
  unfold entriesb, entries. rewrite forallb_forall. intros H.
  apply Forall_forall. intros row Hin. apply Forall_forall. intros v Hv.
  apply list_elem_of_In in Hin, Hv. specialize (H row Hin).
  rewrite forallb_forall in H. specialize (H v Hv). lia.
Qed.

Lemma fullb_true (g : Grid) : fullb g = true → full g.
Proof.
  unfold fullb, full. rewrite forallb_forall. intros H r c Hr Hc.
  specialize (H (r, c)). cbn [fst snd] in H.
  destruct (cell g r c) as [v|].
  - exists v. split; [done|].
    assert ((1 <=? v)%Z && (v <=? 9)%Z = true); [|lia].
    apply H, list_elem_of_In, elem_of_allCells. done.
  - exfalso. assert (false = true); [|done].
    apply H, list_elem_of_In, elem_of_allCells. done.
Qed.

Lemma validb_true (g : Grid) : shape9 g → validb g = true → valid g.
Proof.
  unfold validb, valid. intros Hs H r c r' c' v Hc Hc' Hv Hu.
  rewrite forallb_forall in H.
  destruct (cell_Some_lt _ _ _ _ Hs Hc), (cell_Some_lt _ _ _ _ Hs Hc').
  specialize (H (r, c)). rewrite forallb_forall in H.
  assert (Hin : In (r, c) allCells) by by apply list_elem_of_In, elem_of_allCells.
  assert (Hin' : In (r', c') allCells) by by apply list_elem_of_In, elem_of_allCells.
  specialize (H Hin (r', c') Hin'). cbn [fst snd] in H. rewrite Hc, Hc' in H.
  apply sameUnitb_true in Hu. rewrite Hu in H. rewrite Z.eqb_refl in H.
  destruct (Z.eqb_spec v 0); [done|]. cbn [negb orb] in H.
  apply andb_true_iff in H. rewrite !Nat.eqb_eq in H. done.
Qed.

(** ** Empty cells *)

Lemma length_filter_flip {A} `{EqDecision A} (P Q : A → bool) (l : list A) x :
  NoDup l → x ∈ l → P x = true → Q x = false →
  (∀ y, y ≠ x → Q y = P y) →
  length (List.filter P l) = S (length (List.filter Q l)).
Proof.
  intros Hnd Hin HP HQ Hrest. induction l as [|a l IH]; [by inversion Hin|].
  apply NoDup_cons in Hnd as [Hna Hnd]. simpl.
  destruct (decide (a = x)) as [->|Hax].
  - rewrite HP, HQ. simpl. f_equal.
    clear IH Hin. induction l as [|b l IH]; [done|]. simpl.
    apply not_elem_of_cons in Hna as [Hxb Hna].
    apply NoDup_cons in Hnd as [_ Hnd].
    rewrite (Hrest b) by done. destruct (P b); simpl; rewrite IH; done.
  - apply elem_of_cons in Hin as [->|Hin]; [done|].
    rewrite (Hrest a) by done. destruct (P a); simpl; rewrite IH; done.
Qed.

Lemma empties_le (g : Grid) : empties g ≤ 81.
Proof.
  unfold empties. rewrite <- length_allCells. apply List.filter_length_le.
Qed.

(** Filling an empty cell leaves one empty cell less. *)
Lemma empties_setCell (g : Grid) r c v :
  shape9 g → cell g r c = Some 0%Z → v ≠ 0%Z →
  empties g = S (empties (setCell g r c v)).
Proof.
  intros Hs Hc Hv. unfold empties.
  destruct (cell_Some_lt _ _ _ _ Hs Hc).
  apply (length_filter_flip _ _ _ (r, c)).
  - apply NoDup_allCells.
  - by apply elem_of_allCells.
  - simpl. by apply cellIs_true.
  - simpl. apply cellIs_false. rewrite cell_setCell_eq by (rewrite Hc; eauto).
    congruence.
  - intros [r' c'] Hne. simpl. unfold cellIs.
    rewrite cell_setCell_ne; [done|].
    destruct (decide (r = r')); [|auto]. right. congruence.
Qed.

Lemma empties_zero_full (g : Grid) :
  shape9 g → entries g → empties g = 0 → full g.
Proof.
  intros Hs Hent He r c Hr Hc.
  destruct (cell_is_Some g r c Hs Hr Hc) as [v Hv]. exists v. split; [done|].
  pose proof (entries_cell _ _ _ _ Hent Hv).
  destruct (decide (v = 0%Z)) as [->|]; [|lia].
  unfold empties in He. apply length_zero_iff_nil in He.
  assert (In (r, c) (List.filter (λ p : nat * nat, cellIs g p.1 p.2 0) allCells)).
  { apply filter_In. split; [by apply list_elem_of_In, elem_of_allCells|].
    simpl. by apply cellIs_true. }
  rewrite He in H0. done.
Qed.

Lemma empties_pos (g : Grid) r c :
  shape9 g → cell g r c = Some 0%Z → 0 < empties g.
Proof.
  intros Hs Hc. rewrite (empties_setCell g r c 1) by done. lia.
Qed.

(** ** Validity and completions under a placement *)

Lemma valid_setCell (g : Grid) r c d :
  shape9 g → valid g → cell g r c = Some 0%Z → safe g r c d →
  valid (setCell g r c d).
Proof.
  intros Hs Hval Hc Hsafe r1 c1 r2 c2 v H1 H2 Hv Hu.
  assert (Hs' := shape9_setCell g r c d Hs).
  destruct (cell_Some_lt _ _ _ _ Hs' H1), (cell_Some_lt _ _ _ _ Hs' H2).
  assert (Hset : cell (setCell g r c d) r c = Some d)
    by (apply cell_setCell_eq; rewrite Hc; eauto).
  destruct (decide (r = r1 ∧ c = c1)) as [[<- <-]|N1];
  destruct (decide (r = r2 ∧ c = c2)) as [[<- <-]|N2]; try done.
  - rewrite Hset in H1. rewrite cell_setCell_ne in H2 by (clear -N2; lia).
    exfalso. apply (Hsafe r2 c2); [done|done|done|congruence].
  - rewrite Hset in H2. rewrite cell_setCell_ne in H1 by (clear -N1; lia).
    exfalso. apply (Hsafe r1 c1); [done|done| |congruence].
    by apply sameUnit_sym.
  - rewrite cell_setCell_ne in H1 by (clear -N1; lia).
    rewrite cell_setCell_ne in H2 by (clear -N2; lia).
    eapply Hval; eauto.
Qed.

(** Emptying a cell keeps validity. *)
Lemma valid_clear (g : Grid) r c : valid g → valid (setCell g r c 0).
Proof.
  intros Hval r1 c1 r2 c2 v H1 H2 Hv Hu.
  assert (∀ r' c', cell (setCell g r c 0) r' c' = Some v → cell g r' c' = Some v)
    as Hback.
  { intros r' c' H. destruct (decide (r = r' ∧ c = c')) as [[<- <-]|N].
    - destruct (cell g r c) eqn:E.
      + rewrite cell_setCell_eq in H by (rewrite E; eauto). congruence.
      + unfold cell, setCell in *.
        destruct (g !! r) eqn:Er; [|by rewrite Er in H].
        rewrite list_lookup_insert_eq in H by (eapply lookup_lt_Some; eauto).
        rewrite list_insert_ge in H; [congruence|].
        by apply lookup_ge_None.
    - rewrite cell_setCell_ne in H by (clear -N; lia). done. }
  eapply Hval; eauto.
Qed.

(** A completion of [g] with [d] at the empty cell [(r, c)] is a completion
    of the grid with [d] placed there, and [d] is a legal candidate. *)
Lemma completion_place (g s : Grid) r c d :
  shape9 g → cell g r c = Some 0%Z → completion g s → cell s r c = Some d →
  completion (setCell g r c d) s ∧ safe g r c d ∧ (1 ≤ d ≤ 9)%Z.
Proof.
  intros Hs Hc (Hss & Hfull & Hval & Hext) Hd.
  destruct (cell_Some_lt _ _ _ _ Hs Hc) as [Hr Hcl].
  assert (Hd19 : (1 ≤ d ≤ 9)%Z).
  { destruct (Hfull r c Hr Hcl) as (v & Hv & Hv19). congruence. }
  split; [|split; [|done]].
  - split; [done|split; [done|split; [done|]]]. intros r' c' v Hv Hv0.
    destruct (decide (r = r' ∧ c = c')) as [[<- <-]|N].
    + rewrite cell_setCell_eq in Hv by (rewrite Hc; eauto). congruence.
    + rewrite cell_setCell_ne in Hv by (clear -N; lia). by apply Hext.
  - intros r' c' Hr' Hc' Hu Hg.
    assert (cell s r' c' = Some d) by (apply Hext; [done|lia]).
    destruct (Hval r c r' c' d) as [<- <-]; try done; [lia|].
    rewrite Hc in Hg. inversion Hg. lia.
Qed.

Lemma completion_unplace (g s : Grid) r c d :
  shape9 g → cell g r c = Some 0%Z → d ≠ 0%Z →
  completion (setCell g r c d) s → completion g s ∧ cell s r c = Some d.
Proof.
  intros Hs Hc Hd (Hss & Hfull & Hval & Hext). split.
  - split; [done|split; [done|split; [done|]]]. intros r' c' v Hv Hv0.
    apply Hext; [|done].
    rewrite cell_setCell_ne; [done|].
    destruct (decide (r = r')) as [<-|]; [|auto]. right. intros <-. congruence.
  - apply Hext; [|done]. apply cell_setCell_eq. rewrite Hc; eauto.
Qed.

(** A full valid grid is its own and only completion. *)
Lemma completion_full (g : Grid) :
  shape9 g → full g → valid g → completion g g.
Proof. intros. split; [done|split; [done|split; [done|auto]]]. Qed.

Lemma completion_full_unique (g s : Grid) :
  shape9 g → full g → completion g s → s = g.
Proof.
  intros Hs Hfull (Hss & _ & _ & Hext). apply grid_ext; [done|done|].
  intros r c Hr Hc. destruct (Hfull r c Hr Hc) as (v & Hv & Hv19).
  rewrite Hv. apply Hext; [done|lia].
Qed.

(** ** Counting completions *)

Lemma elem_of_digits d : d ∈ digits ↔ (1 ≤ d ≤ 9)%Z.
Proof.
  unfold digits. rewrite !elem_of_cons, elem_of_nil. lia.
Qed.

Lemma NoDup_digits : NoDup digits.
Proof. apply (bool_decide_unpack _). by vm_compute. Qed.

Lemma numCompletions_unique (g : Grid) n m :
  numCompletions g n → numCompletions g m → n = m.
Proof.
  intros (l1 & N1 & M1 & <-) (l2 & N2 & M2 & <-).
  apply Permutation_length, NoDup_Permutation; [done|done|].
  intros s. by rewrite M1, M2.
Qed.

Lemma numWith_unique (g : Grid) r c nums n m :
  numWith g r c nums n → numWith g r c nums m → n = m.
Proof.
  intros (l1 & N1 & M1 & <-) (l2 & N2 & M2 & <-).
  apply Permutation_length, NoDup_Permutation; [done|done|].
  intros s. by rewrite M1, M2.
Qed.

Lemma numWith_nil (g : Grid) r c : numWith g r c [] 0.
Proof.
  exists []. split; [constructor|split; [|done]].
  intros s. split; [by intros ?%elem_of_nil|].
  intros (_ & d & Hd%elem_of_nil & _). done.
Qed.

Lemma numWith_same_elements (g : Grid) r c nums nums' n :
  (∀ d, d ∈ nums ↔ d ∈ nums') → numWith g r c nums n → numWith g r c nums' n.
Proof.
  intros Hsame (sols & Hnd & Hmem & Hlen). exists sols.
  split; [done|split; [|done]]. intros s. rewrite Hmem.
  split; intros (Hc & d & Hd & Hcell); (split; [done|]); exists d;
    (split; [by apply Hsame|done]).
Qed.

(** The completions through a placed candidate add up. *)
Lemma numWith_cons (g : Grid) r c d rest m n :
  shape9 g → cell g r c = Some 0%Z → d ≠ 0%Z → d ∉ rest →
  numCompletions (setCell g r c d) m → numWith g r c rest n →
  numWith g r c (d :: rest) (m + n).
Proof.
  intros Hs Hc Hd Hnin (l1 & N1 & M1 & <-) (l2 & N2 & M2 & <-).
  exists (l1 ++ l2). split; [|split; [|by rewrite length_app]].
  - apply NoDup_app. split; [done|split; [|done]].
    intros s H1 H2. apply M1 in H1. apply M2 in H2.
    apply completion_unplace in H1 as [_ H1]; [|done..].
    destruct H2 as (_ & d' & Hd' & Hcell). congruence.
  - intros s. rewrite elem_of_app, M1, M2. split.
    + intros [H|(H & d' & Hd' & Hcell)].
      * apply completion_unplace in H as [H Hcell]; [|done..].
        split; [done|]. exists d. split; [left|done].
      * split; [done|]. exists d'. split; [by right|done].
    + intros (H & d' & Hd' & Hcell).
      apply elem_of_cons in Hd' as [->|Hd'].
      * left. by apply completion_place.
      * right. split; [done|]. by exists d'.
Qed.

(** A digit that no completion carries at [(r, c)] adds nothing. *)
Lemma numWith_skip (g : Grid) r c d rest n :
  (∀ s, completion g s → cell s r c ≠ Some d) →
  numWith g r c rest n → numWith g r c (d :: rest) n.
Proof.
  intros Hno (l & N & M & <-). exists l. split; [done|split; [|done]].
  intros s. rewrite M. split.
  - intros (H & d' & Hd' & Hcell). split; [done|]. exists d'.
    split; [by right|done].
  - intros (H & d' & Hd' & Hcell). split; [done|]. exists d'. split; [|done].
    apply elem_of_cons in Hd' as [->|Hd']; [|done]. by apply Hno in H.
Qed.

Lemma unsafe_no_completion (g : Grid) r c d :
  shape9 g → cell g r c = Some 0%Z → ¬ safe g r c d →
  ∀ s, completion g s → cell s r c ≠ Some d.
Proof.
  intros Hs Hc Hns s Hcomp Hcell.
  by apply (completion_place g s r c d) in Hcomp as (_ & Hsafe & _).
Qed.

(** Once every candidate of an empty cell is covered, all completions
    are. *)
Lemma numWith_all (g : Grid) r c nums n :
  shape9 g → cell g r c = Some 0%Z →
  (∀ d, (1 ≤ d ≤ 9)%Z → safe g r c d → d ∈ nums) →
  numWith g r c nums n → numCompletions g n.
Proof.
  intros Hs Hc Hall (l & N & M & <-). exists l. split; [done|split; [|done]].
  intros s. rewrite M. split; [tauto|]. intros Hcomp. split; [done|].
  destruct (cell_Some_lt _ _ _ _ Hs Hc) as [Hr Hcl].
  destruct Hcomp as (Hss & Hfull & Hrest).
  destruct (Hfull r c Hr Hcl) as (d & Hd & Hd19). exists d. split; [|done].
  apply (completion_place g s r c d) in Hd as (_ & Hsafe & _); [|done|done|].
  - by apply Hall.
  - by split; [|split].
Qed.

Lemma numCompletions_full (g : Grid) :
  shape9 g → full g → valid g → numCompletions g 1.
Proof.
  intros Hs Hfull Hval. exists [g].
  split; [apply NoDup_singleton|split; [|done]].
  intros s. rewrite list_elem_of_singleton. split.
  - intros ->. by apply completion_full.
  - by apply completion_full_unique.
Qed.

(** An empty cell without candidate leaves no completion. *)
Lemma numCompletions_dead (g : Grid) r c :
  shape9 g → cell g r c = Some 0%Z →
  (∀ d, (1 ≤ d ≤ 9)%Z → ¬ safe g r c d) → numCompletions g 0.
Proof.
  intros Hs Hc Hdead. apply (numWith_all g r c []); [done|done| |apply numWith_nil].
  intros d Hd Hsafe. by apply Hdead in Hsafe.
Qed.

Lemma empties_pos_cell (g : Grid) :
  0 < empties g → ∃ r c, cell g r c = Some 0%Z.
Proof.
  unfold empties. intros H.
  destruct (List.filter _ allCells) as [|[r c] l] eqn:E; [simpl in H; lia|].
  assert (Hin : In (r, c) (List.filter (λ p : nat * nat, cellIs g p.1 p.2 0) allCells))
    by (rewrite E; by left).
  apply filter_In in Hin as [_ Hin]. exists r, c. by apply cellIs_true.
Qed.

(** Every valid grid has a well-defined number of completions. *)
Lemma numCompletions_exists (g : Grid) :
  shape9 g → entries g → valid g → ∃ n, numCompletions g n.
Proof.
  remember (empties g) as k eqn:Hk. revert g Hk.
  induction k as [k IH] using lt_wf_ind. intros g Hk Hs Hent Hval.
  destruct (decide (k = 0)) as [->|Hpos].
  { exists 1. apply numCompletions_full; [done| |done].
    by apply empties_zero_full. }
  destruct (empties_pos_cell g) as (r & c & Hc); [lia|].
  destruct (cell_Some_lt _ _ _ _ Hs Hc) as [Hr Hcl].
  assert (Hnums : ∀ nums, NoDup nums → (∀ d, d ∈ nums → (1 ≤ d ≤ 9)%Z) →
            ∃ n, numWith g r c nums n).
  { induction nums as [|d rest IHn]; intros Hnd Hrange.
    - exists 0. apply numWith_nil.
    - apply NoDup_cons in Hnd as [Hnin Hnd].
      destruct IHn as [n Hn]; [done|by intros; apply Hrange; right|].
      assert (Hd : (1 ≤ d ≤ 9)%Z) by (apply Hrange; left).
      destruct (Core.isValidPlacement g r c d) eqn:Hv.
      + apply Core_isValidPlacement_true in Hv; [|done..].
        destruct (IH (empties (setCell g r c d))) with (g := setCell g r c d)
          as [m Hm]; try done.
        * rewrite Hk, (empties_setCell g r c d); [lia|done|done|lia].
        * by apply shape9_setCell.
        * apply entries_setCell; [done|lia].
        * by apply valid_setCell.
        * exists (m + n). apply numWith_cons; try done. lia.
      + exists n. apply numWith_skip; [|done].
        apply unsafe_no_completion; [done|done|].
        intros Hsafe. apply Core_isValidPlacement_true in Hsafe; [|done..].
        congruence. }
  destruct (Hnums digits) as [n Hn]; [apply NoDup_digits|by intros d ?%elem_of_digits|].
  exists n. apply (numWith_all g r c digits); [done|done| |done].
  intros d Hd _. by apply elem_of_digits.
Qed.

(** ** Shuffling and sorting *)

Lemma swap_Permutation {A} (a : list A) i j : swap a i j ≡ₚ a.
Proof.
  unfold swap. destruct (a !! i) as [x|] eqn:Hi; [|done].
  destruct (a !! j) as [y|] eqn:Hj; [|done].
  by apply Permutation_insert_swap.
Qed.

Lemma shuffleFrom_Permutation {A} i (a : list A) s : (shuffleFrom i a s).1 ≡ₚ a.
Proof.
  revert a s. induction i as [|i IH]; intros a s; [done|].
  simpl. rewrite IH. apply swap_Permutation.
Qed.

Lemma shuffle_Permutation {A} (a : list A) s : (shuffle a s).1 ≡ₚ a.
Proof. apply shuffleFrom_Permutation. Qed.

Lemma shuffle_elem_of {A} (a : list A) s x : x ∈ (shuffle a s).1 ↔ x ∈ a.
Proof. by rewrite shuffle_Permutation. Qed.

Lemma shuffle_NoDup {A} (a : list A) s : NoDup a → NoDup (shuffle a s).1.
Proof. by rewrite shuffle_Permutation. Qed.

Lemma shuffle_length {A} (a : list A) s : length (shuffle a s).1 = length a.
Proof. by rewrite shuffle_Permutation. Qed.

Lemma insertSorted_Permutation {A} (key : A → nat) x l :
  insertSorted key x l ≡ₚ x :: l.
Proof.
  induction l as [|y l IH]; [done|]. simpl.
  destruct (key x <=? key y); [done|]. rewrite IH. apply Permutation_swap.
Qed.

Lemma stableSort_Permutation {A} (key : A → nat) l : stableSort key l ≡ₚ l.
Proof.
  induction l as [|x l IH]; [done|]. simpl.
  rewrite insertSorted_Permutation. by rewrite IH.
Qed.

Lemma head_stableSort_elem_of {A} (key : A → nat) l x :
  head (stableSort key l) = Some x → x ∈ l.
Proof.
  intros H. rewrite <- (stableSort_Permutation key l).
  destruct (stableSort key l); [done|]. inversion H. left.
Qed.

Lemma head_stableSort_None {A} (key : A → nat) l :
  head (stableSort key l) = None → l = [].
Proof.
  intros H. destruct (stableSort key l) eqn:E; [|done].
  apply Permutation_nil_r. by rewrite <- E, stableSort_Permutation.
Qed.

(** ** Candidate lists *)

Lemma elem_of_Core_candidates (g : Grid) r c d :
  r < 9 → c < 9 →
  d ∈ List.filter (Core.isValidPlacement g r c) digits ↔
  (1 ≤ d ≤ 9)%Z ∧ safe g r c d.
Proof.
  intros Hr Hc. rewrite list_elem_of_In, filter_In, <- list_elem_of_In.
  by rewrite elem_of_digits, Core_isValidPlacement_true.
Qed.

Lemma Solver_possibilitiesOf_eq (g : Grid) r c :
  Solver.possibilitiesOf g r c = List.filter (Core.isValidPlacement g r c) digits.
Proof.
  unfold Solver.possibilitiesOf. apply filter_ext.
  intros d. apply Solver_isValidPlacement_eq.
Qed.

Lemma Gen_possibilitiesOf_eq (g : Grid) r c :
  r < 9 → c < 9 →
  Gen.possibilitiesOf g r c = List.filter (Core.isValidPlacement g r c) digits.
Proof.
  intros Hr Hc. unfold Gen.possibilitiesOf. apply filter_ext.
  intros d. by apply Gen_isValidPlacement_eq.
Qed.

Lemma NoDup_candidates (g : Grid) r c :
  NoDup (List.filter (Core.isValidPlacement g r c) digits).
Proof. apply NoDup_ListNoDup, List.NoDup_filter, NoDup_ListNoDup, NoDup_digits. Qed.

(** Counting through a candidate list of an empty cell. *)
Lemma numWith_exists (g : Grid) r c nums :
  shape9 g → entries g → valid g → cell g r c = Some 0%Z →
  NoDup nums → (∀ d, d ∈ nums → (1 ≤ d ≤ 9)%Z) →
  ∃ n, numWith g r c nums n.
Proof.
  intros Hs Hent Hval Hc.
  destruct (cell_Some_lt _ _ _ _ Hs Hc) as [Hr Hcl].
  induction nums as [|d rest IHn]; intros Hnd Hrange.
  - exists 0. apply numWith_nil.
  - apply NoDup_cons in Hnd as [Hnin Hnd].
    destruct IHn as [n Hn]; [done|by intros; apply Hrange; right|].
    assert (Hd : (1 ≤ d ≤ 9)%Z) by (apply Hrange; left).
    destruct (Core.isValidPlacement g r c d) eqn:Hv.
    + apply Core_isValidPlacement_true in Hv; [|done..].
      destruct (numCompletions_exists (setCell g r c d)) as [m Hm].
      * by apply shape9_setCell.
      * apply entries_setCell; [done|lia].
      * by apply valid_setCell.
      * exists (m + n). apply numWith_cons; try done. lia.
    + exists n. apply numWith_skip; [|done].
      apply unsafe_no_completion; [done|done|].
      intros Hsafe. apply Core_isValidPlacement_true in Hsafe; [|done..].
      congruence.
Qed.

(** The candidates of an empty cell account for all completions. *)
Lemma numWith_candidates (g : Grid) r c nums n :
  shape9 g → entries g → valid g → cell g r c = Some 0%Z →
  NoDup nums → (∀ d, d ∈ nums → (1 ≤ d ≤ 9)%Z) →
  (∀ d, (1 ≤ d ≤ 9)%Z → safe g r c d → d ∈ nums) →
  numCompletions g n → numWith g r c nums n.
Proof.
  intros Hs Hent Hval Hc Hnd Hrange Hall Hn.
  destruct (numWith_exists g r c nums) as [n' Hn']; try done.
  assert (numCompletions g n') by by apply (numWith_all g r c nums).
  by rewrite (numCompletions_unique g n n').
Qed.

(** ** sudoku-core.js: the solution counter *)

Lemma Core_countPossible_le (g : Grid) r c : Core.countPossible g r c ≤ 9.
Proof.
  unfold Core.countPossible.
  etransitivity; [apply List.filter_length_le|done].
Qed.

Lemma Core_scanRow_inv (g : Grid) i js st :
  scanInv g st → scanInv g (Core.scanRow g i js st).
Proof.
  revert st. induction js as [|j js IH]; intros st Hinv; [done|]. simpl.
  destruct (cellIs g i j 0) eqn:Hc; [|by apply IH].
  apply cellIs_true in Hc.
  destruct (Core.countPossible g i j =? 1); [done|].
  destruct (Core.countPossible g i j <? st.2); [|by apply IH].
  by apply IH.
Qed.

Lemma Core_scanRow_None (g : Grid) i js st :
  scanInv g st → (Core.scanRow g i js st).1 = None →
  st.1 = None ∧ ∀ j, j ∈ js → cell g i j ≠ Some 0%Z.
Proof.
  revert st. induction js as [|j js IH]; intros st Hinv Hnone.
  { split; [done|]. by intros j ?%elem_of_nil. }
  simpl in Hnone. destruct (cellIs g i j 0) eqn:Hc.
  - destruct (Core.countPossible g i j =? 1); [done|].
    destruct (Core.countPossible g i j <? st.2) eqn:Hlt.
    + apply IH in Hnone as [Hnone _]; [done|]. by apply cellIs_true.
    + destruct (IH st Hinv Hnone) as [Hst _]. exfalso.
      unfold scanInv in Hinv. rewrite Hst in Hinv.
      apply Nat.ltb_ge in Hlt. pose proof (Core_countPossible_le g i j). lia.
  - destruct (IH st Hinv Hnone) as [Hst Hjs]. split; [done|].
    intros j' [->|Hj']%elem_of_cons; [by apply cellIs_false|by apply Hjs].
Qed.

Lemma Core_scanRows_inv (g : Grid) rows st :
  scanInv g st → scanInv g (Core.scanRows g rows st).
Proof.
  revert st. induction rows as [|i rows IH]; intros st Hinv; [done|].
  cbn [Core.scanRows].
  destruct (_ && _); [by apply Core_scanRow_inv|].
  by apply IH, Core_scanRow_inv.
Qed.

Lemma Core_scanRows_None (g : Grid) rows st :
  scanInv g st → (Core.scanRows g rows st).1 = None →
  ∀ i j, i ∈ rows → j < 9 → cell g i j ≠ Some 0%Z.
Proof.
  revert st. induction rows as [|i rows IH]; intros st Hinv Hnone.
  { by intros i j ?%elem_of_nil. }
  cbn [Core.scanRows] in Hnone.
  assert (Hinv' := Core_scanRow_inv g i (seq 0 9) st Hinv).
  destruct (_ && _) eqn:Hb.
  - apply andb_true_iff in Hb as [Hb _]. apply bool_decide_eq_true in Hb.
    rewrite Hnone in Hb. by destruct Hb.
  - assert (Hthis : (Core.scanRow g i (seq 0 9) st).1 = None).
    { destruct (Core.scanRow g i (seq 0 9) st).1 as [[r c]|] eqn:E; [|done].
      exfalso. clear Hb.
      assert (∀ rows st, scanInv g st → is_Some st.1 →
                is_Some (Core.scanRows g rows st).1) as Hkeep.
      { clear. intros rows. induction rows as [|i rows IH]; intros st Hinv Hs; [done|].
        cbn [Core.scanRows]. assert (is_Some (Core.scanRow g i (seq 0 9) st).1) as Hs'.
        { destruct (Core.scanRow g i (seq 0 9) st).1 eqn:E; [eauto|].
          apply Core_scanRow_None in E as [E _]; [|done].
          rewrite E in Hs. by destruct Hs. }
        destruct (_ && _); [done|]. apply IH; [|done].
        by apply Core_scanRow_inv. }
      destruct (Hkeep rows (Core.scanRow g i (seq 0 9) st)) as [x Hx];
        [done|rewrite E; eauto|]. congruence. }
    apply Core_scanRow_None in Hthis as [_ Hthis]; [|done].
    intros i' j [->|Hi']%elem_of_cons Hj.
    + apply Hthis, elem_of_seq. lia.
    + eapply IH; eauto.
Qed.

Lemma Core_selectCell_Some (g : Grid) r c :
  Core.selectCell g = Some (r, c) → cell g r c = Some 0%Z.
Proof.
  unfold Core.selectCell. intros H.
  pose proof (Core_scanRows_inv g (seq 0 9) (None, 10) eq_refl) as Hinv.
  unfold scanInv in Hinv. by rewrite H in Hinv.
Qed.

Lemma no_empty_cell_full (g : Grid) :
  shape9 g → entries g →
  (∀ r c, r < 9 → c < 9 → cell g r c ≠ Some 0%Z) → full g.
Proof.
  intros Hs Hent Hne r c Hr Hc.
  destruct (cell_is_Some g r c Hs Hr Hc) as [v Hv]. exists v. split; [done|].
  pose proof (entries_cell _ _ _ _ Hent Hv).
  assert (v ≠ 0%Z); [|lia]. intros ->. by apply (Hne r c).
Qed.

Lemma Core_selectCell_None (g : Grid) :
  shape9 g → entries g → Core.selectCell g = None → full g.
Proof.
  intros Hs Hent H. apply no_empty_cell_full; [done|done|].
  intros r c Hr Hc.
  apply (Core_scanRows_None g (seq 0 9) (None, 10) eq_refl H); [|done].
  apply elem_of_seq. lia.
Qed.

Lemma Core_countDigits_spec (rec : Grid → nat → option (Grid * nat))
    (g : Grid) r c :
  shape9 g → entries g → valid g → cell g r c = Some 0%Z →
  (∀ d cnt m, (1 ≤ d ≤ 9)%Z → safe g r c d → cnt ≤ 2 →
     numCompletions (setCell g r c d) m →
     rec (setCell g r c d) cnt = Some (setCell g r c d, Nat.min (cnt + m) 2)) →
  ∀ nums cnt n, NoDup nums → (∀ d, d ∈ nums → (1 ≤ d ≤ 9)%Z) → cnt ≤ 2 →
    numWith g r c nums n →
    Core.countDigits rec r c nums g cnt = Some (g, Nat.min (cnt + n) 2).
Proof.
  intros Hs Hent Hval Hc Hrec.
  destruct (cell_Some_lt _ _ _ _ Hs Hc) as [Hr Hcl].
  induction nums as [|d rest IH]; intros cnt n Hnd Hrange Hcnt Hn.
  { rewrite (numWith_unique _ _ _ _ _ _ Hn (numWith_nil g r c)). simpl.
    do 2 f_equal. lia. }
  apply NoDup_cons in Hnd as [Hnin Hnd].
  assert (Hd : (1 ≤ d ≤ 9)%Z) by (apply Hrange; left).
  assert (Hrange' : ∀ d, d ∈ rest → (1 ≤ d ≤ 9)%Z) by (intros; apply Hrange; by right).
  destruct (numWith_exists g r c rest) as [n' Hn']; try done.
  cbn [Core.countDigits]. destruct (Core.isValidPlacement g r c d) eqn:Hv.
  - apply Core_isValidPlacement_true in Hv; [|done..].
    destruct (numCompletions_exists (setCell g r c d)) as [m Hm].
    { by apply shape9_setCell. }
    { apply entries_setCell; [done|lia]. }
    { by apply valid_setCell. }
    assert (n = m + n') as ->.
    { apply (numWith_unique g r c (d :: rest)); [done|].
      apply numWith_cons; try done. lia. }
    rewrite (Hrec d cnt m) by done. rewrite setCell_undo by done.
    destruct (2 <=? Nat.min (cnt + m) 2) eqn:Hcap.
    + apply Nat.leb_le in Hcap. do 2 f_equal. lia.
    + apply Nat.leb_gt in Hcap. rewrite (IH _ n') by (done || lia).
      do 2 f_equal. lia.
  - assert (n = n') as ->.
    { apply (numWith_unique g r c (d :: rest)); [done|].
      apply numWith_skip; [|done]. apply unsafe_no_completion; [done|done|].
      intros Hsafe. apply Core_isValidPlacement_true in Hsafe; [|done..].
      congruence. }
    by apply IH.
Qed.

(** The counter of sudoku-core.js: the grid comes back as it was and the
    counter is advanced by the number of completions, up to 2. *)
Lemma Core_countSolutionsFast_spec fuel (g : Grid) cnt n :
  empties g < fuel → shape9 g → entries g → valid g → cnt ≤ 2 →
  numCompletions g n →
  Core.countSolutionsFast fuel g cnt = Some (g, Nat.min (cnt + n) 2).
Proof.
  revert g cnt n. induction fuel as [|fuel IH]; intros g cnt n Hf Hs Hent Hval Hcnt Hn;
    [lia|].
  cbn [Core.countSolutionsFast]. destruct (2 <=? cnt) eqn:Hcap.
  { apply Nat.leb_le in Hcap. do 2 f_equal. lia. }
  apply Nat.leb_gt in Hcap.
  destruct (Core.selectCell g) as [[r c]|] eqn:Hsel.
  - apply Core_selectCell_Some in Hsel.
    apply (Core_countDigits_spec _ g r c); try done.
    + intros d cnt' m Hd Hsafe Hcnt' Hm. apply IH; try done.
      * rewrite (empties_setCell g r c d) in Hf; [lia|done|done|lia].
      * by apply shape9_setCell.
      * apply entries_setCell; [done|lia].
      * by apply valid_setCell.
    + apply NoDup_digits.
    + by intros d ?%elem_of_digits.
    + apply numWith_candidates; try done.
      * apply NoDup_digits.
      * by intros d ?%elem_of_digits.
      * intros d Hd _. by apply elem_of_digits.
  - apply Core_selectCell_None in Hsel; [|done..].
    rewrite (numCompletions_unique g n 1 Hn) by by apply numCompletions_full.
    do 2 f_equal. lia.
Qed.

(** ** sudoku-solver.js: the solution counter *)

Lemma Solver_emptyCells_elem (g : Grid) r c poss :
  (r, c, poss) ∈ Solver.emptyCells g ↔
  r < 9 ∧ c < 9 ∧ cell g r c = Some 0%Z ∧ poss = Solver.possibilitiesOf g r c.
Proof.
  unfold Solver.emptyCells. rewrite list_elem_of_omap. split.
  - intros ([r' c'] & Hin & H). cbn [fst snd] in H.
    destruct (cellIs g r' c' 0) eqn:Hc; [|done]. inversion H; subst.
    apply elem_of_allCells in Hin. apply cellIs_true in Hc. tauto.
  - intros (Hr & Hc & Hcell & ->). exists (r, c). split.
    + by apply elem_of_allCells.
    + cbn [fst snd]. apply cellIs_true in Hcell. by rewrite Hcell.
Qed.

Lemma Solver_mrvCell_Some (g : Grid) r c poss :
  Solver.mrvCell g = Some (r, c, poss) →
  cell g r c = Some 0%Z ∧ poss = Solver.possibilitiesOf g r c.
Proof.
  intros H. apply head_stableSort_elem_of, Solver_emptyCells_elem in H. tauto.
Qed.

Lemma Solver_mrvCell_None (g : Grid) :
  shape9 g → entries g → Solver.mrvCell g = None → full g.
Proof.
  intros Hs Hent H. apply head_stableSort_None in H.
  apply no_empty_cell_full; [done|done|]. intros r c Hr Hc Hcell.
  assert ((r, c, Solver.possibilitiesOf g r c) ∈ Solver.emptyCells g)
    by by apply Solver_emptyCells_elem.
  rewrite H in H0. by apply elem_of_nil in H0.
Qed.

Lemma Solver_countList_spec (rec : Grid → nat → option (Grid * nat))
    cap (g : Grid) r c :
  shape9 g → entries g → valid g → cell g r c = Some 0%Z →
  (∀ d cnt m, (1 ≤ d ≤ 9)%Z → safe g r c d → cnt ≤ cap →
     numCompletions (setCell g r c d) m →
     rec (setCell g r c d) cnt = Some (setCell g r c d, Nat.min (cnt + m) cap)) →
  ∀ nums cnt n, NoDup nums → (∀ d, d ∈ nums → (1 ≤ d ≤ 9)%Z) → cnt ≤ cap →
    numWith g r c nums n →
    Solver.countList rec cap r c nums g cnt = Some (g, Nat.min (cnt + n) cap).
Proof.
  intros Hs Hent Hval Hc Hrec.
  destruct (cell_Some_lt _ _ _ _ Hs Hc) as [Hr Hcl].
  induction nums as [|d rest IH]; intros cnt n Hnd Hrange Hcnt Hn.
  { rewrite (numWith_unique _ _ _ _ _ _ Hn (numWith_nil g r c)).
    cbn [Solver.countList]. do 2 f_equal. lia. }
  apply NoDup_cons in Hnd as [Hnin Hnd].
  assert (Hd : (1 ≤ d ≤ 9)%Z) by (apply Hrange; left).
  assert (Hrange' : ∀ d, d ∈ rest → (1 ≤ d ≤ 9)%Z) by (intros; apply Hrange; by right).
  destruct (numWith_exists g r c rest) as [n' Hn']; try done.
  cbn [Solver.countList]. rewrite Solver_isValidPlacement_eq.
  destruct (Core.isValidPlacement g r c d) eqn:Hv.
  - apply Core_isValidPlacement_true in Hv; [|done..].
    destruct (numCompletions_exists (setCell g r c d)) as [m Hm].
    { by apply shape9_setCell. }
    { apply entries_setCell; [done|lia]. }
    { by apply valid_setCell. }
    assert (n = m + n') as ->.
    { apply (numWith_unique g r c (d :: rest)); [done|].
      apply numWith_cons; try done. lia. }
    rewrite (Hrec d cnt m) by done. rewrite setCell_undo by done.
    destruct (cap <=? Nat.min (cnt + m) cap) eqn:Hcap.
    + apply Nat.leb_le in Hcap. do 2 f_equal. lia.
    + apply Nat.leb_gt in Hcap. rewrite (IH _ n') by (done || lia).
      do 2 f_equal. lia.
  - assert (n = n') as ->.
    { apply (numWith_unique g r c (d :: rest)); [done|].
      apply numWith_skip; [|done]. apply unsafe_no_completion; [done|done|].
      intros Hsafe. apply Core_isValidPlacement_true in Hsafe; [|done..].
      congruence. }
    by apply IH.
Qed.

Lemma Solver_backtrack_spec fuel cap (g : Grid) cnt n :
  empties g < fuel → shape9 g → entries g → valid g → cnt ≤ cap →
  numCompletions g n →
  Solver.backtrack fuel cap g cnt = Some (g, Nat.min (cnt + n) cap).
Proof.
  revert g cnt n. induction fuel as [|fuel IH]; intros g cnt n Hf Hs Hent Hval Hcnt Hn;
    [lia|].
  cbn [Solver.backtrack]. destruct (cap <=? cnt) eqn:Hcap.
  { apply Nat.leb_le in Hcap. do 2 f_equal. lia. }
  apply Nat.leb_gt in Hcap.
  destruct (Solver.mrvCell g) as [[[r c] poss]|] eqn:Hsel.
  - apply Solver_mrvCell_Some in Hsel as [Hc ->].
    destruct (cell_Some_lt _ _ _ _ Hs Hc) as [Hr Hcl].
    rewrite Solver_possibilitiesOf_eq.
    assert (Hnw : numWith g r c (List.filter (Core.isValidPlacement g r c) digits) n).
    { apply numWith_candidates; try done.
      - apply NoDup_candidates.
      - intros d Hd. by apply elem_of_Core_candidates in Hd as [Hd _].
      - intros d Hd Hsafe. by apply elem_of_Core_candidates. }
    destruct (length _ =? 0) eqn:Hlen.
    + apply Nat.eqb_eq, length_zero_iff_nil in Hlen. rewrite Hlen in Hnw.
      rewrite (numWith_unique _ _ _ _ _ _ Hnw (numWith_nil g r c)).
      do 2 f_equal. lia.
    + apply (Solver_countList_spec _ cap g r c); try done.
      * intros d cnt' m Hd Hsafe Hcnt' Hm. apply IH; try done.
        -- rewrite (empties_setCell g r c d) in Hf; [lia|done|done|lia].
        -- by apply shape9_setCell.
        -- apply entries_setCell; [done|lia].
        -- by apply valid_setCell.
      * apply NoDup_candidates.
      * intros d Hd. by apply elem_of_Core_candidates in Hd as [Hd _].
  - apply Solver_mrvCell_None in Hsel; [|done..].
    rewrite (numCompletions_unique g n 1 Hn) by by apply numCompletions_full.
    do 2 f_equal. lia.
Qed.

(** ** The generator script: the solution counter *)

Lemma Gen_scanPrune_None (g : Grid) cells minP best :
  Gen.scanPrune g cells minP best = None →
  ∃ r c, cell g r c = Some 0%Z ∧ Gen.possibilitiesOf g r c = [].
Proof.
  revert minP best. induction cells as [|[r c] cells IH]; intros minP best H; [done|].
  cbn [Gen.scanPrune] in H. destruct (cellIs g r c 0) eqn:Hc; [|by eapply IH].
  destruct (length _ =? 0) eqn:Hlen.
  - apply Nat.eqb_eq, length_zero_iff_nil in Hlen. apply cellIs_true in Hc. eauto.
  - destruct (_ <? _); by eapply IH.
Qed.

Lemma Gen_possibilitiesOf_length (g : Grid) r c :
  length (Gen.possibilitiesOf g r c) ≤ 9.
Proof.
  unfold Gen.possibilitiesOf. etransitivity; [apply List.filter_length_le|done].
Qed.

Lemma Gen_scanPrune_Some (g : Grid) cells minP best r c poss :
  bestInv g Gen.possibilitiesOf minP best →
  Gen.scanPrune g cells minP best = Some (Some (r, c, poss)) →
  cell g r c = Some 0%Z ∧ poss = Gen.possibilitiesOf g r c.
Proof.
  revert minP best. induction cells as [|[r' c'] cells IH]; intros minP best Hinv H.
  { cbn [Gen.scanPrune] in H. inversion H; subst. done. }
  cbn [Gen.scanPrune] in H.
  destruct (cellIs g r' c' 0) eqn:Hc; [|exact (IH _ _ Hinv H)].
  apply cellIs_true in Hc. destruct (length _ =? 0); [done|].
  destruct (_ <? _); [|exact (IH _ _ Hinv H)].
  refine (IH _ _ _ H). by split.
Qed.

Lemma Gen_scanPrune_Some_None (g : Grid) cells minP best :
  bestInv g Gen.possibilitiesOf minP best →
  Gen.scanPrune g cells minP best = Some None →
  best = None ∧ ∀ r c, (r, c) ∈ cells → cell g r c ≠ Some 0%Z.
Proof.
  revert minP best. induction cells as [|[r' c'] cells IH]; intros minP best Hinv H.
  { cbn [Gen.scanPrune] in H. inversion H; subst. split; [done|].
    by intros r c ?%elem_of_nil. }
  cbn [Gen.scanPrune] in H. destruct (cellIs g r' c' 0) eqn:Hc.
  - apply cellIs_true in Hc. destruct (length _ =? 0); [done|].
    destruct (_ <? _) eqn:Hlt.
    + apply IH in H as [? _]; [done|by split].
    + apply IH in H as [-> _]; [|done]. simpl in Hinv. subst minP.
      apply Nat.ltb_ge in Hlt. pose proof (Gen_possibilitiesOf_length g r' c'). lia.
  - apply IH in H as [-> Hrest]; [|done]. split; [done|].
    intros r c [Heq|Hin]%elem_of_cons; [|by apply Hrest].
    inversion Heq; subst. by apply cellIs_false.
Qed.

Lemma Gen_scanBest_Some (g : Grid) cells minP best r c poss :
  bestInv g Gen.possibilitiesOf minP best →
  Gen.scanBest g cells minP best = Some (r, c, poss) →
  cell g r c = Some 0%Z ∧ poss = Gen.possibilitiesOf g r c.
Proof.
  revert minP best. induction cells as [|[r' c'] cells IH]; intros minP best Hinv H.
  { cbn [Gen.scanBest] in H. subst. done. }
  cbn [Gen.scanBest] in H.
  destruct (cellIs g r' c' 0) eqn:Hc; [|exact (IH _ _ Hinv H)].
  apply cellIs_true in Hc. destruct (_ <? _); [|exact (IH _ _ Hinv H)].
  refine (IH _ _ _ H). by split.
Qed.

Lemma Gen_scanBest_None (g : Grid) cells minP best :
  bestInv g Gen.possibilitiesOf minP best →
  Gen.scanBest g cells minP best = None →
  best = None ∧ ∀ r c, (r, c) ∈ cells → cell g r c ≠ Some 0%Z.
Proof.
  revert minP best. induction cells as [|[r' c'] cells IH]; intros minP best Hinv H.
  { cbn [Gen.scanBest] in H. subst. split; [done|]. by intros r c ?%elem_of_nil. }
  cbn [Gen.scanBest] in H. destruct (cellIs g r' c' 0) eqn:Hc.
  - apply cellIs_true in Hc. destruct (_ <? _) eqn:Hlt.
    + apply IH in H as [? _]; [done|by split].
    + apply IH in H as [-> _]; [|done]. simpl in Hinv. subst minP.
      apply Nat.ltb_ge in Hlt. pose proof (Gen_possibilitiesOf_length g r' c'). lia.
  - apply IH in H as [-> Hrest]; [|done]. split; [done|].
    intros r c [Heq|Hin]%elem_of_cons; [|by apply Hrest].
    inversion Heq; subst. by apply cellIs_false.
Qed.

Lemma no_empty_in_allCells_full (g : Grid) :
  shape9 g → entries g →
  (∀ r c, (r, c) ∈ allCells → cell g r c ≠ Some 0%Z) → full g.
Proof.
  intros Hs Hent H. apply no_empty_cell_full; [done|done|].
  intros r c Hr Hc. by apply H, elem_of_allCells.
Qed.

Lemma Gen_countAll_spec
    (rec : Grid → nat → Rng → option (bool * Grid * nat * Rng)) (g : Grid) r c :
  shape9 g → entries g → valid g → cell g r c = Some 0%Z →
  (∀ d cnt m s, (1 ≤ d ≤ 9)%Z → safe g r c d → cnt ≤ 2 →
     numCompletions (setCell g r c d) m →
     ∃ s', rec (setCell g r c d) cnt s =
           Some (Nat.min (cnt + m) 2 <? 2, setCell g r c d, Nat.min (cnt + m) 2, s')) →
  ∀ nums cnt n s, NoDup nums →
    (∀ d, d ∈ nums → (1 ≤ d ≤ 9)%Z ∧ safe g r c d) → cnt < 2 →
    numWith g r c nums n →
    ∃ s', Gen.countAll rec r c nums g cnt s =
          Some (Nat.min (cnt + n) 2 <? 2, g, Nat.min (cnt + n) 2, s').
Proof.
  intros Hs Hent Hval Hc Hrec.
  induction nums as [|d rest IH]; intros cnt n s Hnd Hrange Hcnt Hn.
  { rewrite (numWith_unique _ _ _ _ _ _ Hn (numWith_nil g r c)).
    cbn [Gen.countAll]. exists s. rewrite Nat.add_0_r, Nat.min_l by lia.
    by rewrite (proj2 (Nat.ltb_lt _ _) Hcnt). }
  apply NoDup_cons in Hnd as [Hnin Hnd].
  destruct (Hrange d) as [Hd Hsafe]; [left|].
  assert (Hrange' : ∀ d, d ∈ rest → (1 ≤ d ≤ 9)%Z ∧ safe g r c d)
    by (intros; apply Hrange; by right).
  destruct (numWith_exists g r c rest) as [n' Hn']; try done.
  { intros d' Hd'. by apply Hrange'. }
  destruct (numCompletions_exists (setCell g r c d)) as [m Hm].
  { by apply shape9_setCell. }
  { apply entries_setCell; [done|lia]. }
  { by apply valid_setCell. }
  assert (n = m + n') as ->.
  { apply (numWith_unique g r c (d :: rest)); [done|].
    apply numWith_cons; try done. lia. }
  cbn [Gen.countAll].
  destruct (Hrec d cnt m s) as [s1 ->]; [done|done|lia|done|].
  rewrite setCell_undo by done.
  destruct (Nat.min (cnt + m) 2 <? 2) eqn:Hflag.
  - apply Nat.ltb_lt in Hflag.
    rewrite (proj2 (Nat.leb_gt 2 _)) by lia.
    destruct (IH (Nat.min (cnt + m) 2) n' s1) as [s2 ->]; try done.
    exists s2.
    by replace (Nat.min (Nat.min (cnt + m) 2 + n') 2)
      with (Nat.min (cnt + (m + n')) 2) by lia.
  - apply Nat.ltb_ge in Hflag. exists s1.
    replace (Nat.min (cnt + (m + n')) 2) with (Nat.min (cnt + m) 2) by lia.
    by rewrite (proj2 (Nat.ltb_ge _ _) Hflag).
Qed.

Lemma Gen_countSolutionsFast_spec fuel (g : Grid) cnt n s :
  empties g < fuel → shape9 g → entries g → valid g → cnt ≤ 2 →
  numCompletions g n →
  ∃ s', Gen.countSolutionsFast fuel g cnt s =
        Some (Nat.min (cnt + n) 2 <? 2, g, Nat.min (cnt + n) 2, s').
Proof.
  revert g cnt n s.
  induction fuel as [|fuel IH]; intros g cnt n s Hf Hs Hent Hval Hcnt Hn; [lia|].
  cbn [Gen.countSolutionsFast]. destruct (2 <=? cnt) eqn:Hcap.
  { apply Nat.leb_le in Hcap. exists s.
    replace (Nat.min (cnt + n) 2) with cnt by lia.
    by rewrite (proj2 (Nat.ltb_ge cnt 2)) by lia. }
  apply Nat.leb_gt in Hcap.
  destruct (Gen.scanPrune g allCells 10 None) as [[[[r c] poss]|]|] eqn:Hscan.
  - apply Gen_scanPrune_Some in Hscan as [Hc ->]; [|done].
    destruct (cell_Some_lt _ _ _ _ Hs Hc) as [Hr Hcl].
    rewrite Gen_possibilitiesOf_eq by done.
    destruct (shuffle _ s) as [nums s1] eqn:Hsh.
    assert (Hnums : ∀ d, d ∈ nums ↔ (1 ≤ d ≤ 9)%Z ∧ safe g r c d).
    { intros d. replace nums with (shuffle (List.filter (Core.isValidPlacement g r c) digits) s).1
        by by rewrite Hsh.
      by rewrite shuffle_elem_of, elem_of_Core_candidates. }
    apply (Gen_countAll_spec _ g r c); try done.
    + intros d cnt' m s0 Hd Hsafe Hcnt' Hm. apply IH; try done.
      * rewrite (empties_setCell g r c d) in Hf; [lia|done|done|lia].
      * by apply shape9_setCell.
      * apply entries_setCell; [done|lia].
      * by apply valid_setCell.
    + replace nums with (shuffle (List.filter (Core.isValidPlacement g r c) digits) s).1
        by by rewrite Hsh.
      apply shuffle_NoDup, NoDup_candidates.
    + intros d Hd. by apply Hnums.
    + apply numWith_candidates; try done.
      * replace nums with (shuffle (List.filter (Core.isValidPlacement g r c) digits) s).1
          by by rewrite Hsh.
        apply shuffle_NoDup, NoDup_candidates.
      * intros d Hd. by apply Hnums in Hd as [Hd _].
      * intros d Hd Hsafe. by apply Hnums.
  - apply Gen_scanPrune_Some_None in Hscan as [_ Hscan]; [|done].
    apply no_empty_in_allCells_full in Hscan; [|done..].
    rewrite (numCompletions_unique g n 1 Hn) by by apply numCompletions_full.
    exists s. replace (Nat.min (cnt + 1) 2) with (cnt + 1) by lia. done.
  - apply Gen_scanPrune_None in Hscan as (r & c & Hc & Hposs).
    destruct (cell_Some_lt _ _ _ _ Hs Hc) as [Hr Hcl].
    rewrite Gen_possibilitiesOf_eq in Hposs by done.
    assert (numCompletions g 0).
    { apply (numCompletions_dead g r c); [done|done|]. intros d Hd Hsafe.
      assert (d ∈ List.filter (Core.isValidPlacement g r c) digits)
        by by apply elem_of_Core_candidates.
      rewrite Hposs in H. by apply elem_of_nil in H. }
    rewrite (numCompletions_unique g n 0 Hn) by done.
    exists s. rewrite Nat.add_0_r, Nat.min_l by lia.
    by rewrite (proj2 (Nat.ltb_lt cnt 2)) by lia.
Qed.

(** ** sudoku-core.js: the solvers *)

Lemma Core_firstEmpty_Some (g : Grid) r c :
  Core.firstEmpty g = Some (r, c) → cell g r c = Some 0%Z.
Proof.
  unfold Core.firstEmpty. intros H. apply find_some in H as [_ H].
  by apply cellIs_true.
Qed.

Lemma Core_firstEmpty_None (g : Grid) :
  shape9 g → entries g → Core.firstEmpty g = None → full g.
Proof.
  unfold Core.firstEmpty. intros Hs Hent H.
  apply no_empty_in_allCells_full; [done|done|]. intros r c Hin.
  apply list_elem_of_In in Hin.
  pose proof (find_none _ _ H _ Hin) as Hc. by apply cellIs_false.
Qed.

Lemma Core_emptyCells_elem (g : Grid) r c k :
  (r, c, k) ∈ Core.emptyCells g ↔
  r < 9 ∧ c < 9 ∧ cell g r c = Some 0%Z ∧ k = Core.countPossible g r c.
Proof.
  unfold Core.emptyCells. rewrite list_elem_of_omap. split.
  - intros ([r' c'] & Hin & H). cbn [fst snd] in H.
    destruct (cellIs g r' c' 0) eqn:Hc; [|done]. inversion H; subst.
    apply elem_of_allCells in Hin. apply cellIs_true in Hc. tauto.
  - intros (Hr & Hc & Hcell & ->). exists (r, c). split.
    + by apply elem_of_allCells.
    + cbn [fst snd]. apply cellIs_true in Hcell. by rewrite Hcell.
Qed.

Lemma Core_mrvCell_Some (g : Grid) r c :
  Core.mrvCell g = Some (r, c) → cell g r c = Some 0%Z.
Proof.
  unfold Core.mrvCell. intros H.
  destruct (stableSort _ _) as [|[[r' c'] k] l] eqn:E; [done|].
  inversion H; subst.
  assert ((r, c, k) ∈ Core.emptyCells g) as Hin.
  { eapply head_stableSort_elem_of. by rewrite E. }
  apply Core_emptyCells_elem in Hin. tauto.
Qed.

Lemma Core_mrvCell_None (g : Grid) :
  shape9 g → entries g → Core.mrvCell g = None → full g.
Proof.
  unfold Core.mrvCell. intros Hs Hent H.
  destruct (stableSort _ _) as [|[[r' c'] k] l] eqn:E; [|done].
  assert (Core.emptyCells g = []) as Hnil.
  { eapply head_stableSort_None. by rewrite E. }
  apply no_empty_cell_full; [done|done|]. intros r c Hr Hc Hcell.
  assert ((r, c, Core.countPossible g r c) ∈ Core.emptyCells g)
    by by apply Core_emptyCells_elem.
  rewrite Hnil in H0. by apply elem_of_nil in H0.
Qed.

(** Failure leaves the grid as it was: every placement has been undone. *)
Lemma Core_tryDigits_frame (rec : Grid → option (bool * Grid)) (g : Grid) r c :
  (∀ g1 g2, rec g1 = Some (false, g2) → g2 = g1) →
  cell g r c = Some 0%Z →
  ∀ nums g', Core.tryDigits rec r c nums g = Some (false, g') → g' = g.
Proof.
  intros Hrec Hc. induction nums as [|d rest IH]; intros g' H.
  { cbn [Core.tryDigits] in H. by inversion H. }
  cbn [Core.tryDigits] in H.
  destruct (Core.isValidPlacement g r c d); [|by apply IH].
  destruct (rec (setCell g r c d)) as [[[] g1]|] eqn:Hr; [done| |done].
  apply Hrec in Hr as ->. rewrite setCell_undo in H by done. by apply IH.
Qed.

Lemma Core_solveGrid_frame fuel (g g' : Grid) :
  Core.solveGrid fuel g = Some (false, g') → g' = g.
Proof.
  revert g g'. induction fuel as [|fuel IH]; intros g g' H; [done|].
  cbn [Core.solveGrid] in H.
  destruct (Core.firstEmpty g) as [[r c]|] eqn:Hsel; [|done].
  apply Core_firstEmpty_Some in Hsel.
  by apply (Core_tryDigits_frame _ g r c IH Hsel) in H.
Qed.

Lemma Core_solveGridWithMRV_frame fuel (g g' : Grid) :
  Core.solveGridWithMRV fuel g = Some (false, g') → g' = g.
Proof.
  revert g g'. induction fuel as [|fuel IH]; intros g g' H; [done|].
  cbn [Core.solveGridWithMRV] in H.
  destruct (Core.mrvCell g) as [[r c]|] eqn:Hsel; [|done].
  apply Core_mrvCell_Some in Hsel.
  by apply (Core_tryDigits_frame _ g r c IH Hsel) in H.
Qed.

(** With enough fuel the loop and the solvers return, on any 9x9 grid. *)
Lemma Core_tryDigits_total (rec : Grid → option (bool * Grid)) (g : Grid) r c :
  (∀ g1 g2, rec g1 = Some (false, g2) → g2 = g1) →
  (∀ d, d ≠ 0%Z → is_Some (rec (setCell g r c d))) →
  cell g r c = Some 0%Z →
  ∀ nums, (∀ d, d ∈ nums → d ≠ 0%Z) → is_Some (Core.tryDigits rec r c nums g).
Proof.
  intros Hframe Htot Hc. induction nums as [|d rest IH]; intros Hnz; [by eexists|].
  cbn [Core.tryDigits].
  assert (is_Some (Core.tryDigits rec r c rest g)) as Hrest.
  { apply IH. intros d' Hd'. apply Hnz. by right. }
  destruct (Core.isValidPlacement g r c d); [|done].
  destruct (Htot d) as [[[] g1] Hr]; [apply Hnz; left| |]; rewrite Hr; [by eexists|].
  apply Hframe in Hr as ->. by rewrite setCell_undo.
Qed.

Lemma digits_nonzero d : d ∈ digits → d ≠ 0%Z.
Proof. intros H%elem_of_digits. lia. Qed.

Lemma Core_solveGrid_total fuel (g : Grid) :
  shape9 g → empties g < fuel → is_Some (Core.solveGrid fuel g).
Proof.
  revert g. induction fuel as [|fuel IH]; intros g Hs Hf; [lia|].
  cbn [Core.solveGrid].
  destruct (Core.firstEmpty g) as [[r c]|] eqn:Hsel; [|by eexists].
  apply Core_firstEmpty_Some in Hsel.
  apply Core_tryDigits_total; [apply Core_solveGrid_frame| |done|apply digits_nonzero].
  intros d Hd. apply IH; [by apply shape9_setCell|].
  rewrite (empties_setCell g r c d) in Hf by done. lia.
Qed.

Lemma Core_solveGridWithMRV_total fuel (g : Grid) :
  shape9 g → empties g < fuel → is_Some (Core.solveGridWithMRV fuel g).
Proof.
  revert g. induction fuel as [|fuel IH]; intros g Hs Hf; [lia|].
  cbn [Core.solveGridWithMRV].
  destruct (Core.mrvCell g) as [[r c]|] eqn:Hsel; [|by eexists].
  apply Core_mrvCell_Some in Hsel.
  apply Core_tryDigits_total;
    [apply Core_solveGridWithMRV_frame| |done|apply digits_nonzero].
  intros d Hd. apply IH; [by apply shape9_setCell|].
  rewrite (empties_setCell g r c d) in Hf by done. lia.
Qed.

(** On a valid grid the answer is right. *)
Lemma solved_false_intro (g : Grid) r c (nums : list Z) :
  shape9 g → cell g r c = Some 0%Z →
  (∀ d, (1 ≤ d ≤ 9)%Z → safe g r c d → d ∈ nums) →
  (∀ d, d ∈ nums → safe g r c d → ¬ solvable (setCell g r c d)) →
  ¬ solvable g.
Proof.
  intros Hs Hc Hall Hno [s Hcomp].
  destruct (cell_Some_lt _ _ _ _ Hs Hc) as [Hr Hcl].
  assert (Hfull : full s) by (destruct Hcomp as (_ & ? & _); done).
  destruct (Hfull r c Hr Hcl) as (d & Hd & Hd19).
  destruct (completion_place g s r c d) as (Hcomp' & Hsafe & _); try done.
  apply (Hno d); [by apply Hall|done|by exists s].
Qed.

Lemma solved_true_intro (g g' : Grid) r c d :
  shape9 g → cell g r c = Some 0%Z → d ≠ 0%Z →
  completion (setCell g r c d) g' → completion g g'.
Proof. intros Hs Hc Hd H. by apply completion_unplace in H as [H _]. Qed.

Lemma Core_tryDigits_spec (rec : Grid → option (bool * Grid)) (g : Grid) r c :
  shape9 g → cell g r c = Some 0%Z →
  (∀ d, (1 ≤ d ≤ 9)%Z → safe g r c d →
     ∃ b g', rec (setCell g r c d) = Some (b, g') ∧ solved (setCell g r c d) b g') →
  ∀ nums, (∀ d, d ∈ nums → (1 ≤ d ≤ 9)%Z) →
    ∃ b g', Core.tryDigits rec r c nums g = Some (b, g') ∧
      if b then completion g g'
      else g' = g ∧ ∀ d, d ∈ nums → safe g r c d → ¬ solvable (setCell g r c d).
Proof.
  intros Hs Hc Hrec.
  destruct (cell_Some_lt _ _ _ _ Hs Hc) as [Hr Hcl].
  induction nums as [|d rest IH]; intros Hrange.
  { exists false, g. split; [done|]. split; [done|]. by intros d ?%elem_of_nil. }
  destruct IH as (b & g' & Hrest & Hres); [intros; apply Hrange; by right|].
  assert (Hd : (1 ≤ d ≤ 9)%Z) by (apply Hrange; left).
  cbn [Core.tryDigits]. destruct (Core.isValidPlacement g r c d) eqn:Hv.
  - apply Core_isValidPlacement_true in Hv; [|done..].
    destruct (Hrec d Hd Hv) as ([] & g1 & -> & Hsol).
    + exists true, g1. split; [done|]. apply (solved_true_intro g g1 r c d); [done..|lia|done].
    + destruct Hsol as [-> Hno]. rewrite setCell_undo by done.
      exists b, g'. split; [done|]. destruct b; [done|].
      destruct Hres as [-> Hres]. split; [done|].
      intros d' [->|Hd']%elem_of_cons Hsafe; [done|by apply Hres].
  - exists b, g'. split; [done|]. destruct b; [done|].
    destruct Hres as [-> Hres]. split; [done|].
    intros d' [->|Hd']%elem_of_cons Hsafe; [|by apply Hres].
    apply Core_isValidPlacement_true in Hsafe; [congruence|done..].
Qed.

Lemma Core_solveGrid_spec fuel (g : Grid) :
  empties g < fuel → shape9 g → entries g → valid g →
  ∃ b g', Core.solveGrid fuel g = Some (b, g') ∧ solved g b g'.
Proof.
  revert g. induction fuel as [|fuel IH]; intros g Hf Hs Hent Hval; [lia|].
  cbn [Core.solveGrid].
  destruct (Core.firstEmpty g) as [[r c]|] eqn:Hsel.
  - apply Core_firstEmpty_Some in Hsel.
    destruct (Core_tryDigits_spec (Core.solveGrid fuel) g r c) with (nums := digits)
      as (b & g' & Hrun & Hres); try done.
    + intros d Hd Hsafe. apply IH.
      * rewrite (empties_setCell g r c d) in Hf; [lia|done|done|lia].
      * by apply shape9_setCell.
      * apply entries_setCell; [done|lia].
      * by apply valid_setCell.
    + by intros d ?%elem_of_digits.
    + exists b, g'. split; [done|]. destruct b; [done|].
      destruct Hres as [-> Hres]. split; [done|].
      apply (solved_false_intro g r c digits); try done.
      intros d Hd _. by apply elem_of_digits.
  - apply Core_firstEmpty_None in Hsel; [|done..].
    exists true, g. split; [done|]. by apply completion_full.
Qed.

Lemma Core_solveGridWithMRV_spec fuel (g : Grid) :
  empties g < fuel → shape9 g → entries g → valid g →
  ∃ b g', Core.solveGridWithMRV fuel g = Some (b, g') ∧ solved g b g'.
Proof.
  revert g. induction fuel as [|fuel IH]; intros g Hf Hs Hent Hval; [lia|].
  cbn [Core.solveGridWithMRV].
  destruct (Core.mrvCell g) as [[r c]|] eqn:Hsel.
  - apply Core_mrvCell_Some in Hsel.
    destruct (Core_tryDigits_spec (Core.solveGridWithMRV fuel) g r c)
      with (nums := digits) as (b & g' & Hrun & Hres); try done.
    + intros d Hd Hsafe. apply IH.
      * rewrite (empties_setCell g r c d) in Hf; [lia|done|done|lia].
      * by apply shape9_setCell.
      * apply entries_setCell; [done|lia].
      * by apply valid_setCell.
    + by intros d ?%elem_of_digits.
    + exists b, g'. split; [done|]. destruct b; [done|].
      destruct Hres as [-> Hres]. split; [done|].
      apply (solved_false_intro g r c digits); try done.
      intros d Hd _. by apply elem_of_digits.
  - apply Core_mrvCell_None in Hsel; [|done..].
    exists true, g. split; [done|]. by apply completion_full.
Qed.

(** ** sudoku-solver.js: the solver *)

Lemma Solver_tryList_frame (rec : Grid → Rng → option (bool * Grid * Rng))
    (g : Grid) r c :
  (∀ g1 s1 g2 s2, rec g1 s1 = Some (false, g2, s2) → g2 = g1) →
  cell g r c = Some 0%Z →
  ∀ nums s g' s', Solver.tryList rec r c nums g s = Some (false, g', s') → g' = g.
Proof.
  intros Hrec Hc. induction nums as [|d rest IH]; intros s g' s' H.
  { cbn [Solver.tryList] in H. by inversion H. }
  cbn [Solver.tryList] in H.
  destruct (Solver.isValidPlacement g r c d); [|by eapply IH].
  destruct (rec (setCell g r c d) s) as [[[[] g1] s1]|] eqn:Hr; [done| |done].
  apply Hrec in Hr as ->. rewrite setCell_undo in H by done. by eapply IH.
Qed.

Lemma Solver_solveGrid_frame fuel (g : Grid) randomize s g' s' :
  Solver.solveGrid fuel g randomize s = Some (false, g', s') → g' = g.
Proof.
  revert g s g' s'. induction fuel as [|fuel IH]; intros g s g' s' H; [done|].
  cbn [Solver.solveGrid] in H.
  destruct (Solver.mrvCell g) as [[[r c] poss]|] eqn:Hsel; [|done].
  apply Solver_mrvCell_Some in Hsel as [Hc _].
  destruct (if randomize && _ then _ else _) as [nums s1].
  eapply (Solver_tryList_frame _ g r c); [|done|exact H].
  intros g1 s2 g2 s3. apply IH.
Qed.

Lemma Solver_tryList_total (rec : Grid → Rng → option (bool * Grid * Rng))
    (g : Grid) r c :
  (∀ g1 s1 g2 s2, rec g1 s1 = Some (false, g2, s2) → g2 = g1) →
  (∀ d s, d ≠ 0%Z → is_Some (rec (setCell g r c d) s)) →
  cell g r c = Some 0%Z →
  ∀ nums s, (∀ d, d ∈ nums → d ≠ 0%Z) → is_Some (Solver.tryList rec r c nums g s).
Proof.
  intros Hframe Htot Hc. induction nums as [|d rest IH]; intros s Hnz; [by eexists|].
  cbn [Solver.tryList].
  assert (∀ s, is_Some (Solver.tryList rec r c rest g s)) as Hrest.
  { intros s0. apply IH. intros d' Hd'. apply Hnz. by right. }
  destruct (Solver.isValidPlacement g r c d); [|done].
  destruct (Htot d s) as [[[[] g1] s1] Hr]; [apply Hnz; left| |]; rewrite Hr;
    [by eexists|].
  apply Hframe in Hr as ->. by rewrite setCell_undo.
Qed.

Lemma Solver_moves_nonzero (g : Grid) r c randomize s d :
  d ∈ (if randomize && (1 <? length (Solver.possibilitiesOf g r c))
       then shuffle (Solver.possibilitiesOf g r c) s
       else (Solver.possibilitiesOf g r c, s)).1 ↔
  d ∈ Solver.possibilitiesOf g r c.
Proof.
  destruct (randomize && _); [|done]. apply shuffle_elem_of.
Qed.

Lemma elem_of_Solver_possibilitiesOf (g : Grid) r c d :
  r < 9 → c < 9 →
  d ∈ Solver.possibilitiesOf g r c ↔ (1 ≤ d ≤ 9)%Z ∧ safe g r c d.
Proof.
  intros. rewrite Solver_possibilitiesOf_eq. by apply elem_of_Core_candidates.
Qed.

Lemma Solver_solveGrid_total fuel (g : Grid) randomize s :
  shape9 g → empties g < fuel → is_Some (Solver.solveGrid fuel g randomize s).
Proof.
  revert g s. induction fuel as [|fuel IH]; intros g s Hs Hf; [lia|].
  cbn [Solver.solveGrid].
  destruct (Solver.mrvCell g) as [[[r c] poss]|] eqn:Hsel; [|by eexists].
  apply Solver_mrvCell_Some in Hsel as [Hc ->].
  destruct (cell_Some_lt _ _ _ _ Hs Hc) as [Hr Hcl].
  pose proof (Solver_moves_nonzero g r c randomize s) as Hmoves.
  destruct (if randomize && _ then _ else _) as [nums s1]. cbn [fst] in Hmoves.
  apply Solver_tryList_total; [|  |done|].
  - intros g1 s2 g2 s3. apply Solver_solveGrid_frame.
  - intros d s2 Hd. apply IH; [by apply shape9_setCell|].
    rewrite (empties_setCell g r c d) in Hf by done. lia.
  - intros d Hd%Hmoves. apply elem_of_Solver_possibilitiesOf in Hd as [Hd _]; lia.
Qed.

Lemma Solver_tryList_spec (rec : Grid → Rng → option (bool * Grid * Rng))
    (g : Grid) r c :
  shape9 g → cell g r c = Some 0%Z →
  (∀ d s, (1 ≤ d ≤ 9)%Z → safe g r c d →
     ∃ b g' s', rec (setCell g r c d) s = Some (b, g', s') ∧
                solved (setCell g r c d) b g') →
  ∀ nums s, (∀ d, d ∈ nums → (1 ≤ d ≤ 9)%Z) →
    ∃ b g' s', Solver.tryList rec r c nums g s = Some (b, g', s') ∧
      if b then completion g g'
      else g' = g ∧ ∀ d, d ∈ nums → safe g r c d → ¬ solvable (setCell g r c d).
Proof.
  intros Hs Hc Hrec.
  destruct (cell_Some_lt _ _ _ _ Hs Hc) as [Hr Hcl].
  induction nums as [|d rest IH]; intros s Hrange.
  { exists false, g, s. split; [done|]. split; [done|]. by intros d ?%elem_of_nil. }
  assert (Hrange' : ∀ d, d ∈ rest → (1 ≤ d ≤ 9)%Z) by (intros; apply Hrange; by right).
  assert (Hd : (1 ≤ d ≤ 9)%Z) by (apply Hrange; left).
  cbn [Solver.tryList]. rewrite Solver_isValidPlacement_eq.
  destruct (Core.isValidPlacement g r c d) eqn:Hv.
  - apply Core_isValidPlacement_true in Hv; [|done..].
    destruct (Hrec d s Hd Hv) as ([] & g1 & s1 & -> & Hsol).
    + exists true, g1, s1. split; [done|].
      apply (solved_true_intro g g1 r c d); [done..|lia|done].
    + destruct Hsol as [-> Hno]. rewrite setCell_undo by done.
      destruct (IH s1 Hrange') as (b & g' & s' & Hrest & Hres).
      exists b, g', s'. split; [done|]. destruct b; [done|].
      destruct Hres as [-> Hres]. split; [done|].
      intros d' [->|Hd']%elem_of_cons Hsafe; [done|by apply Hres].
  - destruct (IH s Hrange') as (b & g' & s' & Hrest & Hres).
    exists b, g', s'. split; [done|]. destruct b; [done|].
    destruct Hres as [-> Hres]. split; [done|].
    intros d' [->|Hd']%elem_of_cons Hsafe; [|by apply Hres].
    apply Core_isValidPlacement_true in Hsafe; [congruence|done..].
Qed.

Lemma Solver_solveGrid_spec fuel (g : Grid) randomize s :
  empties g < fuel → shape9 g → entries g → valid g →
  ∃ b g' s', Solver.solveGrid fuel g randomize s = Some (b, g', s') ∧ solved g b g'.
Proof.
  revert g s. induction fuel as [|fuel IH]; intros g s Hf Hs Hent Hval; [lia|].
  cbn [Solver.solveGrid].
  destruct (Solver.mrvCell g) as [[[r c] poss]|] eqn:Hsel.
  - apply Solver_mrvCell_Some in Hsel as [Hc ->].
    destruct (cell_Some_lt _ _ _ _ Hs Hc) as [Hr Hcl].
    pose proof (Solver_moves_nonzero g r c randomize s) as Hmoves.
    destruct (if randomize && _ then _ else _) as [nums s1]. cbn [fst] in Hmoves.
    destruct (Solver_tryList_spec (λ g0, Solver.solveGrid fuel g0 randomize) g r c)
      with (nums := nums) (s := s1) as (b & g' & s' & Hrun & Hres); try done.
    + intros d s2 Hd Hsafe. apply IH.
      * rewrite (empties_setCell g r c d) in Hf; [lia|done|done|lia].
      * by apply shape9_setCell.
      * apply entries_setCell; [done|lia].
      * by apply valid_setCell.
    + intros d Hd%Hmoves. by apply elem_of_Solver_possibilitiesOf in Hd as [Hd _].
    + exists b, g', s'. split; [done|]. destruct b; [done|].
      destruct Hres as [-> Hres]. split; [done|].
      apply (solved_false_intro g r c nums); try done.
      intros d Hd Hsafe. apply Hmoves. by apply elem_of_Solver_possibilitiesOf.
  - apply Solver_mrvCell_None in Hsel; [|done..].
    exists true, g, s. split; [done|]. by apply completion_full.
Qed.

(** ** The generator script: the solver *)

Lemma Gen_tryAll_frame (rec : Grid → Rng → option (bool * Grid * Rng))
    (g : Grid) r c :
  (∀ g1 s1 g2 s2, rec g1 s1 = Some (false, g2, s2) → g2 = g1) →
  cell g r c = Some 0%Z →
  ∀ nums s g' s', Gen.tryAll rec r c nums g s = Some (false, g', s') → g' = g.
Proof.
  intros Hrec Hc. induction nums as [|d rest IH]; intros s g' s' H.
  { cbn [Gen.tryAll] in H. by inversion H. }
  cbn [Gen.tryAll] in H.
  destruct (rec (setCell g r c d) s) as [[[[] g1] s1]|] eqn:Hr; [done| |done].
  apply Hrec in Hr as ->. rewrite setCell_undo in H by done. by eapply IH.
Qed.

Lemma Gen_scan_Some (g : Grid) r c poss :
  Gen.scanBest g allCells 10 None = Some (r, c, poss) →
  cell g r c = Some 0%Z ∧ poss = Gen.possibilitiesOf g r c.
Proof. by apply Gen_scanBest_Some. Qed.

Lemma Gen_scan_None (g : Grid) :
  shape9 g → entries g → Gen.scanBest g allCells 10 None = None → full g.
Proof.
  intros Hs Hent H. apply Gen_scanBest_None in H as [_ H]; [|done].
  by apply no_empty_in_allCells_full.
Qed.

Lemma Gen_solveGrid_frame fuel (g : Grid) s g' s' :
  Gen.solveGrid fuel g s = Some (false, g', s') → g' = g.
Proof.
  revert g s g' s'. induction fuel as [|fuel IH]; intros g s g' s' H; [done|].
  cbn [Gen.solveGrid] in H.
  destruct (Gen.scanBest g allCells 10 None) as [[[r c] poss]|] eqn:Hsel; [|done].
  apply Gen_scan_Some in Hsel as [Hc _].
  destruct (shuffle poss s) as [nums s1].
  eapply (Gen_tryAll_frame _ g r c); [|done|exact H].
  intros g1 s2 g2 s3. apply IH.
Qed.

Lemma Gen_tryAll_total (rec : Grid → Rng → option (bool * Grid * Rng))
    (g : Grid) r c :
  (∀ g1 s1 g2 s2, rec g1 s1 = Some (false, g2, s2) → g2 = g1) →
  (∀ d s, d ≠ 0%Z → is_Some (rec (setCell g r c d) s)) →
  cell g r c = Some 0%Z →
  ∀ nums s, (∀ d, d ∈ nums → d ≠ 0%Z) → is_Some (Gen.tryAll rec r c nums g s).
Proof.
  intros Hframe Htot Hc. induction nums as [|d rest IH]; intros s Hnz; [by eexists|].
  cbn [Gen.tryAll].
  destruct (Htot d s) as [[[[] g1] s1] Hr]; [apply Hnz; left| |]; rewrite Hr;
    [by eexists|].
  apply Hframe in Hr as ->. rewrite setCell_undo by done.
  apply IH. intros d' Hd'. apply Hnz. by right.
Qed.

Lemma elem_of_Gen_possibilitiesOf (g : Grid) r c d :
  r < 9 → c < 9 →
  d ∈ Gen.possibilitiesOf g r c ↔ (1 ≤ d ≤ 9)%Z ∧ safe g r c d.
Proof.
  intros. rewrite Gen_possibilitiesOf_eq by done. by apply elem_of_Core_candidates.
Qed.

Lemma Gen_solveGrid_total fuel (g : Grid) s :
  shape9 g → empties g < fuel → is_Some (Gen.solveGrid fuel g s).
Proof.
  revert g s. induction fuel as [|fuel IH]; intros g s Hs Hf; [lia|].
  cbn [Gen.solveGrid].
  destruct (Gen.scanBest g allCells 10 None) as [[[r c] poss]|] eqn:Hsel;
    [|by eexists].
  apply Gen_scan_Some in Hsel as [Hc ->].
  destruct (cell_Some_lt _ _ _ _ Hs Hc) as [Hr Hcl].
  pose proof (shuffle_elem_of (Gen.possibilitiesOf g r c) s) as Hmoves.
  destruct (shuffle _ s) as [nums s1]. cbn [fst] in Hmoves.
  apply Gen_tryAll_total; [| |done|].
  - intros g1 s2 g2 s3. apply Gen_solveGrid_frame.
  - intros d s2 Hd. apply IH; [by apply shape9_setCell|].
    rewrite (empties_setCell g r c d) in Hf by done. lia.
  - intros d Hd%Hmoves. apply elem_of_Gen_possibilitiesOf in Hd as [Hd _]; lia.
Qed.

Lemma Gen_tryAll_spec (rec : Grid → Rng → option (bool * Grid * Rng))
    (g : Grid) r c :
  shape9 g → cell g r c = Some 0%Z →
  (∀ d s, (1 ≤ d ≤ 9)%Z → safe g r c d →
     ∃ b g' s', rec (setCell g r c d) s = Some (b, g', s') ∧
                solved (setCell g r c d) b g') →
  ∀ nums s, (∀ d, d ∈ nums → (1 ≤ d ≤ 9)%Z ∧ safe g r c d) →
    ∃ b g' s', Gen.tryAll rec r c nums g s = Some (b, g', s') ∧
      if b then completion g g'
      else g' = g ∧ ∀ d, d ∈ nums → safe g r c d → ¬ solvable (setCell g r c d).
Proof.
  intros Hs Hc Hrec.
  induction nums as [|d rest IH]; intros s Hrange.
  { exists false, g, s. split; [done|]. split; [done|]. by intros d ?%elem_of_nil. }
  assert (Hrange' : ∀ d, d ∈ rest → (1 ≤ d ≤ 9)%Z ∧ safe g r c d)
    by (intros; apply Hrange; by right).
  destruct (Hrange d) as [Hd Hv]; [left|].
  cbn [Gen.tryAll].
  destruct (Hrec d s Hd Hv) as ([] & g1 & s1 & -> & Hsol).
  - exists true, g1, s1. split; [done|].
    apply (solved_true_intro g g1 r c d); [done..|lia|done].
  - destruct Hsol as [-> Hno]. rewrite setCell_undo by done.
    destruct (IH s1 Hrange') as (b & g' & s' & Hrest & Hres).
    exists b, g', s'. split; [done|]. destruct b; [done|].
    destruct Hres as [-> Hres]. split; [done|].
    intros d' [->|Hd']%elem_of_cons Hsafe; [done|by apply Hres].
Qed.

Lemma Gen_solveGrid_spec fuel (g : Grid) s :
  empties g < fuel → shape9 g → entries g → valid g →
  ∃ b g' s', Gen.solveGrid fuel g s = Some (b, g', s') ∧ solved g b g'.
Proof.
  revert g s. induction fuel as [|fuel IH]; intros g s Hf Hs Hent Hval; [lia|].
  cbn [Gen.solveGrid].
  destruct (Gen.scanBest g allCells 10 None) as [[[r c] poss]|] eqn:Hsel.
  - apply Gen_scan_Some in Hsel as [Hc ->].
    destruct (cell_Some_lt _ _ _ _ Hs Hc) as [Hr Hcl].
    pose proof (shuffle_elem_of (Gen.possibilitiesOf g r c) s) as Hmoves.
    destruct (shuffle _ s) as [nums s1]. cbn [fst] in Hmoves.
    destruct (Gen_tryAll_spec (Gen.solveGrid fuel) g r c)
      with (nums := nums) (s := s1) as (b & g' & s' & Hrun & Hres); try done.
    + intros d s2 Hd Hsafe. apply IH.
      * rewrite (empties_setCell g r c d) in Hf; [lia|done|done|lia].
      * by apply shape9_setCell.
      * apply entries_setCell; [done|lia].
      * by apply valid_setCell.
    + intros d Hd%Hmoves. by apply elem_of_Gen_possibilitiesOf in Hd.
    + exists b, g', s'. split; [done|]. destruct b; [done|].
      destruct Hres as [-> Hres]. split; [done|].
      apply (solved_false_intro g r c nums); try done.
      intros d Hd Hsafe. apply Hmoves. by apply elem_of_Gen_possibilitiesOf.
  - apply Gen_scan_None in Hsel; [|done..].
    exists true, g, s. split; [done|]. by apply completion_full.
Qed.

(** ** Carving: what every carver maintains *)

Lemma entries_of_cells (g : Grid) :
  (∀ r c v, cell g r c = Some v → (0 ≤ v ≤ 9)%Z) → entries g.
Proof.
  intros H. apply Forall_lookup. intros r row Hrow.
  apply Forall_lookup. intros c v Hv. apply (H r c v).
  unfold cell. by rewrite Hrow.
Qed.

Lemma full_entries (g : Grid) : shape9 g → full g → entries g.
Proof.
  intros Hs Hfull. apply entries_of_cells. intros r c v Hv.
  destruct (cell_Some_lt _ _ _ _ Hs Hv) as [Hr Hc].
  destruct (Hfull r c Hr Hc) as (w & Hw & Hw19). rewrite Hv in Hw.
  inversion Hw; subst. lia.
Qed.

Lemma full_empties (g : Grid) : full g → empties g = 0.
Proof.
  intros Hfull. unfold empties. apply length_zero_iff_nil.
  destruct (List.filter _ allCells) as [|[r c] l] eqn:E; [done|]. exfalso.
  assert (Hin : In (r, c) (List.filter (λ p : nat * nat, cellIs g p.1 p.2 0) allCells))
    by (rewrite E; by left).
  apply filter_In in Hin as [Hin Hc]. cbn [fst snd] in Hc.
  apply list_elem_of_In, elem_of_allCells in Hin as [Hr Hcl].
  apply cellIs_true in Hc. destruct (Hfull r c Hr Hcl) as (v & Hv & Hv19).
  rewrite Hc in Hv. inversion Hv. lia.
Qed.

Section Carving.

Variable f : Grid.
Hypothesis f_shape : shape9 f.
Hypothesis f_full : full f.
Hypothesis f_valid : valid f.

Lemma carved_init : carved f f.
Proof.
  split; [done|split; [by right|]]. intros s Hs.
  by apply completion_full_unique.
Qed.

Lemma carved_cell (p : Grid) r c v :
  carved f p → cell p r c = Some v → (0 ≤ v ≤ 9)%Z.
Proof.
  intros (Hs & Hagree & _) Hv.
  destruct (Hagree r c v Hv) as [->|Hf]; [lia|].
  apply (entries_cell f r c v); [|done]. by apply full_entries.
Qed.

Lemma carved_entries (p : Grid) : carved f p → entries p.
Proof. intros H. apply entries_of_cells. intros r c v. by apply carved_cell. Qed.

Lemma agree_valid (p : Grid) :
  (∀ r c v, cell p r c = Some v → v = 0%Z ∨ cell f r c = Some v) → valid p.
Proof.
  intros Hagree r c r' c' v H1 H2 Hv Hu.
  destruct (Hagree r c v H1) as [->|H1']; [done|].
  destruct (Hagree r' c' v H2) as [->|H2']; [done|].
  by apply (f_valid r c r' c' v).
Qed.

Lemma carved_valid (p : Grid) : carved f p → valid p.
Proof. intros (_ & Hagree & _). by apply agree_valid. Qed.

Lemma agree_completion (p : Grid) :
  (∀ r c v, cell p r c = Some v → v = 0%Z ∨ cell f r c = Some v) →
  completion p f.
Proof.
  intros Hagree. split; [done|split; [done|split; [done|]]].
  intros r c v Hv Hv0. destruct (Hagree r c v Hv); [done|done].
Qed.

Lemma carved_unique (p : Grid) : carved f p → uniquePuzzle p f.
Proof.
  intros (Hs & Hagree & Huniq). split; [by apply agree_completion|done].
Qed.

Lemma agree_clear (p : Grid) r c :
  (∀ r c v, cell p r c = Some v → v = 0%Z ∨ cell f r c = Some v) →
  ∀ r' c' v, cell (setCell p r c 0) r' c' = Some v →
             v = 0%Z ∨ cell f r' c' = Some v.
Proof.
  intros Hagree r' c' v Hv.
  destruct (decide (r = r' ∧ c = c')) as [[<- <-]|N].
  - destruct (cell p r c) eqn:E.
    + rewrite cell_setCell_eq in Hv by (rewrite E; eauto). left. congruence.
    + unfold cell, setCell in *.
      destruct (p !! r) eqn:Er; [|by rewrite Er in Hv].
      rewrite list_lookup_insert_eq in Hv by (eapply lookup_lt_Some; eauto).
      rewrite list_insert_ge in Hv; [congruence|]. by apply lookup_ge_None.
  - rewrite cell_setCell_ne in Hv by (clear -N; lia). by apply Hagree.
Qed.

(** What the uniqueness test sees after a cell has been emptied. *)
Lemma cleared_ready (p : Grid) r c :
  carved f p →
  shape9 (setCell p r c 0) ∧ entries (setCell p r c 0) ∧
  valid (setCell p r c 0) ∧ empties (setCell p r c 0) < 82 ∧
  completion (setCell p r c 0) f.
Proof.
  intros Hcar. pose proof Hcar as (Hs & Hagree & _).
  split; [by apply shape9_setCell|].
  split; [apply entries_setCell; [by apply carved_entries|lia]|].
  split; [by apply agree_valid, agree_clear|].
  split; [pose proof (empties_le (setCell p r c 0)); lia|].
  by apply agree_completion, agree_clear.
Qed.

(** A removal accepted by the uniqueness test keeps the state. *)
Lemma carved_clear (p : Grid) r c :
  carved f p → numCompletions (setCell p r c 0) 1 → carved f (setCell p r c 0).
Proof.
  intros Hcar (sols & Hnd & Hmem & Hlen).
  destruct (cleared_ready p r c Hcar) as (Hs' & _ & _ & _ & Hcomp).
  destruct Hcar as (Hs & Hagree & _).
  split; [done|split; [by apply agree_clear|]].
  destruct sols as [|s0 [|? ?]]; try done.
  assert (f = s0) as <-.
  { apply Hmem in Hcomp. by apply list_elem_of_singleton in Hcomp. }
  intros s Hcs. apply Hmem in Hcs. by apply list_elem_of_singleton in Hcs.
Qed.

(** Writing a digit of [f] back keeps the state. *)
Lemma carved_restore (p : Grid) r c v :
  carved f p → cell f r c = Some v → carved f (setCell p r c v).
Proof.
  intros (Hs & Hagree & Huniq) Hf.
  destruct (cell_Some_lt _ _ _ _ f_shape Hf) as [Hr Hc].
  destruct (f_full r c Hr Hc) as (w & Hw & Hw19).
  assert (w = v) as -> by congruence.
  assert (Hwrite : cell (setCell p r c v) r c = Some v)
    by by apply cell_setCell_eq, cell_is_Some.
  split; [by apply shape9_setCell|split].
  - intros r' c' v' Hv'.
    destruct (decide (r = r' ∧ c = c')) as [[<- <-]|N].
    + right. congruence.
    + rewrite cell_setCell_ne in Hv' by (clear -N; lia). by apply Hagree.
  - intros s Hcs. apply Huniq.
    destruct Hcs as (Hss & Hsfull & Hsval & Hext).
    split; [done|split; [done|split; [done|]]].
    intros r' c' v' Hv' Hv0.
    destruct (decide (r = r' ∧ c = c')) as [[<- <-]|N].
    + destruct (Hagree r c v' Hv') as [->|Hfv]; [done|].
      apply Hext; [|done]. congruence.
    + apply Hext; [|done]. by rewrite cell_setCell_ne by (clear -N; lia).
Qed.

(** Putting back the digit that was just taken out restores the puzzle. *)
Lemma clear_restore (p : Grid) r c v :
  cell p r c = Some v → setCell (setCell p r c 0) r c v = p.
Proof. intros H. rewrite setCell_setCell. by apply setCell_same. Qed.

End Carving.

(** ** Counting from zero with cap 2 *)

Lemma Solver_countSolutionsFast_spec fuel (g : Grid) n :
  empties g < fuel → shape9 g → entries g → valid g → numCompletions g n →
  Solver.countSolutionsFast fuel g 2 = Some (g, Nat.min n 2).
Proof.
  intros Hf Hs Hent Hval Hn. unfold Solver.countSolutionsFast, copyGrid.
  by rewrite (Solver_backtrack_spec fuel 2 g 0 n) by (done || lia).
Qed.

Lemma Core_hasUniqueSolution_spec fuel (g : Grid) n :
  empties g < fuel → shape9 g → entries g → valid g → numCompletions g n →
  Core.hasUniqueSolution fuel g = Some (g, n =? 1).
Proof.
  intros Hf Hs Hent Hval Hn. unfold Core.hasUniqueSolution, copyGrid.
  rewrite (Core_countSolutionsFast_spec fuel g 0 n) by (done || lia).
  do 2 f_equal. cbn [Nat.add]. destruct n as [|[|n]]; done.
Qed.

Lemma min2_eq_1 n : (Nat.min n 2 =? 1) = (n =? 1).
Proof. destruct n as [|[|n]]; done. Qed.

(** ** sudoku-solver.js: the carver *)

Section SolverCarver.

Variable f : Grid.
Hypothesis f_shape : shape9 f.
Hypothesis f_full : full f.
Hypothesis f_valid : valid f.
Variable fuel : nat.
Hypothesis enough : 82 ≤ fuel.

Lemma Solver_carve_spec positions :
  NoDup positions →
  ∀ p cellsToRemove removed,
    carved f p →
    (∀ r c, (r, c) ∈ positions → r < 9 ∧ c < 9 ∧ cell p r c = cell f r c) →
    (∀ r c v, (r, c, v) ∈ removed → cell f r c = Some v) →
    ∃ p' removed',
      Solver.carve fuel positions p cellsToRemove removed = Some (p', removed') ∧
      carved f p' ∧ (∀ r c v, (r, c, v) ∈ removed' → cell f r c = Some v).
Proof.
  induction positions as [|[row col] rest IH];
    intros Hnd p k removed Hcar Hpos Hrem.
  { exists p, removed. done. }
  apply NoDup_cons in Hnd as [Hnin Hnd].
  cbn [Solver.carve]. destruct (leZero k); [by exists p, removed|].
  destruct (Hpos row col) as (Hr & Hc & Hsame); [left|].
  destruct (cell_is_Some f row col f_shape Hr Hc) as [backup Hb].
  rewrite Hsame, Hb.
  destruct (cleared_ready f f_shape f_full f_valid p row col Hcar)
    as (Hs1 & Hent1 & Hval1 & Hemp1 & Hcomp1).
  destruct (numCompletions_exists _ Hs1 Hent1 Hval1) as [n Hn].
  rewrite (Solver_countSolutionsFast_spec fuel _ n) by (done || lia).
  rewrite min2_eq_1. destruct (n =? 1) eqn:Hn1; cbn [negb].
  - apply Nat.eqb_eq in Hn1 as ->. apply IH; [done| | |].
    + by apply carved_clear.
    + intros r c Hin. destruct (Hpos r c) as (? & ? & ?); [by right|].
      split; [done|split; [done|]]. rewrite cell_setCell_ne; [done|].
      destruct (decide (row = r)) as [->|]; [|auto]. right.
      intros ->. done.
    + intros r c v [Heq|Hin]%elem_of_cons; [|by apply Hrem].
      by inversion Heq; subst.
  - rewrite clear_restore by by rewrite Hsame. cbn [tail].
    apply IH; [done|done| |done]. intros r c Hin. apply Hpos. by right.
Qed.

Lemma Solver_restore_spec n removed p :
  carved f p → (∀ r c v, (r, c, v) ∈ removed → cell f r c = Some v) →
  carved f (Solver.restore n removed p).
Proof.
  revert removed p. induction n as [|n IH]; intros removed p Hcar Hrem; [done|].
  destruct removed as [|[[r c] v] rest]; [done|]. cbn [Solver.restore].
  apply IH.
  - apply carved_restore; [done..|]. apply Hrem. left.
  - intros r' c' v' Hin. apply Hrem. by right.
Qed.

Lemma allCells_positions (positions : list (nat * nat)) r c :
  positions ≡ₚ allCells → (r, c) ∈ positions → r < 9 ∧ c < 9.
Proof. intros Hp Hin. rewrite Hp in Hin. by apply elem_of_allCells. Qed.

(** [removeNumbers] returns, for every difficulty argument, a puzzle
    whose only completion is the full grid. *)
Lemma Solver_removeNumbers_spec difficulty s :
  ∃ p s', Solver.removeNumbers fuel f difficulty s = Some (Returned (p, s')) ∧
          uniquePuzzle p f.
Proof.
  unfold Solver.removeNumbers, copyGrid.
  pose proof (shuffle_Permutation allCells s) as Hperm.
  destruct (shuffle allCells s) as [positions s1]. cbn [fst] in Hperm.
  destruct (Solver_carve_spec positions) with (p := f) (removed := @nil (nat * nat * Z))
    (cellsToRemove := field Solver.removeCount
       match getProp Solver.difficultyLevels difficulty with
       | Undefined => Own Solver.medium
       | found => found
       end) as (p' & removed' & -> & Hcar & Hrem).
  - rewrite Hperm. apply NoDup_allCells.
  - by apply carved_init.
  - intros r c Hin. destruct (allCells_positions positions r c); done.
  - by intros r c v ?%elem_of_nil.
  - eexists _, s1. split; [done|]. apply carved_unique; [done..|].
    destruct (_ && _); [|done]. by apply Solver_restore_spec.
Qed.

End SolverCarver.

(** ** The generator script: the carver *)

Section GenCarver.

Variable f : Grid.
Hypothesis f_shape : shape9 f.
Hypothesis f_full : full f.
Hypothesis f_valid : valid f.
Variable fuel : nat.
Hypothesis enough : 82 ≤ fuel.

Lemma Gen_removeLoop_spec (positions : list (nat * nat)) count :
  (∀ r c, (r, c) ∈ positions → r < 9 ∧ c < 9) →
  ∀ posLength p removed attempts s,
    posLength ≤ length positions → carved f p →
    ∃ p' s',
      Gen.removeLoop fuel posLength positions p count removed attempts s
        = Some (p', s') ∧ carved f p'.
Proof.
  intros Hpos. induction posLength as [|posIndex IH];
    intros p removed attempts s Hlen Hcar.
  { exists p, s. done. }
  cbn [Gen.removeLoop]. destruct (_ && _); [|by exists p, s].
  destruct (lookup_lt_is_Some_2 positions posIndex) as [[row col] Hp]; [lia|].
  rewrite Hp. destruct (Hpos row col) as [Hr Hc].
  { eapply list_elem_of_lookup_2; eauto. }
  destruct Hcar as (Hs & Hagree & Huniq).
  destruct (cell_is_Some p row col Hs Hr Hc) as [temp Ht].
  destruct (cellIs p row col 0) eqn:Hz; cbn [negb].
  { apply IH; [lia|done]. }
  rewrite Ht. unfold Gen.cloneGrid, copyGrid.
  assert (Hcar : carved f p) by done.
  destruct (cleared_ready f f_shape f_full f_valid p row col Hcar)
    as (Hs1 & Hent1 & Hval1 & Hemp1 & Hcomp1).
  destruct (numCompletions_exists _ Hs1 Hent1 Hval1) as [n Hn].
  destruct (Gen_countSolutionsFast_spec fuel (setCell p row col 0) 0 n s)
    as [s1 ->]; try (done || lia).
  cbn [Nat.add]. rewrite min2_eq_1. destruct (n =? 1) eqn:Hn1.
  - apply Nat.eqb_eq in Hn1 as ->. apply IH; [lia|]. by apply carved_clear.
  - rewrite clear_restore by done. apply IH; [lia|done].
Qed.

(** [removeNumbers] returns, for every target count, a puzzle whose only
    completion is the full grid. *)
Lemma Gen_removeNumbers_spec count s :
  ∃ p s', Gen.removeNumbers fuel f count s = Some (p, s') ∧ uniquePuzzle p f.
Proof.
  unfold Gen.removeNumbers, Gen.cloneGrid, copyGrid.
  pose proof (shuffle_Permutation allCells s) as Hperm.
  destruct (shuffle allCells s) as [positions s1]. cbn [fst] in Hperm.
  destruct (Gen_removeLoop_spec positions count) with
    (posLength := length positions) (p := f) (removed := 0) (attempts := 0) (s := s1)
    as (p' & s' & -> & Hcar).
  - intros r c Hin. rewrite Hperm in Hin. by apply elem_of_allCells.
  - done.
  - by apply carved_init.
  - exists p', s'. split; [done|]. by apply carved_unique.
Qed.

End GenCarver.

(** ** sudoku-core.js: the carver *)

Lemma empties_clear (g : Grid) r c v :
  shape9 g → cell g r c = Some v → v ≠ 0%Z →
  empties (setCell g r c 0) = S (empties g).
Proof.
  intros Hs Hc Hv. unfold empties.
  destruct (cell_Some_lt _ _ _ _ Hs Hc).
  apply (length_filter_flip _ _ _ (r, c)).
  - apply NoDup_allCells.
  - by apply elem_of_allCells.
  - cbn [fst snd]. apply cellIs_true, cell_setCell_eq. rewrite Hc; eauto.
  - cbn [fst snd]. apply cellIs_false. congruence.
  - intros [r' c'] Hne. cbn [fst snd]. unfold cellIs.
    rewrite cell_setCell_ne; [done|].
    destruct (decide (r = r')); [|auto]. right. congruence.
Qed.

Lemma empties_lt_81_filled (g : Grid) :
  empties g < 81 → ∃ r c, r < 9 ∧ c < 9 ∧ cellIs g r c 0 = false.
Proof.
  intros H.
  destruct (existsb (λ p : nat * nat, negb (cellIs g p.1 p.2 0)) allCells) eqn:E.
  - apply existsb_exists in E as ([r c] & Hin & Hc).
    apply list_elem_of_In, elem_of_allCells in Hin. cbn [fst snd] in Hc.
    exists r, c. destruct (cellIs g r c 0); [done|tauto].
  - exfalso. unfold empties in H.
    assert (List.filter (λ p : nat * nat, cellIs g p.1 p.2 0) allCells = allCells)
      as Hall.
    { apply forallb_filter_id, forallb_forall. intros q Hq.
      destruct (cellIs g q.1 q.2 0) eqn:Hc; [done|].
      assert (existsb (λ p : nat * nat, negb (cellIs g p.1 p.2 0)) allCells = true);
        [|congruence].
      apply existsb_exists. exists q. by rewrite Hc. }
    rewrite Hall, length_allCells in H. lia.
Qed.

Section CoreCarver.

Variable f : Grid.
Hypothesis f_shape : shape9 f.
Hypothesis f_full : full f.
Hypothesis f_valid : valid f.
Variable searchFuel : nat.
Hypothesis enough : 82 ≤ searchFuel.
Variable k : nat.
Hypothesis k_le : k ≤ 81.

Lemma live_exists (p : Grid) removed (cells : list (nat * nat)) :
  cells ≡ₚ allCells → size removed = empties p → size removed < k →
  (∀ q, q ∈ removed → cellIs p q.1 q.2 0 = true) →
  existsb (live p removed) cells = true.
Proof.
  intros Hperm Hsize Hlt Hzero.
  destruct (empties_lt_81_filled p) as (r & c & Hr & Hc & Hcell); [lia|].
  apply existsb_exists. exists (r, c). split.
  - apply list_elem_of_In. rewrite Hperm. by apply elem_of_allCells.
  - unfold live. cbn [fst snd]. rewrite Hcell, orb_false_r.
    apply negb_true_iff, bool_decide_eq_false. intros Hin.
    apply Hzero in Hin. cbn [fst snd] in Hin. congruence.
Qed.

Lemma Core_carveLoop_spec :
  ∀ a b ph p removed cells attempts cellIndex s,
    carving f p removed cells cellIndex →
    k - size removed = a → 1000 - attempts = b →
    phase p removed cells cellIndex = ph →
    ∃ N, ∀ loopFuel, N ≤ loopFuel →
      ∃ p' s',
        Core.carveLoop loopFuel searchFuel p (Some k) removed cells
          attempts cellIndex s = Some (p', s') ∧ carved f p'.
Proof.
  induction a as [a IHa] using lt_wf_ind.
  induction b as [b IHb] using lt_wf_ind.
  induction ph as [ph IHph] using lt_wf_ind.
  intros p removed cells attempts cellIndex s
    (Hcar & Hperm & Hidx & Hsize & Hzero) Ha Hb Hph.
  destruct (ltOpt (size removed) (Some k) && (attempts <? 1000)) eqn:Hcond.
  2:{ exists 1. intros [|lf] Hlf; [lia|]. cbn [Core.carveLoop].
      rewrite Hcond. by exists p, s. }
  apply andb_true_iff in Hcond as Hcond'. destruct Hcond' as [Hlt Hatt].
  cbn [ltOpt] in Hlt. apply Nat.ltb_lt in Hlt, Hatt.
  assert (Hlen : length cells = 81) by by rewrite Hperm.
  (* the pass that the next read belongs to *)
  assert (∃ cells1 idx1 s1,
    (if length cells <=? cellIndex
     then let (cells', s') := shuffle cells s in (cells', 0, s')
     else (cells, cellIndex, s)) = (cells1, idx1, s1) ∧
    cells1 ≡ₚ allCells ∧ idx1 < 81 ∧ phase p removed cells1 idx1 ≤ ph)
    as (cells1 & idx1 & s1 & Hwrap & Hperm1 & Hidx1 & Hph1).
  { destruct (length cells <=? cellIndex) eqn:Hw.
    - apply Nat.leb_le in Hw.
      pose proof (shuffle_Permutation cells s) as Hsh.
      destruct (shuffle cells s) as [cells' s']. cbn [fst] in Hsh.
      exists cells', 0, s'. split; [done|]. split; [by rewrite Hsh|].
      split; [lia|]. subst ph. unfold phase.
      rewrite drop_0, (live_exists p removed cells') by (done || by rewrite Hsh).
      rewrite drop_ge by lia. cbn [existsb]. lia.
    - apply Nat.leb_gt in Hw. exists cells, cellIndex, s.
      split; [done|]. split; [done|]. split; [lia|]. lia. }
  destruct (lookup_lt_is_Some_2 cells1 idx1) as [[row col] Hq];
    [by rewrite Hperm1, length_allCells|].
  assert (Hrc : row < 9 ∧ col < 9).
  { apply elem_of_allCells. rewrite <- Hperm1.
    eapply list_elem_of_lookup_2; eauto. }
  destruct Hrc as [Hr Hc].
  pose proof Hcar as (Hs & Hagree & Huniq).
  destruct (bool_decide ((row, col) ∈ removed) || cellIs p row col 0) eqn:Hskip.
  - (* the cell is skipped *)
    destruct (IHph (phase p removed cells1 (idx1 + 1)))
      with (p := p) (removed := removed) (cells := cells1) (attempts := attempts)
           (cellIndex := idx1 + 1) (s := s1) as [N HN]; try done.
    + unfold phase in Hph1 |- *. rewrite (drop_S _ _ _ Hq) in Hph1.
      cbn [existsb] in Hph1. unfold live at 1 in Hph1. cbn [fst snd] in Hph1.
      rewrite Hskip in Hph1. cbn [negb orb] in Hph1.
      rewrite Nat.add_1_r. destruct (existsb _ _); lia.
    + split; [done|]. split; [done|]. split; [lia|]. done.
    + exists (S N). intros [|lf] Hlf; [lia|]. cbn [Core.carveLoop].
      rewrite Hcond, Hwrap, Hq, Hskip. apply HN. lia.
  - (* the cell is tried *)
    apply orb_false_iff in Hskip as Hskip'. destruct Hskip' as [Hnotin Hnz].
    apply bool_decide_eq_false in Hnotin.
    destruct (cell_is_Some p row col Hs Hr Hc) as [temp Ht].
    assert (Htemp : temp ≠ 0%Z).
    { intros ->. apply cellIs_true in Ht. congruence. }
    destruct (cleared_ready f f_shape f_full f_valid p row col Hcar)
      as (Hs1 & Hent1 & Hval1 & Hemp1 & Hcomp1).
    destruct (numCompletions_exists _ Hs1 Hent1 Hval1) as [n Hn].
    destruct (n =? 1) eqn:Hn1.
    + apply Nat.eqb_eq in Hn1 as ->.
      destruct (IHa (k - size ({[(row, col)]} ∪ removed)))
        with (b := 1000 - 0)
             (ph := phase (setCell p row col 0) ({[(row, col)]} ∪ removed)
                      cells1 (idx1 + 1))
             (p := setCell p row col 0) (removed := {[(row, col)]} ∪ removed)
             (cells := cells1) (attempts := 0) (cellIndex := idx1 + 1) (s := s1)
        as [N HN]; try done.
      * rewrite size_union, size_singleton by set_solver. lia.
      * split; [by apply carved_clear|]. split; [done|]. split; [lia|]. split.
        -- rewrite size_union, size_singleton by set_solver.
           rewrite (empties_clear p row col temp) by done. lia.
        -- intros [r' c'] [Heq%elem_of_singleton|Hin]%elem_of_union.
           ++ inversion Heq; subst. cbn [fst snd].
              apply cellIs_true, cell_setCell_eq. rewrite Ht; eauto.
           ++ cbn [fst snd]. unfold cellIs. rewrite cell_setCell_ne.
              ** by apply (Hzero (r', c')).
              ** destruct (decide (row = r')) as [->|]; [|auto]. right.
                 intros ->. done.
      * exists (S N). intros [|lf] Hlf; [lia|]. cbn [Core.carveLoop].
        rewrite Hcond, Hwrap, Hq, Hskip, Ht.
        rewrite (Core_hasUniqueSolution_spec searchFuel _ 1) by (done || lia).
        cbn [Nat.eqb]. apply HN. lia.
    + destruct (IHb (1000 - (attempts + 1)))
        with (ph := phase p removed cells1 (idx1 + 1))
             (p := p) (removed := removed)
             (cells := cells1) (attempts := attempts + 1)
             (cellIndex := idx1 + 1) (s := s1)
        as [N HN]; try done.
      * lia.
      * split; [done|]. split; [done|]. split; [lia|]. done.
      * exists (S N). intros [|lf] Hlf; [lia|]. cbn [Core.carveLoop].
        rewrite Hcond, Hwrap, Hq, Hskip, Ht.
        rewrite (Core_hasUniqueSolution_spec searchFuel _ n) by (done || lia).
        rewrite Hn1, clear_restore by done. apply HN. lia.
Qed.

End CoreCarver.

(** [removeNumbers] of sudoku-core.js: for every difficulty whose lookup
    is not [undefined], enough loop fuel yields a puzzle whose only
    completion is the full grid. *)
Lemma Core_removeNumbers_spec (f : Grid) searchFuel difficulty s :
  shape9 f → full f → valid f → 82 ≤ searchFuel →
  getProp Core.difficultyConfig difficulty ≠ Undefined →
  ∃ N, ∀ loopFuel, N ≤ loopFuel →
    ∃ p s', Core.removeNumbers loopFuel searchFuel f difficulty s
              = Some (Returned (p, s')) ∧ uniquePuzzle p f.
Proof.
  intros Hs Hfull Hval Hfuel Hdef. unfold Core.removeNumbers, copyGrid.
  pose proof (shuffle_Permutation allCells (advance s)) as Hperm.
  destruct (shuffle allCells (advance s)) as [cells s1]. cbn [fst] in Hperm.
  destruct (getProp Core.difficultyConfig difficulty) as [config| |] eqn:Hget;
    [| |done]; cbn [field].
  - set (k := 81 - ((randBelow (Core.maxClues config - Core.minClues config + 1) s).1
                    + Core.minClues config)).
    destruct (Core_carveLoop_spec f Hs Hfull Hval searchFuel Hfuel k)
      with (a := k - size (∅ : gset (nat * nat))) (b := 1000 - 0)
           (ph := phase f ∅ cells 0)
           (p := f) (removed := (∅ : gset (nat * nat))) (cells := cells)
           (attempts := 0) (cellIndex := 0) (s := s1) as [N HN]; try done.
    + subst k. lia.
    + split; [by apply carved_init|]. split; [done|]. split; [lia|]. split.
      * by rewrite size_empty, full_empties.
      * intros q Hq. set_solver.
    + exists N. intros loopFuel Hlf. destruct (HN loopFuel Hlf) as (p & s' & -> & Hcar).
      exists p, s'. split; [done|]. by apply carved_unique.
  - exists 1. intros [|lf] Hlf; [lia|]. cbn [Core.carveLoop ltOpt andb].
    exists f, s1. split; [done|]. apply carved_unique; [done..|]. by apply carved_init.
Qed.

(** ** The counters give the grid back, on any grid *)

Lemma Core_countDigits_frame (rec : Grid → nat → option (Grid * nat))
    (g : Grid) r c :
  (∀ g1 n g2 m, rec g1 n = Some (g2, m) → g2 = g1) →
  cell g r c = Some 0%Z →
  ∀ nums count g' n, Core.countDigits rec r c nums g count = Some (g', n) → g' = g.
Proof.
  intros Hrec Hc. induction nums as [|d rest IH]; intros count g' n H.
  { cbn [Core.countDigits] in H. by inversion H. }
  cbn [Core.countDigits] in H.
  destruct (Core.isValidPlacement g r c d); [|by eapply IH].
  destruct (rec (setCell g r c d) count) as [[g1 m]|] eqn:Hr; [|done].
  apply Hrec in Hr as ->. rewrite setCell_undo in H by done.
  destruct (2 <=? m); [by inversion H|by eapply IH].
Qed.

Lemma Core_countSolutionsFast_frame fuel (g : Grid) count g' n :
  Core.countSolutionsFast fuel g count = Some (g', n) → g' = g.
Proof.
  revert g count g' n. induction fuel as [|fuel IH]; intros g count g' n H; [done|].
  cbn [Core.countSolutionsFast] in H.
  destruct (2 <=? count); [by inversion H|].
  destruct (Core.selectCell g) as [[r c]|] eqn:Hsel; [|by inversion H].
  apply Core_selectCell_Some in Hsel.
  by apply (Core_countDigits_frame _ g r c IH Hsel) in H.
Qed.

Lemma Solver_countList_frame (rec : Grid → nat → option (Grid * nat))
    cap (g : Grid) r c :
  (∀ g1 n g2 m, rec g1 n = Some (g2, m) → g2 = g1) →
  cell g r c = Some 0%Z →
  ∀ nums count g' n,
    Solver.countList rec cap r c nums g count = Some (g', n) → g' = g.
Proof.
  intros Hrec Hc. induction nums as [|d rest IH]; intros count g' n H.
  { cbn [Solver.countList] in H. by inversion H. }
  cbn [Solver.countList] in H.
  destruct (Solver.isValidPlacement g r c d); [|by eapply IH].
  destruct (rec (setCell g r c d) count) as [[g1 m]|] eqn:Hr; [|done].
  apply Hrec in Hr as ->. rewrite setCell_undo in H by done.
  destruct (cap <=? m); [by inversion H|by eapply IH].
Qed.

Lemma Solver_backtrack_frame fuel cap (g : Grid) count g' n :
  Solver.backtrack fuel cap g count = Some (g', n) → g' = g.
Proof.
  revert g count g' n. induction fuel as [|fuel IH]; intros g count g' n H; [done|].
  cbn [Solver.backtrack] in H.
  destruct (cap <=? count); [by inversion H|].
  destruct (Solver.mrvCell g) as [[[r c] poss]|] eqn:Hsel; [|by inversion H].
  apply Solver_mrvCell_Some in Hsel as [Hc _].
  destruct (length poss =? 0); [by inversion H|].
  by apply (Solver_countList_frame _ cap g r c IH Hc) in H.
Qed.

Lemma Gen_countAll_frame
    (rec : Grid → nat → Rng → option (bool * Grid * nat * Rng)) (g : Grid) r c :
  (∀ g1 n s1 b g2 m s2, rec g1 n s1 = Some (b, g2, m, s2) → g2 = g1) →
  cell g r c = Some 0%Z →
  ∀ nums count s b g' n s',
    Gen.countAll rec r c nums g count s = Some (b, g', n, s') → g' = g.
Proof.
  intros Hrec Hc. induction nums as [|d rest IH]; intros count s b g' n s' H.
  { cbn [Gen.countAll] in H. by inversion H. }
  cbn [Gen.countAll] in H.
  destruct (rec (setCell g r c d) count s) as [[[[[] g1] m] s1]|] eqn:Hr; [| |done];
    apply Hrec in Hr as ->; rewrite setCell_undo in H by done.
  - destruct (2 <=? m); [by inversion H|by eapply IH].
  - by inversion H.
Qed.

Lemma Gen_countSolutionsFast_frame fuel (g : Grid) count s b g' n s' :
  Gen.countSolutionsFast fuel g count s = Some (b, g', n, s') → g' = g.
Proof.
  revert g count s b g' n s'.
  induction fuel as [|fuel IH]; intros g count s b g' n s' H; [done|].
  cbn [Gen.countSolutionsFast] in H.
  destruct (2 <=? count); [by inversion H|].
  destruct (Gen.scanPrune g allCells 10 None) as [[[[r c] poss]|]|] eqn:Hsel;
    [|by inversion H..].
  apply Gen_scanPrune_Some in Hsel as [Hc _]; [|done].
  destruct (shuffle poss s) as [nums s1].
  by apply (Gen_countAll_frame _ g r c IH Hc) in H.
Qed.

(** * The claims *)

Lemma canonical_shape : shape9 canonical.
Proof. by apply shape9b_true. Qed.

Lemma canonical_entries : entries canonical.
Proof. by apply entriesb_true. Qed.

Lemma canonical_full : full canonical.
Proof. by apply fullb_true. Qed.

Lemma canonical_valid : valid canonical.
Proof. apply validb_true; [apply canonical_shape|]. by vm_compute. Qed.

(** C1. On a 9x9 grid with entries in 0..9, for a cell address in range
    and a digit in 1..9, each of the three [isValidPlacement] functions
    returns false exactly when the digit already appears in the row, in
    the column or in the 3x3 box of the cell.  The functions only read the
    grid: they return a boolean and nothing else. *)
Theorem isValidPlacement_false_iff (g : Grid) (row col : nat) (digit : Z) :
  shape9 g → entries g → row < 9 → col < 9 → (1 ≤ digit ≤ 9)%Z →
  (Core.isValidPlacement g row col digit = false ↔ digitInUnits g row col digit) ∧
  (Solver.isValidPlacement g row col digit = false ↔ digitInUnits g row col digit) ∧
  (Gen.isValidPlacement g row col digit = false ↔ digitInUnits g row col digit).
Proof.
  intros _ _ Hrow Hcol _. split; [|split].
  - by apply Core_isValidPlacement_false.
  - rewrite Solver_isValidPlacement_eq. by apply Core_isValidPlacement_false.
  - by apply Gen_isValidPlacement_false.
Qed.

Lemma isValidPlacement_false_iff_witness :
  (Core.isValidPlacement canonical 4 4 3 = false ↔ digitInUnits canonical 4 4 3) ∧
  (Solver.isValidPlacement canonical 4 4 3 = false ↔ digitInUnits canonical 4 4 3) ∧
  (Gen.isValidPlacement canonical 4 4 3 = false ↔ digitInUnits canonical 4 4 3).
Proof.
  apply (isValidPlacement_false_iff canonical 4 4 3).
  - apply canonical_shape.
  - apply canonical_entries.
  - lia.
  - lia.
  - lia.
Defined.

(** C10. When the probed cell itself already holds the digit, each of the
    three [isValidPlacement] functions returns false: the row scan visits
    the probed cell too. *)
Theorem isValidPlacement_own_digit_false (g : Grid) (row col : nat) (d : Z) :
  shape9 g → (1 ≤ d ≤ 9)%Z → cell g row col = Some d →
  Core.isValidPlacement g row col d = false ∧
  Solver.isValidPlacement g row col d = false ∧
  Gen.isValidPlacement g row col d = false.
Proof.
  intros Hs Hd Hc. destruct (cell_Some_lt _ _ _ _ Hs Hc) as [Hrow Hcol].
  assert (Hin : digitInUnits g row col d) by (left; eauto).
  split; [|split].
  - by apply Core_isValidPlacement_false.
  - rewrite Solver_isValidPlacement_eq. by apply Core_isValidPlacement_false.
  - by apply Gen_isValidPlacement_false.
Qed.

Lemma isValidPlacement_own_digit_false_witness :
  Core.isValidPlacement canonical 2 5 3 = false ∧
  Solver.isValidPlacement canonical 2 5 3 = false ∧
  Gen.isValidPlacement canonical 2 5 3 = false.
Proof.
  apply (isValidPlacement_own_digit_false canonical 2 5 3).
  - apply canonical_shape.
  - lia.
  - reflexivity.
Defined.

(** ** Grids with open cells *)

Lemma completionb_true (g s : Grid) :
  shape9 g → completionb g s = true → completion g s.
Proof.
  intros Hg H. unfold completionb in H.
  apply andb_true_iff in H as [H Hag]. apply andb_true_iff in H as [H Hval].
  apply andb_true_iff in H as [Hs Hfull].
  apply shape9b_true in Hs. apply fullb_true in Hfull.
  apply (validb_true s Hs) in Hval.
  split; [done|split; [done|split; [done|]]]. intros r c v Hv Hv0.
  destruct (cell_Some_lt _ _ _ _ Hg Hv) as [Hr Hc].
  rewrite forallb_forall in Hag.
  specialize (Hag (r, c)). cbn [fst snd] in Hag. rewrite Hv in Hag.
  apply cellIs_true.
  destruct (Z.eqb v 0) eqn:E; [by apply Z.eqb_eq in E|].
  apply Hag, list_elem_of_In. by apply elem_of_allCells.
Qed.

Lemma twoRowsOpen_ready :
  shape9 twoRowsOpen ∧ entries twoRowsOpen ∧ valid twoRowsOpen.
Proof.
  assert (Hs : shape9 twoRowsOpen) by by apply shape9b_true.
  split; [done|]. split; [by apply entriesb_true|].
  apply validb_true; [done|]. by vm_compute.
Qed.

(** The list holds the completions of [twoRowsOpen]; it holds them all,
    since the uncapped counter of sudoku-solver.js finds eight. *)
Lemma twoRowsOpen_completions :
  NoDup twoRowsOpenCompletions ∧
  ∀ x, x ∈ twoRowsOpenCompletions ↔ completion twoRowsOpen x.
Proof.
  destruct twoRowsOpen_ready as (Hs & Hent & Hval).
  assert (Hnd : NoDup twoRowsOpenCompletions).
  { apply (bool_decide_unpack _). by vm_compute. }
  assert (Hin : ∀ x, x ∈ twoRowsOpenCompletions → completion twoRowsOpen x).
  { assert (H : forallb (completionb twoRowsOpen) twoRowsOpenCompletions = true)
      by by vm_compute.
    rewrite forallb_forall in H. intros x Hx.
    apply completionb_true; [done|]. by apply H, list_elem_of_In. }
  split; [done|]. intros x. split; [apply Hin|].
  destruct (numCompletions_exists twoRowsOpen Hs Hent Hval)
    as (n & sols & Hnd' & Hmem & Hlen).
  assert (Hn : n = 8).
  { pose proof (Solver_backtrack_spec 82 100 twoRowsOpen 0 n) as Hrun.
    assert (Hc : Solver.backtrack 82 100 twoRowsOpen 0 = Some (twoRowsOpen, 8))
      by by vm_compute.
    rewrite Hc in Hrun. pose proof (empties_le twoRowsOpen).
    assert (Some (twoRowsOpen, 8) = Some (twoRowsOpen, Nat.min (0 + n) 100)) as Heq.
    { apply Hrun; [lia|exact Hs|exact Hent|exact Hval|lia|].
      exists sols. split; [exact Hnd'|]. split; [exact Hmem|exact Hlen]. }
    inversion Heq. lia. }
  intros Hx. apply Hmem in Hx.
  assert (Hperm : twoRowsOpenCompletions ≡ₚ sols).
  { apply submseteq_length_Permutation.
    - apply NoDup_submseteq; [done|]. intros y Hy. by apply Hmem, Hin.
    - rewrite Hlen, Hn. done. }
  by rewrite Hperm.
Qed.

Lemma hardFail_shape : shape9 hardFail.
Proof. by apply shape9b_true. Qed.

(** C2. On a structurally valid 9x9 grid, each of the three solution
    counters, started at zero with cap 2 and given fuel for the 81 cells,
    returns the minimum of 2 and the number of distinct complete valid
    fillings of the grid, the number being the length of any duplicate-free
    list of all the fillings.  So the result is 0 for a grid without
    completion, 1 for exactly one and 2 for two or more. *)
Theorem countSolutions_min_2 (g : Grid) (sols : list Grid) (fuel : nat) (s : Rng) :
  shape9 g → entries g → valid g → 82 ≤ fuel →
  NoDup sols → (∀ x, x ∈ sols ↔ completion g x) →
  Solver.countSolutionsFast fuel g 2 = Some (g, Nat.min (length sols) 2) ∧
  Core.countSolutionsFast fuel g 0 = Some (g, Nat.min (length sols) 2) ∧
  ∃ s', Gen.countSolutionsFast fuel g 0 s
        = Some (Nat.min (length sols) 2 <? 2, g, Nat.min (length sols) 2, s').
Proof.
  intros Hs Hent Hval Hfuel Hnd Hsols.
  assert (Hn : numCompletions g (length sols)) by by exists sols.
  pose proof (empties_le g) as Hle.
  split; [|split].
  - apply Solver_countSolutionsFast_spec; (done || lia).
  - by rewrite (Core_countSolutionsFast_spec fuel g 0 (length sols)) by (done || lia).
  - destruct (Gen_countSolutionsFast_spec fuel g 0 (length sols) s) as [s' Hrun];
      try (done || lia).
    by exists s'.
Qed.

Lemma countSolutions_min_2_witness :
  Solver.countSolutionsFast 82 twoRowsOpen 2 = Some (twoRowsOpen, 2) ∧
  Core.countSolutionsFast 82 twoRowsOpen 0 = Some (twoRowsOpen, 2) ∧
  ∃ s', Gen.countSolutionsFast 82 twoRowsOpen 0 zeroRng
        = Some (false, twoRowsOpen, 2, s').
Proof.
  apply (countSolutions_min_2 twoRowsOpen twoRowsOpenCompletions 82 zeroRng).
  - apply twoRowsOpen_ready.
  - apply twoRowsOpen_ready.
  - apply twoRowsOpen_ready.
  - lia.
  - apply twoRowsOpen_completions.
  - apply twoRowsOpen_completions.
Defined.

(** C4. On a 9x9 grid, whenever one of the four solvers (the plain and the
    MRV solver of sudoku-core.js, the solver of sudoku-solver.js with or
    without randomization, the solver of the generator script) returns
    false, the grid it hands back is the grid it was given. *)
Theorem solver_false_restores_grid (g g' : Grid) (fuel : nat)
    (randomize : bool) (s s' : Rng) :
  shape9 g →
  Core.solveGrid fuel g = Some (false, g') ∨
  Core.solveGridWithMRV fuel g = Some (false, g') ∨
  Solver.solveGrid fuel g randomize s = Some (false, g', s') ∨
  Gen.solveGrid fuel g s = Some (false, g', s') →
  g' = g.
Proof.
  intros _ [H|[H|[H|H]]].
  - by apply Core_solveGrid_frame in H.
  - by apply Core_solveGridWithMRV_frame in H.
  - by apply Solver_solveGrid_frame in H.
  - by apply Gen_solveGrid_frame in H.
Qed.

Lemma deadEnd_shape : shape9 deadEnd.
Proof. by apply shape9b_true. Qed.

Lemma solver_false_restores_grid_witness :
  Core.solveGrid 2 hardFail = None ∧
  (∃ g', Core.solveGrid 82 hardFail = Some (false, g') ∧ g' = hardFail) ∧
  (∃ g', Core.solveGridWithMRV 82 hardFail = Some (false, g') ∧ g' = hardFail) ∧
  (∃ g' s', Solver.solveGrid 82 hardFail true zeroRng = Some (false, g', s') ∧
            g' = hardFail) ∧
  (∃ g' s', Gen.solveGrid 82 hardFail zeroRng = Some (false, g', s') ∧
            g' = hardFail).
Proof.
  split; [by vm_compute|]. split; [|split; [|split]].
  - eexists. split; [vm_compute; reflexivity|].
    apply (solver_false_restores_grid hardFail _ 82 false zeroRng zeroRng).
    + apply hardFail_shape.
    + left. vm_compute. reflexivity.
  - eexists. split; [vm_compute; reflexivity|].
    apply (solver_false_restores_grid hardFail _ 82 false zeroRng zeroRng).
    + apply hardFail_shape.
    + right. left. vm_compute. reflexivity.
  - eexists. eexists. split; [vm_compute; reflexivity|].
    eapply (solver_false_restores_grid hardFail _ 82 true zeroRng).
    + apply hardFail_shape.
    + right. right. left. vm_compute. reflexivity.
  - eexists. eexists. split; [vm_compute; reflexivity|].
    eapply (solver_false_restores_grid hardFail _ 82 true zeroRng).
    + apply hardFail_shape.
    + right. right. right. vm_compute. reflexivity.
Defined.

(** C6. On a 9x9 grid, every solution-counting operation hands the grid
    back unchanged: [countSolutionsFast] of sudoku-solver.js and
    [hasUniqueSolution] of sudoku-core.js work on a private copy, and the
    in-place counters of sudoku-core.js and of the generator script have
    undone every placement when they return. *)
Theorem countSolutions_restores_grid (g g' : Grid) (fuel count n : nat)
    (b : bool) (s s' : Rng) :
  shape9 g →
  Solver.countSolutionsFast fuel g 2 = Some (g', n) ∨
  Core.hasUniqueSolution fuel g = Some (g', b) ∨
  Core.countSolutionsFast fuel g count = Some (g', n) ∨
  Gen.countSolutionsFast fuel g count s = Some (b, g', n, s') →
  g' = g.
Proof.
  intros _ [H|[H|[H|H]]].
  - unfold Solver.countSolutionsFast in H.
    destruct (Solver.backtrack _ _ _ _) as [[w m]|]; [|done]. by inversion H.
  - unfold Core.hasUniqueSolution in H.
    destruct (Core.countSolutionsFast _ _ _) as [[w m]|]; [|done]. by inversion H.
  - by apply Core_countSolutionsFast_frame in H.
  - by apply Gen_countSolutionsFast_frame in H.
Qed.

Lemma twoRowsOpen_shape : shape9 twoRowsOpen.
Proof. by apply shape9b_true. Qed.

Lemma countSolutions_restores_grid_witness :
  Core.countSolutionsFast 82 twoRowsOpen 0 = Some (twoRowsOpen, 2) ∧
  twoRowsOpen = twoRowsOpen.
Proof.
  assert (H : Core.countSolutionsFast 82 twoRowsOpen 0 = Some (twoRowsOpen, 2))
    by by vm_compute.
  split; [exact H|].
  apply (countSolutions_restores_grid twoRowsOpen twoRowsOpen 82 0 2 false
           zeroRng zeroRng).
  - apply twoRowsOpen_shape.
  - right. right. left. exact H.
Defined.

Lemma solved_verdict (g : Grid) b g1 b' g2 :
  solved g b g1 → solved g b' g2 → b = b'.
Proof.
  destruct b, b'; try done; cbn [solved].
  - intros H1 [_ H2]. exfalso. apply H2. by exists g1.
  - intros [_ H1] H2. exfalso. apply H1. by exists g2.
Qed.

(** C9. On a structurally valid 9x9 grid, with fuel for the 81 cells, the
    four solvers of the three modules return the same verdict, whatever
    the random source and the randomization flag, and the three solution
    counters capped at 2 return the same count. *)
Theorem implementations_agree (g : Grid) (fuel : nat) :
  shape9 g → entries g → valid g → 82 ≤ fuel →
  ∃ (verdict : bool) (count : nat),
    (∃ g', Core.solveGrid fuel g = Some (verdict, g')) ∧
    (∃ g', Core.solveGridWithMRV fuel g = Some (verdict, g')) ∧
    (∀ randomize s, ∃ g' s',
        Solver.solveGrid fuel g randomize s = Some (verdict, g', s')) ∧
    (∀ s, ∃ g' s', Gen.solveGrid fuel g s = Some (verdict, g', s')) ∧
    Solver.countSolutionsFast fuel g 2 = Some (g, count) ∧
    Core.countSolutionsFast fuel g 0 = Some (g, count) ∧
    (∀ s, ∃ continue s',
        Gen.countSolutionsFast fuel g 0 s = Some (continue, g, count, s')).
Proof.
  intros Hs Hent Hval Hfuel. pose proof (empties_le g) as Hle.
  destruct (Core_solveGrid_spec fuel g) as (b & g1 & Hrun1 & Hsol1);
    try (done || lia).
  destruct (numCompletions_exists g Hs Hent Hval) as [n Hn].
  exists b, (Nat.min n 2). repeat split.
  - by exists g1.
  - destruct (Core_solveGridWithMRV_spec fuel g) as (b2 & g2 & Hrun2 & Hsol2);
      try (done || lia).
    exists g2. by rewrite (solved_verdict g b g1 b2 g2).
  - intros randomize s.
    destruct (Solver_solveGrid_spec fuel g randomize s)
      as (b2 & g2 & s2 & Hrun2 & Hsol2); try (done || lia).
    exists g2, s2. by rewrite (solved_verdict g b g1 b2 g2).
  - intros s.
    destruct (Gen_solveGrid_spec fuel g s) as (b2 & g2 & s2 & Hrun2 & Hsol2);
      try (done || lia).
    exists g2, s2. by rewrite (solved_verdict g b g1 b2 g2).
  - apply Solver_countSolutionsFast_spec; (done || lia).
  - by rewrite (Core_countSolutionsFast_spec fuel g 0 n) by (done || lia).
  - intros s.
    destruct (Gen_countSolutionsFast_spec fuel g 0 n s) as [s' Hrun];
      try (done || lia).
    by exists (Nat.min n 2 <? 2), s'.
Qed.

Lemma implementations_agree_witness :
  ∃ (verdict : bool) (count : nat),
    (∃ g', Core.solveGrid 82 twoRowsOpen = Some (verdict, g')) ∧
    (∃ g', Core.solveGridWithMRV 82 twoRowsOpen = Some (verdict, g')) ∧
    (∀ randomize s, ∃ g' s',
        Solver.solveGrid 82 twoRowsOpen randomize s = Some (verdict, g', s')) ∧
    (∀ s, ∃ g' s', Gen.solveGrid 82 twoRowsOpen s = Some (verdict, g', s')) ∧
    Solver.countSolutionsFast 82 twoRowsOpen 2 = Some (twoRowsOpen, count) ∧
    Core.countSolutionsFast 82 twoRowsOpen 0 = Some (twoRowsOpen, count) ∧
    (∀ s, ∃ continue s',
        Gen.countSolutionsFast 82 twoRowsOpen 0 s
        = Some (continue, twoRowsOpen, count, s')).
Proof.
  apply (implementations_agree twoRowsOpen 82).
  - apply twoRowsOpen_ready.
  - apply twoRowsOpen_ready.
  - apply twoRowsOpen_ready.
  - lia.
Defined.

(** C3. For a completely filled valid grid and a supported difficulty,
    each of the three carvers returns a puzzle that has exactly one
    complete valid filling, the full grid it was given.  The carver of
    sudoku-solver.js and the one of the generator script (which takes the
    removal count of the difficulty) run on fuel for the 81 cells; the
    [while] loop of the carver of sudoku-core.js returns once its own
    fuel is large enough. *)
Theorem removeNumbers_unique_solution (fullGrid : Grid) (difficulty : string)
    (fuel : nat) (s : Rng) :
  shape9 fullGrid → full fullGrid → valid fullGrid →
  difficulty ∈ difficultyTags → 82 ≤ fuel →
  (∃ p s', Solver.removeNumbers fuel fullGrid difficulty s
             = Some (Returned (p, s')) ∧ uniquePuzzle p fullGrid) ∧
  (∃ N, ∀ loopFuel, N ≤ loopFuel →
     ∃ p s', Core.removeNumbers loopFuel fuel fullGrid difficulty s
               = Some (Returned (p, s')) ∧ uniquePuzzle p fullGrid) ∧
  (∀ target, getProp Gen.difficultyConfig difficulty = Own target →
     ∃ p s', Gen.removeNumbers fuel fullGrid (Some (Gen.targetRemoved target)) s
               = Some (p, s') ∧ uniquePuzzle p fullGrid).
Proof.
  intros Hs Hfull Hval Htag Hfuel. split; [|split].
  - by apply Solver_removeNumbers_spec.
  - apply Core_removeNumbers_spec; try done.
    unfold difficultyTags in Htag.
    repeat (apply elem_of_cons in Htag as [->|Htag]; [done|]).
    by apply elem_of_nil in Htag.
  - intros target _. by apply Gen_removeNumbers_spec.
Qed.

Lemma removeNumbers_unique_solution_witness :
  (∃ p s', Solver.removeNumbers 82 canonical "easy" zeroRng
             = Some (Returned (p, s')) ∧ uniquePuzzle p canonical) ∧
  (∃ N, ∀ loopFuel, N ≤ loopFuel →
     ∃ p s', Core.removeNumbers loopFuel 82 canonical "easy" zeroRng
               = Some (Returned (p, s')) ∧ uniquePuzzle p canonical) ∧
  (∀ target, getProp Gen.difficultyConfig "easy" = Own target →
     ∃ p s', Gen.removeNumbers 82 canonical (Some (Gen.targetRemoved target)) zeroRng
               = Some (p, s') ∧ uniquePuzzle p canonical).
Proof.
  apply (removeNumbers_unique_solution canonical "easy" 82 zeroRng).
  - apply canonical_shape.
  - apply canonical_full.
  - apply canonical_valid.
  - unfold difficultyTags. left.
  - lia.
Defined.

(** ** Unknown difficulty tags *)

Lemma ownProp_None {A} (obj : list (string * A)) key :
  (∀ k a, (k, a) ∈ obj → k ≠ key) → ownProp obj key = None.
Proof.
  induction obj as [|[k a] rest IH]; intros H; [done|]. cbn [ownProp].
  destruct (String.eqb_spec k key) as [->|Hne].
  - exfalso. apply (H key a); [left|done].
  - apply IH. intros k' a' Hin. apply (H k' a'). by right.
Qed.

Lemma getProp_Undefined {A} (obj : list (string * A)) key :
  (∀ k a, (k, a) ∈ obj → k ∈ difficultyTags) →
  key ∉ difficultyTags → key ∉ objectPrototypeNames →
  getProp obj key = Undefined.
Proof.
  intros Hkeys Htag Hproto. unfold getProp. rewrite ownProp_None.
  - by rewrite bool_decide_eq_false_2.
  - intros k a Hin ->. by apply Htag, (Hkeys _ a).
Qed.

Lemma Core_config_keys k a : (k, a) ∈ Core.difficultyConfig → k ∈ difficultyTags.
Proof.
  unfold Core.difficultyConfig. intros H.
  repeat (apply elem_of_cons in H as [H|H];
          [inversion H; subst; by apply (bool_decide_unpack _)|]).
  by apply elem_of_nil in H.
Qed.

Lemma Solver_config_keys k a : (k, a) ∈ Solver.difficultyLevels → k ∈ difficultyTags.
Proof.
  unfold Solver.difficultyLevels. intros H.
  repeat (apply elem_of_cons in H as [H|H];
          [inversion H; subst; by apply (bool_decide_unpack _)|]).
  by apply elem_of_nil in H.
Qed.

Lemma Gen_config_keys k a : (k, a) ∈ Gen.difficultyConfig → k ∈ difficultyTags.
Proof.
  unfold Gen.difficultyConfig. intros H.
  repeat (apply elem_of_cons in H as [H|H];
          [inversion H; subst; by apply (bool_decide_unpack _)|]).
  by apply elem_of_nil in H.
Qed.

Lemma Solver_removeNumbers_default fuel (g : Grid) difficulty s :
  getProp Solver.difficultyLevels difficulty = Undefined →
  Solver.removeNumbers fuel g difficulty s = Solver.removeNumbers fuel g "medium" s.
Proof. intros H. unfold Solver.removeNumbers. by rewrite H. Qed.

(** C7, as stated, fails on sudoku-solver.js: for the unknown tag
    "extreme" its [removeNumbers] raises nothing and returns what it
    returns for "medium". *)
Lemma unknown_difficulty_defaults_to_medium :
  ("extreme"%string ∉ difficultyTags) ∧
  (∃ p s', Solver.removeNumbers 82 canonical "extreme" zeroRng
           = Some (Returned (p, s'))) ∧
  Solver.removeNumbers 82 canonical "extreme" zeroRng
  = Solver.removeNumbers 82 canonical "medium" zeroRng.
Proof.
  split; [|split].
  - by apply (bool_decide_unpack _).
  - destruct (Solver_removeNumbers_spec canonical canonical_shape canonical_full
                canonical_valid 82 (le_n 82) "extreme" zeroRng) as (p & s' & H & _).
    by exists p, s'.
  - by apply Solver_removeNumbers_default.
Qed.

(** C7, amended.  For a difficulty argument that is neither one of the
    five tags nor a property name inherited from [Object.prototype]:
    [generateSudokuPuzzle] of the generator script throws its
    unknown-difficulty error, which is not the error it throws when
    generation fails; [removeNumbers] of sudoku-core.js throws a TypeError;
    [removeNumbers] of sudoku-solver.js throws nothing and behaves as for
    "medium". *)
Theorem unknown_difficulty_outcomes (difficulty : string) (g : Grid)
    (fuel loopFuel : nat) (s : Rng) :
  difficulty ∉ difficultyTags → difficulty ∉ objectPrototypeNames →
  Gen.generateSudokuPuzzle fuel difficulty s = Some (Threw UnknownDifficulty) ∧
  UnknownDifficulty ≠ GenerationFailed ∧
  Core.removeNumbers loopFuel fuel g difficulty s = Some (Threw TypeError) ∧
  Solver.removeNumbers fuel g difficulty s
  = Solver.removeNumbers fuel g "medium" s.
Proof.
  intros Htag Hproto. split; [|split; [done|split]].
  - unfold Gen.generateSudokuPuzzle.
    by rewrite (getProp_Undefined _ _ Gen_config_keys).
  - unfold Core.removeNumbers.
    by rewrite (getProp_Undefined _ _ Core_config_keys).
  - apply Solver_removeNumbers_default.
    by apply (getProp_Undefined _ _ Solver_config_keys).
Qed.

Lemma unknown_difficulty_outcomes_witness :
  Gen.generateSudokuPuzzle 82 "extreme" zeroRng = Some (Threw UnknownDifficulty) ∧
  UnknownDifficulty ≠ GenerationFailed ∧
  Core.removeNumbers 1 82 canonical "extreme" zeroRng = Some (Threw TypeError) ∧
  Solver.removeNumbers 82 canonical "extreme" zeroRng
  = Solver.removeNumbers 82 canonical "medium" zeroRng.
Proof.
  apply (unknown_difficulty_outcomes "extreme" canonical 82 1 zeroRng).
  - by apply (bool_decide_unpack _).
  - by apply (bool_decide_unpack _).
Defined.

(** C8 on sudoku-core.js.  On the canonical grid with cell (0,0) and rows
    7 and 8 emptied, the cell selection of [countSolutionsFast] returns
    (7,1), a cell with two candidates, although the empty cell (0,0),
    scanned before it, has a single candidate. *)
Theorem Core_counter_selects_non_minimal :
  Core.selectCell twoRowsOpen = Some (7, 1) ∧
  Core.countPossible twoRowsOpen 7 1 = 2 ∧
  cell twoRowsOpen 0 0 = Some 0%Z ∧
  Core.countPossible twoRowsOpen 0 0 = 1 ∧
  ¬ firstMin twoRowsOpen (Core.countPossible twoRowsOpen) 7 1.
Proof.
  split; [by vm_compute|]. split; [by vm_compute|]. split; [done|].
  split; [by vm_compute|].
  intros (_ & before & after & Hsplit & Hbefore & _).
  assert (Hin : (0, 0) ∈ before).
  { destruct before as [|q before]; [by vm_compute in Hsplit|].
    assert (q = (0, 0)) as -> by (by inversion Hsplit). left. }
  specialize (Hbefore 0 0 Hin eq_refl). vm_compute in Hbefore. lia.
Qed.

(** ** Full grids are permutations in every unit *)

Lemma unit_permutation (g : Grid) (cells : list (nat * nat)) :
  full g → valid g → unitOk cells = true →
  readCells g cells ≡ₚ map Some digits.
Proof.
  intros Hfull Hval Hok. unfold unitOk in Hok.
  apply andb_true_iff in Hok as [Hok Hall].
  apply andb_true_iff in Hok as [Hlen Hnd].
  apply Nat.eqb_eq in Hlen. apply bool_decide_eq_true in Hnd.
  rewrite forallb_forall in Hall.
  assert (Hcell : ∀ q, q ∈ cells →
            ∃ v, cell g q.1 q.2 = Some v ∧ (1 ≤ v ≤ 9)%Z).
  { intros q Hq. apply list_elem_of_In, Hall in Hq.
    apply andb_true_iff in Hq as [Hq _]. apply andb_true_iff in Hq as [H1 H2].
    apply Nat.ltb_lt in H1, H2. by apply Hfull. }
  apply submseteq_length_Permutation.
  - apply NoDup_submseteq.
    + unfold readCells. apply (NoDup_fmap_2_strong _ cells); [|done].
      intros q q' Hq Hq' Heq.
      destruct (Hcell q Hq) as (v & Hv & Hv19).
      assert (Hu : sameUnit q.1 q.2 q'.1 q'.2).
      { apply list_elem_of_In, Hall in Hq. apply andb_true_iff in Hq as [_ Hq].
        rewrite forallb_forall in Hq. apply sameUnitb_true, Hq.
        by apply list_elem_of_In. }
      destruct (Hval q.1 q.2 q'.1 q'.2 v) as [H1 H2]; try done.
      * congruence.
      * lia.
      * destruct q, q'; simpl in *; congruence.
    + intros x Hx. unfold readCells in Hx.
      apply list_elem_of_fmap in Hx as (q & -> & Hq).
      destruct (Hcell q Hq) as (v & -> & Hv19).
      apply list_elem_of_fmap. exists v. split; [done|]. by apply elem_of_digits.
  - unfold readCells. rewrite !length_map, Hlen. done.
Qed.

Lemma units_ok k :
  k < 9 →
  unitOk (rowCells k) = true ∧ unitOk (colCells k) = true ∧
  unitOk (boxCells k) = true.
Proof.
  intros Hk. do 9 (destruct k as [|k]; [by vm_compute|]). lia.
Qed.

Lemma full_valid_completeValid (g : Grid) :
  shape9 g → full g → valid g → completeValid g.
Proof.
  intros Hs Hfull Hval. split; [done|]. intros k Hk.
  destruct (units_ok k Hk) as (Hr & Hc & Hb).
  split; [|split]; by apply unit_permutation.
Qed.

(** ** The generators *)

Lemma emptyGrid_shape : shape9 emptyGrid.
Proof. by apply shape9b_true. Qed.

Lemma emptyGrid_entries : entries emptyGrid.
Proof. by apply entriesb_true. Qed.

Lemma emptyGrid_valid : valid emptyGrid.
Proof. apply validb_true; [apply emptyGrid_shape|]. by vm_compute. Qed.

Lemma emptyGrid_cell r c v : cell emptyGrid r c = Some v → v = 0%Z.
Proof.
  intros H. pose proof (cell_Some_lt _ _ _ _ emptyGrid_shape H) as [Hr Hc].
  do 9 (destruct r as [|r]; [do 9 (destruct c as [|c]; [by inversion H|]); lia|]).
  lia.
Qed.

Lemma emptyGrid_solvable : solvable emptyGrid.
Proof.
  exists canonical. split; [apply canonical_shape|].
  split; [apply canonical_full|]. split; [apply canonical_valid|].
  intros r c v Hv Hv0. by apply emptyGrid_cell in Hv.
Qed.

(** A solver started on a solvable valid grid leaves a complete valid
    grid. *)
Lemma solved_solvable_completeValid (g : Grid) b g' :
  solvable g → solved g b g' → completeValid g'.
Proof.
  intros Hsol Hres. destruct b; cbn [solved] in Hres.
  - destruct Hres as (Hs & Hfull & Hval & _). by apply full_valid_completeValid.
  - by destruct Hres as [_ Hno].
Qed.

(** [generateFullSudoku] of sudoku-solver.js returns a complete valid grid
    for every random source. *)
Lemma Solver_generateFullSudoku_spec fuel s :
  82 ≤ fuel →
  ∃ g s', Solver.generateFullSudoku fuel s = Some (g, s') ∧ completeValid g.
Proof.
  intros Hfuel. unfold Solver.generateFullSudoku.
  destruct (Solver_solveGrid_spec fuel emptyGrid true s)
    as (b & g & s' & -> & Hres).
  - pose proof (empties_le emptyGrid). lia.
  - apply emptyGrid_shape.
  - apply emptyGrid_entries.
  - apply emptyGrid_valid.
  - exists g, s'. split; [done|].
    apply (solved_solvable_completeValid emptyGrid b g); [|done].
    apply emptyGrid_solvable.
Qed.

(** ** The MRV selections that do pick the first minimum *)

Lemma head_insertSorted {A} (key : A → nat) x l :
  head (insertSorted key x l) =
  match head l with
  | Some y => if key x <=? key y then Some x else Some y
  | None => Some x
  end.
Proof. destruct l as [|y l]; [done|]. simpl. by destruct (key x <=? key y). Qed.

(** The head of the stably sorted list is the first element of minimum
    key of the list. *)
Lemma head_stableSort_first_min {A} (key : A → nat) l x :
  head (stableSort key l) = Some x →
  ∃ l1 l2, l = l1 ++ x :: l2 ∧
    (∀ y, y ∈ l1 → key x < key y) ∧ (∀ y, y ∈ l2 → key x ≤ key y).
Proof.
  revert x. induction l as [|a l IH]; intros x H; [done|].
  cbn [stableSort foldr] in H. rewrite head_insertSorted in H.
  fold (stableSort key l) in H.
  destruct (head (stableSort key l)) as [y|] eqn:Hy.
  - destruct (IH y eq_refl) as (l1 & l2 & -> & H1 & H2).
    destruct (key a <=? key y) eqn:Hle; inversion H; subst.
    + apply Nat.leb_le in Hle. exists [], (l1 ++ y :: l2).
      split; [done|]. split; [by intros z ?%elem_of_nil|].
      intros z [Hz|[->|Hz]%elem_of_cons]%elem_of_app.
      * apply H1 in Hz. lia.
      * done.
      * apply H2 in Hz. lia.
    + apply Nat.leb_gt in Hle. exists (a :: l1), l2.
      split; [done|]. split; [|done].
      intros z [->|Hz]%elem_of_cons; [done|by apply H1].
  - inversion H; subst. apply head_stableSort_None in Hy as ->.
    exists [], []. split; [done|]. split; by intros z ?%elem_of_nil.
Qed.

Lemma omap_split {A B} (F : A → option B) l l1 x l2 :
  omap F l = l1 ++ x :: l2 →
  ∃ k1 q k2, l = k1 ++ q :: k2 ∧ F q = Some x ∧ omap F k1 = l1 ∧ omap F k2 = l2.
Proof.
  revert l1. induction l as [|a l IH]; intros l1 H.
  { by destruct l1. }
  cbn [omap list_omap] in H. destruct (F a) as [b|] eqn:Ha.
  - destruct l1 as [|b' l1]; cbn [app] in H; injection H as -> Hrest.
    + exists [], a, l. done.
    + destruct (IH l1 Hrest) as (k1 & q & k2 & -> & Hq & Hk1 & Hk2).
      exists (a :: k1), q, k2. split; [done|]. split; [done|]. split; [|done].
      cbn [omap list_omap]. rewrite Ha. by rewrite <- Hk1.
  - destruct (IH l1 H) as (k1 & q & k2 & -> & Hq & H1 & H2).
    exists (a :: k1), q, k2. split; [done|]. split; [done|]. split; [|done].
    cbn [omap list_omap]. by rewrite Ha.
Qed.

(** The selection of [solveGridWithMRV] is the first cell of minimum
    candidate count. *)
Lemma Core_mrvCell_firstMin (g : Grid) r c :
  Core.mrvCell g = Some (r, c) → firstMin g (Core.countPossible g) r c.
Proof.
  intros H. split; [by apply Core_mrvCell_Some|].
  unfold Core.mrvCell in H.
  destruct (stableSort _ _) as [|[[r' c'] k] l] eqn:E; [done|].
  inversion H; subst.
  destruct (head_stableSort_first_min (λ e : nat * nat * nat, e.2)
              (Core.emptyCells g) (r, c, k)) as (l1 & l2 & Hsplit & H1 & H2).
  { by rewrite E. }
  apply omap_split in Hsplit as (k1 & [r' c'] & k2 & Hcells & Hq & Hk1 & Hk2).
  cbn [fst snd] in Hq. destruct (cellIs g r' c' 0); [|done].
  inversion Hq; subst. exists k1, k2. split; [done|]. split.
  - intros r' c' Hin Hc.
    apply (H1 (r', c', Core.countPossible g r' c')).
    apply list_elem_of_omap. exists (r', c'). split; [done|].
    cbn [fst snd]. apply cellIs_true in Hc. by rewrite Hc.
  - intros r' c' Hin Hc.
    apply (H2 (r', c', Core.countPossible g r' c')).
    apply list_elem_of_omap. exists (r', c'). split; [done|].
    cbn [fst snd]. apply cellIs_true in Hc. by rewrite Hc.
Qed.

(** The selection shared by [solveGrid] and [backtrack] of
    sudoku-solver.js is the first cell of minimum candidate count. *)
Lemma Solver_mrvCell_firstMin (g : Grid) r c poss :
  Solver.mrvCell g = Some (r, c, poss) →
  firstMin g (λ r c, length (Solver.possibilitiesOf g r c)) r c.
Proof.
  intros H. pose proof (Solver_mrvCell_Some g r c poss H) as [Hc ->].
  split; [done|]. unfold Solver.mrvCell in H.
  destruct (head_stableSort_first_min (λ e : nat * nat * list Z, length e.2)
              (Solver.emptyCells g) (r, c, Solver.possibilitiesOf g r c) H)
    as (l1 & l2 & Hsplit & H1 & H2).
  apply omap_split in Hsplit as (k1 & [r' c'] & k2 & Hcells & Hq & Hk1 & Hk2).
  cbn [fst snd] in Hq. destruct (cellIs g r' c' 0); [|done].
  inversion Hq; subst. exists k1, k2. split; [done|]. split.
  - intros r' c' Hin Hc'.
    apply (H1 (r', c', Solver.possibilitiesOf g r' c')).
    apply list_elem_of_omap. exists (r', c'). split; [done|].
    cbn [fst snd]. apply cellIs_true in Hc'. by rewrite Hc'.
  - intros r' c' Hin Hc'.
    apply (H2 (r', c', Solver.possibilitiesOf g r' c')).
    apply list_elem_of_omap. exists (r', c'). split; [done|].
    cbn [fst snd]. apply cellIs_true in Hc'. by rewrite Hc'.
Qed.

Lemma scanned_step (g : Grid) pre minP best r c :
  let count := λ r c, length (Gen.possibilitiesOf g r c) in
  scanned g count Gen.possibilitiesOf pre minP best →
  scanned g count Gen.possibilitiesOf (pre ++ [(r, c)])
    (if cellIs g r c 0 && (count r c <? minP) then count r c else minP)
    (if cellIs g r c 0 && (count r c <? minP)
     then Some (r, c, Gen.possibilitiesOf g r c) else best).
Proof.
  intros count Hinv. destruct (cellIs g r c 0) eqn:Hc; cbn [andb].
  - apply cellIs_true in Hc. destruct (count r c <? minP) eqn:Hlt.
    + apply Nat.ltb_lt in Hlt. split; [done|]. split; [done|]. split; [done|].
      exists pre, []. split; [done|]. split; [|by intros ? ? ?%elem_of_nil].
      intros r' c' Hin Hc'. destruct best as [[[rb cb] poss]|].
      * destruct Hinv as (-> & _ & _ & b & a & -> & Hb & Ha).
        apply elem_of_app in Hin as [Hin|[Heq|Hin]%elem_of_cons].
        -- specialize (Hb r' c' Hin Hc'). lia.
        -- by inversion Heq; subst.
        -- specialize (Ha r' c' Hin Hc'). lia.
      * destruct Hinv as [_ Hno]. by apply Hno in Hin.
    + apply Nat.ltb_ge in Hlt. destruct best as [[[rb cb] poss]|].
      * destruct Hinv as (-> & -> & Hcb & b & a & -> & Hb & Ha).
        split; [done|]. split; [done|]. split; [done|].
        exists b, (a ++ [(r, c)]). split; [by rewrite <- app_assoc|].
        split; [done|].
        intros r' c' [Hin|Heq%list_elem_of_singleton]%elem_of_app Hc';
          [by apply Ha|]. by inversion Heq; subst.
      * destruct Hinv as [-> _].
        pose proof (Gen_possibilitiesOf_length g r c). unfold count in Hlt. lia.
  - apply cellIs_false in Hc. destruct best as [[[rb cb] poss]|].
    + destruct Hinv as (-> & -> & Hcb & b & a & -> & Hb & Ha).
      split; [done|]. split; [done|]. split; [done|].
      exists b, (a ++ [(r, c)]). split; [by rewrite <- app_assoc|].
      split; [done|].
      intros r' c' [Hin|Heq%list_elem_of_singleton]%elem_of_app Hc';
        [by apply Ha|]. by inversion Heq; subst.
    + destruct Hinv as [-> Hno]. split; [done|].
      intros r' c' [Hin|Heq%list_elem_of_singleton]%elem_of_app;
        [by apply Hno|]. by inversion Heq; subst.
Qed.

Lemma Gen_scanBest_scanned (g : Grid) cells pre minP best :
  let count := λ r c, length (Gen.possibilitiesOf g r c) in
  scanned g count Gen.possibilitiesOf pre minP best →
  ∃ minP', scanned g count Gen.possibilitiesOf (pre ++ cells) minP'
             (Gen.scanBest g cells minP best).
Proof.
  intros count. revert pre minP best.
  induction cells as [|[r c] cells IH]; intros pre minP best Hinv.
  { exists minP. by rewrite app_nil_r. }
  apply (scanned_step g pre minP best r c) in Hinv.
  apply IH in Hinv as [minP' Hinv]. exists minP'.
  rewrite <- app_assoc in Hinv. cbn [Gen.scanBest]. cbv zeta.
  unfold count in Hinv.
  by destruct (cellIs g r c 0),
       (length (Gen.possibilitiesOf g r c) <? minP).
Qed.

Lemma Gen_scanPrune_scanned (g : Grid) cells pre minP best res :
  let count := λ r c, length (Gen.possibilitiesOf g r c) in
  scanned g count Gen.possibilitiesOf pre minP best →
  Gen.scanPrune g cells minP best = Some res →
  ∃ minP', scanned g count Gen.possibilitiesOf (pre ++ cells) minP' res.
Proof.
  intros count. revert pre minP best.
  induction cells as [|[r c] cells IH]; intros pre minP best Hinv Hrun.
  { exists minP. cbn [Gen.scanPrune] in Hrun. inversion Hrun; subst.
    by rewrite app_nil_r. }
  apply (scanned_step g pre minP best r c) in Hinv.
  cbn [Gen.scanPrune] in Hrun. cbv zeta in Hrun. unfold count in Hinv.
  destruct (cellIs g r c 0); cbn [andb] in Hinv.
  - destruct (length (Gen.possibilitiesOf g r c) =? 0); [done|].
    destruct (length (Gen.possibilitiesOf g r c) <? minP);
      apply (IH _ _ _ Hinv) in Hrun as [minP' Hres]; exists minP';
      by rewrite <- app_assoc in Hres.
  - apply (IH _ _ _ Hinv) in Hrun as [minP' Hres]. exists minP'.
    by rewrite <- app_assoc in Hres.
Qed.

(** The selections of [solveGrid] and of [countSolutionsFast] of the
    generator script are the first cell of minimum candidate count. *)
Lemma Gen_scanBest_firstMin (g : Grid) r c poss :
  Gen.scanBest g allCells 10 None = Some (r, c, poss) →
  firstMin g (λ r c, length (Gen.possibilitiesOf g r c)) r c.
Proof.
  intros H.
  destruct (Gen_scanBest_scanned g allCells [] 10 None) as [minP Hinv].
  { split; [done|]. by intros ? ? ?%elem_of_nil. }
  rewrite H in Hinv. by destruct Hinv as (_ & _ & Hc & Hrest).
Qed.

Lemma Gen_scanPrune_firstMin (g : Grid) r c poss :
  Gen.scanPrune g allCells 10 None = Some (Some (r, c, poss)) →
  firstMin g (λ r c, length (Gen.possibilitiesOf g r c)) r c.
Proof.
  intros H.
  destruct (Gen_scanPrune_scanned g allCells [] 10 None _
              (conj eq_refl (λ r c (H : (r, c) ∈ []), False_ind _ (proj1 (elem_of_nil _) H)))
              H) as [minP Hinv].
  by destruct Hinv as (_ & _ & Hc & Hrest).
Qed.

(** ** Three diagonal boxes can always be completed *)

(** *** Colourings, relabelings and the tables *)

Lemma covers_sound r c f00 f01 f02 f10 f11 f12 f20 f21 f22 :
  covers r c f00 f01 f02 f10 f11 f12 f20 f21 f22 = true →
  ∀ x y, x < 3 → y < 3 →
    flag9 f00 f01 f02 f10 f11 f12 f20 f21 f22 x y = true ∨
    ∃ k, r !! k = Some x ∧ c !! k = Some y.
Proof.
  revert c f00 f01 f02 f10 f11 f12 f20 f21 f22.
  induction r as [|a r IH]; intros c f00 f01 f02 f10 f11 f12 f20 f21 f22 H x y Hx Hy.
  - cbn [covers] in H. left.
    repeat (apply andb_prop in H as [H ?]).
    destruct x as [|[|[|?]]]; [| | |lia]; destruct y as [|[|[|?]]]; try lia; done.
  - destruct c as [|b c].
    { cbn [covers] in H. left.
      repeat (apply andb_prop in H as [H ?]).
      destruct x as [|[|[|?]]]; [| | |lia]; destruct y as [|[|[|?]]]; try lia; done. }
    cbn [covers] in H.
    destruct a as [|[|[|?]]]; [| | |done]; (destruct b as [|[|[|?]]]; [| | |done]);
      match type of H with
      | (if ?f then _ else _) = true => destruct f eqn:Hf; [done|]
      end;
      (destruct (IH _ _ _ _ _ _ _ _ _ _ H x y Hx Hy) as [Hfl|(k & Hk1 & Hk2)];
       [|right; exists (S k); done]);
      (destruct x as [|[|[|?]]]; [| | |lia]; destruct y as [|[|[|?]]]; try lia;
       cbn [flag9] in Hfl |- *;
       first [by left | by right; exists 0]).
Qed.

Lemma ontob_onto r c : ontob r c = true → onto r c.
Proof.
  intros H x y Hx Hy.
  destruct (covers_sound _ _ _ _ _ _ _ _ _ _ _ H x y Hx Hy) as [Hfl|Hk]; [|done].
  destruct x as [|[|[|?]]]; [| | |lia]; destruct y as [|[|[|?]]]; try lia; done.
Qed.

Lemma next3_spec x : next3 x < 3 ∧ next3 x ≠ x.
Proof. destruct x as [|[|[|?]]]; cbn; lia. Qed.

Lemma prev3_spec x : prev3 x < 3 ∧ prev3 x ≠ x ∧ prev3 x ≠ next3 x.
Proof. destruct x as [|[|[|?]]]; cbn; lia. Qed.

Lemma apart_nil : apart [] [].
Proof. by intros k x y H. Qed.

Lemma apart_cons a b l l' : a ≠ b → apart l l' → apart (a :: l) (b :: l').
Proof.
  intros Hab H k x y Hx Hy. destruct k as [|k]; cbn in Hx, Hy.
  - by inversion Hx; inversion Hy; subst.
  - by eapply H.
Qed.

Lemma splits_spec X p :
  In p (splits X) →
  length p.1 = length X ∧ length p.2 = length X ∧
  Forall (λ x, x < 3) p.1 ∧ Forall (λ x, x < 3) p.2 ∧
  apart p.1 X ∧ apart p.2 X ∧ apart p.1 p.2.
Proof.
  revert p. induction X as [|x X IH]; intros p Hp; cbn [splits] in Hp.
  - destruct Hp as [<-|[]]. cbn. repeat split; auto using apart_nil.
  - apply in_flat_map in Hp as (q & Hq & Hp).
    destruct (IH q Hq) as (H1 & H2 & H3 & H4 & H5 & H6 & H7).
    pose proof (next3_spec x) as [? ?]. pose proof (prev3_spec x) as (? & ? & ?).
    destruct Hp as [<-|[<-|[]]]; cbn [fst snd length];
      repeat split; try (by f_equal); try (by constructor);
      apply apart_cons; done.
Qed.

Lemma complements_spec X p :
  In p (complements X) →
  length p.1 = length X ∧ length p.2 = length X ∧
  Forall (λ x, x < 3) p.1 ∧ Forall (λ x, x < 3) p.2 ∧
  apart p.1 X ∧ apart p.2 X ∧ apart p.1 p.2 ∧
  balancedb p.1 = true ∧ balancedb p.2 = true.
Proof.
  intros [Hp Hb%andb_prop]%filter_In.
  destruct (splits_spec X p Hp) as (H1 & H2 & H3 & H4 & H5 & H6 & H7).
  destruct Hb. repeat split; done.
Qed.

Lemma relabel_spec f :
  In f relabelings →
  (∀ x, x < 3 → f x < 3) ∧
  (∀ x y, x < 3 → y < 3 → f x = f y → x = y) ∧
  (∀ y, y < 3 → ∃ x, x < 3 ∧ f x = y).
Proof.
  intros Hf. cbn in Hf.
  destruct Hf as [<-|[<-|[<-|[<-|[<-|[<-|[]]]]]]]; (split; [|split]).
  all: try (intros x Hx; destruct x as [|[|[|?]]]; cbn; lia).
  all: try (intros x y Hx Hy; destruct x as [|[|[|?]]]; try lia;
            destruct y as [|[|[|?]]]; cbn; lia).
  all: intros y Hy; destruct y as [|[|[|?]]]; try lia;
    first [by exists 0; cbn; split; [lia|] | by exists 1; cbn; split; [lia|]
          | by exists 2; cbn; split; [lia|]].
Qed.

Lemma unmap f l :
  In f relabelings → Forall (λ x, x < 3) l →
  ∃ l', map f l' = l ∧ Forall (λ x, x < 3) l' ∧ length l' = length l.
Proof.
  intros Hf. destruct (relabel_spec f Hf) as (_ & _ & Hsur).
  induction 1 as [|y l Hy Hl (l' & <- & Hl' & Hlen)].
  - by exists [].
  - destruct (Hsur y Hy) as (x & Hx & <-).
    exists (x :: l'). cbn. repeat split; [by constructor|by f_equal].
Qed.

Lemma apart_unmap f a b :
  In f relabelings → apart (map f a) (map f b) → apart a b.
Proof.
  intros Hf H k x y Hx Hy Heq. subst.
  eapply (H k (f y) (f y)); [by rewrite list_lookup_fmap, Hx|
                             by rewrite list_lookup_fmap, Hy|done].
Qed.

Lemma onto_unmap_l f a b :
  In f relabelings → Forall (λ x, x < 3) a → onto (map f a) b → onto a b.
Proof.
  intros Hf Ha H x y Hx Hy.
  destruct (relabel_spec f Hf) as (Hlt & Hinj & _).
  destruct (H (f x) y (Hlt x Hx) Hy) as (k & Hk1 & Hk2).
  rewrite list_lookup_fmap in Hk1.
  destruct (a !! k) as [x'|] eqn:Hx'; [|done]. cbn in Hk1.
  exists k. split; [|done]. rewrite Hx'. f_equal. apply Hinj; [|done|congruence].
  by eapply Forall_lookup_1 in Ha.
Qed.

Lemma onto_sym r c : onto r c → onto c r.
Proof. intros H x y Hx Hy. destruct (H y x Hy Hx) as (k & ? & ?). by exists k. Qed.

Lemma onto_unmap_r f a b :
  In f relabelings → Forall (λ x, x < 3) b → onto a (map f b) → onto a b.
Proof.
  intros Hf Hb H. apply onto_sym. eapply onto_unmap_l; [done..|]. by apply onto_sym.
Qed.

Lemma map_perm3_id c : Forall (λ x, x < 3) c → map (perm3 0 1 2) c = c.
Proof.
  induction 1 as [|x l Hx Hl IH]; [done|]. cbn [map]. rewrite IH. f_equal.
  destruct x as [|[|[|?]]]; cbn; lia.
Qed.

Lemma canonise_relabel c :
  Forall (λ x, x < 3) c → ∃ f, In f relabelings ∧ canonise c = map f c.
Proof.
  intros Hc. unfold canonise.
  destruct (find _ relabelings) as [f|] eqn:E.
  - apply find_some in E as [Hf _]. by exists f.
  - exists (perm3 0 1 2). split; [by left|]. by rewrite map_perm3_id.
Qed.

Lemma enum_spec n l : In l (enum n) ↔ length l = n ∧ Forall (λ x, x < 3) l.
Proof.
  revert l. induction n as [|n IH]; intros l; cbn [enum].
  - split.
    + intros [<-|[]]. by split.
    + intros [Hl _]. left. by destruct l.
  - rewrite in_flat_map. split.
    + intros (l' & Hl' & Hin). apply IH in Hl' as [Hlen Hall].
      destruct Hin as [<-|[<-|[<-|[]]]]; cbn; (split; [by f_equal|constructor; [lia|done]]).
    + intros [Hlen Hall]. destruct l as [|x l]; [done|].
      inversion Hall as [|? ? Hx Hall']; subst. cbn in Hlen.
      exists l. split; [apply IH; split; [lia|done]|].
      destruct x as [|[|[|?]]]; cbn; [tauto..|lia].
Qed.

Lemma canonise_check :
  forallb (λ c, implb (balancedb c) (canonb (canonise c))) (enum 9) = true.
Proof. vm_compute. reflexivity. Qed.

Lemma colouring_relabel f c : In f relabelings → colouring c → colouring (map f c).
Proof.
  intros Hf [Hlen Hall]. destruct (relabel_spec f Hf) as (Hlt & _ & _).
  split; [by rewrite length_map|].
  apply Forall_forall. intros y [x [-> Hx]]%list_elem_of_fmap.
  apply Hlt. by eapply Forall_forall in Hall.
Qed.

Lemma canonise_colouring c : colouring c → colouring (canonise c).
Proof.
  intros Hc. destruct (canonise_relabel c (proj2 Hc)) as (f & Hf & ->).
  by apply colouring_relabel.
Qed.

Lemma canonise_canonb c :
  colouring c → balancedb c = true → canonb (canonise c) = true.
Proof.
  intros [Hlen Hall] Hb.
  pose proof canonise_check as H. rewrite forallb_forall in H.
  specialize (H c). rewrite Hb in H. apply H. by apply enum_spec.
Qed.

Lemma canonise_canon c :
  colouring c → balancedb c = true → In (canonise c) canon.
Proof.
  intros Hc Hb. apply filter_In. split.
  - apply enum_spec. apply canonise_colouring, Hc.
  - by apply canonise_canonb.
Qed.

Lemma canon_colouring X : In X canon → colouring X ∧ canonb X = true.
Proof. intros [H1%enum_spec H2]%filter_In. done. Qed.

Lemma count3_mono l : ∀ a b c a' b' c',
  count3 l a b c = (a', b', c') → a ≤ a' ∧ b ≤ b' ∧ c ≤ c'.
Proof.
  induction l as [|x l IH]; intros a b c a' b' c' H; cbn [count3] in H.
  - inversion H. lia.
  - destruct x as [|[|?]]; apply IH in H; lia.
Qed.

Lemma lookup_buildC n : ∀ m a b c f l,
  length l = n → Forall (λ x, x < 3) l → rgb l m = true →
  count3 l a b c = (3, 3, 3) →
  lookupT (buildC n m a b c f) l = f l.
Proof.
  induction n as [|n IH]; intros m a b c f l Hlen Hall Hrg Hcnt.
  - by destruct l.
  - destruct l as [|x l]; [done|]. cbn in Hlen.
    inversion Hall as [|? ? Hx Hall']; subst.
    cbn [rgb] in Hrg. apply andb_prop in Hrg as [Hle Hrg].
    apply Nat.leb_le in Hle. cbn [count3] in Hcnt.
    cbn [buildC lookupT].
    destruct x as [|[|[|?]]]; [| | |lia].
    + pose proof (count3_mono _ _ _ _ _ _ _ Hcnt) as (? & ? & ?).
      replace (a <? 3) with true by (symmetry; apply Nat.ltb_lt; lia).
      rewrite IH; [done|lia|done| |done].
      by destruct m.
    + pose proof (count3_mono _ _ _ _ _ _ _ Hcnt) as (? & ? & ?).
      replace (1 <=? m) with true by (symmetry; apply Nat.leb_le; lia).
      replace (b <? 3) with true by (symmetry; apply Nat.ltb_lt; lia).
      cbn [andb]. rewrite IH; [done|lia|done| |done].
      by destruct m as [|[|?]].
    + pose proof (count3_mono _ _ _ _ _ _ _ Hcnt) as (? & ? & ?).
      replace (2 <=? m) with true by (symmetry; apply Nat.leb_le; lia).
      replace (c <? 3) with true by (symmetry; apply Nat.ltb_lt; lia).
      cbn [andb]. rewrite IH; [done|lia|done| |done].
      by destruct m as [|[|[|?]]].
Qed.

Lemma balancedb_count l : balancedb l = true → count3 l 0 0 0 = (3, 3, 3).
Proof.
  unfold balancedb. destruct (count3 l 0 0 0) as [[a b] c].
  destruct a as [|[|[|[|?]]]]; try done;
    destruct b as [|[|[|[|?]]]]; try done;
    destruct c as [|[|[|[|?]]]]; done.
Qed.

Lemma lookup_gTrie W Y k :
  colouring k → canonb k = true →
  lookupT (gTrie W Y) k = grade (countb (covMask W (colMasks W Y) k)).
Proof.
  intros [Hlen Hall] [Hb Hrg]%andb_prop. unfold gTrie.
  by rewrite lookup_buildC; [|done|done|done|apply balancedb_count].
Qed.

Lemma best_spec trie g : 1 ≤ g ≤ 2 → ∀ ks acc,
  g ≤ best trie ks acc →
  g ≤ acc ∨ ∃ k', In k' ks ∧ g ≤ lookupT trie k'.
Proof.
  intros Hg. induction ks as [|k ks IH]; intros acc H; cbn [best] in H; [by left|].
  destruct (lookupT trie k) as [|[|n]] eqn:Hk.
  - destruct (IH _ H) as [?|(k' & ? & ?)]; [by left|].
    right. exists k'. split; [by right|done].
  - destruct (IH _ H) as [Hacc|(k' & ? & ?)].
    + destruct acc as [|acc]; [|by left].
      right. exists k. split; [by left|lia].
    + right. exists k'. split; [by right|done].
  - right. exists k. split; [by left|lia].
Qed.

Lemma tally_spec trie rk : ∀ w s,
  tally trie rk w s =
    (w + length (List.filter (λ ks, 1 <=? best trie ks 0) rk),
     s + length (List.filter (λ ks, 2 <=? best trie ks 0) rk)).
Proof.
  induction rk as [|ks rk IH]; intros w s; cbn [tally List.filter].
  - f_equal; cbn; lia.
  - destruct (best trie ks 0) as [|[|n]]; rewrite IH; cbn; f_equal; lia.
Qed.

Lemma filter_map_length {A B} (P : B → bool) (F : A → B) l :
  length (List.filter P (map F l)) = length (List.filter (λ x, P (F x)) l).
Proof.
  induction l as [|x l IH]; [done|]. cbn. destruct (P (F x)); cbn; by rewrite IH.
Qed.

Lemma filter_length_mono {A} (P Q : A → bool) l :
  (∀ x, In x l → P x = true → Q x = true) →
  length (List.filter P l) ≤ length (List.filter Q l).
Proof.
  induction l as [|x l IH]; intros H; [done|]. cbn.
  assert (Hl : length (List.filter P l) ≤ length (List.filter Q l)).
  { apply IH. intros y Hy. apply H. by right. }
  destruct (P x) eqn:HP.
  - rewrite (H x (or_introl eq_refl) HP). cbn. lia.
  - destruct (Q x); cbn; lia.
Qed.

Lemma pigeon_filter {A} (f g : A → bool) l :
  length l < length (List.filter f l) + length (List.filter g l) →
  ∃ x, In x l ∧ f x = true ∧ g x = true.
Proof.
  induction l as [|x l IH]; cbn; [lia|]. intros H.
  destruct (f x) eqn:Hf, (g x) eqn:Hg; cbn in H.
  - exists x. by split; [left|].
  - destruct IH as (y & ? & ? & ?); [lia|]. exists y. by split; [right|].
  - destruct IH as (y & ? & ? & ?); [lia|]. exists y. by split; [right|].
  - destruct IH as (y & ? & ? & ?); [lia|]. exists y. by split; [right|].
Qed.

Lemma countb_le M : countb M ≤ length M.
Proof. unfold countb. induction M as [|[] M IH]; cbn; lia. Qed.

Lemma pigeon_masks M1 : ∀ M2,
  length M1 = length M2 → length M1 < countb M1 + countb M2 →
  ∃ j, M1 !! j = Some true ∧ M2 !! j = Some true.
Proof.
  unfold countb. induction M1 as [|b1 M1 IH]; intros [|b2 M2] Hlen H; cbn in *; try lia.
  destruct b1, b2; cbn in H.
  - by exists 0.
  - destruct (IH M2) as (j & ? & ?); [lia|lia|]. by exists (S j).
  - destruct (IH M2) as (j & ? & ?); [lia|lia|]. by exists (S j).
  - destruct (IH M2) as (j & ? & ?); [lia|lia|]. by exists (S j).
Qed.

Lemma orAll_length Js n :
  (∀ J, In J Js → length J = n) → length (orAll Js n) = n.
Proof.
  induction Js as [|J Js IH]; intros H; cbn [orAll].
  - by rewrite length_replicate.
  - rewrite length_zip_with, IH, (H J); [lia|by left|].
    intros J' HJ'. apply H. by right.
Qed.

Lemma orAll_true Js n j :
  orAll Js n !! j = Some true → ∃ J, In J Js ∧ J !! j = Some true.
Proof.
  induction Js as [|J Js IH]; cbn [orAll]; intros H.
  - apply lookup_replicate in H as [? _]. done.
  - apply lookup_zip_with_Some in H as (x & y & Hxy & Hx & Hy).
    destruct x.
    + exists J. by split; [left|].
    + cbn in Hxy. subst y. destruct (IH Hy) as (J' & ? & ?).
      exists J'. by split; [right|].
Qed.

Lemma maskOf_length W Y k : length (maskOf W Y k) = length W.
Proof.
  unfold maskOf, covMask. apply orAll_length.
  intros J (e & <- & [He _]%filter_In)%in_map_iff.
  unfold colMasks in He. apply in_map_iff in He as (p & <- & _).
  cbn. by rewrite length_map.
Qed.

Lemma maskOf_true W Y k j :
  maskOf W Y k !! j = Some true →
  ∃ p w, In p (complements Y) ∧ ontob p.1 (canonise k) = true ∧
         W !! j = Some w ∧ ontob p.2 w = true.
Proof.
  unfold maskOf, covMask. intros (J & HJ & Hj)%orAll_true.
  apply in_map_iff in HJ as (e & <- & [He Hon]%filter_In).
  unfold colMasks in He. apply in_map_iff in He as (p & <- & Hp).
  cbn in Hj, Hon. rewrite list_lookup_fmap in Hj.
  destruct (W !! j) as [w|] eqn:Hw; [|done]. cbn in Hj.
  exists p, w. repeat split; [done|done|congruence].
Qed.

Lemma rowGood_spec W X Y t u :
  rowGood W X Y t u = true →
  ∃ p, In p (complements X) ∧ ontob u p.1 = true ∧ t ≤ countb (maskOf W Y p.2).
Proof.
  unfold rowGood. intros (p & Hp & [H1 H2%Nat.leb_le]%andb_prop)%existsb_exists.
  by exists p.
Qed.

Lemma grade_spec n : (1 ≤ grade n → 25 ≤ n) ∧ (2 ≤ grade n → 32 ≤ n).
Proof.
  unfold grade. destruct (32 <=? n) eqn:H1; [apply Nat.leb_le in H1; lia|].
  destruct (25 <=? n) eqn:H2; [apply Nat.leb_le in H2; lia|]. lia.
Qed.

Lemma best_rowGood W X Y u g t :
  In X canon → In Y canon →
  (g = 1 ∧ t = 25) ∨ (g = 2 ∧ t = 32) →
  (g <=? best (gTrie W Y)
           (map (λ p : list nat * list nat, canonise p.2)
              (List.filter (λ p : list nat * list nat, ontob u p.1) (complements X))) 0)
    = true →
  rowGood W X Y t u = true.
Proof.
  intros HX HY Hgt H%Nat.leb_le.
  destruct (canon_colouring X HX) as [[HXlen HXall] _].
  apply best_spec in H as [?|(k' & Hk' & Hg)]; [lia| |lia].
  apply in_map_iff in Hk' as (p & <- & [Hp Hon]%filter_In).
  destruct (complements_spec X p Hp) as (H1 & H2 & H3 & H4 & _ & _ & _ & _ & Hb2).
  assert (Hc : colouring p.2) by (split; [congruence|done]).
  rewrite lookup_gTrie in Hg;
    [|by apply canonise_colouring|by apply canonise_canonb].
  unfold rowGood. apply existsb_exists. exists p. split; [done|].
  rewrite Hon. cbn [andb]. apply Nat.leb_le.
  pose proof (grade_spec (countb (covMask W (colMasks W Y) (canonise p.2)))) as [G1 G2].
  unfold maskOf. destruct Hgt as [[-> ->]|[-> ->]]; auto.
Qed.

Lemma checkHalf_spec U W :
  checkHalf U W = true →
  ∀ X Y, In X canon → In Y canon →
    halfOK (X, rowKs U X) (Y, gTrie W Y) = true.
Proof.
  unfold checkHalf. intros H X Y HX HY.
  rewrite forallb_forall in H.
  specialize (H (X, rowKs U X)). rewrite forallb_forall in H.
  apply H.
  - apply in_map_iff. by exists X.
  - apply in_map_iff. by exists Y.
Qed.

Lemma half_counts U W :
  checkHalf U W = true →
  ∀ X Y, In X canon → In Y canon →
    48 ≤ length (List.filter (rowGood W X Y 25) U) ∧
    (excb X Y = true ∨ 9 ≤ length (List.filter (rowGood W X Y 32) U)).
Proof.
  intros Hchk X Y HX HY.
  pose proof (checkHalf_spec U W Hchk X Y HX HY) as H.
  unfold halfOK in H. cbn [fst snd] in H. rewrite tally_spec in H.
  apply andb_prop in H as [Hw Hs]. apply Nat.leb_le in Hw.
  unfold rowKs in Hw, Hs. rewrite filter_map_length in Hw, Hs. cbn in Hw.
  split.
  - etrans; [exact Hw|]. apply filter_length_mono. intros u _ Hu.
    by apply (best_rowGood W X Y u 1 25); [..|left|].
  - apply orb_prop in Hs as [?|Hs]; [by left|right].
    apply Nat.leb_le in Hs. cbn in Hs.
    etrans; [exact Hs|]. apply filter_length_mono. intros u _ Hu.
    by apply (best_rowGood W X Y u 2 32); [..|right|].
Qed.

Lemma check1 : checkHalf U1 W1 = true.
Proof. vm_cast_no_check (eq_refl true). Qed.

(** *** The second half of the cycle is the first one reversed *)

Lemma U2_rev : U2 = rev U1.
Proof. vm_compute. reflexivity. Qed.

Lemma W2_rev : W2 = rev W1.
Proof. vm_compute. reflexivity. Qed.

Lemma rev_replicate {A} n (x : A) : rev (replicate n x) = replicate n x.
Proof.
  induction n as [|n IH]; [done|]. cbn [replicate rev]. rewrite IH.
  clear IH. induction n as [|n IH]; [done|]. cbn. by rewrite IH.
Qed.

Lemma zip_with_rev {A B C} (f : A → B → C) l : ∀ k,
  length l = length k → zip_with f (rev l) (rev k) = rev (zip_with f l k).
Proof.
  induction l as [|x l IH]; intros [|y k] Hlen; try done.
  cbn in Hlen. cbn [rev zip_with].
  rewrite zip_with_app by (rewrite !length_rev; lia).
  rewrite IH by lia. done.
Qed.

Lemma countb_rev M : countb (rev M) = countb M.
Proof. unfold countb. by rewrite filter_rev, length_rev. Qed.

Lemma orAll_rev Js n :
  (∀ J, In J Js → length J = n) →
  orAll (map (@rev bool) Js) n = rev (orAll Js n).
Proof.
  induction Js as [|J Js IH]; intros H; cbn [orAll map].
  - by rewrite rev_replicate.
  - rewrite IH by (intros J' HJ'; apply H; by right).
    apply zip_with_rev. rewrite orAll_length; [apply H; by left|].
    intros J' HJ'. apply H. by right.
Qed.

Lemma selected_masks_rev k (W : list (list nat)) (l : list (list nat * list nat)) :
  map snd (List.filter (λ e : list nat * list bool, ontob e.1 k)
             (map (λ p : list nat * list nat, (p.1, map (ontob p.2) (rev W))) l)) =
  map (@rev bool)
    (map snd (List.filter (λ e : list nat * list bool, ontob e.1 k)
                (map (λ p : list nat * list nat, (p.1, map (ontob p.2) W)) l))).
Proof.
  induction l as [|p l IH]; [done|]. cbn [map List.filter fst snd].
  destruct (ontob p.1 k); [|done]. cbn [map snd]. by rewrite IH, map_rev.
Qed.

Lemma maskOf_rev W Y k : maskOf (rev W) Y k = rev (maskOf W Y k).
Proof.
  unfold maskOf, covMask, colMasks. rewrite selected_masks_rev, length_rev.
  apply orAll_rev.
  intros J (e & <- & [He _]%filter_In)%in_map_iff.
  apply in_map_iff in He as (p & <- & _). cbn. by rewrite length_map.
Qed.

Lemma existsb_pointwise {A} (f g : A → bool) l :
  (∀ x, f x = g x) → existsb f l = existsb g l.
Proof. intros H. induction l as [|x l IH]; [done|]. cbn. by rewrite H, IH. Qed.

Lemma rowGood_rev W X Y t u : rowGood (rev W) X Y t u = rowGood W X Y t u.
Proof.
  unfold rowGood. apply existsb_pointwise. intros p.
  by rewrite maskOf_rev, countb_rev.
Qed.

Lemma filter_length_rev {A} (f g : A → bool) l :
  (∀ x, f x = g x) →
  length (List.filter f (rev l)) = length (List.filter g l).
Proof.
  intros H. rewrite filter_rev, length_rev.
  apply Nat.le_antisymm; apply filter_length_mono; intros x _; by rewrite H.
Qed.

Lemma half_counts_swapped X Y :
  In X canon → In Y canon →
  48 ≤ length (List.filter (rowGood W2 X Y 25) U2) ∧
  (excb X Y = true ∨ 9 ≤ length (List.filter (rowGood W2 X Y 32) U2)).
Proof.
  intros HX HY. destruct (half_counts U1 W1 check1 X Y HX HY) as [Hw Hs].
  rewrite U2_rev, W2_rev.
  rewrite (filter_length_rev _ (rowGood W1 X Y 25)) by (intros u; apply rowGood_rev).
  rewrite (filter_length_rev _ (rowGood W1 X Y 32)) by (intros u; apply rowGood_rev).
  done.
Qed.

(** *** Two pigeonholes close the cycle *)

Lemma bandA_length : length bandA = 56.
Proof. vm_compute. reflexivity. Qed.

Lemma stackA_length : length stackA = 56.
Proof. vm_compute. reflexivity. Qed.


Opaque bandA stackA canon complements canonise.

Lemma halves_meet X1 Y1 X2 Y2 t1 t2 n1 n2 :
  56 < t1 + t2 → 56 < n1 + n2 →
  n1 ≤ length (List.filter (rowGood W1 X1 Y1 t1) U1) →
  n2 ≤ length (List.filter (rowGood W2 X2 Y2 t2) U2) →
  ∃ v1 v4 p1 q1 p2 q2,
    In v1 bandA ∧ In v4 stackA ∧
    In p1 (complements X1) ∧ In q1 (complements Y1) ∧
    In p2 (complements X2) ∧ In q2 (complements Y2) ∧
    ontob v1.2 p1.1 = true ∧ ontob q1.1 (canonise p1.2) = true ∧
    ontob q1.2 v4.1 = true ∧
    ontob v1.1 p2.1 = true ∧ ontob q2.1 (canonise p2.2) = true ∧
    ontob q2.2 v4.2 = true.
Proof.
  intros Ht Hn H1 H2. unfold U1, U2 in H1, H2.
  rewrite filter_map_length in H1, H2.
  destruct (pigeon_filter (λ v : list nat * list nat, rowGood W1 X1 Y1 t1 v.2)
              (λ v : list nat * list nat, rowGood W2 X2 Y2 t2 v.1) bandA)
    as (v1 & Hv1 & G1 & G2); [rewrite bandA_length; lia|].
  apply rowGood_spec in G1 as (p1 & Hp1 & On1 & C1).
  apply rowGood_spec in G2 as (p2 & Hp2 & On2 & C2).
  destruct (pigeon_masks (maskOf W1 Y1 p1.2) (maskOf W2 Y2 p2.2))
    as (j & M1 & M2).
  { rewrite !maskOf_length. unfold W1, W2. by rewrite !length_map. }
  { rewrite maskOf_length. unfold W1 at 1. rewrite length_map, stackA_length. lia. }
  apply maskOf_true in M1 as (q1 & w1 & Hq1 & On3 & Hw1 & On4).
  apply maskOf_true in M2 as (q2 & w2 & Hq2 & On5 & Hw2 & On6).
  unfold W1 in Hw1. unfold W2 in Hw2. rewrite list_lookup_fmap in Hw1, Hw2.
  destruct (stackA !! j) as [v4|] eqn:Hv4; [|done].
  cbn in Hw1, Hw2. inversion Hw1; inversion Hw2; subst.
  exists v1, v4, p1, q1, p2, q2.
  split; [exact Hv1|]. split.
  { apply list_elem_of_In, list_elem_of_lookup. exists j. exact Hv4. }
  split; [exact Hp1|]. split; [exact Hq1|]. split; [exact Hp2|]. split; [exact Hq2|].
  split; [exact On1|]. split; [exact On3|]. split; [exact On4|].
  split; [exact On2|]. split; [exact On5|]. exact On6.
Qed.

Lemma complements_compl X p :
  colouring X → In p (complements X) → compl X p.1 p.2.
Proof.
  intros [HX _] Hp.
  destruct (complements_spec X p Hp) as (H1 & H2 & H3 & H4 & H5 & H6 & H7 & _).
  repeat split; try done; congruence.
Qed.

Lemma complements_unmap f X p :
  In f relabelings → colouring X → In p (complements (map f X)) →
  ∃ a b, map f a = p.1 ∧ map f b = p.2 ∧ compl X a b.
Proof.
  intros Hf HX Hp.
  destruct (complements_compl (map f X) p (colouring_relabel f X Hf HX) Hp)
    as ([L1 A1] & [L2 A2] & P1 & P2 & P3).
  destruct (unmap f p.1 Hf A1) as (a & Ha & Ha3 & Hal).
  destruct (unmap f p.2 Hf A2) as (b & Hb & Hb3 & Hbl).
  exists a, b. rewrite <- Ha in P1, P3. rewrite <- Hb in P2, P3.
  split; [done|]. split; [done|].
  split; [split; [congruence|done]|]. split; [split; [congruence|done]|].
  split_and!; by eapply apart_unmap.
Qed.

Lemma apart_sym a b : apart a b → apart b a.
Proof. intros H k x y Hx Hy Heq. by eapply (H k y x). Qed.

Lemma eqlb_eq a : ∀ b, length a = length b → eqlb a b = true → a = b.
Proof.
  unfold eqlb. induction a as [|x a IH]; intros [|y b] Hlen H; try done.
  cbn in H, Hlen. apply andb_prop in H as [Hxy H]. apply Nat.eqb_eq in Hxy.
  f_equal; [done|]. apply IH; [lia|done].
Qed.

Lemma not_both_jA r c :
  colouring r → colouring c → inj2 r c →
  canonise r = jA → canonise c = jA → False.
Proof.
  intros Hr Hc Hinj Er Ec.
  destruct (canonise_relabel r (proj2 Hr)) as (f & Hf & Ef).
  destruct (canonise_relabel c (proj2 Hc)) as (g & Hg & Eg).
  rewrite Er in Ef. rewrite Ec in Eg.
  destruct (relabel_spec f Hf) as (_ & Finj & _).
  destruct (relabel_spec g Hg) as (_ & Ginj & _).
  destruct Hr as [Lr Ar], Hc as [Lc Ac].
  destruct (lookup_lt_is_Some_2 r 0) as [x0 Hx0]; [lia|].
  destruct (lookup_lt_is_Some_2 r 3) as [x3 Hx3]; [lia|].
  destruct (lookup_lt_is_Some_2 c 0) as [y0 Hy0]; [lia|].
  destruct (lookup_lt_is_Some_2 c 3) as [y3 Hy3]; [lia|].
  assert (f x0 = 0 ∧ f x3 = 0) as [F0 F3].
  { split.
    - assert (H : map f r !! 0 = Some (f x0)) by (by rewrite list_lookup_fmap, Hx0).
      rewrite <- Ef in H. by inversion H.
    - assert (H : map f r !! 3 = Some (f x3)) by (by rewrite list_lookup_fmap, Hx3).
      rewrite <- Ef in H. by inversion H. }
  assert (g y0 = 0 ∧ g y3 = 0) as [G0 G3].
  { split.
    - assert (H : map g c !! 0 = Some (g y0)) by (by rewrite list_lookup_fmap, Hy0).
      rewrite <- Eg in H. by inversion H.
    - assert (H : map g c !! 3 = Some (g y3)) by (by rewrite list_lookup_fmap, Hy3).
      rewrite <- Eg in H. by inversion H. }
  assert (x0 = x3).
  { apply Finj; [by eapply Forall_lookup_1 in Ar..|congruence]. }
  assert (y0 = y3).
  { apply Ginj; [by eapply Forall_lookup_1 in Ac..|congruence]. }
  subst. by specialize (Hinj 0 3 _ _ Hx0 Hx3 Hy0 Hy3).
Qed.

Lemma iA_colouring : colouring iA.
Proof. split; [done|]. repeat constructor. Qed.

Lemma jA_colouring : colouring jA.
Proof. split; [done|]. repeat constructor. Qed.

Lemma thresholds_exceed : 56 < 32 + 25 ∧ 56 < 25 + 32 ∧ 56 < 9 + 48 ∧ 56 < 48 + 9.
Proof. lia. Qed.

Theorem layout_exists iB jB iC jC :
  colouring iB → colouring jB → colouring iC → colouring jC →
  balancedb iB = true → balancedb jB = true →
  balancedb iC = true → balancedb jC = true →
  inj2 iB jB →
  ∃ R C, R 0 0 = iA ∧ C 0 0 = jA ∧ R 1 1 = iB ∧ C 1 1 = jB ∧
         R 2 2 = iC ∧ C 2 2 = jC ∧ layoutOK R C.
Proof.
  intros HiB HjB HiC HjC BiB BjB BiC BjC Hinj.
  pose proof (canonise_canon jB HjB BjB) as HX1.
  pose proof (canonise_canon iC HiC BiC) as HY1.
  pose proof (canonise_canon jC HjC BjC) as HX2.
  pose proof (canonise_canon iB HiB BiB) as HY2.
  destruct (half_counts U1 W1 check1 _ _ HX1 HY1) as [Hw1 Hs1].
  destruct (half_counts_swapped _ _ HX2 HY2) as [Hw2 Hs2].
  assert (∃ v1 v4 p1 q1 p2 q2,
    In v1 bandA ∧ In v4 stackA ∧
    In p1 (complements (canonise jB)) ∧ In q1 (complements (canonise iC)) ∧
    In p2 (complements (canonise jC)) ∧ In q2 (complements (canonise iB)) ∧
    ontob v1.2 p1.1 = true ∧ ontob q1.1 (canonise p1.2) = true ∧
    ontob q1.2 v4.1 = true ∧
    ontob v1.1 p2.1 = true ∧ ontob q2.1 (canonise p2.2) = true ∧
    ontob q2.2 v4.2 = true) as Hmeet.
  { destruct Hs2 as [Hexc2|Hs2].
    - destruct Hs1 as [Hexc1|Hs1].
      + exfalso. unfold excb in Hexc1, Hexc2.
        apply andb_prop in Hexc1 as [E1 _]. apply andb_prop in Hexc2 as [_ E2].
        apply eqlb_eq in E1; [|by rewrite (proj1 (canonise_colouring jB HjB))].
        apply eqlb_eq in E2; [|by rewrite (proj1 (canonise_colouring iB HiB))].
        by apply (not_both_jA iB jB).
      + destruct thresholds_exceed as (T1 & _ & T3 & _).
        exact (halves_meet _ _ _ _ 32 25 9 48 T1 T3 Hs1 Hw2).
    - destruct thresholds_exceed as (_ & T2 & _ & T4).
      exact (halves_meet _ _ _ _ 25 32 48 9 T2 T4 Hw1 Hs2). }
  destruct Hmeet as (v1 & v4 & p1 & q1 & p2 & q2 & Hv1 & Hv4 & Hp1 & Hq1 & Hp2 & Hq2
                     & O2 & O8 & O7 & O3 & O6 & O4).
  apply ontob_onto in O2, O8, O7, O3, O6, O4.
  destruct (canonise_relabel jB (proj2 HjB)) as (fjB & FjB & EjB).
  destruct (canonise_relabel iC (proj2 HiC)) as (fiC & FiC & EiC).
  destruct (canonise_relabel jC (proj2 HjC)) as (fjC & FjC & EjC).
  destruct (canonise_relabel iB (proj2 HiB)) as (fiB & FiB & EiB).
  rewrite EjB in Hp1. rewrite EiC in Hq1. rewrite EjC in Hp2. rewrite EiB in Hq2.
  apply complements_unmap in Hp1 as (c2 & c8 & Ec2 & Ec8 & K2 & K8 & A2 & A8 & A28);
    [|done|done].
  apply complements_unmap in Hq1 as (r8 & r7 & Er8 & Er7 & K8' & K7 & B8 & B7 & B87);
    [|done|done].
  apply complements_unmap in Hp2 as (c3 & c6 & Ec3 & Ec6 & K3 & K6 & A3 & A6 & A36);
    [|done|done].
  apply complements_unmap in Hq2 as (r6 & r4 & Er6 & Er4 & K6' & K4 & B6 & B4 & B64);
    [|done|done].
  destruct (complements_compl iA v1 iA_colouring Hv1) as (K3' & K2' & V3 & V2 & V32).
  destruct (complements_compl jA v4 jA_colouring Hv4) as (K7' & K4' & V7 & V4 & V74).
  clear Hv1 Hv4 Hw1 Hs1 Hw2 Hs2 HX1 HY1 HX2 HY2.
  destruct v1 as [r3 r2], v4 as [c7 c4]. cbn [fst snd] in *.
  (* onto facts for the original labels *)
  rewrite <- Ec2 in O2. apply onto_unmap_r in O2; [|done|apply K2].
  destruct (canonise_relabel p1.2) as (h1 & Hh1 & Eh1).
  { rewrite <- Ec8. apply (colouring_relabel fjB c8 FjB K8). }
  rewrite Eh1, <- Er8, <- Ec8 in O8.
  apply onto_unmap_r in O8; [|done|apply (colouring_relabel fjB c8 FjB K8)].
  apply onto_unmap_r in O8; [|done|apply K8].
  apply onto_unmap_l in O8; [|done|apply K8'].
  rewrite <- Er7 in O7. apply onto_unmap_l in O7; [|done|apply K7].
  rewrite <- Ec3 in O3. apply onto_unmap_r in O3; [|done|apply K3].
  destruct (canonise_relabel p2.2) as (h2 & Hh2 & Eh2).
  { rewrite <- Ec6. apply (colouring_relabel fjC c6 FjC K6). }
  rewrite Eh2, <- Er6, <- Ec6 in O6.
  apply onto_unmap_r in O6; [|done|apply (colouring_relabel fjC c6 FjC K6)].
  apply onto_unmap_r in O6; [|done|apply K6].
  apply onto_unmap_l in O6; [|done|apply K6'].
  rewrite <- Er4 in O4. apply onto_unmap_l in O4; [|done|apply K4].
  exists (grid9 iA r2 r3 r4 iB r6 r7 r8 iC), (grid9 jA c2 c3 c4 jB c6 c7 c8 jC).
  do 6 (split; [reflexivity|]).
  split; [|split; [|split]].
  - intros p q Hp Hq.
    destruct p as [|[|[|?]]]; [| | |lia]; destruct q as [|[|[|?]]]; try lia;
      cbn [grid9]; split; first [done | apply iA_colouring | apply jA_colouring].
  - intros p q q' Hp Hq Hq' Hne.
    destruct p as [|[|[|?]]]; [| | |lia]; cbn [grid9].
    all: destruct q as [|[|[|?]]]; try lia; destruct q' as [|[|[|?]]]; try lia;
      try done; cbn [grid9]; auto using apart_sym.
  - intros p p' q Hp Hp' Hq Hne.
    destruct q as [|[|[|?]]]; [| | |lia];
      destruct p as [|[|[|?]]]; try lia; destruct p' as [|[|[|?]]]; try lia;
      try done; cbn [grid9]; auto using apart_sym.
  - intros p q Hp Hq Hne.
    destruct p as [|[|[|?]]]; [| | |lia]; destruct q as [|[|[|?]]]; try lia;
      try done; cbn [grid9]; done.
Qed.

(** *** From a layout to a grid *)

Lemma indexZ_lookup d l : d ∈ l → l !! indexZ d l = Some d.
Proof.
  induction l as [|x l IH]; intros H; [by apply elem_of_nil in H|].
  cbn [indexZ]. destruct (Z.eqb x d) eqn:E.
  - apply Z.eqb_eq in E. by subst.
  - apply Z.eqb_neq in E. apply elem_of_cons in H as [->|H]; [done|]. by apply IH.
Qed.

Lemma indexZ_of_lookup l : ∀ k d, NoDup l → l !! k = Some d → indexZ d l = k.
Proof.
  induction l as [|x l IH]; intros k d Hnd Hk; [done|].
  apply NoDup_cons in Hnd as [Hx Hnd]. cbn [indexZ].
  destruct k as [|k]; cbn in Hk.
  - inversion Hk; subst. by rewrite Z.eqb_refl.
  - destruct (Z.eqb x d) eqn:E.
    + apply Z.eqb_eq in E. subst. exfalso. apply Hx.
      by eapply list_elem_of_lookup_2.
    + f_equal. by apply IH.
Qed.

Lemma positions_self l : NoDup l → positions l l = seq 0 (length l).
Proof.
  intros Hnd. unfold positions. apply list_eq. intros k.
  rewrite list_lookup_fmap.
  destruct (l !! k) as [d|] eqn:Hk; cbn.
  - rewrite (indexZ_of_lookup l k d Hnd Hk).
    symmetry. apply lookup_seq. split; [done|]. by eapply lookup_lt_Some.
  - symmetry. apply lookup_seq_ge. by apply lookup_ge_None.
Qed.

Lemma count3_Permutation l l' :
  l ≡ₚ l' → ∀ a b c, count3 l a b c = count3 l' a b c.
Proof.
  induction 1 as [|x l l' _ IH|x y l|l l' l'' _ IH1 _ IH2]; intros a b c.
  - done.
  - cbn [count3]. destruct x as [|[|?]]; apply IH.
  - cbn [count3]. destruct x as [|[|?]], y as [|[|?]]; done.
  - by rewrite IH1.
Qed.

Lemma balancedb_Permutation l l' : l ≡ₚ l' → balancedb l = balancedb l'.
Proof. intros H. unfold balancedb. by rewrite (count3_Permutation l l' H). Qed.

Lemma cell_gridOf e r c : r < 9 → c < 9 → cell (gridOf e) r c = Some (e r c).
Proof.
  intros Hr Hc.
  do 9 (destruct r as [|r]; [do 9 (destruct c as [|c]; [reflexivity|]); lia|]).
  lia.
Qed.

Lemma gridOf_shape e : shape9 (gridOf e).
Proof. split; [done|]. unfold gridOf. cbn. repeat constructor. Qed.

Lemma iA_rows : rowsOf (seq 0 9) = iA.
Proof. reflexivity. Qed.

Lemma jA_cols : colsOf (seq 0 9) = jA.
Proof. reflexivity. Qed.

Lemma digits_NoDup : NoDup digits.
Proof. apply (bool_decide_unpack _). by vm_compute. Qed.

Lemma digits_range d : d ∈ digits → (1 ≤ d ≤ 9)%Z.
Proof.
  intros H. unfold digits in H.
  repeat (apply elem_of_cons in H as [->|H]; [lia|]). by apply elem_of_nil in H.
Qed.

Lemma divmod3 x y : y < 3 → (3 * x + y) / 3 = x ∧ (3 * x + y) mod 3 = y.
Proof.
  intros Hy. pose proof (Nat.div_mod_eq (3 * x + y) 3).
  pose proof (Nat.mod_upper_bound (3 * x + y) 3). lia.
Qed.

Section DiagonalSeed.
Variables n0 n1 n2 : list Z.
Hypothesis H0 : n0 ≡ₚ digits.
Hypothesis H1 : n1 ≡ₚ digits.
Hypothesis H2 : n2 ≡ₚ digits.

Lemma box_perm p : boxNums n0 n1 n2 p ≡ₚ digits.
Proof. by destruct p as [|[|?]]. Qed.

Lemma box_length p : length (boxNums n0 n1 n2 p) = 9.
Proof. by rewrite (box_perm p). Qed.

Lemma box_NoDup p : NoDup (boxNums n0 n1 n2 p).
Proof. rewrite (box_perm p). apply digits_NoDup. Qed.

Lemma positions_Permutation p : positions n0 (boxNums n0 n1 n2 p) ≡ₚ seq 0 9.
Proof.
  assert (Hp : n0 ≡ₚ boxNums n0 n1 n2 p).
  { etrans; [exact H0|]. symmetry. apply box_perm. }
  etrans; [exact (Permutation_map (λ d, indexZ d (boxNums n0 n1 n2 p)) Hp)|].
  change (map (λ d, indexZ d (boxNums n0 n1 n2 p)) (boxNums n0 n1 n2 p))
    with (positions (boxNums n0 n1 n2 p) (boxNums n0 n1 n2 p)).
  by rewrite positions_self, box_length by apply box_NoDup.
Qed.

Lemma positions_lookup p k d :
  n0 !! k = Some d →
  positions n0 (boxNums n0 n1 n2 p) !! k = Some (indexZ d (boxNums n0 n1 n2 p)).
Proof. intros Hk. unfold positions. by rewrite list_lookup_fmap, Hk. Qed.

Lemma positions_lt p k m :
  positions n0 (boxNums n0 n1 n2 p) !! k = Some m → m < 9.
Proof.
  intros Hk. apply list_elem_of_lookup_2 in Hk.
  rewrite positions_Permutation in Hk. apply elem_of_seq in Hk. lia.
Qed.

Lemma rows_colouring p : colouring (rowsOf (positions n0 (boxNums n0 n1 n2 p))).
Proof.
  split.
  - unfold rowsOf. by rewrite length_map, positions_Permutation.
  - apply Forall_forall. intros x [m [-> Hm]]%list_elem_of_fmap.
    apply list_elem_of_lookup in Hm as [k Hk]. apply positions_lt in Hk.
    apply Nat.Div0.div_lt_upper_bound. lia.
Qed.

Lemma cols_colouring p : colouring (colsOf (positions n0 (boxNums n0 n1 n2 p))).
Proof.
  split.
  - unfold colsOf. by rewrite length_map, positions_Permutation.
  - apply Forall_forall. intros x [m [-> Hm]]%list_elem_of_fmap.
    apply Nat.mod_upper_bound. lia.
Qed.

Lemma rows_balanced p :
  balancedb (rowsOf (positions n0 (boxNums n0 n1 n2 p))) = true.
Proof.
  rewrite (balancedb_Permutation _ (rowsOf (seq 0 9))); [done|].
  unfold rowsOf. by rewrite positions_Permutation.
Qed.

Lemma cols_balanced p :
  balancedb (colsOf (positions n0 (boxNums n0 n1 n2 p))) = true.
Proof.
  rewrite (balancedb_Permutation _ (colsOf (seq 0 9))); [done|].
  unfold colsOf. by rewrite positions_Permutation.
Qed.

Lemma positions_inj2 p :
  inj2 (rowsOf (positions n0 (boxNums n0 n1 n2 p)))
       (colsOf (positions n0 (boxNums n0 n1 n2 p))).
Proof.
  intros k k' x y Hr Hr' Hc Hc'. unfold rowsOf, colsOf in *.
  rewrite list_lookup_fmap in Hr, Hr', Hc, Hc'.
  destruct (positions n0 (boxNums n0 n1 n2 p) !! k) as [m|] eqn:Hm; [|done].
  destruct (positions n0 (boxNums n0 n1 n2 p) !! k') as [m'|] eqn:Hm'; [|done].
  change (Some (m / 3) = Some x) in Hr. change (Some (m' / 3) = Some x) in Hr'.
  change (Some (m mod 3) = Some y) in Hc. change (Some (m' mod 3) = Some y) in Hc'.
  assert (E1 : m / 3 = m' / 3) by congruence.
  assert (E2 : m mod 3 = m' mod 3) by congruence.
  assert (m = m').
  { pose proof (Nat.div_mod_eq m 3). pose proof (Nat.div_mod_eq m' 3). lia. }
  subst m'. eapply NoDup_lookup; [|exact Hm|exact Hm'].
  rewrite positions_Permutation. apply NoDup_seq.
Qed.

Variables R C : nat → nat → list nat.
Hypothesis HR : ∀ p, p < 3 → R p p = rowsOf (positions n0 (boxNums n0 n1 n2 p)).
Hypothesis HC : ∀ p, p < 3 → C p p = colsOf (positions n0 (boxNums n0 n1 n2 p)).
Hypothesis Hlay : layoutOK R C.

(** Every entry of the filled grid is the digit of a point of the first
    box, and the layout sends that point to the cell. *)
Lemma entry_point r c :
  r < 9 → c < 9 →
  ∃ k, n0 !! k = Some (fillEntry n0 n1 n2 R C r c) ∧
       R (r / 3) (c / 3) !! k = Some (r mod 3) ∧
       C (r / 3) (c / 3) !! k = Some (c mod 3).
Proof.
  intros Hr Hc.
  assert (Hp : r / 3 < 3) by (apply Nat.Div0.div_lt_upper_bound; lia).
  assert (Hq : c / 3 < 3) by (apply Nat.Div0.div_lt_upper_bound; lia).
  assert (Hx : r mod 3 < 3) by (apply Nat.mod_upper_bound; lia).
  assert (Hy : c mod 3 < 3) by (apply Nat.mod_upper_bound; lia).
  destruct Hlay as (Hcol & _ & _ & Honto).
  unfold fillEntry. destruct (r / 3 =? c / 3) eqn:E.
  - apply Nat.eqb_eq in E. rewrite <- E.
    unfold seedEntry. rewrite <- E, Nat.eqb_refl.
    set (p := r / 3) in *. set (m := 3 * (r mod 3) + c mod 3).
    destruct (lookup_lt_is_Some_2 (boxNums n0 n1 n2 p) m) as [v Hv].
    { rewrite box_length. lia. }
    rewrite Hv. cbn [default].
    assert (Hin : v ∈ n0).
    { rewrite H0, <- (box_perm p). by eapply list_elem_of_lookup_2. }
    exists (indexZ v n0).
    pose proof (indexZ_lookup v n0 Hin) as Hk.
    split; [done|].
    rewrite HR, HC by done. unfold rowsOf, colsOf.
    rewrite !list_lookup_fmap, (positions_lookup p _ v Hk).
    rewrite (indexZ_of_lookup _ m v (box_NoDup p) Hv).
    destruct (divmod3 (r mod 3) (c mod 3) Hy) as [Em1 Em2]. fold m in Em1, Em2.
    change (Some (m / 3) = Some (r mod 3) ∧ Some (m mod 3) = Some (c mod 3)).
    by rewrite Em1, Em2.
  - apply Nat.eqb_neq in E.
    destruct (Hcol _ _ Hp Hq) as [[LR _] [LC _]].
    destruct (Honto _ _ Hp Hq E _ _ Hx Hy) as (k0 & Hk0R & Hk0C).
    unfold pointAt.
    destruct (find _ (seq 0 9)) as [k|] eqn:Hfind.
    + apply find_some in Hfind as [Hk Hf].
      apply in_seq in Hk. apply andb_prop in Hf as [Hf1 Hf2].
      apply Nat.eqb_eq in Hf1, Hf2.
      rewrite nth_lookup in Hf1, Hf2.
      destruct (lookup_lt_is_Some_2 (R (r / 3) (c / 3)) k) as [x Hx']; [lia|].
      destruct (lookup_lt_is_Some_2 (C (r / 3) (c / 3)) k) as [y Hy']; [lia|].
      rewrite Hx' in Hf1. rewrite Hy' in Hf2. cbn in Hf1, Hf2. subst.
      destruct (lookup_lt_is_Some_2 n0 k) as [v Hv]; [rewrite H0; cbn; lia|].
      exists k. rewrite Hv. done.
    + exfalso.
      assert (Hk0 : k0 < 9) by (rewrite <- LR; by eapply lookup_lt_Some).
      assert (Hin : In k0 (seq 0 9)) by (apply in_seq; lia).
      pose proof (find_none _ _ Hfind k0 Hin) as Hnone. cbn beta in Hnone.
      rewrite !nth_lookup, Hk0R, Hk0C in Hnone. cbn [default from_option id] in Hnone.
      by rewrite !Nat.eqb_refl in Hnone.
Qed.

Lemma filled_full : full (filledGrid n0 n1 n2 R C).
Proof.
  intros r c Hr Hc. exists (fillEntry n0 n1 n2 R C r c).
  split; [by apply cell_gridOf|].
  destruct (entry_point r c Hr Hc) as (k & Hk & _).
  apply digits_range. rewrite <- H0. by eapply list_elem_of_lookup_2.
Qed.

Lemma filled_valid : valid (filledGrid n0 n1 n2 R C).
Proof.
  intros r c r' c' v Hv Hv' Hv0 Hunit.
  destruct (cell_Some_lt _ _ _ _ (gridOf_shape _) Hv) as [Hr Hc].
  destruct (cell_Some_lt _ _ _ _ (gridOf_shape _) Hv') as [Hr' Hc'].
  unfold filledGrid in Hv, Hv'. rewrite cell_gridOf in Hv, Hv' by done.
  inversion Hv as [Ev]. inversion Hv' as [Ev'].
  destruct (entry_point r c Hr Hc) as (k & Hk & HkR & HkC).
  destruct (entry_point r' c' Hr' Hc') as (k' & Hk' & HkR' & HkC').
  rewrite Ev in Hk. rewrite Ev' in Hk'.
  assert (k = k').
  { eapply NoDup_lookup; [|exact Hk|exact Hk']. rewrite H0. apply digits_NoDup. }
  subst k'.
  assert (Hp : r / 3 < 3) by (apply Nat.Div0.div_lt_upper_bound; lia).
  assert (Hq : c / 3 < 3) by (apply Nat.Div0.div_lt_upper_bound; lia).
  assert (Hp' : r' / 3 < 3) by (apply Nat.Div0.div_lt_upper_bound; lia).
  assert (Hq' : c' / 3 < 3) by (apply Nat.Div0.div_lt_upper_bound; lia).
  destruct Hlay as (_ & Hband & Hstack & _).
  pose proof (Nat.div_mod_eq r 3). pose proof (Nat.div_mod_eq r' 3).
  pose proof (Nat.div_mod_eq c 3). pose proof (Nat.div_mod_eq c' 3).
  assert (Hsame : r / 3 = r' / 3 → c / 3 = c' / 3 → r = r' ∧ c = c').
  { intros Ep Eq. rewrite <- Ep, <- Eq in HkR', HkC'.
    assert (r mod 3 = r' mod 3) by congruence.
    assert (c mod 3 = c' mod 3) by congruence. lia. }
  destruct Hunit as [->|[->|[Ep Eq]]].
  - destruct (decide (c / 3 = c' / 3)) as [Eq|Ne]; [by apply Hsame|].
    exfalso. by apply (Hband (r' / 3) (c / 3) (c' / 3) Hp' Hq Hq' Ne k _ _ HkR HkR').
  - destruct (decide (r / 3 = r' / 3)) as [Ep|Ne]; [by apply Hsame|].
    exfalso. by apply (Hstack (r / 3) (r' / 3) (c' / 3) Hp Hp' Hq' Ne k _ _ HkC HkC').
  - by apply Hsame.
Qed.

Lemma filled_completion :
  completion (seedGrid n0 n1 n2) (filledGrid n0 n1 n2 R C).
Proof.
  split; [apply gridOf_shape|]. split; [apply filled_full|].
  split; [apply filled_valid|].
  intros r c v Hv Hv0.
  destruct (cell_Some_lt _ _ _ _ (gridOf_shape _) Hv) as [Hr Hc].
  unfold seedGrid in Hv. rewrite cell_gridOf in Hv by done.
  unfold filledGrid. rewrite cell_gridOf by done. f_equal.
  inversion Hv as [Ev]. unfold fillEntry.
  destruct (r / 3 =? c / 3) eqn:E; [done|].
  unfold seedEntry in Ev. rewrite E in Ev. congruence.
Qed.

End DiagonalSeed.

(** Three diagonal boxes, each holding the digits 1..9 in any order, can
    always be completed to a full valid grid. *)
Theorem seed_solvable n0 n1 n2 :
  n0 ≡ₚ digits → n1 ≡ₚ digits → n2 ≡ₚ digits → solvable (seedGrid n0 n1 n2).
Proof.
  intros H0 H1 H2.
  destruct (layout_exists
              (rowsOf (positions n0 n1)) (colsOf (positions n0 n1))
              (rowsOf (positions n0 n2)) (colsOf (positions n0 n2)))
    as (R & C & R0 & C0 & R1 & C1 & R2 & C2 & Hlay).
  - apply (rows_colouring n0 n1 n2 H0 H1 H2 1).
  - apply (cols_colouring n0 n1 n2 H0 H1 H2 1).
  - apply (rows_colouring n0 n1 n2 H0 H1 H2 2).
  - apply (cols_colouring n0 n1 n2 H0 H1 H2 2).
  - apply (rows_balanced n0 n1 n2 H0 H1 H2 1).
  - apply (cols_balanced n0 n1 n2 H0 H1 H2 1).
  - apply (rows_balanced n0 n1 n2 H0 H1 H2 2).
  - apply (cols_balanced n0 n1 n2 H0 H1 H2 2).
  - apply (positions_inj2 n0 n1 n2 H0 H1 H2 1).
  - exists (filledGrid n0 n1 n2 R C).
    apply filled_completion; try done.
    + intros p Hp. destruct p as [|[|[|?]]]; [| | |lia]; cbn [boxNums]; [|done..].
      rewrite R0, positions_self by (rewrite H0; apply digits_NoDup).
      by rewrite H0.
    + intros p Hp. destruct p as [|[|[|?]]]; [| | |lia]; cbn [boxNums]; [|done..].
      rewrite C0, positions_self by (rewrite H0; apply digits_NoDup).
      by rewrite H0.
Qed.

Lemma length9 {A} (l : list A) :
  length l = 9 → ∃ a0 a1 a2 a3 a4 a5 a6 a7 a8, l = [a0; a1; a2; a3; a4; a5; a6; a7; a8].
Proof.
  intros H. do 9 (destruct l as [|? l]; [done|]). destruct l; [|done]. by eauto 10.
Qed.

Lemma Core_seed n0 n1 n2 :
  length n0 = 9 → length n1 = 9 → length n2 = 9 →
  Core.fillBox 2 n2 (Core.fillBox 1 n1 (Core.fillBox 0 n0 emptyGrid)) = seedGrid n0 n1 n2.
Proof.
  intros (? & ? & ? & ? & ? & ? & ? & ? & ? & ->)%length9
         (? & ? & ? & ? & ? & ? & ? & ? & ? & ->)%length9
         (? & ? & ? & ? & ? & ? & ? & ? & ? & ->)%length9.
  reflexivity.
Qed.

Lemma Gen_seed n0 n1 n2 :
  length n0 = 9 → length n1 = 9 → length n2 = 9 →
  Gen.fillBox 2 n2 (Gen.fillBox 1 n1 (Gen.fillBox 0 n0 Gen.createEmptyGrid)) = seedGrid n0 n1 n2.
Proof.
  intros (? & ? & ? & ? & ? & ? & ? & ? & ? & ->)%length9
         (? & ? & ? & ? & ? & ? & ? & ? & ? & ->)%length9
         (? & ? & ? & ? & ? & ? & ? & ? & ? & ->)%length9.
  reflexivity.
Qed.

Lemma completion_valid (g s : Grid) : completion g s → valid g.
Proof.
  intros (_ & _ & Hval & Hag) r c r' c' v Hv Hv' Hv0 Hunit.
  by apply (Hval r c r' c' v); [apply Hag|apply Hag|..].
Qed.

Lemma seed_entries n0 n1 n2 :
  n0 ≡ₚ digits → n1 ≡ₚ digits → n2 ≡ₚ digits → entries (seedGrid n0 n1 n2).
Proof.
  intros H0 H1 H2.
  assert (He : ∀ r c, (0 ≤ seedEntry n0 n1 n2 r c ≤ 9)%Z).
  { intros r c. unfold seedEntry. destruct (r / 3 =? c / 3); [|lia].
    destruct (boxNums n0 n1 n2 (r / 3) !! _) as [v|] eqn:Hv; cbn; [|lia].
    apply list_elem_of_lookup_2 in Hv.
    rewrite (box_perm n0 n1 n2 H0 H1 H2) in Hv. apply digits_range in Hv. lia. }
  unfold seedGrid, gridOf, entries.
  apply Forall_forall. intros row [r [-> _]]%list_elem_of_fmap.
  apply Forall_forall. intros v [c [-> _]]%list_elem_of_fmap. apply He.
Qed.

Lemma seed_ready n0 n1 n2 :
  n0 ≡ₚ digits → n1 ≡ₚ digits → n2 ≡ₚ digits →
  shape9 (seedGrid n0 n1 n2) ∧ entries (seedGrid n0 n1 n2) ∧
  valid (seedGrid n0 n1 n2) ∧ solvable (seedGrid n0 n1 n2).
Proof.
  intros H0 H1 H2. pose proof (seed_solvable n0 n1 n2 H0 H1 H2) as Hsol.
  split; [apply gridOf_shape|]. split; [by apply seed_entries|].
  split; [|done]. destruct Hsol as [s Hs]. by eapply completion_valid.
Qed.

(** * Further properties of the code *)

(** ** Clues and empty cells *)

Lemma readCells_concat (g : Grid) :
  shape9 g → readCells g allCells = map Some (concat g).
Proof.
  intros [Hlen Hrows].
  do 9 (destruct g as [|? g]; [done|]). destruct g; [|done].
  repeat match goal with
         | H : Forall _ (_ :: _) |- _ => apply Forall_cons in H as [? H]
         end.
  repeat match goal with
         | H : length ?l = 9 |- _ =>
             do 9 (destruct l as [|? l]; [done|]); destruct l; [clear H|done]
         end.
  reflexivity.
Qed.

Lemma clues_empties (g : Grid) : shape9 g → clues g + empties g = 81.
Proof.
  intros Hs. unfold clues, empties.
  assert (E : length (List.filter (λ p : nat * nat, cellIs g p.1 p.2 0) allCells)
              = length (List.filter (λ v : Z, Z.eqb v 0) (concat g))).
  { etrans; [symmetry; exact (filter_map_length (λ o : option Z,
                  match o with Some v => Z.eqb v 0 | None => false end)
                  (λ q : nat * nat, cell g q.1 q.2) allCells)|].
    change (map (λ q : nat * nat, cell g q.1 q.2) allCells) with (readCells g allCells).
    rewrite (readCells_concat g Hs). by rewrite filter_map_length. }
  rewrite E.
  assert (L : length (concat g) = 81).
  { rewrite <- (length_map Some), <- (readCells_concat g Hs).
    unfold readCells. by rewrite length_map. }
  rewrite <- L. clear E L Hs.
  induction (concat g) as [|v l IH]; [done|].
  rewrite filter_cons. cbn [List.filter length].
  destruct (decide (v ≠ 0%Z)) as [Hv|Hv].
  - apply Z.eqb_neq in Hv. rewrite Hv. cbn [length]. lia.
  - assert (v = 0%Z) as -> by (destruct (decide (v = 0%Z)); [done|tauto]).
    cbn [Z.eqb length]. lia.
Qed.

(** Emptying a cell adds at most one empty cell. *)
Lemma empties_clear_le (g : Grid) r c v :
  shape9 g → cell g r c = Some v → empties (setCell g r c 0) ≤ S (empties g).
Proof.
  intros Hs Hc. destruct (decide (v = 0%Z)) as [->|Hv].
  - rewrite setCell_same by done. lia.
  - by rewrite (empties_clear g r c v).
Qed.

(** ** The carvers never remove more than asked *)

Lemma Solver_carve_bound fuel positions :
  ∀ p k removed p' removed',
    shape9 p →
    Solver.carve fuel positions p (Some k) removed = Some (p', removed') →
    shape9 p' ∧ empties p' ≤ empties p + k.
Proof.
  induction positions as [|[row col] rest IH]; intros p k removed p' removed' Hs H.
  { cbn [Solver.carve] in H. inversion H; subst. split; [done|lia]. }
  cbn [Solver.carve leZero] in H.
  destruct (k =? 0) eqn:Hk; [inversion H; subst; split; [done|lia]|].
  apply Nat.eqb_neq in Hk.
  destruct (cell p row col) as [backup|] eqn:Hb; [|done].
  unfold Solver.countSolutionsFast in H.
  destruct (Solver.backtrack _ _ _ _) as [[w m]|]; [|done].
  destruct (negb (m =? 1)).
  - rewrite clear_restore in H by done. by apply IH in H.
  - apply IH in H as [Hs' H]; [|by apply shape9_setCell]. split; [done|].
    pose proof (empties_clear_le p row col backup Hs Hb). lia.
Qed.

Lemma Gen_removeLoop_bound fuel positions n :
  ∀ posLength p removed attempts s p' s',
    shape9 p →
    Gen.removeLoop fuel posLength positions p (Some n) removed attempts s
      = Some (p', s') →
    shape9 p' ∧ empties p' ≤ empties p + (n - removed).
Proof.
  induction posLength as [|posIndex IH]; intros p removed attempts s p' s' Hs H.
  { cbn [Gen.removeLoop] in H. inversion H; subst. split; [done|lia]. }
  cbn [Gen.removeLoop] in H.
  destruct (ltOpt removed (Some n)) eqn:Hlt; cbn [andb] in H;
    [|inversion H; subst; split; [done|lia]].
  cbn [ltOpt] in Hlt. apply Nat.ltb_lt in Hlt.
  destruct (ltOpt attempts _); [|inversion H; subst; split; [done|lia]].
  destruct (positions !! posIndex) as [[row col]|]; [|done].
  destruct (negb (cellIs p row col 0)); [|by apply IH in H].
  destruct (cell p row col) as [temp|] eqn:Ht; [|done].
  destruct (Gen.countSolutionsFast _ _ _ _) as [[[[b w] m] s1]|]; [|done].
  destruct (m =? 1).
  - apply IH in H as [Hs' H]; [|by apply shape9_setCell]. split; [done|].
    pose proof (empties_clear_le p row col temp Hs Ht). lia.
  - rewrite clear_restore in H by done. by apply IH in H.
Qed.

Lemma Core_hasUniqueSolution_grid fuel (g g' : Grid) b :
  Core.hasUniqueSolution fuel g = Some (g', b) → g' = g.
Proof.
  unfold Core.hasUniqueSolution.
  destruct (Core.countSolutionsFast _ _ _) as [[w m]|]; [|done]. by inversion 1.
Qed.

Lemma Core_carveLoop_bound searchFuel k :
  ∀ loopFuel p (removed : gset (nat * nat)) cells attempts cellIndex s p' s',
    shape9 p → size removed = empties p → size removed ≤ k →
    Core.carveLoop loopFuel searchFuel p (Some k) removed cells attempts cellIndex s
      = Some (p', s') →
    shape9 p' ∧ empties p' ≤ k.
Proof.
  induction loopFuel as [|loopFuel IH];
    intros p removed cells attempts cellIndex s p' s' Hs Hsize Hle H; [done|].
  cbn [Core.carveLoop] in H.
  destruct (ltOpt (size removed) (Some k) && (attempts <? 1000)) eqn:Hcond;
    [|inversion H; subst; split; [done|lia]].
  apply andb_true_iff in Hcond as [Hlt _]. cbn [ltOpt] in Hlt.
  apply Nat.ltb_lt in Hlt.
  destruct (if length cells <=? cellIndex
            then let (cells', s'0) := shuffle cells s in (cells', 0, s'0)
            else (cells, cellIndex, s)) as [[cells1 idx1] s1].
  destruct (cells1 !! idx1) as [[row col]|]; [|done].
  destruct (bool_decide ((row, col) ∈ removed) || cellIs p row col 0) eqn:Hskip.
  { by apply IH in H. }
  apply orb_false_iff in Hskip as [Hnotin Hnz].
  apply bool_decide_eq_false in Hnotin.
  destruct (cell p row col) as [temp|] eqn:Ht; [|done].
  destruct (Core.hasUniqueSolution searchFuel (setCell p row col 0))
    as [[w b]|] eqn:Hu; [|done].
  apply Core_hasUniqueSolution_grid in Hu. subst w. destruct b.
  - assert (Hsize' : size ({[(row, col)]} ∪ removed) = S (size removed)).
    { rewrite size_union, size_singleton by by apply disjoint_singleton_l. done. }
    apply IH in H; [done|by apply shape9_setCell| |lia].
    rewrite Hsize', (empties_clear p row col temp); [lia|done|done|].
    intros ->. apply cellIs_true in Ht. congruence.
  - rewrite clear_restore in H by done. by apply IH in H.
Qed.

(** ** Generated grids are full and valid *)

Lemma solved_solvable_completion (g : Grid) b g' :
  solvable g → solved g b g' → completion g g'.
Proof.
  intros Hsol Hres. destruct b; cbn [solved] in Hres; [done|].
  by destruct Hres as [_ Hno].
Qed.

Lemma Solver_generateFullSudoku_full fuel s :
  82 ≤ fuel →
  ∃ g s', Solver.generateFullSudoku fuel s = Some (g, s') ∧
          shape9 g ∧ full g ∧ valid g.
Proof.
  intros Hfuel. unfold Solver.generateFullSudoku.
  destruct (Solver_solveGrid_spec fuel emptyGrid true s)
    as (b & g & s' & -> & Hres).
  - pose proof (empties_le emptyGrid). lia.
  - apply emptyGrid_shape.
  - apply emptyGrid_entries.
  - apply emptyGrid_valid.
  - exists g, s'. split; [done|].
    destruct (solved_solvable_completion emptyGrid b g emptyGrid_solvable Hres)
      as (H1 & H2 & H3 & _).
    done.
Qed.

Lemma Core_generateFullSudoku_full fuel s :
  82 ≤ fuel →
  ∃ g s', Core.generateFullSudoku fuel s = Some (g, s') ∧
          shape9 g ∧ full g ∧ valid g.
Proof.
  intros Hfuel. unfold Core.generateFullSudoku.
  pose proof (shuffle_Permutation digits s) as P0.
  destruct (shuffle digits s) as [n0 s0]. cbn [fst] in P0.
  pose proof (shuffle_Permutation digits s0) as P1.
  destruct (shuffle digits s0) as [n1 s1]. cbn [fst] in P1.
  pose proof (shuffle_Permutation digits s1) as P2.
  destruct (shuffle digits s1) as [n2 s2]. cbn [fst] in P2.
  rewrite Core_seed by (by rewrite ?P0, ?P1, ?P2).
  destruct (seed_ready n0 n1 n2 P0 P1 P2) as (Hs & He & Hv & Hsol).
  destruct (Core_solveGrid_spec fuel (seedGrid n0 n1 n2)) as (b & g & -> & Hres);
    [pose proof (empties_le (seedGrid n0 n1 n2)); lia|done..|].
  exists g, s2. split; [done|].
  destruct (solved_solvable_completion _ b g Hsol Hres) as (H1 & H2 & H3 & _).
  done.
Qed.

Lemma Gen_generateFullSudoku_full fuel s :
  82 ≤ fuel →
  ∃ g s', Gen.generateFullSudoku fuel s = Some (g, s') ∧
          shape9 g ∧ full g ∧ valid g.
Proof.
  intros Hfuel. unfold Gen.generateFullSudoku.
  pose proof (shuffle_Permutation digits s) as P0.
  destruct (shuffle digits s) as [n0 s0]. cbn [fst] in P0.
  pose proof (shuffle_Permutation digits s0) as P1.
  destruct (shuffle digits s0) as [n1 s1]. cbn [fst] in P1.
  pose proof (shuffle_Permutation digits s1) as P2.
  destruct (shuffle digits s1) as [n2 s2]. cbn [fst] in P2.
  rewrite Gen_seed by (by rewrite ?P0, ?P1, ?P2).
  destruct (seed_ready n0 n1 n2 P0 P1 P2) as (Hs & He & Hv & Hsol).
  destruct (Gen_solveGrid_spec fuel (seedGrid n0 n1 n2) s2) as (b & g & s' & -> & Hres);
    [pose proof (empties_le (seedGrid n0 n1 n2)); lia|done..|].
  exists g, s'. split; [done|].
  destruct (solved_solvable_completion _ b g Hsol Hres) as (H1 & H2 & H3 & _).
  done.
Qed.

(** ** Object lookups *)

Lemma getProp_Own {A} (obj : list (string * A)) key a :
  ownProp obj key = Some a → getProp obj key = Own a.
Proof. intros H. unfold getProp. by rewrite H. Qed.

Lemma inherited_not_tag name :
  name ∈ objectPrototypeNames → name ∉ difficultyTags.
Proof.
  unfold objectPrototypeNames. intros H.
  repeat (apply elem_of_cons in H as [->|H]; [by apply (bool_decide_unpack _)|]).
  by apply elem_of_nil in H.
Qed.

Lemma getProp_Inherited {A} (obj : list (string * A)) name :
  (∀ k a, (k, a) ∈ obj → k ∈ difficultyTags) →
  name ∈ objectPrototypeNames → getProp obj name = Inherited.
Proof.
  intros Hkeys Hin. unfold getProp. rewrite ownProp_None.
  - by rewrite bool_decide_eq_true_2.
  - intros k a Hk ->. apply (inherited_not_tag name Hin). exact (Hkeys name a Hk).
Qed.

Lemma ownProp_elem {A} (obj : list (string * A)) key a :
  ownProp obj key = Some a → (key, a) ∈ obj.
Proof.
  induction obj as [|[k b] rest IH]; [done|]. cbn [ownProp].
  destruct (String.eqb k key) eqn:E.
  - apply String.eqb_eq in E as ->. intros [= ->]. left.
  - intros H. right. by apply IH.
Qed.

Lemma Core_config_range difficulty config :
  ownProp Core.difficultyConfig difficulty = Some config →
  Core.minClues config ≤ Core.maxClues config ∧ Core.maxClues config ≤ 81.
Proof.
  intros H%ownProp_elem. unfold Core.difficultyConfig in H.
  repeat (apply elem_of_cons in H as [H|H]; [inversion H; subst; cbn; lia|]).
  by apply elem_of_nil in H.
Qed.

Lemma Solver_level_range level :
  (∃ difficulty, ownProp Solver.difficultyLevels difficulty = Some level) ∨
  level = Solver.medium →
  Solver.minCount level ≤ 81 - Solver.removeCount level.
Proof.
  intros [[difficulty H%ownProp_elem]| ->]; [|cbn; lia].
  unfold Solver.difficultyLevels in H.
  repeat (apply elem_of_cons in H as [H|H]; [inversion H; subst; cbn; lia|]).
  by apply elem_of_nil in H.
Qed.

(** ** Clue counts of the carved puzzles *)

Lemma Solver_removeNumbers_clues (f : Grid) fuel difficulty s :
  shape9 f → full f → valid f → 82 ≤ fuel →
  difficulty ∉ objectPrototypeNames →
  let level := default Solver.medium (ownProp Solver.difficultyLevels difficulty) in
  ∃ p s', Solver.removeNumbers fuel f difficulty s = Some (Returned (p, s')) ∧
          uniquePuzzle p f ∧
          81 - Solver.removeCount level ≤ clues p ∧
          Solver.minCount level ≤ clues p.
Proof.
  intros Hs Hfull Hval Hfuel Hname level.
  assert (Hcfg : match getProp Solver.difficultyLevels difficulty with
                 | Undefined => Own Solver.medium
                 | found => found
                 end = Own level).
  { unfold getProp, level.
    destruct (ownProp Solver.difficultyLevels difficulty) as [l|]; [done|].
    by rewrite bool_decide_eq_false_2. }
  assert (Hrange : Solver.minCount level ≤ 81 - Solver.removeCount level).
  { apply Solver_level_range. unfold level.
    destruct (ownProp Solver.difficultyLevels difficulty) as [l|] eqn:E; [|by right].
    left. by exists difficulty. }
  unfold Solver.removeNumbers, copyGrid. rewrite Hcfg. cbn [field].
  pose proof (shuffle_Permutation allCells s) as Hperm.
  destruct (shuffle allCells s) as [positions s1]. cbn [fst] in Hperm.
  destruct (Solver_carve_spec f Hs Hfull Hval fuel Hfuel positions)
    with (p := f) (removed := @nil (nat * nat * Z))
         (cellsToRemove := Some (Solver.removeCount level))
    as (p' & removed' & Hrun & Hcar & Hrem).
  - rewrite Hperm. apply NoDup_allCells.
  - by apply carved_init.
  - intros r c Hin. destruct (allCells_positions positions r c); done.
  - by intros r c v ?%elem_of_nil.
  - rewrite Hrun.
    pose proof (Solver_carve_bound _ _ _ _ _ _ _ Hs Hrun) as [Hs' Hb].
    rewrite (full_empties f Hfull) in Hb.
    pose proof (clues_empties p' Hs') as Hsum.
    assert (Hno : ltOpt (clues p') (Some (Solver.minCount level)) = false).
    { cbn [ltOpt]. apply Nat.ltb_ge. lia. }
    rewrite Hno. cbn [andb].
    exists p', s1. split; [done|]. split; [by apply carved_unique|]. lia.
Qed.

Lemma Gen_removeNumbers_bound (f : Grid) fuel n s :
  shape9 f → full f → valid f → 82 ≤ fuel →
  ∃ p s', Gen.removeNumbers fuel f (Some n) s = Some (p, s') ∧
          uniquePuzzle p f ∧ shape9 p ∧ empties p ≤ n.
Proof.
  intros Hs Hfull Hval Hfuel. unfold Gen.removeNumbers, Gen.cloneGrid, copyGrid.
  pose proof (shuffle_Permutation allCells s) as Hperm.
  destruct (shuffle allCells s) as [positions s1]. cbn [fst] in Hperm.
  destruct (Gen_removeLoop_spec f Hs Hfull Hval fuel Hfuel positions (Some n)) with
    (posLength := length positions) (p := f) (removed := 0) (attempts := 0) (s := s1)
    as (p' & s' & Hrun & Hcar).
  - intros r c Hin. rewrite Hperm in Hin. by apply elem_of_allCells.
  - done.
  - by apply carved_init.
  - exists p', s'. split; [exact Hrun|]. split; [by apply carved_unique|].
    apply Gen_removeLoop_bound in Hrun as [Hs' Hb]; [|exact Hs].
    rewrite (full_empties f Hfull) in Hb. split; [exact Hs'|lia].
Qed.

Lemma Core_removeNumbers_clues (f : Grid) searchFuel difficulty config s :
  shape9 f → full f → valid f → 82 ≤ searchFuel →
  ownProp Core.difficultyConfig difficulty = Some config →
  ∃ N, ∀ loopFuel, N ≤ loopFuel →
    ∃ p s', Core.removeNumbers loopFuel searchFuel f difficulty s
              = Some (Returned (p, s')) ∧
            uniquePuzzle p f ∧
            s 0 mod (Core.maxClues config - Core.minClues config + 1)
              + Core.minClues config ≤ clues p.
Proof.
  intros Hs Hfull Hval Hfuel Hown.
  destruct (Core_removeNumbers_spec f searchFuel difficulty s Hs Hfull Hval Hfuel)
    as [N HN].
  { by rewrite (getProp_Own _ _ _ Hown). }
  exists N. intros loopFuel Hlf. destruct (HN loopFuel Hlf) as (p & s' & Hrun & Hu).
  exists p, s'. split; [done|]. split; [done|].
  unfold Core.removeNumbers, copyGrid in Hrun.
  rewrite (getProp_Own _ _ _ Hown) in Hrun. cbn [field] in Hrun.
  destruct (shuffle allCells (advance s)) as [cells s1].
  destruct (Core.carveLoop _ _ _ _ _ _ _ _ _) as [[p1 s2]|] eqn:Hloop; [|done].
  inversion Hrun; subst p1 s2. clear Hrun.
  apply Core_carveLoop_bound in Hloop as [Hsp Hloop];
    [|done|by rewrite size_empty, full_empties|rewrite size_empty; lia].
  destruct (Core_config_range _ _ Hown) as [Hlo Hhi].
  cbn [randBelow fst] in Hloop.
  pose proof (Nat.mod_upper_bound (s 0)
                (Core.maxClues config - Core.minClues config + 1)).
  pose proof (clues_empties p Hsp). lia.
Qed.

(** ** The puzzle generators *)



Lemma Gen_generateLoop_spec fuel t :
  82 ≤ fuel →
  ∀ remaining s,
    (∃ puzzle solution s',
        Gen.generateLoop fuel remaining (Some t) s
          = Some (Returned (puzzle, solution, s')) ∧
        shape9 solution ∧ full solution ∧ valid solution ∧
        uniquePuzzle puzzle solution ∧
        t * 4 ≤ empties puzzle * 5 ∧ empties puzzle ≤ t) ∨
    Gen.generateLoop fuel remaining (Some t) s = Some (Threw GenerationFailed).
Proof.
  intros Hfuel. induction remaining as [|remaining IH]; intros s; [by right|].
  cbn [Gen.generateLoop].
  destruct (Gen_generateFullSudoku_full fuel s Hfuel)
    as (g & s1 & -> & Hs & Hfull & Hval).
  destruct (Gen_removeNumbers_bound g fuel t s1 Hs Hfull Hval Hfuel)
    as (p & s2 & -> & Hu & Hsp & Hb).
  destruct (t * 4 <=? empties p * 5) eqn:Hok; [|apply IH].
  apply Nat.leb_le in Hok. left. exists p, g, s2. done.
Qed.

Lemma Solver_generatePuzzle_spec fuel difficulty s :
  82 ≤ fuel →
  ∃ puzzle solution s',
    Solver.generatePuzzle fuel difficulty s = Some (Returned (puzzle, solution, s')) ∧
    shape9 solution ∧ full solution ∧ valid solution ∧
    uniquePuzzle puzzle solution.
Proof.
  intros Hfuel. unfold Solver.generatePuzzle.
  destruct (Solver_generateFullSudoku_full fuel s Hfuel)
    as (g & s1 & -> & Hs & Hfull & Hval).
  destruct (Solver_removeNumbers_spec g Hs Hfull Hval fuel Hfuel difficulty s1)
    as (p & s2 & -> & Hu).
  by exists p, g, s2.
Qed.

Lemma Solver_generateMany_spec fuel difficulty :
  82 ≤ fuel →
  ∀ count puzzles s,
    ∃ new s',
      Solver.generateMany fuel count difficulty puzzles s
        = Some (Returned (puzzles ++ new, s')) ∧
      length new = count ∧ Forall goodPair new.
Proof.
  intros Hfuel. induction count as [|count IH]; intros puzzles s.
  { exists [], s. by rewrite app_nil_r. }
  cbn [Solver.generateMany].
  destruct (Solver_generatePuzzle_spec fuel difficulty s Hfuel)
    as (p & g & s1 & -> & Hs & Hfull & Hval & Hu).
  destruct (IH (puzzles ++ [(p, g)]) s1) as (new & s2 & -> & Hlen & Hall).
  exists ((p, g) :: new), s2. rewrite <- app_assoc. split; [done|].
  split; [by rewrite <- Hlen|]. constructor; [|done].
  split; [by apply full_valid_completeValid|done].
Qed.

Lemma Solver_generateLevels_spec fuel countPerDifficulty :
  82 ≤ fuel →
  ∀ keys allPuzzles s,
    ∃ new s',
      Solver.generateLevels fuel countPerDifficulty keys allPuzzles s
        = Some (Returned (allPuzzles ++ new, s')) ∧
      map fst new = keys ∧
      Forall (λ e : string * list (Grid * Grid),
                length e.2 = countPerDifficulty ∧ Forall goodPair e.2) new.
Proof.
  intros Hfuel. induction keys as [|difficulty keys IH]; intros allPuzzles s.
  { exists [], s. by rewrite app_nil_r. }
  cbn [Solver.generateLevels].
  destruct (Solver_generateMany_spec fuel difficulty Hfuel countPerDifficulty [] s)
    as (puzzles & s1 & -> & Hlen & Hall).
  cbn [app].
  destruct (IH (allPuzzles ++ [(difficulty, puzzles)]) s1)
    as (new & s2 & -> & Hkeys & Hrest).
  exists ((difficulty, puzzles) :: new), s2. rewrite <- app_assoc. split; [done|].
  split; [by rewrite <- Hkeys|]. by constructor.
Qed.

Lemma Core_generateSudokuPuzzle_spec searchFuel difficulty config s :
  82 ≤ searchFuel →
  ownProp Core.difficultyConfig difficulty = Some config →
  ∃ N, ∀ loopFuel, N ≤ loopFuel →
    ∃ puzzle solution s',
      Core.generateSudokuPuzzle loopFuel searchFuel difficulty s
        = Some (Returned (puzzle, solution, s')) ∧
      completeValid solution ∧ uniquePuzzle puzzle solution ∧
      Core.minClues config ≤ clues puzzle.
Proof.
  intros Hfuel Hown. unfold Core.generateSudokuPuzzle.
  destruct (Core_generateFullSudoku_full searchFuel s Hfuel)
    as (g & s1 & -> & Hs & Hfull & Hval).
  destruct (Core_removeNumbers_clues g searchFuel difficulty config s1
              Hs Hfull Hval Hfuel Hown) as [N HN].
  exists N. intros loopFuel Hlf.
  destruct (HN loopFuel Hlf) as (p & s2 & -> & Hu & Hc).
  exists p, g, s2. split; [done|]. split; [by apply full_valid_completeValid|].
  split; [done|]. lia.
Qed.

(** ** Grids without empty cells *)

Lemma empties_zero_cells (g : Grid) q :
  empties g = 0 → q ∈ allCells → cellIs g q.1 q.2 0 = false.
Proof.
  unfold empties. intros H%length_zero_iff_nil Hin.
  destruct (cellIs g q.1 q.2 0) eqn:Hc; [|done].
  assert (Hq : In q (List.filter (λ p : nat * nat, cellIs g p.1 p.2 0) allCells)).
  { apply filter_In. split; [by apply list_elem_of_In|done]. }
  by rewrite H in Hq.
Qed.

Lemma find_all_false {A} (f : A → bool) l :
  (∀ x, x ∈ l → f x = false) → List.find f l = None.
Proof.
  induction l as [|x l IH]; intros H; [done|]. cbn [List.find].
  rewrite (H x) by left. apply IH. intros y Hy. apply H. by right.
Qed.

Lemma omap_all_None {A B} (f : A → option B) l :
  (∀ x, x ∈ l → f x = None) → omap f l = [].
Proof.
  induction l as [|x l IH]; intros H; [done|]. cbn [omap list_omap].
  rewrite (H x) by left. apply IH. intros y Hy. apply H. by right.
Qed.

Lemma Gen_scanBest_all_filled (g : Grid) cells minP best :
  (∀ q, q ∈ cells → cellIs g q.1 q.2 0 = false) →
  Gen.scanBest g cells minP best = best.
Proof.
  induction cells as [|[r c] cells IH]; intros H; [done|]. cbn [Gen.scanBest].
  pose proof (H (r, c) ltac:(left)) as Hc. cbn [fst snd] in Hc. rewrite Hc.
  apply IH. intros q Hq. apply H. by right.
Qed.

(** ** Exactly one completion *)

Lemma numCompletions_one_iff (g : Grid) n :
  numCompletions g n → (n = 1 ↔ ∃ f, uniquePuzzle g f).
Proof.
  intros Hn. split.
  - intros ->. destruct Hn as (sols & Hnd & Hmem & Hlen).
    destruct sols as [|f [|? ?]]; try done. exists f. split.
    + apply Hmem. left.
    + intros s Hs. apply Hmem in Hs. by apply list_elem_of_singleton in Hs.
  - intros [f [Hf Huniq]]. apply (numCompletions_unique g n 1 Hn).
    exists [f]. split; [apply NoDup_singleton|]. split; [|done].
    intros s. rewrite list_elem_of_singleton. split; [by intros ->|apply Huniq].
Qed.

(** ** The random source *)

Lemma shuffleFrom_draws {A} i (a : list A) s :
  (shuffleFrom i a s).2 = Nat.iter i advance s.
Proof.
  revert a s. induction i as [|i IH]; intros a s; [done|].
  cbn [shuffleFrom randBelow]. rewrite IH. by rewrite Nat.iter_succ_r.
Qed.

Lemma Solver_tryList_plain (rec : Grid → Rng → option (bool * Grid * Rng)) r c :
  (∀ g s b g' s', rec g s = Some (b, g', s') →
                  s' = s ∧ ∀ t, rec g t = Some (b, g', t)) →
  ∀ nums g s b g' s',
    Solver.tryList rec r c nums g s = Some (b, g', s') →
    s' = s ∧ ∀ t, Solver.tryList rec r c nums g t = Some (b, g', t).
Proof.
  intros Hrec. induction nums as [|d nums IH]; intros g s b g' s' H.
  { cbn [Solver.tryList] in H |- *. by inversion H. }
  cbn [Solver.tryList] in H |- *.
  destruct (Solver.isValidPlacement g r c d); [|by apply IH].
  destruct (rec (setCell g r c d) s) as [[[[] g1] s1]|] eqn:Hr; [| |done];
    destruct (Hrec _ _ _ _ _ Hr) as [-> Ht].
  - inversion H; subst. split; [done|]. intros t. by rewrite Ht.
  - destruct (IH _ _ _ _ _ H) as [-> Hrest]. split; [done|].
    intros t. by rewrite Ht.
Qed.

Lemma Solver_solveGrid_plain fuel :
  ∀ g s b g' s',
    Solver.solveGrid fuel g false s = Some (b, g', s') →
    s' = s ∧ ∀ t, Solver.solveGrid fuel g false t = Some (b, g', t).
Proof.
  induction fuel as [|fuel IH]; intros g s b g' s' H; [done|].
  cbn [Solver.solveGrid andb] in H |- *.
  destruct (Solver.mrvCell g) as [[[r c] poss]|]; [|by inversion H].
  by apply (Solver_tryList_plain _ r c IH) in H.
Qed.

(** ** The carver of sudoku-solver.js stops at its count or at the last cell *)

(** A puzzle with fewer clues has more completions. *)
Lemma fewer_clues_completion (p q s : Grid) :
  (∀ r c v, cell q r c = Some v → v = 0%Z ∨ cell p r c = Some v) →
  completion p s → completion q s.
Proof.
  intros Hsub (Hs & Hfull & Hval & Hext).
  split; [done|split; [done|split; [done|]]].
  intros r c v Hv Hv0. destruct (Hsub r c v Hv) as [->|Hp]; [done|].
  by apply Hext.
Qed.

Section SolverExhaust.

Variable f : Grid.
Hypothesis f_shape : shape9 f.
Hypothesis f_full : full f.
Hypothesis f_valid : valid f.
Variable fuel : nat.
Hypothesis enough : 82 ≤ fuel.

Lemma Solver_carve_exhaust positions :
  NoDup positions →
  ∀ p cellsToRemove removed,
    carved f p →
    (∀ r c, (r, c) ∈ positions → r < 9 ∧ c < 9 ∧ cell p r c = cell f r c) →
    ∃ p' removed',
      Solver.carve fuel positions p cellsToRemove removed = Some (p', removed') ∧
      carved f p' ∧
      (∀ r c v, cell p' r c = Some v → v = 0%Z ∨ cell p r c = Some v) ∧
      ((∃ n, cellsToRemove = Some n ∧ empties p' = empties p + n) ∨
       (∀ r c, (r, c) ∈ positions →
          cell p' r c = Some 0%Z ∨ ¬ uniquePuzzle (setCell p' r c 0) f)).
Proof.
  induction positions as [|[row col] rest IH]; intros Hnd p k removed Hcar Hpos.
  { exists p, removed. split; [done|]. split; [done|]. split; [by right|].
    right. by intros r c ?%elem_of_nil. }
  apply NoDup_cons in Hnd as [Hnin Hnd].
  cbn [Solver.carve]. destruct (leZero k) eqn:Hk.
  { exists p, removed. split; [done|]. split; [done|]. split; [by right|].
    left. destruct k as [[|n]|]; try done. exists 0. split; [done|lia]. }
  destruct (Hpos row col) as (Hr & Hc & Hsame); [left|].
  destruct (f_full row col Hr Hc) as (backup & Hb & Hb19).
  rewrite Hsame, Hb.
  destruct (cleared_ready f f_shape f_full f_valid p row col Hcar)
    as (Hs1 & Hent1 & Hval1 & Hemp1 & Hcomp1).
  destruct (numCompletions_exists _ Hs1 Hent1 Hval1) as [n Hn].
  rewrite (Solver_countSolutionsFast_spec fuel _ n) by (done || lia).
  rewrite min2_eq_1. pose proof Hcar as (Hs & Hagree & _).
  assert (Hp : cell p row col = Some backup) by by rewrite Hsame.
  destruct (n =? 1) eqn:Hn1; cbn [negb].
  - apply Nat.eqb_eq in Hn1 as ->.
    destruct (IH Hnd (setCell p row col 0) (option_map pred k)
                ((row, col, backup) :: removed))
      as (p' & removed' & Hrun & Hcar' & Hsub & Hend).
    + by apply carved_clear.
    + intros r c Hin. destruct (Hpos r c) as (? & ? & ?); [by right|].
      split; [done|split; [done|]]. rewrite cell_setCell_ne; [done|].
      destruct (decide (row = r)) as [->|]; [|auto]. right.
      intros ->. done.
    + assert (Hzero : cell p' row col = Some 0%Z).
      { destruct Hcar' as (Hs' & _).
        destruct (cell_is_Some p' row col Hs' Hr Hc) as [v Hv].
        destruct (Hsub row col v Hv) as [->|Hv1]; [done|].
        rewrite cell_setCell_eq in Hv1 by (rewrite Hp; eauto). congruence. }
      exists p', removed'. split; [done|]. split; [done|]. split.
      * intros r c v Hv. destruct (Hsub r c v Hv) as [->|Hv1]; [by left|].
        destruct (decide (row = r ∧ col = c)) as [[<- <-]|N].
        -- left. congruence.
        -- right. by rewrite cell_setCell_ne in Hv1 by (clear -N; lia).
      * destruct Hend as [(m & Hm & Hcount)|Hall]; [left|right].
        -- destruct k as [[|n0]|]; try done. cbn [option_map pred] in Hm.
           inversion Hm; subst m. exists (S n0). split; [done|].
           rewrite (empties_clear p row col backup) in Hcount; [lia|done|done|lia].
        -- intros r c [Heq|Hin]%elem_of_cons; [|by apply Hall].
           inversion Heq; subst. by left.
  - rewrite clear_restore by done. cbn [tail].
    destruct (IH Hnd p k removed) as (p' & removed' & Hrun & Hcar' & Hsub & Hend).
    + done.
    + intros r c Hin. apply Hpos. by right.
    + exists p', removed'. split; [done|]. split; [done|]. split; [done|].
      destruct Hend as [Hex|Hall]; [by left|right].
      intros r c [Heq|Hin]%elem_of_cons; [|by apply Hall].
      inversion Heq; subst r c. right. intros [Hcf Huniq].
      apply Nat.eqb_neq in Hn1. apply Hn1.
      apply (numCompletions_unique _ n 1 Hn). exists [f].
      split; [apply NoDup_singleton|]. split; [|done].
      intros s. rewrite list_elem_of_singleton. split; [by intros ->|].
      intros Hs0. apply Huniq. revert Hs0. apply fewer_clues_completion.
      intros r c v Hv.
      destruct (decide (row = r ∧ col = c)) as [[<- <-]|N].
      * left. destruct Hcar' as (Hs' & _).
        rewrite cell_setCell_eq in Hv by by apply cell_is_Some. congruence.
      * rewrite cell_setCell_ne in Hv by (clear -N; lia).
        destruct (Hsub r c v Hv) as [->|Hv1]; [by left|]. right.
        by rewrite cell_setCell_ne by (clear -N; lia).
Qed.

End SolverExhaust.

Lemma Solver_removeNumbers_exhaust (f : Grid) fuel difficulty s :
  shape9 f → full f → valid f → 82 ≤ fuel →
  ∃ p s', Solver.removeNumbers fuel f difficulty s = Some (Returned (p, s')) ∧
    shape9 p ∧
    (((difficulty ∉ objectPrototypeNames) ∧
      empties p = Solver.removeCount
                    (default Solver.medium
                       (ownProp Solver.difficultyLevels difficulty))) ∨
     (∀ r c, r < 9 → c < 9 → cell p r c ≠ Some 0%Z →
             ¬ uniquePuzzle (setCell p r c 0) f)).
Proof.
  intros Hs Hfull Hval Hfuel. unfold Solver.removeNumbers, copyGrid.
  pose proof (shuffle_Permutation allCells s) as Hperm.
  destruct (shuffle allCells s) as [positions s1]. cbn [fst] in Hperm.
  set (config := match getProp Solver.difficultyLevels difficulty with
                 | Undefined => Own Solver.medium
                 | found => found
                 end).
  destruct (Solver_carve_exhaust f Hs Hfull Hval fuel Hfuel positions)
    with (p := f) (removed := @nil (nat * nat * Z))
         (cellsToRemove := field Solver.removeCount config)
    as (p' & removed' & Hrun & Hcar & Hsub & Hend).
  - rewrite Hperm. apply NoDup_allCells.
  - by apply carved_init.
  - intros r c Hin. destruct (allCells_positions positions r c); done.
  - rewrite Hrun. pose proof Hcar as (Hs' & _).
    assert (Hno : ltOpt (clues p') (field Solver.minCount config) = false).
    { destruct (field Solver.minCount config) as [m|] eqn:Hm; [|done].
      cbn [ltOpt]. apply Nat.ltb_ge.
      destruct config as [level| |] eqn:Hcfg; try done.
      cbn [field] in Hm, Hrun. inversion Hm; subst m.
      apply Solver_carve_bound in Hrun as [_ Hb]; [|done].
      rewrite (full_empties f Hfull) in Hb.
      pose proof (clues_empties p' Hs').
      assert (Solver.minCount level ≤ 81 - Solver.removeCount level); [|lia].
      apply Solver_level_range. subst config. unfold getProp in Hcfg.
      destruct (ownProp Solver.difficultyLevels difficulty) as [l|] eqn:E.
      - left. exists difficulty. congruence.
      - right. destruct (bool_decide _); [done|congruence]. }
    rewrite Hno. cbn [andb]. exists p', s1. split; [done|]. split; [done|].
    destruct Hend as [(n & Hn & Hcount)|Hall]; [left|right].
    + rewrite (full_empties f Hfull) in Hcount. cbn [Nat.add] in Hcount.
      subst config. unfold getProp in Hn.
      destruct (ownProp Solver.difficultyLevels difficulty) as [l|] eqn:E.
      * cbn [field default] in Hn |- *. inversion Hn; subst n.
        split; [|done]. intros Hin.
        apply (inherited_not_tag _ Hin), (Solver_config_keys _ l).
        by apply ownProp_elem.
      * destruct (bool_decide (difficulty ∈ objectPrototypeNames)) eqn:Hd; [done|].
        apply bool_decide_eq_false in Hd. cbn [field default] in Hn |- *.
        inversion Hn; subst n. done.
    + intros r c Hr Hc Hne. destruct (Hall r c); [|done|done].
      rewrite Hperm. by apply elem_of_allCells.
Qed.

(** ** The diagonal boxes of a generated grid *)

Lemma seed_boxes n0 n1 n2 :
  length n0 = 9 → length n1 = 9 → length n2 = 9 →
  readCells (seedGrid n0 n1 n2) (boxCells 0) = map Some n0 ∧
  readCells (seedGrid n0 n1 n2) (boxCells 4) = map Some n1 ∧
  readCells (seedGrid n0 n1 n2) (boxCells 8) = map Some n2.
Proof.
  intros (? & ? & ? & ? & ? & ? & ? & ? & ? & ->)%length9
         (? & ? & ? & ? & ? & ? & ? & ? & ? & ->)%length9
         (? & ? & ? & ? & ? & ? & ? & ? & ? & ->)%length9.
  done.
Qed.

Lemma completion_readCells (p g : Grid) cells nums :
  completion p g → readCells p cells = map Some nums →
  Forall (λ v, v ≠ 0%Z) nums → readCells g cells = map Some nums.
Proof.
  intros (_ & _ & _ & Hext). revert nums.
  induction cells as [|[r c] cells IH]; intros nums Hread Hnz.
  { by destruct nums. }
  destruct nums as [|v nums]; [done|]. cbn [readCells map fst snd] in Hread |- *.
  injection Hread as Hv Hrest. apply Forall_cons in Hnz as [Hv0 Hnz].
  f_equal.
  - by apply Hext.
  - by apply IH.
Qed.

Lemma digits_Permutation_nonzero nums :
  nums ≡ₚ digits → Forall (λ v, v ≠ 0%Z) nums.
Proof.
  intros H. apply Forall_forall. intros v Hv. rewrite H in Hv.
  by apply digits_nonzero.
Qed.

Lemma seeded_boxes (g : Grid) n0 n1 n2 :
  n0 ≡ₚ digits → n1 ≡ₚ digits → n2 ≡ₚ digits →
  completion (seedGrid n0 n1 n2) g →
  readCells g (boxCells 0) = map Some n0 ∧
  readCells g (boxCells 4) = map Some n1 ∧
  readCells g (boxCells 8) = map Some n2.
Proof.
  intros P0 P1 P2 Hc.
  destruct (seed_boxes n0 n1 n2) as (B0 & B1 & B2); [by rewrite ?P0, ?P1, ?P2..|].
  split; [|split]; eapply completion_readCells; eauto using digits_Permutation_nonzero.
Qed.

(** ** The two MRV solvers run alike *)

Lemma insertSorted_map {A B} (F : A → B) (key : B → nat) x l :
  insertSorted key (F x) (map F l) = map F (insertSorted (λ a, key (F a)) x l).
Proof.
  induction l as [|y l IH]; [done|]. cbn [map insertSorted].
  destruct (key (F x) <=? key (F y)); [done|]. cbn [map]. by rewrite IH.
Qed.

Lemma stableSort_map {A B} (F : A → B) (key : B → nat) l :
  stableSort key (map F l) = map F (stableSort (λ a, key (F a)) l).
Proof.
  unfold stableSort. induction l as [|x l IH]; [done|]. cbn [map foldr].
  by rewrite IH, insertSorted_map.
Qed.

Lemma Core_emptyCells_Solver (g : Grid) :
  Core.emptyCells g
  = map (λ e : nat * nat * list Z, (e.1.1, e.1.2, length e.2)) (Solver.emptyCells g).
Proof.
  unfold Core.emptyCells, Solver.emptyCells.
  induction allCells as [|[r c] cells IH]; [done|]. cbn [omap list_omap fst snd].
  destruct (cellIs g r c 0); [|exact IH]. cbn [map fst snd]. rewrite IH.
  unfold Core.countPossible. by rewrite Solver_possibilitiesOf_eq.
Qed.

Lemma Core_mrvCell_Solver (g : Grid) :
  Core.mrvCell g
  = option_map (λ e : nat * nat * list Z, (e.1.1, e.1.2)) (Solver.mrvCell g).
Proof.
  unfold Core.mrvCell, Solver.mrvCell.
  rewrite Core_emptyCells_Solver, stableSort_map. cbn [snd].
  by destruct (stableSort _ (Solver.emptyCells g)) as [|[[r c] poss] l].
Qed.

Lemma tryList_tryDigits (recC : Grid → option (bool * Grid))
    (recS : Grid → Rng → option (bool * Grid * Rng)) (g : Grid) r c s :
  cell g r c = Some 0%Z →
  (∀ g1 g2, recC g1 = Some (false, g2) → g2 = g1) →
  (∀ g1, recS g1 s = withSource s (recC g1)) →
  ∀ nums,
    Solver.tryList recS r c (List.filter (Core.isValidPlacement g r c) nums) g s
    = withSource s (Core.tryDigits recC r c nums g).
Proof.
  intros Hc Hframe Hrec. induction nums as [|d nums IH]; [done|].
  cbn [List.filter Core.tryDigits].
  destruct (Core.isValidPlacement g r c d) eqn:Hv; [|exact IH].
  cbn [Solver.tryList]. rewrite Solver_isValidPlacement_eq, Hv, Hrec.
  destruct (recC (setCell g r c d)) as [[[] g1]|] eqn:Hr; cbn [withSource]; [done| |done].
  apply Hframe in Hr as ->. rewrite setCell_undo by done. exact IH.
Qed.

Lemma Solver_solveGrid_Core fuel :
  ∀ g s, Solver.solveGrid fuel g false s = withSource s (Core.solveGridWithMRV fuel g).
Proof.
  induction fuel as [|fuel IH]; intros g s; [done|].
  cbn [Solver.solveGrid Core.solveGridWithMRV andb].
  rewrite Core_mrvCell_Solver.
  destruct (Solver.mrvCell g) as [[[r c] poss]|] eqn:Hsel; cbn [option_map fst snd];
    [|done].
  apply Solver_mrvCell_Some in Hsel as [Hc ->].
  rewrite Solver_possibilitiesOf_eq.
  apply tryList_tryDigits; [done| |].
  - intros g1 g2. apply Core_solveGridWithMRV_frame.
  - intros g1. apply IH.
Qed.

(** ** Pregeneration in sudoku-core.js *)

Lemma ownProp_setProp_eq {A} (obj : list (string * A)) key a :
  ownProp (setProp obj key a) key = Some a.
Proof.
  induction obj as [|[k b] rest IH]; cbn [setProp ownProp].
  - by rewrite String.eqb_refl.
  - destruct (String.eqb k key) eqn:E; cbn [ownProp]; by rewrite E.
Qed.

Lemma ownProp_setProp_ne {A} (obj : list (string * A)) key key' a :
  key ≠ key' → ownProp (setProp obj key a) key' = ownProp obj key'.
Proof.
  intros Hne. induction obj as [|[k b] rest IH]; cbn [setProp ownProp].
  - destruct (String.eqb key key') eqn:E; [|done].
    by apply String.eqb_eq in E.
  - destruct (String.eqb k key) eqn:E; cbn [ownProp].
    + apply String.eqb_eq in E as ->.
      destruct (String.eqb key key') eqn:E'; [|done].
      by apply String.eqb_eq in E'.
    + by rewrite IH.
Qed.

(** With more fuel the carving loop returns the same. *)
Lemma Core_carveLoop_mono searchFuel :
  ∀ n m p k removed cells attempts cellIndex s r,
    Core.carveLoop n searchFuel p k removed cells attempts cellIndex s = Some r →
    n ≤ m →
    Core.carveLoop m searchFuel p k removed cells attempts cellIndex s = Some r.
Proof.
  induction n as [|n IH]; intros m p k removed cells attempts cellIndex s r H Hle;
    [done|].
  destruct m as [|m]; [lia|]. cbn [Core.carveLoop] in H |- *.
  destruct (ltOpt (size removed) k && (attempts <? 1000)); [|done].
  destruct (if length cells <=? cellIndex
            then let (cells', s'0) := shuffle cells s in (cells', 0, s'0)
            else (cells, cellIndex, s)) as [[cells1 idx1] s1].
  destruct (cells1 !! idx1) as [[row col]|]; [|done].
  destruct (bool_decide ((row, col) ∈ removed) || cellIs p row col 0).
  { apply IH; [done|lia]. }
  destruct (cell p row col) as [temp|]; [|done].
  destruct (Core.hasUniqueSolution searchFuel (setCell p row col 0))
    as [[w []]|]; [| |done]; (apply IH; [done|lia]).
Qed.

Lemma Core_removeNumbers_mono n m searchFuel (f : Grid) difficulty s r :
  Core.removeNumbers n searchFuel f difficulty s = Some r → n ≤ m →
  Core.removeNumbers m searchFuel f difficulty s = Some r.
Proof.
  unfold Core.removeNumbers. intros H Hle.
  destruct (getProp Core.difficultyConfig difficulty); [| |done].
  - destruct (shuffle allCells (advance s)) as [cells s1].
    cbn [field] in H |- *.
    destruct (Core.carveLoop n _ _ _ _ _ _ _ _) as [r1|] eqn:E; [|done].
    by rewrite (Core_carveLoop_mono _ _ m _ _ _ _ _ _ _ _ E Hle).
  - destruct (shuffle allCells (advance s)) as [cells s1].
    cbn [field] in H |- *.
    destruct (Core.carveLoop n _ _ _ _ _ _ _ _) as [r1|] eqn:E; [|done].
    by rewrite (Core_carveLoop_mono _ _ m _ _ _ _ _ _ _ _ E Hle).
Qed.

(** With enough fuel [removeNumbers] returns one and the same puzzle. *)
Lemma Core_removeNumbers_settles (f : Grid) searchFuel difficulty config s :
  shape9 f → full f → valid f → 82 ≤ searchFuel →
  ownProp Core.difficultyConfig difficulty = Some config →
  ∃ N p s',
    (∀ loopFuel, N ≤ loopFuel →
       Core.removeNumbers loopFuel searchFuel f difficulty s
         = Some (Returned (p, s'))) ∧
    uniquePuzzle p f.
Proof.
  intros Hs Hfull Hval Hfuel Hown.
  destruct (Core_removeNumbers_clues f searchFuel difficulty config s
              Hs Hfull Hval Hfuel Hown) as [N HN].
  destruct (HN N (le_n N)) as (p & s' & Hrun & Hu & _).
  exists N, p, s'. split; [|done]. intros loopFuel Hle.
  by apply (Core_removeNumbers_mono N).
Qed.

Lemma quiet_refl out : quiet out out.
Proof. intros line H. by left. Qed.

Lemma quiet_trans out1 out2 out3 : quiet out1 out2 → quiet out2 out3 → quiet out1 out3.
Proof.
  intros H12 H23 line H. destruct (H23 line H) as [H2|]; [|by right].
  by apply H12.
Qed.

Lemma quiet_debug message logger out : quiet out (Core.debug message logger out).
Proof.
  unfold Core.debug. destruct (Core.passes logger 0); [|apply quiet_refl].
  intros line [H|H]%elem_of_app; [by left|].
  apply list_elem_of_singleton in H as ->. by right.
Qed.

Lemma quiet_info message logger out : quiet out (Core.info message logger out).
Proof.
  unfold Core.info. destruct (Core.passes logger 1); [|apply quiet_refl].
  intros line [H|H]%elem_of_app; [by left|].
  apply list_elem_of_singleton in H as ->. by right.
Qed.

Section Pregeneration.

Variable searchFuel : nat.
Hypothesis enough : 82 ≤ searchFuel.
Variable logger : Core.Logger.

Lemma Core_generateRound_spec i difficulty config generated entries out s :
  ownProp Core.difficultyConfig difficulty = Some config →
  ownProp generated difficulty = Some entries →
  ∃ N e out' s',
    (∀ loopFuel, N ≤ loopFuel →
       Core.generateRound loopFuel searchFuel i difficulty logger generated out s
       = Some (setProp generated difficulty (entries ++ [e]), out', s')) ∧
    goodPair e ∧ quiet out out'.
Proof.
  intros Hown Hentries.
  destruct (Core_generateFullSudoku_full searchFuel s enough)
    as (g & s1 & Hgen & Hs & Hfull & Hval).
  destruct (Core_removeNumbers_settles g searchFuel difficulty config s1
              Hs Hfull Hval enough Hown) as (N & p & s2 & Hrun & Hu).
  exists N, (p, g). eexists. exists s2. split; [|split].
  - intros loopFuel Hle. unfold Core.generateRound.
    rewrite Hgen, (Hrun loopFuel Hle), Hentries. reflexivity.
  - split; [by apply full_valid_completeValid|done].
  - apply quiet_debug.
Qed.

Lemma Core_generateRounds_spec difficulty config :
  ownProp Core.difficultyConfig difficulty = Some config →
  ∀ remaining i generated entries out s,
    ownProp generated difficulty = Some entries →
    ∃ N generated' new out' s',
      (∀ loopFuel, N ≤ loopFuel →
         Core.generateRounds loopFuel searchFuel remaining i difficulty logger
           generated out s = Some (generated', out', s')) ∧
      ownProp generated' difficulty = Some (entries ++ new) ∧
      length new = remaining ∧ Forall goodPair new ∧
      (∀ key, key ≠ difficulty → ownProp generated' key = ownProp generated key) ∧
      quiet out out'.
Proof.
  intros Hown. induction remaining as [|remaining IH];
    intros i generated entries out s Hentries.
  { exists 0, generated, [], out, s. rewrite app_nil_r.
    split; [done|]. split; [done|]. split; [done|]. split; [done|].
    split; [done|apply quiet_refl]. }
  destruct (Core_generateRound_spec i difficulty config generated entries out s
              Hown Hentries) as (N1 & e & out1 & s1 & Hrun1 & He & Hq1).
  destruct (IH (i + 1) (setProp generated difficulty (entries ++ [e]))
              (entries ++ [e]) out1 s1)
    as (N2 & generated' & new & out' & s' & Hrun2 & Hown' & Hlen & Hall & Hother & Hq2).
  { apply ownProp_setProp_eq. }
  exists (Nat.max N1 N2), generated', (e :: new), out', s'.
  split; [|split; [|split; [|split; [|split]]]].
  - intros loopFuel Hle. cbn [Core.generateRounds].
    rewrite Hrun1 by lia. apply Hrun2. lia.
  - by rewrite <- app_assoc in Hown'.
  - cbn [length]. by rewrite Hlen.
  - by constructor.
  - intros key Hne. rewrite Hother by done. by apply ownProp_setProp_ne.
  - by apply (quiet_trans _ out1).
Qed.

Lemma Core_generateTags_spec count :
  ∀ keys generated out s,
    NoDup keys →
    (∀ key, key ∈ keys → is_Some (ownProp Core.difficultyConfig key)) →
    ∃ N generated' out' s',
      (∀ loopFuel, N ≤ loopFuel →
         Core.generateTags loopFuel searchFuel count keys logger generated out s
         = Some (generated', out', s')) ∧
      (∀ key, key ∈ keys →
         ∃ entries, ownProp generated' key = Some entries ∧
                    length entries = count ∧ Forall goodPair entries) ∧
      (∀ key, key ∉ keys → ownProp generated' key = ownProp generated key) ∧
      quiet out out'.
Proof.
  induction keys as [|difficulty keys IH]; intros generated out s Hnd Hkeys.
  { exists 0, generated, out, s. split; [done|].
    split; [by intros key ?%elem_of_nil|]. split; [done|apply quiet_refl]. }
  apply NoDup_cons in Hnd as [Hnin Hnd].
  destruct (Hkeys difficulty) as [config Hown]; [left|].
  destruct (Core_generateRounds_spec difficulty config Hown count 0
              (setProp generated difficulty []) []
              (Core.info ("生成 " +:+ difficulty +:+ " 难度的谜题...") logger out) s)
    as (N1 & generated1 & new & out1 & s1 & Hrun1 & Hown1 & Hlen & Hall & Hother1 & Hq1).
  { apply ownProp_setProp_eq. }
  destruct (IH generated1 out1 s1 Hnd) as (N2 & generated' & out' & s' & Hrun2 & Hin & Hother2 & Hq2).
  { intros key Hkey. apply Hkeys. by right. }
  exists (Nat.max N1 N2), generated', out', s'. split; [|split; [|split]].
  - intros loopFuel Hle. cbn [Core.generateTags].
    rewrite Hrun1 by lia. apply Hrun2. lia.
  - intros key [->|Hkey]%elem_of_cons; [|by apply Hin].
    exists new. rewrite Hother2 by done. done.
  - intros key Hkey. apply not_elem_of_cons in Hkey as [Hne Hkey].
    rewrite Hother2, Hother1 by done. by apply ownProp_setProp_ne.
  - apply (quiet_trans _ out1); [|done].
    apply (quiet_trans _ (Core.info ("生成 " +:+ difficulty +:+ " 难度的谜题...")
                            logger out)); [apply quiet_info|done].
Qed.

End Pregeneration.

Lemma Core_config_tags : map fst Core.difficultyConfig = difficultyTags.
Proof. reflexivity. Qed.

Lemma NoDup_difficultyTags : NoDup difficultyTags.
Proof. apply (bool_decide_unpack _). by vm_compute. Qed.

Lemma Core_config_own key :
  key ∈ difficultyTags → is_Some (ownProp Core.difficultyConfig key).
Proof.
  unfold difficultyTags. intros H.
  repeat (apply elem_of_cons in H as [->|H]; [by eexists|]).
  by apply elem_of_nil in H.
Qed.

(** ** The plain solver returns the first completion *)

Lemma find_split {A} (f : A → bool) l x :
  List.find f l = Some x →
  ∃ l1 l2, l = l1 ++ x :: l2 ∧ ∀ y, y ∈ l1 → f y = false.
Proof.
  induction l as [|a l IH]; [done|]. cbn [List.find].
  destruct (f a) eqn:Ha.
  - intros [= ->]. exists [], l. split; [done|]. by intros y ?%elem_of_nil.
  - intros H. destruct (IH H) as (l1 & l2 & -> & Hl1).
    exists (a :: l1), l2. split; [done|].
    intros y [->|Hy]%elem_of_cons; [done|by apply Hl1].
Qed.

Lemma completions_agree (g s1 s2 : Grid) r c :
  shape9 g → r < 9 → c < 9 → cell g r c ≠ Some 0%Z →
  completion g s1 → completion g s2 → cell s1 r c = cell s2 r c.
Proof.
  intros Hs Hr Hc Hne (_ & _ & _ & H1) (_ & _ & _ & H2).
  destruct (cell_is_Some g r c Hs Hr Hc) as [v Hv].
  assert (v ≠ 0%Z) by congruence.
  by rewrite (H1 r c v), (H2 r c v).
Qed.

Lemma digits_sorted : StronglySorted Z.lt digits.
Proof. unfold digits. repeat constructor; lia. Qed.

Lemma Core_tryDigits_least (rec : Grid → option (bool * Grid)) (g : Grid)
    r c before after :
  shape9 g → cell g r c = Some 0%Z →
  allCells = before ++ (r, c) :: after →
  (∀ r' c', (r', c') ∈ before → cell g r' c' ≠ Some 0%Z) →
  (∀ d, (1 ≤ d ≤ 9)%Z → safe g r c d →
     ∃ b g1, rec (setCell g r c d) = Some (b, g1) ∧
             solved (setCell g r c d) b g1 ∧
             (b = true → ∀ s, completion (setCell g r c d) s →
                              s = g1 ∨ precedes g1 s)) →
  ∀ nums, (∀ d, d ∈ nums → (1 ≤ d ≤ 9)%Z) → StronglySorted Z.lt nums →
    ∀ g', Core.tryDigits rec r c nums g = Some (true, g') →
    ∀ s d, completion g s → cell s r c = Some d → d ∈ nums →
           s = g' ∨ precedes g' s.
Proof.
  intros Hs Hc Hsplit Hbefore Hrec.
  destruct (cell_Some_lt _ _ _ _ Hs Hc) as [Hr Hcl].
  induction nums as [|d0 rest IH]; intros Hrange Hsorted g' H s d Hcomp Hd Hin.
  { by apply elem_of_nil in Hin. }
  assert (Hd0 : (1 ≤ d0 ≤ 9)%Z) by (apply Hrange; left).
  apply StronglySorted_inv in Hsorted as [Hsorted Hlt].
  assert (IH' : ∀ g', Core.tryDigits rec r c rest g = Some (true, g') →
                      d ∈ rest → s = g' ∨ precedes g' s).
  { intros g2 H2 Hin2. apply (IH ltac:(intros x Hx; apply Hrange; by right)
                                Hsorted g2 H2 s d Hcomp Hd Hin2). }
  cbn [Core.tryDigits] in H.
  destruct (Core.isValidPlacement g r c d0) eqn:Hv.
  - apply Core_isValidPlacement_true in Hv; [|done..].
    destruct (Hrec d0 Hd0 Hv) as (b & g1 & Hrun & Hsol & Hleast).
    rewrite Hrun in H. destruct b.
    + inversion H; subst g1. cbn [solved] in Hsol.
      apply elem_of_cons in Hin as [->|Hin].
      * apply (Hleast eq_refl).
        by apply (completion_place g s r c d0) in Hcomp as [Hcomp _].
      * right. exists before, r, c, after, d0, d.
        apply (completion_unplace g g' r c d0) in Hsol as [Hg' Hcell];
          [|done|done|lia].
        split; [done|]. split; [|split; [done|split; [done|]]].
        -- intros r' c' Hin'.
           assert ((r', c') ∈ allCells) as [Hr' Hc']%elem_of_allCells.
           { rewrite Hsplit. apply elem_of_app. by left. }
           apply (completions_agree g); try done. by apply Hbefore.
        -- rewrite Forall_forall in Hlt. by apply Hlt.
    + destruct Hsol as [-> Hno]. rewrite setCell_undo in H by done.
      apply elem_of_cons in Hin as [->|Hin]; [|by apply IH'].
      exfalso. apply Hno. exists s.
      by apply (completion_place g s r c d0) in Hcomp as [Hcomp _].
  - apply elem_of_cons in Hin as [->|Hin]; [|by apply IH'].
    exfalso. apply (unsafe_no_completion g r c d0 Hs Hc) with (s := s); [|done..].
    intros Hsafe. apply Core_isValidPlacement_true in Hsafe; [congruence|done..].
Qed.

Lemma Core_solveGrid_least fuel :
  ∀ g, empties g < fuel → shape9 g → entries g → valid g →
    ∃ b g', Core.solveGrid fuel g = Some (b, g') ∧ solved g b g' ∧
            (b = true → ∀ s, completion g s → s = g' ∨ precedes g' s).
Proof.
  induction fuel as [|fuel IH]; intros g Hf Hs Hent Hval; [lia|].
  destruct (Core_solveGrid_spec (S fuel) g Hf Hs Hent Hval) as (b & g' & Hrun & Hsol).
  exists b, g'. split; [done|]. split; [done|]. intros -> s Hcomp.
  cbn [Core.solveGrid solved] in Hrun, Hsol.
  destruct (Core.firstEmpty g) as [[r c]|] eqn:Hsel.
  - pose proof (Core_firstEmpty_Some g r c Hsel) as Hc.
    destruct (cell_Some_lt _ _ _ _ Hs Hc) as [Hr Hcl].
    unfold Core.firstEmpty in Hsel.
    apply find_split in Hsel as (before & after & Hsplit & Hbefore).
    destruct Hcomp as (Hss & Hsfull & Hsval & Hext).
    destruct (Hsfull r c Hr Hcl) as (d & Hd & Hd19).
    apply (Core_tryDigits_least (Core.solveGrid fuel) g r c before after Hs Hc Hsplit)
      with (nums := digits) (d := d); try done.
    + intros r' c' Hin. apply cellIs_false. exact (Hbefore (r', c') Hin).
    + intros d0 Hd0 Hsafe. apply IH.
      * rewrite (empties_setCell g r c d0) in Hf; [lia|done|done|lia].
      * by apply shape9_setCell.
      * apply entries_setCell; [done|lia].
      * by apply valid_setCell.
    + by intros d0 ?%elem_of_digits.
    + apply digits_sorted.
    + by apply elem_of_digits.
  - apply Core_firstEmpty_None in Hsel; [|done..]. inversion Hrun; subst g'.
    left. by apply completion_full_unique.
Qed.

Lemma twoRowsOpen_canonical : completion twoRowsOpen canonical.
Proof.
  split; [apply canonical_shape|]. split; [apply canonical_full|].
  split; [apply canonical_valid|]. intros r c v Hv Hv0.
  destruct (cell_Some_lt _ _ _ _ twoRowsOpen_shape Hv) as [Hr Hc].
  do 9 (destruct r as [|r];
        [do 9 (destruct c as [|c]; [cbn in Hv |- *; congruence|]); lia|]).
  lia.
Qed.

(** * Generated grids *)

(** C5. With fuel for the 81 cells, [generateFullSudoku] returns in each
    of the three modules and for every random source, and the grid it
    returns is completely filled and valid: each of its nine rows, each of
    its nine columns and each of its nine 3x3 boxes is a permutation of
    the digits 1..9, so it holds no repeat and no zero. *)
Theorem generateFullSudoku_complete_valid (fuel : nat) (s : Rng) :
  82 ≤ fuel →
  (∃ g s', Core.generateFullSudoku fuel s = Some (g, s') ∧ completeValid g) ∧
  (∃ g s', Solver.generateFullSudoku fuel s = Some (g, s') ∧ completeValid g) ∧
  (∃ g s', Gen.generateFullSudoku fuel s = Some (g, s') ∧ completeValid g).
Proof.
  intros Hfuel. split; [|split].
  - destruct (Core_generateFullSudoku_full fuel s Hfuel)
      as (g & s' & H & Hs & Hf & Hv).
    exists g, s'. split; [done|]. by apply full_valid_completeValid.
  - destruct (Solver_generateFullSudoku_full fuel s Hfuel)
      as (g & s' & H & Hs & Hf & Hv).
    exists g, s'. split; [done|]. by apply full_valid_completeValid.
  - destruct (Gen_generateFullSudoku_full fuel s Hfuel)
      as (g & s' & H & Hs & Hf & Hv).
    exists g, s'. split; [done|]. by apply full_valid_completeValid.
Qed.

Lemma generateFullSudoku_complete_valid_witness :
  (∃ g s', Core.generateFullSudoku 82 zeroRng = Some (g, s') ∧ completeValid g) ∧
  (∃ g s', Solver.generateFullSudoku 82 zeroRng = Some (g, s') ∧ completeValid g) ∧
  (∃ g s', Gen.generateFullSudoku 82 zeroRng = Some (g, s') ∧ completeValid g).
Proof. apply (generateFullSudoku_complete_valid 82 zeroRng). lia. Defined.

(** * The properties *)

(** ** Shuffling *)

(** X1. [shuffleArray] only reorders: the shuffled array is a permutation
    of the array it was given.  It draws one random number per position
    from the last down to the second, so [length - 1] numbers in all, and
    none for an empty or one-element array. *)
Theorem shuffleArray_permutes {A} (array : list A) (s : Rng) :
  (shuffle array s).1 ≡ₚ array ∧
  (shuffle array s).2 = Nat.iter (length array - 1) advance s.
Proof.
  split; [apply shuffle_Permutation|]. unfold shuffle. apply shuffleFrom_draws.
Qed.

(** ** Full grids *)

(** X2. With fuel for the 81 cells, [generateFullSudoku] of sudoku-core.js
    returns, for every random source, a grid in which each row, each
    column and each 3x3 box is a permutation of 1..9: the three shuffled
    diagonal boxes can always be completed, and the plain solver finds a
    completion. *)
Theorem Core_generateFullSudoku_complete (fuel : nat) (s : Rng) :
  82 ≤ fuel →
  ∃ g s', Core.generateFullSudoku fuel s = Some (g, s') ∧ completeValid g.
Proof.
  intros Hfuel.
  destruct (Core_generateFullSudoku_full fuel s Hfuel) as (g & s' & H & Hs & Hf & Hv).
  exists g, s'. split; [done|]. by apply full_valid_completeValid.
Qed.

Lemma Core_generateFullSudoku_complete_witness :
  ∃ g s', Core.generateFullSudoku 82 zeroRng = Some (g, s') ∧ completeValid g.
Proof. apply (Core_generateFullSudoku_complete 82 zeroRng). lia. Defined.

(** X3. With fuel for the 81 cells, [generateFullSudoku] of
    sudoku-solver.js, the randomized solver run on the empty grid, returns
    for every random source a grid in which each row, each column and each
    3x3 box is a permutation of 1..9. *)
Theorem Solver_generateFullSudoku_complete (fuel : nat) (s : Rng) :
  82 ≤ fuel →
  ∃ g s', Solver.generateFullSudoku fuel s = Some (g, s') ∧ completeValid g.
Proof.
  intros Hfuel.
  destruct (Solver_generateFullSudoku_full fuel s Hfuel) as (g & s' & H & Hs & Hf & Hv).
  exists g, s'. split; [done|]. by apply full_valid_completeValid.
Qed.

Lemma Solver_generateFullSudoku_complete_witness :
  ∃ g s', Solver.generateFullSudoku 82 zeroRng = Some (g, s') ∧ completeValid g.
Proof. apply (Solver_generateFullSudoku_complete 82 zeroRng). lia. Defined.

(** X4. With fuel for the 81 cells, [generateFullSudoku] of the generator
    script returns, for every random source, a grid in which each row,
    each column and each 3x3 box is a permutation of 1..9. *)
Theorem Gen_generateFullSudoku_complete (fuel : nat) (s : Rng) :
  82 ≤ fuel →
  ∃ g s', Gen.generateFullSudoku fuel s = Some (g, s') ∧ completeValid g.
Proof.
  intros Hfuel.
  destruct (Gen_generateFullSudoku_full fuel s Hfuel) as (g & s' & H & Hs & Hf & Hv).
  exists g, s'. split; [done|]. by apply full_valid_completeValid.
Qed.

Lemma Gen_generateFullSudoku_complete_witness :
  ∃ g s', Gen.generateFullSudoku 82 zeroRng = Some (g, s') ∧ completeValid g.
Proof. apply (Gen_generateFullSudoku_complete 82 zeroRng). lia. Defined.

(** ** The solvers *)

(** X5. On a structurally valid 9x9 grid, with fuel for the 81 cells, each
    of the four solvers decides solvability: it returns true with a
    complete valid filling of the given grid in place, or false with the
    grid as given, and false only when the grid has no completion at all. *)
Theorem solvers_decide_solvability (g : Grid) (fuel : nat) (randomize : bool)
    (s : Rng) :
  shape9 g → entries g → valid g → 82 ≤ fuel →
  (∃ b g', Core.solveGrid fuel g = Some (b, g') ∧ solved g b g') ∧
  (∃ b g', Core.solveGridWithMRV fuel g = Some (b, g') ∧ solved g b g') ∧
  (∃ b g' s', Solver.solveGrid fuel g randomize s = Some (b, g', s') ∧
              solved g b g') ∧
  (∃ b g' s', Gen.solveGrid fuel g s = Some (b, g', s') ∧ solved g b g').
Proof.
  intros Hs Hent Hval Hfuel. pose proof (empties_le g) as Hle.
  split; [|split; [|split]].
  - apply Core_solveGrid_spec; (done || lia).
  - apply Core_solveGridWithMRV_spec; (done || lia).
  - apply Solver_solveGrid_spec; (done || lia).
  - apply Gen_solveGrid_spec; (done || lia).
Qed.

Lemma solvers_decide_solvability_witness :
  (∃ b g', Core.solveGrid 82 deadEnd = Some (b, g') ∧ solved deadEnd b g') ∧
  (∃ b g', Core.solveGridWithMRV 82 deadEnd = Some (b, g') ∧ solved deadEnd b g') ∧
  (∃ b g' s', Solver.solveGrid 82 deadEnd true zeroRng = Some (b, g', s') ∧
              solved deadEnd b g') ∧
  (∃ b g' s', Gen.solveGrid 82 deadEnd zeroRng = Some (b, g', s') ∧
              solved deadEnd b g').
Proof.
  apply (solvers_decide_solvability deadEnd 82 true zeroRng).
  - apply deadEnd_shape.
  - by apply entriesb_true.
  - apply validb_true; [apply deadEnd_shape|]. by vm_compute.
  - lia.
Defined.

(** X6. A 9x9 grid without empty cell is accepted as it is: each of the
    four solvers returns true at once, leaves the grid alone and draws no
    random number.  The digits already in the grid are never checked, so
    this holds for a full grid that breaks the rules as well. *)
Theorem solvers_accept_full_grids (g : Grid) (fuel : nat) (randomize : bool)
    (s : Rng) :
  shape9 g → empties g = 0 →
  Core.solveGrid (S fuel) g = Some (true, g) ∧
  Core.solveGridWithMRV (S fuel) g = Some (true, g) ∧
  Solver.solveGrid (S fuel) g randomize s = Some (true, g, s) ∧
  Gen.solveGrid (S fuel) g s = Some (true, g, s).
Proof.
  intros _ He. pose proof (λ q, empties_zero_cells g q He) as Hall.
  split; [|split; [|split]].
  - cbn [Core.solveGrid]. unfold Core.firstEmpty. by rewrite find_all_false.
  - cbn [Core.solveGridWithMRV]. unfold Core.mrvCell, Core.emptyCells.
    rewrite omap_all_None; [done|]. intros q Hq. by rewrite Hall.
  - cbn [Solver.solveGrid]. unfold Solver.mrvCell, Solver.emptyCells.
    rewrite omap_all_None; [done|]. intros q Hq. by rewrite Hall.
  - cbn [Gen.solveGrid]. by rewrite Gen_scanBest_all_filled.
Qed.

Lemma solvers_accept_full_grids_witness :
  ¬ valid allFives ∧
  Core.solveGrid 1 allFives = Some (true, allFives) ∧
  Core.solveGridWithMRV 1 allFives = Some (true, allFives) ∧
  Solver.solveGrid 1 allFives true zeroRng = Some (true, allFives, zeroRng) ∧
  Gen.solveGrid 1 allFives zeroRng = Some (true, allFives, zeroRng).
Proof.
  split.
  - intros H. destruct (H 0 0 0 1 5%Z); [reflexivity|reflexivity|lia|by left|].
    discriminate.
  - apply (solvers_accept_full_grids allFives 0 true zeroRng).
    + by apply shape9b_true.
    + reflexivity.
Defined.

(** X7. Without randomization the solver of sudoku-solver.js never calls
    the random source: the source comes back as it was given, and the
    verdict and the grid are the same for every source. *)
Theorem Solver_solveGrid_plain_is_deterministic (fuel : nat) (g g' : Grid)
    (b : bool) (s s' : Rng) :
  Solver.solveGrid fuel g false s = Some (b, g', s') →
  s' = s ∧ ∀ t, Solver.solveGrid fuel g false t = Some (b, g', t).
Proof. apply Solver_solveGrid_plain. Qed.

Lemma Solver_solveGrid_plain_is_deterministic_witness :
  Solver.solveGrid 19 twoRowsOpen false zeroRng = None ∧
  ∃ g' s', Solver.solveGrid 82 twoRowsOpen false zeroRng = Some (true, g', s') ∧
           s' = zeroRng ∧
           ∀ t, Solver.solveGrid 82 twoRowsOpen false t = Some (true, g', t).
Proof.
  split; [by vm_compute|].
  eexists. eexists. split; [vm_compute; reflexivity|].
  apply (Solver_solveGrid_plain_is_deterministic 82 twoRowsOpen _ true zeroRng _).
  vm_compute. reflexivity.
Defined.

(** X8. [isPuzzleComplete] of sudoku-solver.js is true exactly when no
    cell of the 9x9 grid is 0; on a grid with entries in 0..9 that is when
    every cell holds a digit of 1..9.  It does not look at the rules. *)
Theorem Solver_isPuzzleComplete_iff_full (g : Grid) :
  shape9 g → entries g → (Solver.isPuzzleComplete g = true ↔ full g).
Proof.
  intros Hs Hent. unfold Solver.isPuzzleComplete. rewrite negb_true_iff. split.
  - intros H. apply no_empty_cell_full; [done|done|]. intros r c Hr Hc.
    rewrite anyBelow_false in H. specialize (H r Hr).
    rewrite anyBelow_false in H. by apply cellIs_false, H.
  - intros Hfull. apply anyBelow_false. intros r Hr.
    apply anyBelow_false. intros c Hc. apply cellIs_false.
    destruct (Hfull r c Hr Hc) as (v & -> & Hv). intros [= ->]. lia.
Qed.

Lemma Solver_isPuzzleComplete_iff_full_witness :
  ¬ valid allFives ∧ (Solver.isPuzzleComplete allFives = true ↔ full allFives).
Proof.
  split.
  - intros H. destruct (H 0 0 0 1 5%Z); [reflexivity|reflexivity|lia|by left|].
    discriminate.
  - apply (Solver_isPuzzleComplete_iff_full allFives).
    + by apply shape9b_true.
    + by apply entriesb_true.
Defined.

(** ** The cell selections *)

(** X9. When [solveGridWithMRV] of sudoku-core.js branches, the cell it
    takes from the sorted list is an empty cell with the fewest
    candidates, and the first such cell in row-major order: the sort is
    stable. *)
Theorem Core_solveGridWithMRV_selects_first_minimum (g : Grid) (r c : nat) :
  Core.mrvCell g = Some (r, c) → firstMin g (Core.countPossible g) r c.
Proof. apply Core_mrvCell_firstMin. Qed.

Lemma Core_solveGridWithMRV_selects_first_minimum_witness :
  firstMin twoRowsOpen (Core.countPossible twoRowsOpen) 0 0.
Proof.
  apply (Core_solveGridWithMRV_selects_first_minimum twoRowsOpen 0 0).
  reflexivity.
Defined.

(** X10. When the solver or the solution counter of sudoku-solver.js
    branches, the cell taken from the sorted list is an empty cell with
    the fewest candidates, the first such cell in row-major order, and the
    candidate list that comes with it is the one of that cell. *)
Theorem Solver_selects_first_minimum (g : Grid) (r c : nat) (poss : list Z) :
  Solver.mrvCell g = Some (r, c, poss) →
  firstMin g (λ r c, length (Solver.possibilitiesOf g r c)) r c ∧
  poss = Solver.possibilitiesOf g r c.
Proof.
  intros H. split; [by apply (Solver_mrvCell_firstMin g r c poss)|].
  by apply Solver_mrvCell_Some in H as [_ ->].
Qed.

Lemma Solver_selects_first_minimum_witness :
  firstMin twoRowsOpen
    (λ r c, length (Solver.possibilitiesOf twoRowsOpen r c)) 0 0 ∧
  [1%Z] = Solver.possibilitiesOf twoRowsOpen 0 0.
Proof.
  apply (Solver_selects_first_minimum twoRowsOpen 0 0 [1%Z]). reflexivity.
Defined.

(** X11. The scan of [solveGrid] of the generator script ends on an empty
    cell with the fewest candidates, the first such cell in row-major
    order: a later cell replaces the best one only when it has strictly
    fewer candidates. *)
Theorem Gen_solveGrid_selects_first_minimum (g : Grid) (r c : nat) (poss : list Z) :
  Gen.scanBest g allCells 10 None = Some (r, c, poss) →
  firstMin g (λ r c, length (Gen.possibilitiesOf g r c)) r c.
Proof. apply Gen_scanBest_firstMin. Qed.

Lemma Gen_solveGrid_selects_first_minimum_witness :
  firstMin twoRowsOpen (λ r c, length (Gen.possibilitiesOf twoRowsOpen r c)) 0 0.
Proof.
  apply (Gen_solveGrid_selects_first_minimum twoRowsOpen 0 0 [1%Z]). reflexivity.
Defined.

(** X12. When the scan of [countSolutionsFast] of the generator script
    ends on a cell, the cell is an empty cell with the fewest candidates,
    the first such cell in row-major order. *)
Theorem Gen_countSolutionsFast_selects_first_minimum (g : Grid) (r c : nat)
    (poss : list Z) :
  Gen.scanPrune g allCells 10 None = Some (Some (r, c, poss)) →
  firstMin g (λ r c, length (Gen.possibilitiesOf g r c)) r c.
Proof. apply Gen_scanPrune_firstMin. Qed.

Lemma Gen_countSolutionsFast_selects_first_minimum_witness :
  firstMin twoRowsOpen (λ r c, length (Gen.possibilitiesOf twoRowsOpen r c)) 0 0.
Proof.
  apply (Gen_countSolutionsFast_selects_first_minimum twoRowsOpen 0 0 [1%Z]).
  reflexivity.
Defined.

(** ** Counting *)

(** X13. On a structurally valid 9x9 grid, with fuel for the 81 cells,
    [countSolutionsFast] of sudoku-solver.js returns, for every cap
    [maxSolutions], the minimum of the cap and the number of distinct
    complete valid fillings; the caller's grid is unchanged.  With cap 0
    it returns 0 without searching. *)
Theorem Solver_countSolutionsFast_any_cap (g : Grid) (sols : list Grid)
    (fuel maxSolutions : nat) :
  shape9 g → entries g → valid g → 82 ≤ fuel →
  NoDup sols → (∀ x, x ∈ sols ↔ completion g x) →
  Solver.countSolutionsFast fuel g maxSolutions
  = Some (g, Nat.min (length sols) maxSolutions).
Proof.
  intros Hs Hent Hval Hfuel Hnd Hsols.
  assert (Hn : numCompletions g (length sols)) by by exists sols.
  pose proof (empties_le g) as Hle.
  unfold Solver.countSolutionsFast, copyGrid.
  by rewrite (Solver_backtrack_spec fuel maxSolutions g 0 (length sols))
    by (done || lia).
Qed.

Lemma Solver_countSolutionsFast_any_cap_witness :
  Solver.countSolutionsFast 82 twoRowsOpen 5 = Some (twoRowsOpen, 5) ∧
  Solver.countSolutionsFast 82 twoRowsOpen 100 = Some (twoRowsOpen, 8).
Proof.
  split.
  - apply (Solver_countSolutionsFast_any_cap twoRowsOpen twoRowsOpenCompletions 82 5).
    + apply twoRowsOpen_ready.
    + apply twoRowsOpen_ready.
    + apply twoRowsOpen_ready.
    + lia.
    + apply twoRowsOpen_completions.
    + apply twoRowsOpen_completions.
  - apply (Solver_countSolutionsFast_any_cap twoRowsOpen twoRowsOpenCompletions 82 100).
    + apply twoRowsOpen_ready.
    + apply twoRowsOpen_ready.
    + apply twoRowsOpen_ready.
    + lia.
    + apply twoRowsOpen_completions.
    + apply twoRowsOpen_completions.
Defined.

(** X14. On a structurally valid 9x9 grid, with fuel for the 81 cells,
    [hasUniqueSolution] of sudoku-core.js returns true exactly when the
    grid has one complete valid filling and no other; it returns false
    both for a grid without completion and for a grid with several. *)
Theorem Core_hasUniqueSolution_iff_unique (g : Grid) (fuel : nat) :
  shape9 g → entries g → valid g → 82 ≤ fuel →
  ∃ b, Core.hasUniqueSolution fuel g = Some (g, b) ∧
       (b = true ↔ ∃ f, uniquePuzzle g f).
Proof.
  intros Hs Hent Hval Hfuel. pose proof (empties_le g) as Hle.
  destruct (numCompletions_exists g Hs Hent Hval) as [n Hn].
  exists (n =? 1). split.
  - apply Core_hasUniqueSolution_spec; (done || lia).
  - rewrite Nat.eqb_eq. by apply numCompletions_one_iff.
Qed.

Lemma Core_hasUniqueSolution_iff_unique_witness :
  ∃ b, Core.hasUniqueSolution 82 twoRowsOpen = Some (twoRowsOpen, b) ∧
       (b = true ↔ ∃ f, uniquePuzzle twoRowsOpen f).
Proof.
  apply (Core_hasUniqueSolution_iff_unique twoRowsOpen 82).
  - apply twoRowsOpen_shape.
  - by apply entriesb_true.
  - apply validb_true; [apply twoRowsOpen_shape|]. by vm_compute.
  - lia.
Defined.

(** ** How many cells the carvers remove *)

(** X15. For a completely filled valid grid and one of the five
    difficulties, [removeNumbers] of sudoku-core.js (its loop given enough
    fuel) returns a puzzle that keeps at least [cluesToKeep] filled cells,
    the number it drew between [minClues] and [maxClues]; so the puzzle
    never has fewer than [minClues] clues. *)
Theorem Core_removeNumbers_keeps_clues (fullGrid : Grid) (searchFuel : nat)
    (difficulty : string) (config : Core.Clues) (s : Rng) :
  shape9 fullGrid → full fullGrid → valid fullGrid → 82 ≤ searchFuel →
  ownProp Core.difficultyConfig difficulty = Some config →
  ∃ N, ∀ loopFuel, N ≤ loopFuel →
    ∃ p s' cluesToKeep,
      Core.removeNumbers loopFuel searchFuel fullGrid difficulty s
        = Some (Returned (p, s')) ∧
      cluesToKeep
        = s 0 mod (Core.maxClues config - Core.minClues config + 1)
          + Core.minClues config ∧
      Core.minClues config ≤ cluesToKeep ∧ cluesToKeep ≤ Core.maxClues config ∧
      cluesToKeep ≤ clues p.
Proof.
  intros Hs Hfull Hval Hfuel Hown.
  destruct (Core_removeNumbers_clues fullGrid searchFuel difficulty config s
              Hs Hfull Hval Hfuel Hown) as [N HN].
  exists N. intros loopFuel Hlf. destruct (HN loopFuel Hlf) as (p & s' & Hrun & _ & Hc).
  exists p, s'. eexists. split; [exact Hrun|]. split; [reflexivity|].
  destruct (Core_config_range _ _ Hown) as [Hlo Hhi].
  pose proof (Nat.mod_upper_bound (s 0)
                (Core.maxClues config - Core.minClues config + 1)).
  lia.
Qed.

Lemma Core_removeNumbers_keeps_clues_witness :
  ∃ N, ∀ loopFuel, N ≤ loopFuel →
    ∃ p s' cluesToKeep,
      Core.removeNumbers loopFuel 82 canonical "hard" zeroRng
        = Some (Returned (p, s')) ∧
      cluesToKeep = 0 mod (30 - 26 + 1) + 26 ∧
      26 ≤ cluesToKeep ∧ cluesToKeep ≤ 30 ∧ cluesToKeep ≤ clues p.
Proof.
  apply (Core_removeNumbers_keeps_clues canonical 82 "hard"
           {| Core.minClues := 26; Core.maxClues := 30 |} zeroRng).
  - apply canonical_shape.
  - apply canonical_full.
  - apply canonical_valid.
  - lia.
  - reflexivity.
Defined.

(** X16. For a completely filled valid grid and a difficulty argument
    that is not a property name inherited from [Object.prototype],
    [removeNumbers] of sudoku-solver.js removes at most [removeCount]
    cells of the level in force (the level of the tag, medium for an
    unknown tag).  For each of the five levels that leaves at least
    [minCount] clues, so the loop that writes digits back never runs. *)
Theorem Solver_removeNumbers_keeps_clues (fullGrid : Grid) (fuel : nat)
    (difficulty : string) (level : Solver.Level) (s : Rng) :
  shape9 fullGrid → full fullGrid → valid fullGrid → 82 ≤ fuel →
  difficulty ∉ objectPrototypeNames →
  level = default Solver.medium (ownProp Solver.difficultyLevels difficulty) →
  ∃ p s', Solver.removeNumbers fuel fullGrid difficulty s = Some (Returned (p, s')) ∧
          81 - Solver.removeCount level ≤ clues p ∧
          Solver.minCount level ≤ clues p.
Proof.
  intros Hs Hfull Hval Hfuel Hname ->.
  destruct (Solver_removeNumbers_clues fullGrid fuel difficulty s
              Hs Hfull Hval Hfuel Hname) as (p & s' & Hrun & _ & H1 & H2).
  by exists p, s'.
Qed.

Lemma Solver_removeNumbers_keeps_clues_witness :
  ∃ p s', Solver.removeNumbers 82 canonical "master" zeroRng
            = Some (Returned (p, s')) ∧
          81 - 60 ≤ clues p ∧ 17 ≤ clues p.
Proof.
  apply (Solver_removeNumbers_keeps_clues canonical 82 "master"
           {| Solver.removeCount := 60; Solver.minCount := 17 |} zeroRng).
  - apply canonical_shape.
  - apply canonical_full.
  - apply canonical_valid.
  - lia.
  - by apply (bool_decide_unpack _).
  - reflexivity.
Defined.

(** X17. For a completely filled valid grid, [removeNumbers] of the
    generator script empties at most [count] cells, whatever the random
    source; it may empty fewer. *)
Theorem Gen_removeNumbers_at_most_count (grid : Grid) (fuel count : nat) (s : Rng) :
  shape9 grid → full grid → valid grid → 82 ≤ fuel →
  ∃ p s', Gen.removeNumbers fuel grid (Some count) s = Some (p, s') ∧
          empties p ≤ count.
Proof.
  intros Hs Hfull Hval Hfuel.
  destruct (Gen_removeNumbers_bound grid fuel count s Hs Hfull Hval Hfuel)
    as (p & s' & Hrun & _ & _ & Hb).
  by exists p, s'.
Qed.

Lemma Gen_removeNumbers_at_most_count_witness :
  ∃ p s', Gen.removeNumbers 82 canonical (Some 30) zeroRng = Some (p, s') ∧
          empties p ≤ 30.
Proof.
  apply (Gen_removeNumbers_at_most_count canonical 82 30 zeroRng).
  - apply canonical_shape.
  - apply canonical_full.
  - apply canonical_valid.
  - lia.
Defined.

(** ** Whole puzzles *)

(** X18. For one of the five difficulties and fuel for the 81 cells,
    [generateSudokuPuzzle] of the generator script has two outcomes only.
    Either it returns a puzzle with its solution: the solution is a
    complete valid grid, it is the only completion of the puzzle, and the
    number of empty cells of the puzzle lies between 80% of
    [targetRemoved] and [targetRemoved].  Or it throws its
    generation-failure error, after 50 attempts. *)
Theorem Gen_generateSudokuPuzzle_outcomes (fuel : nat) (difficulty : string)
    (target : Gen.Target) (s : Rng) :
  82 ≤ fuel →
  ownProp Gen.difficultyConfig difficulty = Some target →
  (∃ puzzle solution s',
      Gen.generateSudokuPuzzle fuel difficulty s
        = Some (Returned (puzzle, solution, s')) ∧
      completeValid solution ∧ uniquePuzzle puzzle solution ∧
      Gen.targetRemoved target * 4 ≤ empties puzzle * 5 ∧
      empties puzzle ≤ Gen.targetRemoved target) ∨
  Gen.generateSudokuPuzzle fuel difficulty s = Some (Threw GenerationFailed).
Proof.
  intros Hfuel Hown. unfold Gen.generateSudokuPuzzle.
  rewrite (getProp_Own _ _ _ Hown). cbn [field].
  destruct (Gen_generateLoop_spec fuel (Gen.targetRemoved target) Hfuel 50 s)
    as [(p & g & s' & Hrun & Hs & Hfull & Hval & Hu & Hlo & Hhi)|Hfail];
    [left|by right].
  exists p, g, s'. split; [done|]. split; [by apply full_valid_completeValid|done].
Qed.

Lemma Gen_generateSudokuPuzzle_outcomes_witness :
  (∃ puzzle solution s',
      Gen.generateSudokuPuzzle 82 "easy" zeroRng
        = Some (Returned (puzzle, solution, s')) ∧
      completeValid solution ∧ uniquePuzzle puzzle solution ∧
      30 * 4 ≤ empties puzzle * 5 ∧ empties puzzle ≤ 30) ∨
  Gen.generateSudokuPuzzle 82 "easy" zeroRng = Some (Threw GenerationFailed).
Proof.
  apply (Gen_generateSudokuPuzzle_outcomes 82 "easy"
           {| Gen.targetRemoved := 30; Gen.maxAttempts := 1000%N;
              Gen.timeout := 10000%N |} zeroRng).
  - lia.
  - reflexivity.
Defined.



(** X20. With a difficulty argument that is a property name inherited
    from [Object.prototype], [removeNumbers] of sudoku-core.js throws
    nothing: both clue bounds are undefined, the loop does not run, and the
    result is the full grid it was given, with no cell removed. *)
Theorem Core_removeNumbers_inherited_name (fullGrid : Grid)
    (loopFuel searchFuel : nat) (name : string) (s : Rng) :
  name ∈ objectPrototypeNames →
  ∃ s', Core.removeNumbers (S loopFuel) searchFuel fullGrid name s
        = Some (Returned (fullGrid, s')).
Proof.
  intros Hname. unfold Core.removeNumbers, copyGrid.
  rewrite (getProp_Inherited _ _ Core_config_keys Hname). cbn [field].
  destruct (shuffle allCells (advance s)) as [cells s1].
  cbn [Core.carveLoop ltOpt andb]. by exists s1.
Qed.

Lemma Core_removeNumbers_inherited_name_witness :
  ∃ s', Core.removeNumbers 1 82 canonical "constructor" zeroRng
        = Some (Returned (canonical, s')).
Proof.
  apply (Core_removeNumbers_inherited_name canonical 0 82 "constructor" zeroRng).
  by apply (bool_decide_unpack _).
Defined.

(** X21. With fuel for the 81 cells, [generatePuzzle] of sudoku-solver.js
    returns for every difficulty argument and every random source a puzzle
    with its solution: the solution is a complete valid grid and it is the
    only completion of the puzzle. *)
Theorem Solver_generatePuzzle_unique_solution (fuel : nat) (difficulty : string)
    (s : Rng) :
  82 ≤ fuel →
  ∃ puzzle solution s',
    Solver.generatePuzzle fuel difficulty s
      = Some (Returned (puzzle, solution, s')) ∧
    completeValid solution ∧ uniquePuzzle puzzle solution.
Proof.
  intros Hfuel.
  destruct (Solver_generatePuzzle_spec fuel difficulty s Hfuel)
    as (p & g & s' & Hrun & Hs & Hfull & Hval & Hu).
  exists p, g, s'. split; [done|]. split; [by apply full_valid_completeValid|done].
Qed.

Lemma Solver_generatePuzzle_unique_solution_witness :
  ∃ puzzle solution s',
    Solver.generatePuzzle 82 "expert" zeroRng
      = Some (Returned (puzzle, solution, s')) ∧
    completeValid solution ∧ uniquePuzzle puzzle solution.
Proof. apply (Solver_generatePuzzle_unique_solution 82 "expert" zeroRng). lia. Defined.

(** X22. For one of the five difficulties, with fuel for the 81 cells and
    enough fuel for the carving loop, [generateSudokuPuzzle] of
    sudoku-core.js returns a puzzle with its solution: the solution is a
    complete valid grid, it is the only completion of the puzzle, and the
    puzzle has at least [minClues] clues. *)
Theorem Core_generateSudokuPuzzle_unique_solution (searchFuel : nat)
    (difficulty : string) (config : Core.Clues) (s : Rng) :
  82 ≤ searchFuel →
  ownProp Core.difficultyConfig difficulty = Some config →
  ∃ N, ∀ loopFuel, N ≤ loopFuel →
    ∃ puzzle solution s',
      Core.generateSudokuPuzzle loopFuel searchFuel difficulty s
        = Some (Returned (puzzle, solution, s')) ∧
      completeValid solution ∧ uniquePuzzle puzzle solution ∧
      Core.minClues config ≤ clues puzzle.
Proof. apply Core_generateSudokuPuzzle_spec. Qed.

Lemma Core_generateSudokuPuzzle_unique_solution_witness :
  ∃ N, ∀ loopFuel, N ≤ loopFuel →
    ∃ puzzle solution s',
      Core.generateSudokuPuzzle loopFuel 82 "medium" zeroRng
        = Some (Returned (puzzle, solution, s')) ∧
      completeValid solution ∧ uniquePuzzle puzzle solution ∧
      31 ≤ clues puzzle.
Proof.
  apply (Core_generateSudokuPuzzle_unique_solution 82 "medium"
           {| Core.minClues := 31; Core.maxClues := 35 |} zeroRng).
  - lia.
  - reflexivity.
Defined.

(** X23. With fuel for the 81 cells, [pregeneratePuzzles] of
    sudoku-solver.js returns an object whose keys are the five difficulty
    tags in the order of the table, each holding exactly
    [countPerDifficulty] entries; in each entry the solution is a complete
    valid grid and the only completion of the puzzle. *)
Theorem Solver_pregeneratePuzzles_complete (fuel countPerDifficulty : nat)
    (s : Rng) :
  82 ≤ fuel →
  ∃ allPuzzles s',
    Solver.pregeneratePuzzles fuel countPerDifficulty s
      = Some (Returned (allPuzzles, s')) ∧
    map fst allPuzzles = difficultyTags ∧
    Forall (λ e : string * list (Grid * Grid),
              length e.2 = countPerDifficulty ∧ Forall goodPair e.2) allPuzzles.
Proof.
  intros Hfuel. unfold Solver.pregeneratePuzzles.
  destruct (Solver_generateLevels_spec fuel countPerDifficulty Hfuel
              (map fst Solver.difficultyLevels) [] s)
    as (new & s' & Hrun & Hkeys & Hall).
  exists new, s'. done.
Qed.

Lemma Solver_pregeneratePuzzles_complete_witness :
  ∃ allPuzzles s',
    Solver.pregeneratePuzzles 82 10 zeroRng = Some (Returned (allPuzzles, s')) ∧
    map fst allPuzzles = difficultyTags ∧
    Forall (λ e : string * list (Grid * Grid),
              length e.2 = 10 ∧ Forall goodPair e.2) allPuzzles.
Proof. apply (Solver_pregeneratePuzzles_complete 82 10 zeroRng). lia. Defined.

(** ** The logger *)

Lemma Logger_level_range name n : ownProp Core.levels name = Some n → n ≤ 3.
Proof.
  intros H%ownProp_elem. unfold Core.levels in H.
  repeat (apply elem_of_cons in H as [H|H]; [inversion H; subst; lia|]).
  by apply elem_of_nil in H.
Qed.

Lemma app_neq_self {A} (l k : list A) : k ≠ [] → l ++ k ≠ l.
Proof.
  intros Hk H. apply (f_equal length) in H. rewrite length_app in H.
  destruct k; [done|]. cbn [length] in H. lia.
Qed.

Lemma Logger_passes_setLevel name n (this : Core.Logger) k :
  ownProp Core.levels name = Some n →
  Core.passes (Core.setLevel name this) k = Core.enabled this && (n <=? k).
Proof.
  intros H. unfold Core.setLevel. by rewrite (getProp_Own _ _ _ H).
Qed.

(** X24. After [Logger.setLevel] with one of the four level names, a
    logging method writes to the console exactly when the logger is enabled
    and the level of the method is not below the level set: [debug] only
    at level debug, [info] up to level info, [warn] up to level warn, and
    [error] whenever the logger is enabled. *)
Theorem Logger_setLevel_threshold (name : string) (n : nat) (this : Core.Logger)
    (message : string) (caught : option JsError) (out : Core.Console) :
  ownProp Core.levels name = Some n →
  (Core.debug message (Core.setLevel name this) out ≠ out
     ↔ Core.enabled this = true ∧ n = 0) ∧
  (Core.info message (Core.setLevel name this) out ≠ out
     ↔ Core.enabled this = true ∧ n ≤ 1) ∧
  (Core.warn message (Core.setLevel name this) out ≠ out
     ↔ Core.enabled this = true ∧ n ≤ 2) ∧
  (Core.error message caught (Core.setLevel name this) out ≠ out
     ↔ Core.enabled this = true).
Proof.
  intros H. pose proof (Logger_level_range name n H) as Hn.
  unfold Core.debug, Core.info, Core.warn, Core.error.
  rewrite !(Logger_passes_setLevel name n this _ H).
  destruct (Core.enabled this); cbn [andb].
  - split; [|split; [|split]].
    + destruct (n <=? 0) eqn:E.
      * apply Nat.leb_le in E. split; [intros _; split; [done|lia]|].
        intros _. by apply app_neq_self.
      * apply Nat.leb_gt in E. split; [done|]. intros [_ ->]. lia.
    + destruct (n <=? 1) eqn:E.
      * apply Nat.leb_le in E. split; [done|]. intros _. by apply app_neq_self.
      * apply Nat.leb_gt in E. split; [done|]. intros [_ ?]. lia.
    + destruct (n <=? 2) eqn:E.
      * apply Nat.leb_le in E. split; [done|]. intros _. by apply app_neq_self.
      * apply Nat.leb_gt in E. split; [done|]. intros [_ ?]. lia.
    + destruct (n <=? 3) eqn:E; [|apply Nat.leb_gt in E; lia].
      split; [done|]. intros _. destruct caught.
      * rewrite <- app_assoc. by apply app_neq_self.
      * by apply app_neq_self.
  - split; [|split; [|split]]; split; try done; by intros [? ?].
Qed.

Lemma Logger_setLevel_threshold_witness :
  (Core.debug "m" (Core.setLevel "warn" Core.initialLogger) [] ≠ []
     ↔ true = true ∧ 2 = 0) ∧
  (Core.info "m" (Core.setLevel "warn" Core.initialLogger) [] ≠ []
     ↔ true = true ∧ 2 ≤ 1) ∧
  (Core.warn "m" (Core.setLevel "warn" Core.initialLogger) [] ≠ []
     ↔ true = true ∧ 2 ≤ 2) ∧
  (Core.error "m" None (Core.setLevel "warn" Core.initialLogger) [] ≠ []
     ↔ true = true).
Proof.
  apply (Logger_setLevel_threshold "warn" 2 Core.initialLogger "m" None []).
  reflexivity.
Defined.

(** X25. [Logger.setLevel] with a name that is not one of the four levels:
    a name unknown to the object leaves the logger as it is; a property
    name inherited from [Object.prototype], such as "toString", is
    accepted, stores a value that is not a number as current level, and
    from then on no method writes anything, [error] included. *)
Theorem Logger_setLevel_other_names (name : string) (this : Core.Logger)
    (message : string) (caught : option JsError) (out : Core.Console) :
  name ∉ map fst Core.levels →
  (name ∉ objectPrototypeNames → Core.setLevel name this = this) ∧
  (name ∈ objectPrototypeNames →
     Core.debug message (Core.setLevel name this) out = out ∧
     Core.info message (Core.setLevel name this) out = out ∧
     Core.warn message (Core.setLevel name this) out = out ∧
     Core.error message caught (Core.setLevel name this) out = out).
Proof.
  intros Hname.
  assert (Hown : ownProp Core.levels name = None).
  { apply ownProp_None. intros k a Hin ->. apply Hname.
    apply list_elem_of_fmap. by exists (name, a). }
  unfold Core.setLevel, getProp. rewrite Hown. split; intros Hproto.
  - by rewrite bool_decide_eq_false_2.
  - rewrite bool_decide_eq_true_2 by done.
    unfold Core.debug, Core.info, Core.warn, Core.error, Core.passes.
    cbn [Core.currentLevel]. by rewrite andb_false_r.
Qed.

Lemma Logger_setLevel_other_names_witness :
  Core.setLevel "verbose" Core.initialLogger = Core.initialLogger ∧
  Core.debug "m" (Core.setLevel "toString" Core.initialLogger) [] = [] ∧
  Core.info "m" (Core.setLevel "toString" Core.initialLogger) [] = [] ∧
  Core.warn "m" (Core.setLevel "toString" Core.initialLogger) [] = [] ∧
  Core.error "m" (Some TypeError) (Core.setLevel "toString" Core.initialLogger) []
  = [].
Proof.
  split.
  - apply (Logger_setLevel_other_names "verbose" Core.initialLogger "m" None []).
    + by apply (bool_decide_unpack _).
    + by apply (bool_decide_unpack _).
  - apply (Logger_setLevel_other_names "toString" Core.initialLogger "m"
             (Some TypeError) []).
    + by apply (bool_decide_unpack _).
    + by apply (bool_decide_unpack _).
Defined.

(** ** More on the carver and the solvers *)

(** X26. For a completely filled valid grid, [removeNumbers] of
    sudoku-solver.js stops in one of two ways.  Either it has removed
    exactly [removeCount] cells of the level in force, and the puzzle has
    81 - [removeCount] clues; or it has tried every cell, and then no
    further clue can be removed from the puzzle without losing the unique
    solution.  A difficulty that is a property name inherited from
    [Object.prototype] has no count, so it always ends the second way. *)
Theorem Solver_removeNumbers_count_or_irreducible (fullGrid : Grid) (fuel : nat)
    (difficulty : string) (s : Rng) :
  shape9 fullGrid → full fullGrid → valid fullGrid → 82 ≤ fuel →
  ∃ p s', Solver.removeNumbers fuel fullGrid difficulty s = Some (Returned (p, s')) ∧
    (((difficulty ∉ objectPrototypeNames) ∧
      clues p = 81 - Solver.removeCount
                       (default Solver.medium
                          (ownProp Solver.difficultyLevels difficulty))) ∨
     (∀ r c, r < 9 → c < 9 → cell p r c ≠ Some 0%Z →
             ¬ uniquePuzzle (setCell p r c 0) fullGrid)).
Proof.
  intros Hs Hfull Hval Hfuel.
  destruct (Solver_removeNumbers_exhaust fullGrid fuel difficulty s
              Hs Hfull Hval Hfuel) as (p & s' & Hrun & Hsp & Hend).
  exists p, s'. split; [done|].
  destruct Hend as [[Hname Hcount]|Hall]; [left|by right].
  split; [done|]. pose proof (clues_empties p Hsp). lia.
Qed.

Lemma Solver_removeNumbers_count_or_irreducible_witness :
  ∃ p s', Solver.removeNumbers 82 canonical "toString" zeroRng
            = Some (Returned (p, s')) ∧
    ((("toString"%string ∉ objectPrototypeNames) ∧
      clues p = 81 - Solver.removeCount
                       (default Solver.medium
                          (ownProp Solver.difficultyLevels "toString"))) ∨
     (∀ r c, r < 9 → c < 9 → cell p r c ≠ Some 0%Z →
             ¬ uniquePuzzle (setCell p r c 0) canonical)).
Proof.
  apply (Solver_removeNumbers_count_or_irreducible canonical 82 "toString" zeroRng).
  - apply canonical_shape.
  - apply canonical_full.
  - apply canonical_valid.
  - lia.
Defined.

(** X27. The grid returned by [generateFullSudoku] of sudoku-core.js and
    of the generator script still holds the three shuffles it was seeded
    with: read in row-major order, its three diagonal boxes are the first,
    the second and the third shuffle of 1..9 drawn from the random
    source.  The generator of sudoku-core.js draws nothing else. *)
Theorem generateFullSudoku_keeps_diagonal_boxes (fuel : nat) (s : Rng) :
  82 ≤ fuel →
  let first := shuffle digits s in
  let second := shuffle digits first.2 in
  let third := shuffle digits second.2 in
  (∃ g, Core.generateFullSudoku fuel s = Some (g, third.2) ∧
        readCells g (boxCells 0) = map Some first.1 ∧
        readCells g (boxCells 4) = map Some second.1 ∧
        readCells g (boxCells 8) = map Some third.1) ∧
  (∃ g s', Gen.generateFullSudoku fuel s = Some (g, s') ∧
           readCells g (boxCells 0) = map Some first.1 ∧
           readCells g (boxCells 4) = map Some second.1 ∧
           readCells g (boxCells 8) = map Some third.1).
Proof.
  intros Hfuel. unfold Core.generateFullSudoku, Gen.generateFullSudoku.
  pose proof (shuffle_Permutation digits s) as P0.
  destruct (shuffle digits s) as [n0 s0]. cbn [fst snd] in P0 |- *.
  pose proof (shuffle_Permutation digits s0) as P1.
  destruct (shuffle digits s0) as [n1 s1]. cbn [fst snd] in P1 |- *.
  pose proof (shuffle_Permutation digits s1) as P2.
  destruct (shuffle digits s1) as [n2 s2]. cbn [fst snd] in P2 |- *.
  rewrite Core_seed, Gen_seed by (by rewrite ?P0, ?P1, ?P2).
  destruct (seed_ready n0 n1 n2 P0 P1 P2) as (Hs & He & Hv & Hsol).
  pose proof (empties_le (seedGrid n0 n1 n2)) as Hle.
  split.
  - destruct (Core_solveGrid_spec fuel (seedGrid n0 n1 n2)) as (b & g & -> & Hres);
      [lia|done..|].
    exists g. split; [done|]. apply seeded_boxes; [done..|].
    by apply (solved_solvable_completion _ b).
  - destruct (Gen_solveGrid_spec fuel (seedGrid n0 n1 n2) s2)
      as (b & g & s' & -> & Hres); [lia|done..|].
    exists g, s'. split; [done|]. apply seeded_boxes; [done..|].
    by apply (solved_solvable_completion _ b).
Qed.

Lemma generateFullSudoku_keeps_diagonal_boxes_witness :
  let first := shuffle digits zeroRng in
  let second := shuffle digits first.2 in
  let third := shuffle digits second.2 in
  (∃ g, Core.generateFullSudoku 82 zeroRng = Some (g, third.2) ∧
        readCells g (boxCells 0) = map Some first.1 ∧
        readCells g (boxCells 4) = map Some second.1 ∧
        readCells g (boxCells 8) = map Some third.1) ∧
  (∃ g s', Gen.generateFullSudoku 82 zeroRng = Some (g, s') ∧
           readCells g (boxCells 0) = map Some first.1 ∧
           readCells g (boxCells 4) = map Some second.1 ∧
           readCells g (boxCells 8) = map Some third.1).
Proof. apply (generateFullSudoku_keeps_diagonal_boxes 82 zeroRng). lia. Defined.

(** X28. Without randomization the solver of sudoku-solver.js and
    [solveGridWithMRV] of sudoku-core.js are the same function: on every
    grid and with the same fuel they return the same verdict and the same
    grid, and the random source is not touched. *)
Theorem plain_MRV_solvers_agree (fuel : nat) (g : Grid) (s : Rng) :
  Solver.solveGrid fuel g false s = withSource s (Core.solveGridWithMRV fuel g).
Proof. apply Solver_solveGrid_Core. Qed.

(** ** Pregeneration *)

(** X29. With fuel for the 81 cells and enough fuel for the carving loops,
    [preGeneratePuzzles] of sudoku-core.js returns for every count, every
    state of the logger and every random source.  Whatever
    [generatedPuzzles] held before, each of the five difficulties then
    holds exactly [count] entries, in each of which the solution is a
    complete valid grid and the only completion of the puzzle; other keys
    of the object are untouched.  No round ends in the [catch] branch:
    nothing is written with [console.error]. *)
Theorem Core_preGeneratePuzzles_fills (searchFuel count : nat)
    (logger : Core.Logger) (generated : list (string * list (Grid * Grid)))
    (out : Core.Console) (s : Rng) :
  82 ≤ searchFuel →
  ∃ N, ∀ loopFuel, N ≤ loopFuel →
    ∃ generated' out' s',
      Core.preGeneratePuzzles loopFuel searchFuel count logger generated out s
        = Some (generated', out', s') ∧
      (∀ tag, tag ∈ difficultyTags →
         ∃ entries, ownProp generated' tag = Some entries ∧
                    length entries = count ∧ Forall goodPair entries) ∧
      (∀ key, key ∉ difficultyTags → ownProp generated' key = ownProp generated key) ∧
      (∀ line, line ∈ out' → line ∈ out ∨ line.1 ≠ Core.ConsoleError).
Proof.
  intros Hfuel.
  destruct (Core_generateTags_spec searchFuel Hfuel logger count difficultyTags
              generated (Core.info "开始预生成数独谜题..." logger out) s
              NoDup_difficultyTags Core_config_own)
    as (N & generated' & out' & s' & Hrun & Hin & Hother & Hq).
  exists N. intros loopFuel Hle.
  exists generated', (Core.info "数独谜题预生成完成！" logger out'), s'.
  split; [|split; [done|split; [done|]]].
  - unfold Core.preGeneratePuzzles. rewrite Core_config_tags.
    by rewrite (Hrun loopFuel Hle).
  - apply (quiet_trans _ out'); [|apply quiet_info].
    apply (quiet_trans _ (Core.info "开始预生成数独谜题..." logger out));
      [apply quiet_info|done].
Qed.

Lemma Core_preGeneratePuzzles_fills_witness :
  ∃ N, ∀ loopFuel, N ≤ loopFuel →
    ∃ generated' out' s',
      Core.preGeneratePuzzles loopFuel 82 5 Core.initialLogger
        Core.generatedPuzzles [] zeroRng
        = Some (generated', out', s') ∧
      (∀ tag, tag ∈ difficultyTags →
         ∃ entries, ownProp generated' tag = Some entries ∧
                    length entries = 5 ∧ Forall goodPair entries) ∧
      (∀ key, key ∉ difficultyTags →
         ownProp generated' key = ownProp Core.generatedPuzzles key) ∧
      (∀ line, line ∈ out' → line ∈ [] ∨ line.1 ≠ Core.ConsoleError).
Proof.
  apply (Core_preGeneratePuzzles_fills 82 5 Core.initialLogger
           Core.generatedPuzzles [] zeroRng).
  lia.
Defined.

(** ** The first completion *)

(** X30. On a structurally valid 9x9 grid, with fuel for the 81 cells, the
    grid that [solveGrid] of sudoku-core.js leaves when it returns true is
    the first completion of the given grid: any other completion holds a
    larger digit at the first cell, in row-major order, where the two
    differ.  So the result does not depend on anything but the grid. *)
Theorem Core_solveGrid_returns_first_completion (g g' s : Grid) (fuel : nat) :
  shape9 g → entries g → valid g → 82 ≤ fuel →
  Core.solveGrid fuel g = Some (true, g') → completion g s →
  s = g' ∨ precedes g' s.
Proof.
  intros Hs Hent Hval Hfuel Hrun Hcomp. pose proof (empties_le g) as Hle.
  destruct (Core_solveGrid_least fuel g) as (b & g1 & Hrun1 & _ & Hleast);
    [lia|done..|].
  rewrite Hrun in Hrun1. inversion Hrun1; subst b g1. by apply Hleast.
Qed.

Lemma Core_solveGrid_returns_first_completion_witness :
  ∃ g', Core.solveGrid 82 twoRowsOpen = Some (true, g') ∧
        (canonical = g' ∨ precedes g' canonical).
Proof.
  eexists. split; [vm_compute; reflexivity|].
  apply (Core_solveGrid_returns_first_completion twoRowsOpen _ canonical 82).
  - apply twoRowsOpen_shape.
  - by apply entriesb_true.
  - apply validb_true; [apply twoRowsOpen_shape|]. by vm_compute.
  - lia.
  - vm_compute. reflexivity.
  - apply twoRowsOpen_canonical.
Defined.
